(** * GLSLSceneRenderer: a shallow embedding of the scene renderer

    This development embeds the parts of [src/Base/GLSLSceneRenderer.cpp]
    that decide the behaviour of the resource cache, the picking protocol,
    the scene traversal with its deferred transparent pass, the normal
    encoders and the texture loader, and proves properties of them.

    Conventions of the embedding.
    - The members of [GLSLSceneRendererImpl] are grouped in records that keep
      the member names of the class; every method is a function from the
      renderer state to the renderer state (and the returned value).
    - Pointers to scene objects and to GL resources are addresses ([nat]);
      two pointers are identical iff the addresses are equal.
    - [std::unordered_map] is a [gmap]; [std::vector] is a [list] whose last
      element is [back()].
    - C++ [float] and [double] values are IEEE-754 values of the Standard
      Library ([spec_float]); [float] arithmetic is binary32.
    - [unsigned int] values are integers reduced modulo [2^32].
    - Calls into the GL driver are recorded in a log of events where a
      property speaks about what is drawn or loaded; uniforms, materials,
      lights, fog and the cached cull-face / point-size / line-width flags
      never feed back into the control flow studied here and are not
      members of the renderer record (the cache of the point size and the
      line width is followed on its own, in [StateMembers]). *)

From Stdlib Require Import ZArith QArith Qabs List Bool Lia.
From Stdlib Require Import Floats.SpecFloat.
From stdpp Require Import base option list gmap.

Local Open Scope Z_scope.

(** ** Numbers *)

(** [float] is binary32: 24 bits of mantissa, infinities at exponent 128. *)
Definition prec32 : Z := 24.
Definition emax32 : Z := 128.

Abbreviation float := spec_float.

(** The value of an integer converted to [float] (rounded to nearest even). *)
Definition float_of_Z (z : Z) : float := binary_normalize prec32 emax32 z 0 false.

Definition fmul (a b : float) : float := SFmul prec32 emax32 a b.
Definition fadd (a b : float) : float := SFadd prec32 emax32 a b.
Definition fsub (a b : float) : float := SFsub prec32 emax32 a b.
Definition fdiv (a b : float) : float := SFdiv prec32 emax32 a b.

Definition fzero : float := S754_zero false.

(** [a < b] on floats; false when either side is NaN. *)
Definition flt (a b : float) : bool := SFltb a b.

(** The rational value of a finite float; infinities and NaN are given
    the value 0 and are told apart by [is_finite]. *)
Definition Q_of_float (f : float) : Q :=
  match f with
  | S754_finite s m (Zpos e) => inject_Z (cond_Zopp s (Zpos m) * 2 ^ Zpos e)
  | S754_finite s m Z0 => inject_Z (cond_Zopp s (Zpos m))
  | S754_finite s m (Zneg e) => Qmake (cond_Zopp s (Zpos m)) (2 ^ e)
  | _ => 0%Q
  end.

Definition is_finite (f : float) : bool :=
  match f with
  | S754_finite _ _ _ | S754_zero _ => true
  | _ => false
  end.

(** Conversion of a float to an integer type truncates toward zero. *)
Definition trunc_float (f : float) : Z :=
  match f with
  | S754_finite s m e => cond_Zopp s (Z.shiftl (Zpos m) e)
  | _ => 0
  end.

Definition uint32 (z : Z) : Z := z mod 2 ^ 32.

(** ** Geometry *)

Definition Vector3f : Type := float * float * float.
Definition Vector3 : Type := float * float * float.

(** [Affine3]: the 3x3 linear part, by rows, and the translation. *)
Record Affine3 := {
  linear : Vector3 * Vector3 * Vector3;
  translation : Vector3
}.

Definition fone64 : float := S754_finite false 4503599627370496 (-52).

Definition Affine3_Identity : Affine3 :=
  {| linear := ((fone64, fzero, fzero), (fzero, fone64, fzero), (fzero, fzero, fone64));
     translation := (fzero, fzero, fzero) |}.

(** Eigen is not part of the sources: the operations of its vector and
    transform types that the renderer calls are the members of this
    interface. *)
Class Eigen := {
  Affine3_mul : Affine3 -> Affine3 -> Affine3;
  Vector3f_sub : Vector3f -> Vector3f -> Vector3f;
  Vector3f_add : Vector3f -> Vector3f -> Vector3f;
  Vector3f_scale : Vector3f -> float -> Vector3f;
  cross : Vector3f -> Vector3f -> Vector3f;
  normalized : Vector3f -> Vector3f
}.

(** ** Scene objects

    An [SgObject] is known to the renderer by its address. The line set
    that [writeMeshNormalsSub] allocates for the normals of a mesh is not
    part of the scene graph; its address is named after the vertex resource
    that owns it, which keeps it distinct from every scene address. *)
Inductive SgObjectPtr :=
| ObjAddr (a : nat)
| NormalVisAddr (r : nat).

#[global] Instance SgObjectPtr_eq_dec : EqDecision SgObjectPtr.
Proof. solve_decision. Defined.

#[global] Instance SgObjectPtr_countable : Countable SgObjectPtr :=
  inj_countable'
    (fun o => match o with ObjAddr a => inl a | NormalVisAddr r => inr r end)
    (fun s => match s with inl a => ObjAddr a | inr r => NormalVisAddr r end)
    (fun o => match o with ObjAddr _ => eq_refl | NormalVisAddr _ => eq_refl end).

Record SgMaterial := { transparency : float }.

Record Image := {
  Image_width : Z;
  Image_height : Z;
  Image_numComponents : Z;
  Image_pixels : list Z
}.

Record SgImage := {
  SgImage_addr : SgObjectPtr;
  constImage : Image
}.

Definition SgImage_empty (i : SgImage) : bool :=
  match Image_pixels (constImage i) with [] => true | _ => false end.

Record SgTexture := { SgTexture_image : option SgImage }.

Record SgMesh := {
  SgMesh_addr : SgObjectPtr;
  SgMesh_vertices : option (list Vector3f);
  triangleVertices : list Z;
  SgMesh_normals : option (list Vector3f);
  normalIndices : list Z;
  SgMesh_hasColors : bool;
  SgMesh_hasTexCoords : bool;
  isSolid : bool
}.

(** Modelled from the spec: [SgMesh::hasVertices], [SgMesh::numTriangles]
    and [SgMesh::triangle] are declared in SceneDrawables.h, which is not
    among the sources. A mesh has vertices when its vertex array exists and
    is not empty; a triangle is three consecutive entries of the face index
    list. *)
Definition SgMesh_hasVertices (m : SgMesh) : bool :=
  match SgMesh_vertices m with
  | Some (_ :: _) => true
  | _ => false
  end.

Definition numTriangles (m : SgMesh) : Z := Z.of_nat (length (triangleVertices m)) / 3.

Record SgPlot := {
  SgPlot_addr : SgObjectPtr;
  SgPlot_vertices : option (list Vector3f);
  SgPlot_hasColors : bool;
  SgPlot_material : option SgMaterial
}.

Definition SgPlot_hasVertices (p : SgPlot) : bool :=
  match SgPlot_vertices p with
  | Some (_ :: _) => true
  | _ => false
  end.

Record SgPointSet := {
  SgPointSet_plot : SgPlot;
  pointSize : float
}.

Record SgLineSet := {
  SgLineSet_plot : SgPlot;
  lineVertices : list Z;
  SgLineSet_lineWidth : float
}.

Definition numLines (l : SgLineSet) : Z := Z.of_nat (length (lineVertices l)) / 2.

Record SgShape := {
  SgShape_addr : SgObjectPtr;
  mesh : option SgMesh;
  material : option SgMaterial;
  texture : option SgTexture
}.

Set Warnings "-register-all".

(** The node kinds for which [initialize] registers a rendering function.
    Every grouping node carries its own address and its children. *)
Inductive SgNode :=
| NGroup (self : SgObjectPtr) (children : list SgNode)
| NTransform (self : SgObjectPtr) (T : Affine3) (children : list SgNode)
| NSwitch (self : SgObjectPtr) (isTurnedOn : bool) (children : list SgNode)
| NUnpickableGroup (self : SgObjectPtr) (children : list SgNode)
| NShape (shape : SgShape)
| NPointSet (pointSet : SgPointSet)
| NLineSet (lineSet : SgLineSet)
| NOverlay (self : SgObjectPtr) (children : list SgNode)
| NOutlineGroup (self : SgObjectPtr) (color : Vector3f) (children : list SgNode)
| NSimplifiedRenderingGroup (self : SgObjectPtr) (children : list SgNode).

Definition SgNodePath : Type := list SgObjectPtr.

(** ** GL resources *)

(** [normalVisualization] points to a line set that the resource owns: the
    record keeps the content of that line set (its vertices and its lines);
    its address is [NormalVisAddr] of the resource's own address. *)
Record VertexResource := {
  numVertices : Z;
  numBuffers : Z;
  sceneObject : SgObjectPtr;
  normalVisualization : option (list Vector3f * list Z)
}.

Record TextureResource := {
  isLoaded : bool;
  isImageUpdateNeeded : bool;
  textureId : Z;
  samplerId : Z;
  width : Z;
  height : Z;
  numComponents : Z
}.

Inductive GLResource :=
| VertexRes (r : VertexResource)
| TextureRes (r : TextureResource).

(** [GLResourceMap]: scene object address to the address of its resource. *)
Abbreviation GLResourceMap := (gmap SgObjectPtr nat).

(** ** Observable events

    What the renderer does to the outside, in the order it does it: the
    calls into the GL driver that the properties below speak about, and
    the calls of [solidColorProgram.setColor] (the shader programs are not
    among the sources). The log holds the draw calls, the calls that hand
    an image to the driver or delete a texture, and the switches of
    blending, depth writing and the scissor test. It does not hold the
    calls that bind or generate names (vertex arrays, buffers, textures,
    samplers), that fill buffers, or that set other state: a stretch of the
    log without events is a stretch without a call of the kinds listed
    here, not a stretch without any call. The [source] of a draw call is
    the scene node on whose behalf [drawVertexResource] is called; it is
    not passed to the driver. [deferred] is not a call: it marks the moment
    at which [renderShape] pushes a closure onto
    [transparentRenderingFunctions]. *)
Inductive GLenum :=
| GL_TRIANGLES | GL_POINTS | GL_LINES
| GL_BLEND | GL_SCISSOR_TEST
| GL_RED | GL_RG | GL_RGB | GL_RGBA.

Inductive DrawSource :=
| ShapeSource (shape : SgShape)
| PlotSource (plot : SgPlot).

Record TransparentRenderingFunction := {
  captured_shape : SgShape;
  captured_position : Affine3;
  captured_pickId : Z
}.

Inductive Event :=
| glEnable (cap : GLenum)
| glDisable (cap : GLenum)
| glDepthMask (flag : bool)
| glDrawArrays (source : DrawSource) (resource : nat) (mode : GLenum)
               (position : Affine3) (count : Z)
| solidColorProgram_setColor (color : Vector3f)
| glTexSubImage2D (w h : Z) (format : GLenum)
| glTexImage2D (w h : Z) (format : GLenum)
| gluScaleImage (w h potWidth potHeight : Z)
| glDeleteTextures (id : Z)
| glDeleteSamplers (id : Z)
| deferred (f : TransparentRenderingFunction).

(** ** The renderer state *)

Inductive ShaderProgram :=
| nolightingProgram
| solidColorProgram
| minimumLightingProgram
| phongShadowLightingProgram
| shadowMapProgram.

#[global] Instance ShaderProgram_eq_dec : EqDecision ShaderProgram.
Proof. solve_decision. Defined.

Record ProgramInfo := {
  program : option ShaderProgram;
  lightingProgram : option ShaderProgram;
  nolightingProgram_ : option ShaderProgram
}.

Record PostRenderingFunction := {
  captured_outline : SgObjectPtr;
  captured_color : Vector3f;
  captured_children : list SgNode;
  captured_T : Affine3
}.

(** Members of [GLSLSceneRendererImpl] that manage the resource maps.
    [currentResourceMap] and [nextResourceMap] point into [resourceMaps];
    a pointer to [resourceMaps[i]] is the index [i]. [heap] holds the
    resource objects made by [new], a resource's address being its position;
    the release of a resource whose last reference is dropped is not
    tracked. [glNames] is the next name the driver hands out. *)
Record ResourceMembers := {
  resourceMaps : GLResourceMap * GLResourceMap;
  currentResourceMap : Z;
  nextResourceMap : Z;
  currentResourceMapIndex : Z;
  doUnusedResourceCheck : bool;
  isCheckingUnusedResources : bool;
  hasValidNextResourceMap : bool;
  isResourceClearRequested : bool;
  heap : list GLResource;
  glNames : Z
}.

Record ProgramMembers := {
  currentProgram : option ShaderProgram;
  currentLightingProgram : option ShaderProgram;
  currentNolightingProgram : option ShaderProgram;
  programStack : list ProgramInfo;
  isMinimumLightingProgramActivatedInThisFrame : bool
}.

Record PickingMembers := {
  currentNodePath : SgNodePath;
  pickingNodePathList : list SgNodePath;
  pickedNodePath : SgNodePath;
  pickedPoint : Vector3
}.

Inductive LightingMode :=
| NO_LIGHTING | SOLID_COLOR_LIGHTING | MINIMUM_LIGHTING | FULL_LIGHTING.

Record Settings := {
  lightingMode : LightingMode;
  shadowLightIndices : list Z;
  defaultSmoothShading : bool;
  isNormalVisualizationEnabled : bool;
  normalVisualizationLength : float
}.

Record GLSLSceneRendererImpl := {
  resources : ResourceMembers;
  programs : ProgramMembers;
  picking : PickingMembers;
  settings : Settings;
  isActuallyRendering : bool;
  isPicking : bool;
  isRenderingShadowMap : bool;
  modelMatrixStack : list Affine3;
  postRenderingFunctions : list PostRenderingFunction;
  transparentRenderingFunctions : list TransparentRenderingFunction;
  trace : list Event
}.

(** Assignments to single members. *)
Definition set_resources (f : ResourceMembers -> ResourceMembers) (s : GLSLSceneRendererImpl) :=
  {| resources := f (resources s); programs := programs s; picking := picking s;
     settings := settings s; isActuallyRendering := isActuallyRendering s;
     isPicking := isPicking s; isRenderingShadowMap := isRenderingShadowMap s;
     modelMatrixStack := modelMatrixStack s;
     postRenderingFunctions := postRenderingFunctions s;
     transparentRenderingFunctions := transparentRenderingFunctions s; trace := trace s |}.

Definition set_programs (f : ProgramMembers -> ProgramMembers) (s : GLSLSceneRendererImpl) :=
  {| resources := resources s; programs := f (programs s); picking := picking s;
     settings := settings s; isActuallyRendering := isActuallyRendering s;
     isPicking := isPicking s; isRenderingShadowMap := isRenderingShadowMap s;
     modelMatrixStack := modelMatrixStack s;
     postRenderingFunctions := postRenderingFunctions s;
     transparentRenderingFunctions := transparentRenderingFunctions s; trace := trace s |}.

Definition set_picking (f : PickingMembers -> PickingMembers) (s : GLSLSceneRendererImpl) :=
  {| resources := resources s; programs := programs s; picking := f (picking s);
     settings := settings s; isActuallyRendering := isActuallyRendering s;
     isPicking := isPicking s; isRenderingShadowMap := isRenderingShadowMap s;
     modelMatrixStack := modelMatrixStack s;
     postRenderingFunctions := postRenderingFunctions s;
     transparentRenderingFunctions := transparentRenderingFunctions s; trace := trace s |}.

Definition set_settings (f : Settings -> Settings) (s : GLSLSceneRendererImpl) :=
  {| resources := resources s; programs := programs s; picking := picking s;
     settings := f (settings s); isActuallyRendering := isActuallyRendering s;
     isPicking := isPicking s; isRenderingShadowMap := isRenderingShadowMap s;
     modelMatrixStack := modelMatrixStack s;
     postRenderingFunctions := postRenderingFunctions s;
     transparentRenderingFunctions := transparentRenderingFunctions s; trace := trace s |}.

Definition set_isActuallyRendering (b : bool) (s : GLSLSceneRendererImpl) :=
  {| resources := resources s; programs := programs s; picking := picking s;
     settings := settings s; isActuallyRendering := b;
     isPicking := isPicking s; isRenderingShadowMap := isRenderingShadowMap s;
     modelMatrixStack := modelMatrixStack s;
     postRenderingFunctions := postRenderingFunctions s;
     transparentRenderingFunctions := transparentRenderingFunctions s; trace := trace s |}.

Definition set_isPicking (b : bool) (s : GLSLSceneRendererImpl) :=
  {| resources := resources s; programs := programs s; picking := picking s;
     settings := settings s; isActuallyRendering := isActuallyRendering s;
     isPicking := b; isRenderingShadowMap := isRenderingShadowMap s;
     modelMatrixStack := modelMatrixStack s;
     postRenderingFunctions := postRenderingFunctions s;
     transparentRenderingFunctions := transparentRenderingFunctions s; trace := trace s |}.

Definition set_isRenderingShadowMap (b : bool) (s : GLSLSceneRendererImpl) :=
  {| resources := resources s; programs := programs s; picking := picking s;
     settings := settings s; isActuallyRendering := isActuallyRendering s;
     isPicking := isPicking s; isRenderingShadowMap := b;
     modelMatrixStack := modelMatrixStack s;
     postRenderingFunctions := postRenderingFunctions s;
     transparentRenderingFunctions := transparentRenderingFunctions s; trace := trace s |}.

Definition set_modelMatrixStack (f : list Affine3 -> list Affine3) (s : GLSLSceneRendererImpl) :=
  {| resources := resources s; programs := programs s; picking := picking s;
     settings := settings s; isActuallyRendering := isActuallyRendering s;
     isPicking := isPicking s; isRenderingShadowMap := isRenderingShadowMap s;
     modelMatrixStack := f (modelMatrixStack s);
     postRenderingFunctions := postRenderingFunctions s;
     transparentRenderingFunctions := transparentRenderingFunctions s; trace := trace s |}.

Definition set_postRenderingFunctions
  (f : list PostRenderingFunction -> list PostRenderingFunction) (s : GLSLSceneRendererImpl) :=
  {| resources := resources s; programs := programs s; picking := picking s;
     settings := settings s; isActuallyRendering := isActuallyRendering s;
     isPicking := isPicking s; isRenderingShadowMap := isRenderingShadowMap s;
     modelMatrixStack := modelMatrixStack s;
     postRenderingFunctions := f (postRenderingFunctions s);
     transparentRenderingFunctions := transparentRenderingFunctions s; trace := trace s |}.

Definition set_transparentRenderingFunctions
  (f : list TransparentRenderingFunction -> list TransparentRenderingFunction)
  (s : GLSLSceneRendererImpl) :=
  {| resources := resources s; programs := programs s; picking := picking s;
     settings := settings s; isActuallyRendering := isActuallyRendering s;
     isPicking := isPicking s; isRenderingShadowMap := isRenderingShadowMap s;
     modelMatrixStack := modelMatrixStack s;
     postRenderingFunctions := postRenderingFunctions s;
     transparentRenderingFunctions := f (transparentRenderingFunctions s); trace := trace s |}.

(** An event is appended to the trace. *)
Definition emit (c : Event) (s : GLSLSceneRendererImpl) :=
  {| resources := resources s; programs := programs s; picking := picking s;
     settings := settings s; isActuallyRendering := isActuallyRendering s;
     isPicking := isPicking s; isRenderingShadowMap := isRenderingShadowMap s;
     modelMatrixStack := modelMatrixStack s;
     postRenderingFunctions := postRenderingFunctions s;
     transparentRenderingFunctions := transparentRenderingFunctions s;
     trace := trace s ++ [c] |}.

Definition set_resourceMaps (m : GLResourceMap * GLResourceMap) (r : ResourceMembers) :=
  {| resourceMaps := m; currentResourceMap := currentResourceMap r;
     nextResourceMap := nextResourceMap r;
     currentResourceMapIndex := currentResourceMapIndex r;
     doUnusedResourceCheck := doUnusedResourceCheck r;
     isCheckingUnusedResources := isCheckingUnusedResources r;
     hasValidNextResourceMap := hasValidNextResourceMap r;
     isResourceClearRequested := isResourceClearRequested r;
     heap := heap r; glNames := glNames r |}.

Definition set_mapPointers (index current next : Z) (r : ResourceMembers) :=
  {| resourceMaps := resourceMaps r; currentResourceMap := current;
     nextResourceMap := next;
     currentResourceMapIndex := index;
     doUnusedResourceCheck := doUnusedResourceCheck r;
     isCheckingUnusedResources := isCheckingUnusedResources r;
     hasValidNextResourceMap := hasValidNextResourceMap r;
     isResourceClearRequested := isResourceClearRequested r;
     heap := heap r; glNames := glNames r |}.

Definition set_doUnusedResourceCheck (b : bool) (r : ResourceMembers) :=
  {| resourceMaps := resourceMaps r; currentResourceMap := currentResourceMap r;
     nextResourceMap := nextResourceMap r;
     currentResourceMapIndex := currentResourceMapIndex r;
     doUnusedResourceCheck := b;
     isCheckingUnusedResources := isCheckingUnusedResources r;
     hasValidNextResourceMap := hasValidNextResourceMap r;
     isResourceClearRequested := isResourceClearRequested r;
     heap := heap r; glNames := glNames r |}.

Definition set_isCheckingUnusedResources (b : bool) (r : ResourceMembers) :=
  {| resourceMaps := resourceMaps r; currentResourceMap := currentResourceMap r;
     nextResourceMap := nextResourceMap r;
     currentResourceMapIndex := currentResourceMapIndex r;
     doUnusedResourceCheck := doUnusedResourceCheck r;
     isCheckingUnusedResources := b;
     hasValidNextResourceMap := hasValidNextResourceMap r;
     isResourceClearRequested := isResourceClearRequested r;
     heap := heap r; glNames := glNames r |}.

Definition set_hasValidNextResourceMap (b : bool) (r : ResourceMembers) :=
  {| resourceMaps := resourceMaps r; currentResourceMap := currentResourceMap r;
     nextResourceMap := nextResourceMap r;
     currentResourceMapIndex := currentResourceMapIndex r;
     doUnusedResourceCheck := doUnusedResourceCheck r;
     isCheckingUnusedResources := isCheckingUnusedResources r;
     hasValidNextResourceMap := b;
     isResourceClearRequested := isResourceClearRequested r;
     heap := heap r; glNames := glNames r |}.

Definition set_isResourceClearRequested (b : bool) (r : ResourceMembers) :=
  {| resourceMaps := resourceMaps r; currentResourceMap := currentResourceMap r;
     nextResourceMap := nextResourceMap r;
     currentResourceMapIndex := currentResourceMapIndex r;
     doUnusedResourceCheck := doUnusedResourceCheck r;
     isCheckingUnusedResources := isCheckingUnusedResources r;
     hasValidNextResourceMap := hasValidNextResourceMap r;
     isResourceClearRequested := b;
     heap := heap r; glNames := glNames r |}.

Definition set_heap (h : list GLResource) (r : ResourceMembers) :=
  {| resourceMaps := resourceMaps r; currentResourceMap := currentResourceMap r;
     nextResourceMap := nextResourceMap r;
     currentResourceMapIndex := currentResourceMapIndex r;
     doUnusedResourceCheck := doUnusedResourceCheck r;
     isCheckingUnusedResources := isCheckingUnusedResources r;
     hasValidNextResourceMap := hasValidNextResourceMap r;
     isResourceClearRequested := isResourceClearRequested r;
     heap := h; glNames := glNames r |}.

Definition set_glNames (n : Z) (r : ResourceMembers) :=
  {| resourceMaps := resourceMaps r; currentResourceMap := currentResourceMap r;
     nextResourceMap := nextResourceMap r;
     currentResourceMapIndex := currentResourceMapIndex r;
     doUnusedResourceCheck := doUnusedResourceCheck r;
     isCheckingUnusedResources := isCheckingUnusedResources r;
     hasValidNextResourceMap := hasValidNextResourceMap r;
     isResourceClearRequested := isResourceClearRequested r;
     heap := heap r; glNames := n |}.

(** ** The resource cache *)

(** [resourceMaps[i]] for the two valid indices. *)
Definition mapAt (i : Z) (maps : GLResourceMap * GLResourceMap) : GLResourceMap :=
  if i =? 0 then fst maps else snd maps.

Definition updateMapAt (i : Z) (f : GLResourceMap -> GLResourceMap)
  (maps : GLResourceMap * GLResourceMap) : GLResourceMap * GLResourceMap :=
  if i =? 0 then (f (fst maps), snd maps) else (fst maps, f (snd maps)).

(** [std::unordered_map::insert]: an existing element with the same key
    is kept and the new one is dropped. *)
Definition unordered_map_insert (k : SgObjectPtr) (v : nat) (m : GLResourceMap) : GLResourceMap :=
  match m !! k with
  | Some _ => m
  | None => <[k := v]> m
  end.

(** The resource members as [initialize] leaves them. *)
Definition initial_resources : ResourceMembers :=
  {| resourceMaps := (∅, ∅);
     currentResourceMap := 0;
     nextResourceMap := 1;
     currentResourceMapIndex := 0;
     doUnusedResourceCheck := true;
     isCheckingUnusedResources := false;
     hasValidNextResourceMap := false;
     isResourceClearRequested := false;
     heap := [];
     glNames := 1 |}.

Definition requestToClearResources (s : GLSLSceneRendererImpl) : GLSLSceneRendererImpl :=
  set_resources (set_isResourceClearRequested true) s.

Definition enableUnusedResourceCheck (on : bool) (s : GLSLSceneRendererImpl) : GLSLSceneRendererImpl :=
  set_resources
    (fun r =>
       let r := if on then r
                else set_resourceMaps (updateMapAt (nextResourceMap r) (fun _ => ∅) (resourceMaps r)) r in
       set_doUnusedResourceCheck on r)
    s.

Definition beginRendering (s : GLSLSceneRendererImpl) : GLSLSceneRendererImpl :=
  set_resources
    (fun r =>
       let r := set_isCheckingUnusedResources
                  (if isPicking s then false else doUnusedResourceCheck r) r in
       let r := if isResourceClearRequested r
                then set_isResourceClearRequested false
                       (set_isCheckingUnusedResources false
                          (set_hasValidNextResourceMap false
                             (set_resourceMaps (∅, ∅) r)))
                else r in
       if hasValidNextResourceMap r
       then let index := 1 - currentResourceMapIndex r in
            set_hasValidNextResourceMap false (set_mapPointers index index (1 - index) r)
       else r)
    s.

Definition endRendering (s : GLSLSceneRendererImpl) : GLSLSceneRendererImpl :=
  set_resources
    (fun r =>
       if isCheckingUnusedResources r
       then set_hasValidNextResourceMap true
              (set_resourceMaps (updateMapAt (currentResourceMap r) (fun _ => ∅) (resourceMaps r)) r)
       else r)
    s.

(** [new VertexResource(this, obj)]: no handles, no vertices. *)
Definition new_VertexResource (obj : SgObjectPtr) : VertexResource :=
  {| numVertices := 0; numBuffers := 0; sceneObject := obj; normalVisualization := None |}.

(** The result is the address of the resource; the boolean tells whether
    this call made the resource (it is not part of the source's result). *)
Definition getOrCreateVertexResource_r (obj : SgObjectPtr) (r : ResourceMembers)
  : nat * bool * ResourceMembers :=
  let found := mapAt (currentResourceMap r) (resourceMaps r) !! obj in
  let '(resource, created, r) :=
    match found with
    | None =>
        let resource := length (heap r) in
        let r := set_heap (heap r ++ [VertexRes (new_VertexResource obj)]) r in
        (resource, true,
         set_resourceMaps (updateMapAt (currentResourceMap r) (insert obj resource) (resourceMaps r)) r)
    | Some resource => (resource, false, r)
    end in
  let r := if isCheckingUnusedResources r
           then set_resourceMaps
                  (updateMapAt (nextResourceMap r) (unordered_map_insert obj resource) (resourceMaps r)) r
           else r in
  (resource, created, r).

Definition getOrCreateVertexResource (obj : SgObjectPtr) (s : GLSLSceneRendererImpl)
  : nat * GLSLSceneRendererImpl :=
  let '(resource, _, r) := getOrCreateVertexResource_r obj (resources s) in
  (resource, set_resources (fun _ => r) s).

(** ** Textures *)

Definition new_TextureResource : TextureResource :=
  {| isLoaded := false; isImageUpdateNeeded := false; textureId := 0; samplerId := 0;
     width := 0; height := 0; numComponents := 0 |}.

Definition TextureResource_clear (t : TextureResource) : TextureResource * list Event :=
  if isLoaded t
  then ({| isLoaded := false; isImageUpdateNeeded := isImageUpdateNeeded t;
           textureId := 0; samplerId := 0;
           width := width t; height := height t; numComponents := numComponents t |},
        (if textureId t =? 0 then [] else [glDeleteTextures (textureId t)])
          ++ (if samplerId t =? 0 then [] else [glDeleteSamplers (samplerId t)]))
  else (t, []).

Definition isSameSizeAs (t : TextureResource) (image : Image) : bool :=
  (width t =? Image_width image) && (height t =? Image_height image)
  && (numComponents t =? Image_numComponents image).

(** [log2(w)] is a whole number exactly when [w] is a power of two, and
    [pow(2.0, ceil(log2(w)))] is the least power of two not below [w], for
    [w >= 1]. For [w = 0] the logarithm is minus infinity: the test
    [pw - w2 == 0.0] compares a NaN and fails, and [pow(2.0, pw)] is 0. For
    a negative [w], and where the power exceeds the range of [GLsizei], the
    conversion of the power is undefined in the source. *)
Definition isPowerOfTwo (w : Z) : bool := (0 <? w) && (w =? 2 ^ Z.log2 w).
Definition potSize (w : Z) : Z := if w =? 0 then 0 else 2 ^ Z.log2_up w.

Definition imageFormat (n : Z) : option GLenum :=
  if n =? 1 then Some GL_RED
  else if n =? 2 then Some GL_RG
  else if n =? 3 then Some GL_RGB
  else if n =? 4 then Some GL_RGBA
  else None.

Definition loadTextureImage (resource : TextureResource) (image : Image)
  : bool * TextureResource * list Event :=
  match imageFormat (Image_numComponents image) with
  | None =>
      let '(resource, calls) := TextureResource_clear resource in
      (false, resource, calls)
  | Some format =>
      let resource :=
        {| isLoaded := isLoaded resource; isImageUpdateNeeded := isImageUpdateNeeded resource;
           textureId := textureId resource; samplerId := samplerId resource;
           width := width resource; height := height resource;
           numComponents := Image_numComponents image |} in
      let width_ := Image_width image in
      let height_ := Image_height image in
      let '(resource, calls) :=
        if isLoaded resource && isSameSizeAs resource image
        then (resource, [glTexSubImage2D width_ height_ format])
        else
          let calls :=
            if isPowerOfTwo width_ && isPowerOfTwo height_
            then [glTexImage2D width_ height_ format]
            else [gluScaleImage width_ height_ (potSize width_) (potSize height_);
                  glTexImage2D (potSize width_) (potSize height_) format] in
          ({| isLoaded := true; isImageUpdateNeeded := isImageUpdateNeeded resource;
              textureId := textureId resource; samplerId := samplerId resource;
              width := width_; height := height_;
              numComponents := numComponents resource |}, calls) in
      (true,
       {| isLoaded := isLoaded resource; isImageUpdateNeeded := false;
          textureId := textureId resource; samplerId := samplerId resource;
          width := width resource; height := height resource;
          numComponents := numComponents resource |},
       calls)
  end.

Definition emits (cs : list Event) (s : GLSLSceneRendererImpl) : GLSLSceneRendererImpl :=
  fold_left (fun s c => emit c s) cs s.

(** The texture resource at an address of the heap. The source reaches it
    by a [static_cast] of the map entry; where the entry is a resource of
    the other kind the cast is undefined, and the functions below leave the
    state as it is. *)
Definition textureAt (a : nat) (h : list GLResource) : option TextureResource :=
  match h !! a with
  | Some (TextureRes t) => Some t
  | _ => None
  end.

Definition vertexAt (a : nat) (h : list GLResource) : option VertexResource :=
  match h !! a with
  | Some (VertexRes v) => Some v
  | _ => None
  end.

(** [renderTexture]: the resource of the image is looked up in the
    current map, made and loaded when it is missing, loaded again when it
    is loaded and marked by [onImageUpdated], and entered into the next map
    while unused resources are checked. Of the driver calls the log holds
    those of [loadTextureImage]; the calls that select the texture unit and
    bind or generate the texture and the sampler ([glActiveTexture],
    [glBindTexture], [glBindSampler], [glGenTextures], [glGenSamplers],
    [glSamplerParameteri]) are not among the events. The names that the
    driver generates are taken from [glNames]. *)
Definition renderTexture (texture_ : SgTexture) (s : GLSLSceneRendererImpl)
  : bool * GLSLSceneRendererImpl :=
  match SgTexture_image texture_ with
  | None => (false, s)
  | Some sgImage =>
      if SgImage_empty sgImage then (false, s)
      else
        let r := resources s in
        let key := SgImage_addr sgImage in
        let '(resource, s) :=
          match mapAt (currentResourceMap r) (resourceMaps r) !! key with
          | Some resource =>
              match textureAt resource (heap r) with
              | Some t =>
                  if isLoaded t && isImageUpdateNeeded t
                  then let '(_, t, calls) := loadTextureImage t (constImage sgImage) in
                       (resource,
                        emits calls
                          (set_resources (set_heap (<[resource := TextureRes t]> (heap r))) s))
                  else (resource, s)
              | None => (resource, s)
              end
          | None =>
              let resource := length (heap r) in
              let t := {| isLoaded := false; isImageUpdateNeeded := false;
                          textureId := glNames r; samplerId := 0;
                          width := 0; height := 0; numComponents := 0 |} in
              let '(ok, t, calls) := loadTextureImage t (constImage sgImage) in
              let t := if ok
                       then {| isLoaded := isLoaded t; isImageUpdateNeeded := isImageUpdateNeeded t;
                               textureId := textureId t; samplerId := glNames r + 1;
                               width := width t; height := height t;
                               numComponents := numComponents t |}
                       else t in
              let r := set_glNames (glNames r + (if ok then 2 else 1))
                         (set_resourceMaps
                            (updateMapAt (currentResourceMap r) (insert key resource) (resourceMaps r))
                            (set_heap (heap r ++ [TextureRes t]) r)) in
              (resource, emits calls (set_resources (fun _ => r) s))
          end in
        let s := if isCheckingUnusedResources (resources s)
                 then set_resources
                        (fun r => set_resourceMaps
                                    (updateMapAt (nextResourceMap r)
                                       (unordered_map_insert key resource) (resourceMaps r)) r) s
                 else s in
        (match textureAt resource (heap (resources s)) with
         | Some t => isLoaded t
         | None => false
         end, s)
  end.

Definition onImageUpdated (image_ : SgImage) (s : GLSLSceneRendererImpl) : GLSLSceneRendererImpl :=
  let r := resources s in
  let resourceMap := if hasValidNextResourceMap r then nextResourceMap r else currentResourceMap r in
  match mapAt resourceMap (resourceMaps r) !! SgImage_addr image_ with
  | Some resource =>
      match textureAt resource (heap r) with
      | Some t =>
          set_resources
            (set_heap (<[resource :=
                           TextureRes {| isLoaded := isLoaded t; isImageUpdateNeeded := true;
                                         textureId := textureId t; samplerId := samplerId t;
                                         width := width t; height := height t;
                                         numComponents := numComponents t |}]> (heap r))) s
      | None => s
      end
  | None => s
  end.

(** ** The mesh encoder *)

(** [for(int i = 0; i < n; ++i) body(i)], threading the state. *)
Fixpoint for_loop_from {A : Type} (count : nat) (i : Z) (body : Z -> A -> A) (a : A) : A :=
  match count with
  | O => a
  | S count' => for_loop_from count' (i + 1) body (body i a)
  end.

Definition for_loop {A : Type} (n : Z) (body : Z -> A -> A) (a : A) : A :=
  for_loop_from (Z.to_nat n) 0 body a.

(** [v[i]] of a [std::vector]. A read outside the array is undefined in
    the source; the model yields the default [d] there. *)
Definition at_ {A : Type} (d : A) (v : list A) (i : Z) : A :=
  if i <? 0 then d else nth (Z.to_nat i) v d.

Definition Vector3f_Zero : Vector3f := (fzero, fzero, fzero).

(** The template parameter [NormalArrayWrapper] of [writeMeshNormalsSub]:
    an array of encoded normals with [append] and [get]. *)
Class NormalArrayWrapper (E : Type) := {
  append : Vector3f -> list E -> list E;
  get : list E -> Z -> Vector3f
}.

(** The wrapper of [writeMeshNormalsFloat]. *)
#[global] Instance FloatNormalArray : NormalArrayWrapper Vector3f := {
  append v array := array ++ [v];
  get array index := at_ Vector3f_Zero array index
}.

(** The wrapper of [writeMeshNormalsPacked]: three 10-bit fields in a
    [uint32_t]. The conversion of a float outside the range of [uint32_t]
    is undefined in the source; the model reduces modulo [2^32]. *)
Definition packField (c : float) (sign : Z) : Z :=
  Z.land (uint32 (trunc_float (fadd (fmul c (float_of_Z 511)) (float_of_Z (Z.shiftl sign 9))))) 511.

Definition packed_append (v : Vector3f) (array : list Z) : list Z :=
  let '(x, y, z) := v in
  let xs := if flt x fzero then 1 else 0 in
  let ys := if flt y fzero then 1 else 0 in
  let zs := if flt z fzero then 1 else 0 in
  array ++
  [uint32
     (Z.lor (Z.lor (Z.lor (Z.lor (Z.lor
        (Z.shiftl zs 29)
        (Z.shiftl (packField z zs) 20))
        (Z.shiftl ys 19))
        (Z.shiftl (packField y ys) 10))
        (Z.shiftl xs 9))
        (packField x xs))].

Definition unpackField (packed : Z) : float :=
  if Z.land packed 512 =? 0
  then fdiv (float_of_Z (Z.land packed 511)) (float_of_Z 511)
  else fdiv (float_of_Z (Z.land packed 511 - 512)) (float_of_Z 512).

(** [get] reads [array[index]]. A read beyond the end of the array is
    undefined in the source (it is reached when the normals are shown with
    smooth shading of a mesh that has no normals, where nothing was
    appended); the model reads the word 0 there. *)
Definition packed_get (array : list Z) (index : Z) : Vector3f :=
  let packed := at_ 0 array index in
  (unpackField packed,
   unpackField (Z.shiftr packed 10),
   unpackField (Z.shiftr (Z.shiftr packed 10) 10)).

#[global] Instance PackedNormalArray : NormalArrayWrapper Z := {
  append := packed_append;
  get := packed_get
}.

Section Encoder.
Context `{Eigen}.

(** What [writeMeshNormalsSub] leaves behind: the return value, the
    wrapper's array and the line set stored in the resource when normal
    visualization is enabled (its vertices and its lines). *)
Record NormalsResult (E : Type) := {
  ready : bool;
  array : list E;
  normalLines : option (list Vector3f * list Z)
}.
#[global] Arguments ready {E} _.
#[global] Arguments array {E} _.
#[global] Arguments normalLines {E} _.

Definition writeMeshNormalsSub {E : Type} `{NormalArrayWrapper E}
  (defaultSmoothShading_ isNormalVisualizationEnabled_ : bool)
  (normalVisualizationLength_ : float)
  (mesh_ : SgMesh) (normals : list E) : NormalsResult E :=
  let triangleVertices_ := triangleVertices mesh_ in
  let numTriangles_ := numTriangles mesh_ in
  let orgVertices := default [] (SgMesh_vertices mesh_) in
  let '(ready_, normals) :=
    if negb defaultSmoothShading_
    then
      (true,
       for_loop numTriangles_
         (fun i normals =>
            let triangle j := at_ 0 triangleVertices_ (3 * i + j) in
            let e1 := Vector3f_sub (at_ Vector3f_Zero orgVertices (triangle 1))
                                   (at_ Vector3f_Zero orgVertices (triangle 0)) in
            let e2 := Vector3f_sub (at_ Vector3f_Zero orgVertices (triangle 2))
                                   (at_ Vector3f_Zero orgVertices (triangle 0)) in
            let normal := normalized (cross e1 e2) in
            for_loop 3 (fun _ normals => append normal normals) normals)
         normals)
    else
      match SgMesh_normals mesh_ with
      | Some orgNormals =>
          let indices :=
            match normalIndices mesh_ with
            | [] => triangleVertices_
            | _ => normalIndices mesh_
            end in
          (true,
           snd (for_loop numTriangles_
                  (fun _ =>
                     for_loop 3
                       (fun _ '(faceVertexIndex, normals) =>
                          (faceVertexIndex + 1,
                           append (at_ Vector3f_Zero orgNormals (at_ 0 indices faceVertexIndex))
                                  normals)))
                  (0, normals)))
      | None => (false, normals)
      end in
  let lines :=
    if isNormalVisualizationEnabled_
    then
      Some
        (snd (for_loop numTriangles_
                (fun _ =>
                   for_loop 3
                     (fun _ '(vertexIndex, (lineVertices_, lines_)) =>
                        let v := at_ Vector3f_Zero orgVertices
                                     (at_ 0 triangleVertices_ vertexIndex) in
                        (vertexIndex + 1,
                         (lineVertices_
                            ++ [v; Vector3f_add v
                                     (Vector3f_scale (get normals vertexIndex)
                                                     normalVisualizationLength_)],
                          lines_ ++ [vertexIndex * 2; vertexIndex * 2 + 1]))))
                (0, ([], []))))
    else None in
  {| ready := ready_; array := normals; normalLines := lines |}.

Definition writeMeshNormalsPacked := writeMeshNormalsSub (E := Z).
Definition writeMeshNormalsFloat := writeMeshNormalsSub (E := Vector3f).

End Encoder.

(** ** Shader program stack *)

Definition set_programStack (st : list ProgramInfo) (p : ProgramMembers) :=
  {| currentProgram := currentProgram p;
     currentLightingProgram := currentLightingProgram p;
     currentNolightingProgram := currentNolightingProgram p;
     programStack := st;
     isMinimumLightingProgramActivatedInThisFrame :=
       isMinimumLightingProgramActivatedInThisFrame p |}.

Definition set_currentPrograms (c l n : option ShaderProgram) (p : ProgramMembers) :=
  {| currentProgram := c;
     currentLightingProgram := l;
     currentNolightingProgram := n;
     programStack := programStack p;
     isMinimumLightingProgramActivatedInThisFrame :=
       isMinimumLightingProgramActivatedInThisFrame p |}.

Definition set_isMinimumLightingProgramActivatedInThisFrame (b : bool) (p : ProgramMembers) :=
  {| currentProgram := currentProgram p;
     currentLightingProgram := currentLightingProgram p;
     currentNolightingProgram := currentNolightingProgram p;
     programStack := programStack p;
     isMinimumLightingProgramActivatedInThisFrame := b |}.

(** [pushProgram] and [popProgram] as they act on the program members.
    Where the current program changes, the source also deactivates the old
    program, activates the new one and calls [clearGLState]; the shader
    programs are not among the sources, and the members that
    [clearGLState] resets ([stateFlag], [pointSize], [lineWidth]) are not
    members of this record: they are followed on their own, in
    [StateMembers]. *)
Definition pushProgram (program_ : ShaderProgram) (isLightingProgram : bool)
  (s : GLSLSceneRendererImpl) : GLSLSceneRendererImpl :=
  set_programs
    (fun p =>
       let info := {| program := currentProgram p;
                      lightingProgram := currentLightingProgram p;
                      nolightingProgram_ := currentNolightingProgram p |} in
       let p := if bool_decide (Some program_ = currentProgram p) then p
                else if isLightingProgram
                     then set_currentPrograms (Some program_) (Some program_) None p
                     else set_currentPrograms (Some program_) None (Some program_) p in
       set_programStack (programStack p ++ [info]) p)
    s.

(** [programStack.back()] of an empty stack is undefined in the source;
    the model leaves the state as it is. *)
Definition popProgram (s : GLSLSceneRendererImpl) : GLSLSceneRendererImpl :=
  set_programs
    (fun p =>
       match last (programStack p) with
       | None => p
       | Some info =>
           let p := if bool_decide (program info = currentProgram p) then p
                    else set_currentPrograms (program info) (lightingProgram info)
                           (nolightingProgram_ info) p in
           set_programStack (List.removelast (programStack p)) p
       end)
    s.

(** ** Picking identities *)

Definition SHOW_IMAGE_FOR_PICKING : bool := false.

Definition double_of_Z (z : Z) : float := binary_normalize 53 1024 z 0 false.

(** The conversion of a [double] to [float]. *)
Definition float_of_double (d : float) : float :=
  match d with
  | S754_finite s m e => binary_round prec32 emax32 s m e
  | _ => d
  end.

(** The colour of [setPickColor]: the three low bytes of the id, each
    divided by [255.0]. *)
Definition pickColor (id : Z) : Vector3f :=
  let channel (byte : Z) := float_of_double (SFdiv 53 1024 (double_of_Z byte) (double_of_Z 255)) in
  (channel (Z.land id 255),
   channel (Z.land (Z.shiftr id 8) 255),
   if SHOW_IMAGE_FOR_PICKING then float_of_Z 1 else channel (Z.land (Z.shiftr id 16) 255)).

Definition setPickColor (id : Z) (s : GLSLSceneRendererImpl) : GLSLSceneRendererImpl :=
  emit (solidColorProgram_setColor (pickColor id)) s.

Definition set_currentNodePath (path : SgNodePath) (p : PickingMembers) :=
  {| currentNodePath := path; pickingNodePathList := pickingNodePathList p;
     pickedNodePath := pickedNodePath p; pickedPoint := pickedPoint p |}.

Definition set_pickingNodePathList (l : list SgNodePath) (p : PickingMembers) :=
  {| currentNodePath := currentNodePath p; pickingNodePathList := l;
     pickedNodePath := pickedNodePath p; pickedPoint := pickedPoint p |}.

Definition set_picked (path : SgNodePath) (point : Vector3) (p : PickingMembers) :=
  {| currentNodePath := currentNodePath p; pickingNodePathList := pickingNodePathList p;
     pickedNodePath := path; pickedPoint := point |}.

Definition pushPickId (node : SgObjectPtr) (doSetColor : bool) (s : GLSLSceneRendererImpl)
  : Z * GLSLSceneRendererImpl :=
  if isPicking s
  then
    let id := uint32 (Z.of_nat (length (pickingNodePathList (picking s))) + 1) in
    let s := set_picking (fun p => set_currentNodePath (currentNodePath p ++ [node]) p) s in
    let s := set_picking
               (fun p => set_pickingNodePathList (pickingNodePathList p ++ [currentNodePath p]) p) s in
    let s := if doSetColor then setPickColor id s else s in
    (id, s)
  else (0, s).

Definition popPickId (s : GLSLSceneRendererImpl) : GLSLSceneRendererImpl :=
  if isPicking s
  then set_picking (fun p => set_currentNodePath (List.removelast (currentNodePath p)) p) s
  else s.

(** ** Drawing *)

Definition USE_GL_INT_2_10_10_10_REV_FOR_NORMALS : bool := true.

Definition isValid (v : VertexResource) : bool * VertexResource :=
  if 0 <? numVertices v then (true, v)
  else if 0 <? numBuffers v
       then (false,
             {| numVertices := numVertices v; numBuffers := 0;
                sceneObject := sceneObject v;
                normalVisualization := normalVisualization v |})
       else (false, v).

(** [glDrawArrays] with the vertex count of the resource. *)
Definition drawVertexResource (source : DrawSource) (resource : nat) (primitiveMode : GLenum)
  (position : Affine3) (s : GLSLSceneRendererImpl) : GLSLSceneRendererImpl :=
  let count := match vertexAt resource (heap (resources s)) with
               | Some v => numVertices v
               | None => 0
               end in
  emit (glDrawArrays source resource primitiveMode position count) s.

Definition storeVertexResource (resource : nat) (v : VertexResource)
  (s : GLSLSceneRendererImpl) : GLSLSceneRendererImpl :=
  set_resources (fun r => set_heap (<[resource := VertexRes v]> (heap r)) r) s.

(** The transparency test of [renderShape]:
    [material && material->transparency() > 0.0]. *)
Definition isTransparent (shape : SgShape) : bool :=
  match material shape with
  | Some m => flt fzero (transparency m)
  | None => false
  end.

Definition hasDrawableMesh (shape : SgShape) : bool :=
  match mesh shape with
  | Some m => SgMesh_hasVertices m
  | None => false
  end.

(** The line set that [writeMeshNormalsSub] stores in a resource: no
    colours, the material of the normal visualization, the default width. *)
Definition normalVisualizationLineSet (resource : nat) (content : list Vector3f * list Z)
  : SgLineSet :=
  {| SgLineSet_plot :=
       {| SgPlot_addr := NormalVisAddr resource;
          SgPlot_vertices := Some (fst content);
          SgPlot_hasColors := false;
          SgPlot_material := Some {| transparency := fzero |} |};
     lineVertices := snd content;
     SgLineSet_lineWidth := fzero |}.

Section Traversal.
Context `{Eigen}.

(** The buffers of the vertex positions, normals, texture coordinates
    and colours are handed to the driver; the resource keeps their number,
    the vertex count and the line set of the normals. *)
Definition writeMeshVertices (mesh_ : SgMesh) (resource : nat) (texture_ : option SgTexture)
  (s : GLSLSceneRendererImpl) : GLSLSceneRendererImpl :=
  match vertexAt resource (heap (resources s)) with
  | None => s
  | Some v =>
      let cfg := settings s in
      let lines :=
        if USE_GL_INT_2_10_10_10_REV_FOR_NORMALS
        then normalLines (writeMeshNormalsPacked (defaultSmoothShading cfg)
                            (isNormalVisualizationEnabled cfg)
                            (normalVisualizationLength cfg) mesh_ [])
        else normalLines (writeMeshNormalsFloat (defaultSmoothShading cfg)
                            (isNormalVisualizationEnabled cfg)
                            (normalVisualizationLength cfg) mesh_ []) in
      storeVertexResource resource
        {| numVertices := Z.of_nat (length (triangleVertices mesh_));
           numBuffers := numBuffers v + 2
                         + (match texture_ with Some _ => 1 | None => 0 end)
                         + (if SgMesh_hasColors mesh_ then 1 else 0);
           sceneObject := sceneObject v;
           normalVisualization :=
             match lines with
             | Some content => Some content
             | None => normalVisualization v
             end |} s
  end.

Definition renderPlot (plot : SgPlot) (primitiveMode : GLenum) (numPlotVertices : Z)
  (s : GLSLSceneRendererImpl) : GLSLSceneRendererImpl :=
  let s := snd (pushPickId (SgPlot_addr plot) true s) in
  let '(resource, s) := getOrCreateVertexResource (SgPlot_addr plot) s in
  let s :=
    match vertexAt resource (heap (resources s)) with
    | Some v =>
        let '(valid, v) := isValid v in
        if valid then storeVertexResource resource v s
        else storeVertexResource resource
               {| numVertices := numPlotVertices;
                  numBuffers := numBuffers v + 1 + (if SgPlot_hasColors plot then 1 else 0);
                  sceneObject := sceneObject v;
                  normalVisualization := normalVisualization v |} s
    | None => s
    end in
  let s := drawVertexResource (PlotSource plot) resource primitiveMode
             (List.last (modelMatrixStack s) Affine3_Identity) s in
  popPickId s.

Definition renderPointSet (pointSet : SgPointSet) (s : GLSLSceneRendererImpl)
  : GLSLSceneRendererImpl :=
  if negb (SgPlot_hasVertices (SgPointSet_plot pointSet)) then s
  else
    let s := pushProgram solidColorProgram false s in
    let s := renderPlot (SgPointSet_plot pointSet) GL_POINTS
               (Z.of_nat (length (default [] (SgPlot_vertices (SgPointSet_plot pointSet))))) s in
    popProgram s.

Definition renderLineSet (lineSet : SgLineSet) (s : GLSLSceneRendererImpl)
  : GLSLSceneRendererImpl :=
  if isRenderingShadowMap s then s
  else if negb (SgPlot_hasVertices (SgLineSet_plot lineSet)) || (numLines lineSet <=? 0) then s
  else
    let s := pushProgram solidColorProgram false s in
    let s := renderPlot (SgLineSet_plot lineSet) GL_LINES (numLines lineSet * 2) s in
    popProgram s.

(** [shape->mesh()] is dereferenced without a test; [renderShape] calls
    this function only for a shape that has a mesh. *)
Definition renderShapeMain (shape : SgShape) (position : Affine3) (pickId : Z)
  (s : GLSLSceneRendererImpl) : GLSLSceneRendererImpl :=
  match mesh shape with
  | None => s
  | Some mesh_ =>
      let '(isTextureValid, s) :=
        if isPicking s then (false, setPickColor pickId s)
        else if bool_decide (currentLightingProgram (programs s) = Some phongShadowLightingProgram)
             then match texture shape with
                  | Some texture_ =>
                      if SgMesh_hasTexCoords mesh_ then renderTexture texture_ s else (false, s)
                  | None => (false, s)
                  end
             else (false, s) in
      let '(resource, s) := getOrCreateVertexResource (SgMesh_addr mesh_) s in
      let s :=
        match vertexAt resource (heap (resources s)) with
        | Some v =>
            let '(valid, v) := isValid v in
            let s := storeVertexResource resource v s in
            if valid then s
            else writeMeshVertices mesh_ resource
                   (if isTextureValid then texture shape else None) s
        | None => s
        end in
      let s := drawVertexResource (ShapeSource shape) resource GL_TRIANGLES position s in
      if isNormalVisualizationEnabled (settings s) && isActuallyRendering s
      then match vertexAt resource (heap (resources s)) with
           | Some {| normalVisualization := Some lines |} =>
               renderLineSet (normalVisualizationLineSet resource lines) s
           | _ => s
           end
      else s
  end.

Definition renderShape (shape : SgShape) (s : GLSLSceneRendererImpl) : GLSLSceneRendererImpl :=
  if hasDrawableMesh shape
  then
    if isTransparent shape
    then
      if negb (isRenderingShadowMap s)
      then
        let position := List.last (modelMatrixStack s) Affine3_Identity in
        let '(pickId, s) := pushPickId (SgShape_addr shape) false s in
        let f := {| captured_shape := shape; captured_position := position;
                    captured_pickId := pickId |} in
        let s := emit (deferred f) (set_transparentRenderingFunctions (fun q => q ++ [f]) s) in
        popPickId s
      else s
    else
      let '(pickId, s) := pushPickId (SgShape_addr shape) false s in
      let s := renderShapeMain shape (List.last (modelMatrixStack s) Affine3_Identity) pickId s in
      popPickId s
  else s.

(** *** Grouping nodes. [dispatch] is [renderingFunctions.dispatch]. *)

Definition renderChildNodes (dispatch : SgNode -> GLSLSceneRendererImpl -> GLSLSceneRendererImpl)
  (children : list SgNode) (s : GLSLSceneRendererImpl) : GLSLSceneRendererImpl :=
  fold_left (fun s child => dispatch child s) children s.

Definition renderGroup dispatch (group : SgObjectPtr) (children : list SgNode)
  (s : GLSLSceneRendererImpl) : GLSLSceneRendererImpl :=
  let s := snd (pushPickId group true s) in
  let s := renderChildNodes dispatch children s in
  popPickId s.

Definition renderSwitch dispatch (node : SgObjectPtr) (isTurnedOn : bool)
  (children : list SgNode) (s : GLSLSceneRendererImpl) : GLSLSceneRendererImpl :=
  if isTurnedOn then renderGroup dispatch node children s else s.

Definition renderUnpickableGroup dispatch (group : SgObjectPtr) (children : list SgNode)
  (s : GLSLSceneRendererImpl) : GLSLSceneRendererImpl :=
  if negb (isPicking s) then renderGroup dispatch group children s else s.

Definition renderTransform dispatch (transform : SgObjectPtr) (T : Affine3)
  (children : list SgNode) (s : GLSLSceneRendererImpl) : GLSLSceneRendererImpl :=
  let s := set_modelMatrixStack
             (fun st => st ++ [Affine3_mul (List.last st Affine3_Identity) T]) s in
  let s := snd (pushPickId transform true s) in
  let s := renderChildNodes dispatch children s in
  let s := popPickId s in
  set_modelMatrixStack (@List.removelast Affine3) s.

Definition renderOverlay dispatch (overlay : SgObjectPtr) (children : list SgNode)
  (s : GLSLSceneRendererImpl) : GLSLSceneRendererImpl :=
  if negb (isActuallyRendering s) then s
  else
    let s := pushProgram solidColorProgram false s in
    let s := set_modelMatrixStack (fun st => st ++ [Affine3_Identity]) s in
    let s := renderGroup dispatch overlay children s in
    let s := set_modelMatrixStack (@List.removelast Affine3) s in
    popProgram s.

Definition renderOutlineGroup dispatch (outline : SgObjectPtr) (color : Vector3f)
  (children : list SgNode) (s : GLSLSceneRendererImpl) : GLSLSceneRendererImpl :=
  if isPicking s then renderGroup dispatch outline children s
  else
    let T := List.last (modelMatrixStack s) Affine3_Identity in
    set_postRenderingFunctions
      (fun q => q ++ [{| captured_outline := outline; captured_color := color;
                         captured_children := children; captured_T := T |}]) s.

Definition renderSimplifiedRenderingGroup dispatch (children : list SgNode)
  (s : GLSLSceneRendererImpl) : GLSLSceneRendererImpl :=
  if isRenderingShadowMap s then s
  else
    let s := if negb (isPicking s)
             then set_programs (set_isMinimumLightingProgramActivatedInThisFrame true)
                    (pushProgram minimumLightingProgram true s)
             else s in
    let s := renderChildNodes dispatch children s in
    if negb (isPicking s) then popProgram s else s.

Fixpoint dispatch (node : SgNode) (s : GLSLSceneRendererImpl) {struct node}
  : GLSLSceneRendererImpl :=
  match node with
  | NGroup self children => renderGroup dispatch self children s
  | NTransform self T children => renderTransform dispatch self T children s
  | NSwitch self isTurnedOn children => renderSwitch dispatch self isTurnedOn children s
  | NUnpickableGroup self children => renderUnpickableGroup dispatch self children s
  | NShape shape => renderShape shape s
  | NPointSet pointSet => renderPointSet pointSet s
  | NLineSet lineSet => renderLineSet lineSet s
  | NOverlay self children => renderOverlay dispatch self children s
  | NOutlineGroup self color children => renderOutlineGroup dispatch self color children s
  | NSimplifiedRenderingGroup self children =>
      renderSimplifiedRenderingGroup dispatch children s
  end.

Definition renderOutlineGroupMain (f : PostRenderingFunction) (s : GLSLSceneRendererImpl)
  : GLSLSceneRendererImpl :=
  let s := set_modelMatrixStack (fun st => st ++ [captured_T f]) s in
  let s := renderChildNodes dispatch (captured_children f) s in
  let s := pushProgram solidColorProgram false s in
  let s := emit (solidColorProgram_setColor (captured_color f)) s in
  let s := renderChildNodes dispatch (captured_children f) s in
  let s := popProgram s in
  set_modelMatrixStack (@List.removelast Affine3) s.

End Traversal.

(** ** Frames *)

(** The base class [GLSceneRenderer] ([self]) and the lighting program are
    not among the sources. What the renderer asks of them during a frame:
    the scene root, whether there is a current camera, the lights
    ([getLightInfo] yields no light for an unknown index), the light's
    shadow camera ([getShadowMapCamera] may yield none), the number of
    shadow maps the program supports, and [unproject], which fails or
    yields the world point of a window position and depth. *)
Record Light := {
  on : bool;
  hasShadowMapCamera : bool
}.

Record GLSceneRenderer := {
  sceneRoot : SgNode;
  currentCamera : bool;
  getLightInfo : Z -> option Light;
  maxNumShadows : Z;
  unproject : Z -> Z -> float -> option Vector3
}.

(** What [glReadPixels] returns for the pixel asked for by [doPick]. *)
Record Pixel := {
  Pixel_color : Vector3f;
  Pixel_depth : float
}.

Section Frames.
Context `{Eigen}.
Variable self : GLSceneRenderer.

(** The projection and view matrices only feed the shader programs. *)
Definition renderCamera (s : GLSLSceneRendererImpl) : GLSLSceneRendererImpl :=
  set_modelMatrixStack (fun _ => [Affine3_Identity]) s.

Definition renderSceneGraphNodes (s : GLSLSceneRendererImpl) : GLSLSceneRendererImpl :=
  dispatch (sceneRoot self) s.

Definition renderTransparentObjects (s : GLSLSceneRendererImpl) : GLSLSceneRendererImpl :=
  let s := if negb (isPicking s)
           then emit (glDepthMask false) (emit (glEnable GL_BLEND) s)
           else s in
  let s := fold_left
             (fun s f => renderShapeMain (captured_shape f) (captured_position f)
                           (captured_pickId f) s)
             (transparentRenderingFunctions s) s in
  let s := if negb (isPicking s)
           then emit (glDepthMask true) (emit (glDisable GL_BLEND) s)
           else s in
  set_transparentRenderingFunctions (fun _ => []) s.

(** Everything [renderScene] does before the transparent pass. The
    range-based loop over [postRenderingFunctions] runs the functions that
    are in the vector when the loop starts. *)
Definition renderOpaqueObjects (s : GLSLSceneRendererImpl) : GLSLSceneRendererImpl :=
  let s := renderCamera s in
  let s := set_postRenderingFunctions (fun _ => []) s in
  let s := set_transparentRenderingFunctions (fun _ => []) s in
  let s := renderSceneGraphNodes s in
  let s := fold_left (fun s f => renderOutlineGroupMain f s) (postRenderingFunctions s) s in
  set_postRenderingFunctions (fun _ => []) s.

Definition renderScene (s : GLSLSceneRendererImpl) : GLSLSceneRendererImpl :=
  if currentCamera self
  then
    let s := renderOpaqueObjects s in
    match transparentRenderingFunctions s with
    | [] => s
    | _ => renderTransparentObjects s
    end
  else s.

Definition renderShadowMap (lightIndex : Z) (s : GLSLSceneRendererImpl)
  : bool * GLSLSceneRendererImpl :=
  match getLightInfo self lightIndex with
  | Some light =>
      if on light && hasShadowMapCamera light
      then (true, renderSceneGraphNodes (renderCamera s))
      else (false, s)
  | None => (false, s)
  end.

(** The loop of [doRender] over [shadowLightIndices]. *)
Fixpoint renderShadowMaps (indices : list Z) (shadowMapIndex : Z) (s : GLSLSceneRendererImpl)
  : GLSLSceneRendererImpl :=
  match indices with
  | [] => s
  | shadowLightIndex :: rest =>
      if shadowMapIndex <? maxNumShadows self
      then
        let '(done, s) := renderShadowMap shadowLightIndex s in
        renderShadowMaps rest (if done then shadowMapIndex + 1 else shadowMapIndex) s
      else s
  end.

Definition doRender (s : GLSLSceneRendererImpl) : GLSLSceneRendererImpl :=
  let s := beginRendering s in
  let s := set_programs (set_isMinimumLightingProgramActivatedInThisFrame false) s in
  let s :=
    match lightingMode (settings s) with
    | NO_LIGHTING =>
        set_programs (set_isMinimumLightingProgramActivatedInThisFrame true)
          (pushProgram nolightingProgram false s)
    | SOLID_COLOR_LIGHTING => pushProgram solidColorProgram false s
    | MINIMUM_LIGHTING => pushProgram minimumLightingProgram true s
    | FULL_LIGHTING =>
        let s :=
          match shadowLightIndices (settings s) with
          | [] => s
          | indices =>
              let s := pushProgram shadowMapProgram false s in
              let s := set_isRenderingShadowMap true s in
              let s := set_isActuallyRendering false s in
              let s := renderShadowMaps indices 0 s in
              let s := popProgram s in
              set_isRenderingShadowMap false s
          end in
        pushProgram phongShadowLightingProgram true s
    end in
  let s := set_isActuallyRendering true s in
  let s := renderScene s in
  let s := popProgram s in
  endRendering s.

(** The id that [doPick] computes from the colour read back. The sum is
    formed in [float]; its conversion to [unsigned int] is undefined in
    the source when the sum is negative, and reduced modulo [2^32] here. *)
Definition decodePickId (color : Vector3f) : Z :=
  let '(c0, c1, c2) := color in
  let c2 := if SHOW_IMAGE_FOR_PICKING then fzero else c2 in
  let f255 := float_of_Z 255 in
  uint32
    (trunc_float
       (fsub
          (fadd
             (fadd (fmul c0 f255)
                   (float_of_Z (Z.shiftl (trunc_float (fmul c1 f255)) 8)))
             (float_of_Z (Z.shiftl (trunc_float (fmul c2 f255)) 16)))
          (float_of_Z 1))).

Definition doPick (x y : Z) (pixel : Pixel) (s : GLSLSceneRendererImpl)
  : bool * GLSLSceneRendererImpl :=
  let s := if negb SHOW_IMAGE_FOR_PICKING then emit (glEnable GL_SCISSOR_TEST) s else s in
  let s := set_isPicking true s in
  let s := set_isActuallyRendering false s in
  let s := beginRendering s in
  let s := pushProgram solidColorProgram false s in
  let s := set_picking (fun p => set_pickingNodePathList [] (set_currentNodePath [] p)) s in
  let s := renderScene s in
  let s := popProgram s in
  let s := set_isPicking false s in
  let s := emit (glDisable GL_SCISSOR_TEST) s in
  let s := endRendering s in
  let id := decodePickId (Pixel_color pixel) in
  let s := set_picking (fun p => set_picked [] (pickedPoint p) p) s in
  let s :=
    if (0 <? id) && (id <? Z.of_nat (length (pickingNodePathList (picking s))))
    then
      match unproject self x y (Pixel_depth pixel) with
      | Some point =>
          set_picking
            (fun p => set_picked (at_ [] (pickingNodePathList p) id) point p) s
      | None => s
      end
    else s in
  (match pickedNodePath (picking s) with [] => false | _ => true end, s).

End Frames.

(** The renderer as [initialize] leaves it. *)
Definition initial_renderer : GLSLSceneRendererImpl :=
  {| resources := initial_resources;
     programs := {| currentProgram := None; currentLightingProgram := None;
                    currentNolightingProgram := None; programStack := [];
                    isMinimumLightingProgramActivatedInThisFrame := false |};
     picking := {| currentNodePath := []; pickingNodePathList := [];
                   pickedNodePath := []; pickedPoint := (fzero, fzero, fzero) |};
     settings := {| lightingMode := FULL_LIGHTING; shadowLightIndices := [];
                    defaultSmoothShading := true; isNormalVisualizationEnabled := false;
                    normalVisualizationLength := fzero |};
     isActuallyRendering := false;
     isPicking := false;
     isRenderingShadowMap := false;
     modelMatrixStack := [];
     postRenderingFunctions := [];
     transparentRenderingFunctions := [];
     trace := [] |}.

(** ** A reference instance of the Eigen interface

    Component-wise evaluation, one rounding per operation, [double] for
    transforms and [float] for vectors. It serves the examples below. *)
Module ScalarEigen.

Definition dmul (a b : float) : float := SFmul 53 1024 a b.
Definition dadd (a b : float) : float := SFadd 53 1024 a b.

Definition ddot (a b : Vector3) : float :=
  let '(a0, a1, a2) := a in
  let '(b0, b1, b2) := b in
  dadd (dadd (dmul a0 b0) (dmul a1 b1)) (dmul a2 b2).

Definition column (k : nat) (m : Vector3 * Vector3 * Vector3) : Vector3 :=
  let '(r0, r1, r2) := m in
  let pick (r : Vector3) := let '(x, y, z) := r in
                            match k with O => x | S O => y | _ => z end in
  (pick r0, pick r1, pick r2).

Definition mul (a b : Affine3) : Affine3 :=
  let '(r0, r1, r2) := linear a in
  let row (r : Vector3) : Vector3 :=
    (ddot r (column 0 (linear b)), ddot r (column 1 (linear b)), ddot r (column 2 (linear b))) in
  let '(t0, t1, t2) := translation a in
  {| linear := (row r0, row r1, row r2);
     translation := (dadd (ddot r0 (translation b)) t0,
                     dadd (ddot r1 (translation b)) t1,
                     dadd (ddot r2 (translation b)) t2) |}.

Definition sub (a b : Vector3f) : Vector3f :=
  let '(a0, a1, a2) := a in
  let '(b0, b1, b2) := b in
  (fsub a0 b0, fsub a1 b1, fsub a2 b2).

Definition add (a b : Vector3f) : Vector3f :=
  let '(a0, a1, a2) := a in
  let '(b0, b1, b2) := b in
  (fadd a0 b0, fadd a1 b1, fadd a2 b2).

Definition scale (a : Vector3f) (k : float) : Vector3f :=
  let '(a0, a1, a2) := a in
  (fmul a0 k, fmul a1 k, fmul a2 k).

Definition cross_ (a b : Vector3f) : Vector3f :=
  let '(a0, a1, a2) := a in
  let '(b0, b1, b2) := b in
  (fsub (fmul a1 b2) (fmul a2 b1),
   fsub (fmul a2 b0) (fmul a0 b2),
   fsub (fmul a0 b1) (fmul a1 b0)).

Definition squaredNorm (a : Vector3f) : float :=
  let '(a0, a1, a2) := a in
  fadd (fadd (fmul a0 a0) (fmul a1 a1)) (fmul a2 a2).

Definition norm (a : Vector3f) : float := SFsqrt prec32 emax32 (squaredNorm a).

Definition normalized_ (a : Vector3f) : Vector3f :=
  let n := squaredNorm a in
  if flt fzero n
  then let '(a0, a1, a2) := a in
       let d := SFsqrt prec32 emax32 n in
       (fdiv a0 d, fdiv a1 d, fdiv a2 d)
  else a.

#[export] Instance instance : Eigen := {
  Affine3_mul := mul;
  Vector3f_sub := sub;
  Vector3f_add := add;
  Vector3f_scale := scale;
  cross := cross_;
  normalized := normalized_
}.

End ScalarEigen.


(** ** Sequences of calls *)

(** A picking pass seen from the picking members: the calls of
    [pushPickId] and [popPickId] in the order the traversal makes them. *)
Inductive PickCall :=
| PushPickId (node : SgObjectPtr) (doSetColor : bool)
| PopPickId.

(** The ids returned by the calls of [pushPickId], in order. *)
Fixpoint runPickCalls (calls : list PickCall) (s : GLSLSceneRendererImpl)
  : list Z * GLSLSceneRendererImpl :=
  match calls with
  | [] => ([], s)
  | PushPickId node doSetColor :: rest =>
      let '(id, s) := pushPickId node doSetColor s in
      let '(ids, s) := runPickCalls rest s in
      (id :: ids, s)
  | PopPickId :: rest => runPickCalls rest (popPickId s)
  end.

Definition countPushes (calls : list PickCall) : nat :=
  length (List.filter (fun c => match c with PushPickId _ _ => true | PopPickId => false end) calls).

(** A frame seen from the resource cache: [beginRendering], the lookups
    that the traversal makes, [endRendering]. [doPick] raises [isPicking]
    before [beginRendering] and lowers it before [endRendering]. *)
Inductive CacheCall :=
| LookupVertexResource (obj : SgObjectPtr)
| RenderTexture (texture_ : SgTexture).

Record Frame := {
  Frame_isPicking : bool;
  Frame_calls : list CacheCall
}.

(** One record per call of [getOrCreateVertexResource]: the object, the
    resource returned and whether the call made it. *)
Record Lookup := {
  Lookup_obj : SgObjectPtr;
  Lookup_resource : nat;
  Lookup_created : bool
}.

Definition runCacheCall (c : CacheCall) (s : GLSLSceneRendererImpl)
  : list Lookup * GLSLSceneRendererImpl :=
  match c with
  | LookupVertexResource obj =>
      let '(resource, created, r) := getOrCreateVertexResource_r obj (resources s) in
      ([{| Lookup_obj := obj; Lookup_resource := resource; Lookup_created := created |}],
       set_resources (fun _ => r) s)
  | RenderTexture texture_ => ([], snd (renderTexture texture_ s))
  end.

Fixpoint runCacheCalls (calls : list CacheCall) (s : GLSLSceneRendererImpl)
  : list Lookup * GLSLSceneRendererImpl :=
  match calls with
  | [] => ([], s)
  | c :: rest =>
      let '(l1, s) := runCacheCall c s in
      let '(l2, s) := runCacheCalls rest s in
      (l1 ++ l2, s)
  end.

Definition runFrame (f : Frame) (s : GLSLSceneRendererImpl)
  : list Lookup * GLSLSceneRendererImpl :=
  let s := set_isPicking (Frame_isPicking f) s in
  let s := beginRendering s in
  let '(l, s) := runCacheCalls (Frame_calls f) s in
  let s := set_isPicking false s in
  (l, endRendering s).

Fixpoint runFrames (frames : list Frame) (s : GLSLSceneRendererImpl)
  : list Lookup * GLSLSceneRendererImpl :=
  match frames with
  | [] => ([], s)
  | f :: rest =>
      let '(l1, s) := runFrame f s in
      let '(l2, s) := runFrames rest s in
      (l1 ++ l2, s)
  end.

(** The lookups of one object. *)
Definition lookupsOf (obj : SgObjectPtr) (l : list Lookup) : list Lookup :=
  List.filter (fun k => bool_decide (Lookup_obj k = obj)) l.

(** The resource members between two frames: the map pointers follow
    [currentResourceMapIndex], and the map that the next [beginRendering]
    will not use as the current one is empty. *)
Definition cache_wf (r : ResourceMembers) : Prop :=
  (currentResourceMapIndex r = 0 \/ currentResourceMapIndex r = 1)
  /\ currentResourceMap r = currentResourceMapIndex r
  /\ nextResourceMap r = 1 - currentResourceMapIndex r
  /\ (if hasValidNextResourceMap r
      then mapAt (currentResourceMap r) (resourceMaps r) = ∅
      else mapAt (nextResourceMap r) (resourceMaps r) = ∅).

(** The calls of the public interface that act on the resource maps. *)
Inductive ApiCall :=
| CallFrame (f : Frame)
| CallRequestToClearResources
| CallEnableUnusedResourceCheck (on_ : bool).

Definition runApiCall (c : ApiCall) (s : GLSLSceneRendererImpl) : GLSLSceneRendererImpl :=
  match c with
  | CallFrame f => snd (runFrame f s)
  | CallRequestToClearResources => requestToClearResources s
  | CallEnableUnusedResourceCheck on_ => enableUnusedResourceCheck on_ s
  end.

(** ** Flat shading, as specified

    The normal of triangle [i]: [normalize((P1 - P0) x (P2 - P0))] for its
    corners [P0], [P1], [P2]; and the normals of the expanded vertices, three
    per triangle. *)
Definition spec_faceNormal `{Eigen} (mesh_ : SgMesh) (i : Z) : Vector3f :=
  let P k := at_ Vector3f_Zero (default [] (SgMesh_vertices mesh_))
                 (at_ 0 (triangleVertices mesh_) (3 * i + k)) in
  normalized (cross (Vector3f_sub (P 1) (P 0)) (Vector3f_sub (P 2) (P 0))).

Definition spec_flatNormals `{Eigen} (mesh_ : SgMesh) : list Vector3f :=
  flat_map (fun i => [spec_faceNormal mesh_ i; spec_faceNormal mesh_ i; spec_faceNormal mesh_ i])
           (seqZ 0 (numTriangles mesh_)).

(** ** The packed word of a normal, as described

    One component takes ten bits: the sign bit, set when the component is
    negative, above the nine low bits of [component * 511 + 512 * sign]
    converted to an unsigned integer. The word holds x in the bits 0 to 9,
    y in the bits 10 to 19 and z in the bits 20 to 29. *)
Definition spec_packedComponent (c : float) : Z :=
  let sign := if flt c fzero then 1 else 0 in
  512 * sign
  + uint32 (trunc_float (fadd (fmul c (float_of_Z 511)) (float_of_Z (512 * sign)))) mod 512.

Definition spec_packedNormal (v : Vector3f) : Z :=
  let '(x, y, z) := v in
  spec_packedComponent x + 2 ^ 10 * spec_packedComponent y + 2 ^ 20 * spec_packedComponent z.

(** ** Views of the scene graph and of the state *)

Definition childrenOf (node : SgNode) : list SgNode :=
  match node with
  | NGroup _ children | NTransform _ _ children | NSwitch _ _ children
  | NUnpickableGroup _ children | NOverlay _ children | NOutlineGroup _ _ children
  | NSimplifiedRenderingGroup _ children => children
  | NShape _ | NPointSet _ | NLineSet _ => []
  end.


(** The part of the state that a rendering function must hand back as it
    found it: the pass flags, the settings, the model matrix stack and the
    current node path. *)
Definition traversalState (s : GLSLSceneRendererImpl) :=
  (isPicking s, isActuallyRendering s, isRenderingShadowMap s, settings s,
   modelMatrixStack s, currentNodePath (picking s)).


Definition preservesTraversalState (f : GLSLSceneRendererImpl -> GLSLSceneRendererImpl) : Prop :=
  forall s, traversalState (f s) = traversalState s.

(** ** Reading a trace *)

(** The shapes drawn, the plots drawn and the closures deferred, each in
    the order of the trace. *)
Definition shapeDraws (l : list Event) : list SgShape :=
  omap (fun e => match e with
                 | glDrawArrays (ShapeSource shape) _ _ _ _ => Some shape
                 | _ => None
                 end) l.

Definition plotDraws (l : list Event) : list SgPlot :=
  omap (fun e => match e with
                 | glDrawArrays (PlotSource plot) _ _ _ _ => Some plot
                 | _ => None
                 end) l.

Definition deferrals (l : list Event) : list TransparentRenderingFunction :=
  omap (fun e => match e with
                 | deferred f => Some f
                 | _ => None
                 end) l.

(** Events that neither draw nor defer. *)
Definition isAuxiliary (e : Event) : bool :=
  match e with
  | glDrawArrays _ _ _ _ _ | deferred _ => false
  | _ => true
  end.

Definition isNormalVisualization (plot : SgPlot) : Prop :=
  exists resource, SgPlot_addr plot = NormalVisAddr resource.

(** The objects drawn, in the order of the trace: the address of the
    shape or of the plot of each draw call. *)
Definition drawnObjects (l : list Event) : list SgObjectPtr :=
  omap (fun e => match e with
                 | glDrawArrays (ShapeSource shape) _ _ _ _ => Some (SgShape_addr shape)
                 | glDrawArrays (PlotSource plot) _ _ _ _ => Some (SgPlot_addr plot)
                 | _ => None
                 end) l.

(** The order of a frame, as specified: once a transparent shape is
    drawn, no opaque object (a shape that is not transparent, a point set or
    a line set) is drawn any more. *)
Definition isTransparentDraw (e : Event) : bool :=
  match e with
  | glDrawArrays (ShapeSource shape) _ _ _ _ => isTransparent shape
  | _ => false
  end.

Definition isOpaqueDraw (e : Event) : bool :=
  match e with
  | glDrawArrays (ShapeSource shape) _ _ _ _ => negb (isTransparent shape)
  | glDrawArrays (PlotSource _) _ _ _ _ => true
  | _ => false
  end.

Fixpoint spec_transparentLast (l : list Event) : bool :=
  match l with
  | [] => true
  | e :: rest =>
      (if isTransparentDraw e then forallb (fun e' => negb (isOpaqueDraw e')) rest else true)
      && spec_transparentLast rest
  end.

(** [extends P s s']: from [s] to [s'] the trace grows by events [ext]
    with [P ext], the queue of the transparent pass grows by exactly the
    closures whose deferral [ext] records, the list of pick paths grows by
    non-empty paths, and the shadow-map flag is the same. *)
Definition extends (P : list Event -> Prop) (s s' : GLSLSceneRendererImpl) : Prop :=
  isRenderingShadowMap s' = isRenderingShadowMap s
  /\ (exists ext, trace s' = trace s ++ ext
                  /\ transparentRenderingFunctions s' =
                       transparentRenderingFunctions s ++ deferrals ext
                  /\ P ext)
  /\ (exists paths, pickingNodePathList (picking s') = pickingNodePathList (picking s) ++ paths
                    /\ Forall (fun path => path <> []) paths).

(** What the traversal may emit: draws of shapes that are not transparent,
    draws of plots, and, outside a shadow pass, deferrals of transparent
    shapes that have a mesh. *)
Definition opaqueEvent (shadow : bool) (e : Event) : Prop :=
  match e with
  | glDrawArrays (ShapeSource shape) _ _ _ _ => isTransparent shape = false
  | deferred f =>
      shadow = false
      /\ isTransparent (captured_shape f) = true
      /\ hasDrawableMesh (captured_shape f) = true
  | _ => True
  end.

(** What the transparent pass may emit besides the draws of the deferred
    shapes: auxiliary events and the line sets of the normal visualization. *)
Definition transparentPassEvent (e : Event) : Prop :=
  match e with
  | glDrawArrays (ShapeSource _) _ _ _ _ => True
  | glDrawArrays (PlotSource plot) _ _ _ _ => isNormalVisualization plot
  | deferred _ => False
  | _ => True
  end.

(** [ok] accepts every draw made on behalf of [source]. *)
Definition okDraw (ok : Event -> Prop) (source : DrawSource) : Prop :=
  forall resource mode position count, ok (glDrawArrays source resource mode position count).

(** A rendering function emits opaque events only. *)
Definition emitsOpaque (f : GLSLSceneRendererImpl -> GLSLSceneRendererImpl) : Prop :=
  forall (shadow : bool) (s : GLSLSceneRendererImpl),
    isRenderingShadowMap s = shadow ->
    extends (Forall (opaqueEvent shadow)) s (f s).

(** A frame whose trace splits into an opaque part and a transparent
    part: no transparent shape is drawn in the opaque part, what is deferred
    there is transparent, the transparent part draws the deferred shapes in
    the order of their deferral and nothing else of the scene (besides the
    line sets of the normal visualization), and defers nothing. *)
Definition orderedFrame (opaquePass transparentPass : list Event) : Prop :=
  Forall (fun shape => isTransparent shape = false) (shapeDraws opaquePass)
  /\ Forall (fun f => isTransparent (captured_shape f) = true) (deferrals opaquePass)
  /\ shapeDraws transparentPass = map captured_shape (deferrals opaquePass)
  /\ deferrals transparentPass = []
  /\ Forall isNormalVisualization (plotDraws transparentPass).

(** What a pass over the scene leaves behind: the trace grows by an opaque
    part and then a transparent part, the list of pick paths grows by
    non-empty paths. *)
Definition scenePass (s s' : GLSLSceneRendererImpl) (opaquePass transparentPass : list Event)
  : Prop :=
  trace s' = trace s ++ opaquePass ++ transparentPass
  /\ Forall (opaqueEvent false) opaquePass
  /\ shapeDraws transparentPass = map captured_shape (deferrals opaquePass)
  /\ Forall transparentPassEvent transparentPass
  /\ isRenderingShadowMap s' = isRenderingShadowMap s
  /\ exists paths, pickingNodePathList (picking s') = pickingNodePathList (picking s) ++ paths
                   /\ Forall (fun path => path <> []) paths.

(** ** Views of the resource cache *)

Definition currentMap (r : ResourceMembers) : GLResourceMap :=
  mapAt (currentResourceMap r) (resourceMaps r).

Definition nextMap (r : ResourceMembers) : GLResourceMap :=
  mapAt (nextResourceMap r) (resourceMaps r).

(** The map that the next frame will use as its current map. *)
Definition carriedMap (r : ResourceMembers) : GLResourceMap :=
  if hasValidNextResourceMap r then nextMap r else currentMap r.

(** The resource members during a frame: no promotion is pending, what
    is in the next map is in the current map, and the next map stays empty
    when unused resources are not checked. *)
Definition frame_wf (r : ResourceMembers) : Prop :=
  (currentResourceMapIndex r = 0 \/ currentResourceMapIndex r = 1)
  /\ currentResourceMap r = currentResourceMapIndex r
  /\ nextResourceMap r = 1 - currentResourceMapIndex r
  /\ hasValidNextResourceMap r = false
  /\ nextMap r ⊆ currentMap r
  /\ (isCheckingUnusedResources r = false -> nextMap r = ∅).

(** The members that a lookup leaves alone. *)
Definition cacheFlags (r : ResourceMembers) :=
  (currentResourceMap r, nextResourceMap r, currentResourceMapIndex r,
   doUnusedResourceCheck r, isCheckingUnusedResources r,
   hasValidNextResourceMap r, isResourceClearRequested r).
(** ** Further views and functions of the renderer *)

(** One channel of the colour of [setPickColor]: a byte of the id divided
    by [255.0] in [double], stored in a [float]. *)
Definition pickChannel (byte : Z) : float :=
  float_of_double (SFdiv 53 1024 (double_of_Z byte) (double_of_Z 255)).

(** The key under which a call of the traversal enters the resource
    maps: the object itself for [getOrCreateVertexResource], the image of
    the texture for [renderTexture] (none when the texture has no image or
    an empty one). *)
Definition cacheKey (c : CacheCall) : option SgObjectPtr :=
  match c with
  | LookupVertexResource obj => Some obj
  | RenderTexture texture_ =>
      match SgTexture_image texture_ with
      | Some sgImage => if SgImage_empty sgImage then None else Some (SgImage_addr sgImage)
      | None => None
      end
  end.

(** ** Smooth shading and the lines of the normals, as the loops read

    The index list from which [writeMeshNormalsSub] takes the normal of an
    expanded vertex: [normalIndices] when it is not empty, the face index
    list otherwise. *)
Definition smoothNormalIndices (mesh_ : SgMesh) : list Z :=
  match normalIndices mesh_ with
  | [] => triangleVertices mesh_
  | _ => normalIndices mesh_
  end.

(** The normal of expanded vertex [k] of a mesh with normals [orgNormals]. *)
Definition smoothNormal (mesh_ : SgMesh) (orgNormals : list Vector3f) (k : Z) : Vector3f :=
  at_ Vector3f_Zero orgNormals (at_ 0 (smoothNormalIndices mesh_) k).

(** The position of expanded vertex [k]. *)
Definition expandedVertex (mesh_ : SgMesh) (k : Z) : Vector3f :=
  at_ Vector3f_Zero (default [] (SgMesh_vertices mesh_)) (at_ 0 (triangleVertices mesh_) k).

(** ** The shader program state

    The current program, the current lighting and non-lighting programs
    and the stack of [pushProgram]. *)
Definition programState (s : GLSLSceneRendererImpl) :=
  (currentProgram (programs s), currentLightingProgram (programs s),
   currentNolightingProgram (programs s), programStack (programs s)).

(** ** Draw calls and the resource cache *)

(** The object under which the resource of a draw call is cached: the
    mesh of a shape, the plot itself. *)
Definition drawKey (source : DrawSource) : option SgObjectPtr :=
  match source with
  | ShapeSource shape => option_map SgMesh_addr (mesh shape)
  | PlotSource plot => Some (SgPlot_addr plot)
  end.

(** A draw call uses the resource that the current map holds for its
    object; while unused resources are checked the next map holds it too. *)
Definition drawnFromCache (r : ResourceMembers) (e : Event) : Prop :=
  match e with
  | glDrawArrays source resource _ _ _ =>
      exists key, drawKey source = Some key
                  /\ currentMap r !! key = Some resource
                  /\ (isCheckingUnusedResources r = true -> nextMap r !! key = Some resource)
  | _ => True
  end.

(** From [s] to [s'], within a frame: the resource members stay well
    formed, the flags of the cache are the same, the maps only grow, and
    every draw call made in between uses the cached resource of its object. *)
Definition cacheReach (s s' : GLSLSceneRendererImpl) : Prop :=
  frame_wf (resources s')
  /\ cacheFlags (resources s') = cacheFlags (resources s)
  /\ currentMap (resources s) ⊆ currentMap (resources s')
  /\ nextMap (resources s) ⊆ nextMap (resources s')
  /\ exists ext, trace s' = trace s ++ ext /\ Forall (drawnFromCache (resources s')) ext.

Definition cacheStep (s s' : GLSLSceneRendererImpl) : Prop :=
  frame_wf (resources s) -> cacheReach s s'.

(** The draw calls of a list of events, each with the object it draws
    and the resource it uses. *)
Definition cacheDraws (l : list Event) : list (SgObjectPtr * nat) :=
  omap (fun e => match e with
                 | glDrawArrays source resource _ _ _ =>
                     option_map (fun key => (key, resource)) (drawKey source)
                 | _ => None
                 end) l.

(** The events emitted from state [s] to a later state [s']. *)
Definition eventsSince (s s' : GLSLSceneRendererImpl) : list Event :=
  drop (length (trace s)) (trace s').

(** What a frame leaves behind, from the state [s] before it to the
    state [s'] after it: the resource members are well formed between frames
    and no clear request is pending; every draw call of the frame used the
    resource that the cache now holds for its object; an object that was
    cached before the frame (no clear request pending) was drawn with the
    resource it had; and a frame that does not check unused resources
    ([unchecked]) keeps every cached resource. *)
Definition framePost (unchecked : bool) (s s' : GLSLSceneRendererImpl) : Prop :=
  cache_wf (resources s')
  /\ isResourceClearRequested (resources s') = false
  /\ doUnusedResourceCheck (resources s') = doUnusedResourceCheck (resources s)
  /\ trace s' = trace s ++ eventsSince s s'
  /\ Forall (fun draw => carriedMap (resources s') !! fst draw = Some (snd draw))
            (cacheDraws (eventsSince s s'))
  /\ (isResourceClearRequested (resources s) = false ->
      (forall key resource,
          carriedMap (resources s) !! key = Some resource ->
          Forall (fun draw => fst draw = key -> snd draw = resource)
                 (cacheDraws (eventsSince s s')))
      /\ (unchecked = true -> carriedMap (resources s) ⊆ carriedMap (resources s'))).

(** ** Vertex buffers *)

(** [VertexResource::MAX_NUM_BUFFERS], the length of [vbos]. *)
Definition MAX_NUM_BUFFERS : Z := 4.

(** Every vertex resource of the heap counts between 0 and
    [MAX_NUM_BUFFERS] buffers. *)
Definition buffersInRange (h : list GLResource) : Prop :=
  Forall (fun res => match res with
                     | VertexRes v => 0 <= numBuffers v <= MAX_NUM_BUFFERS
                     | TextureRes _ => True
                     end) h.

Definition buffersStep (s s' : GLSLSceneRendererImpl) : Prop :=
  buffersInRange (heap (resources s)) -> buffersInRange (heap (resources s')).

(** ** Whole numbers in [float] *)

(** [f] is the integer [n], written with an exponent that is not positive. *)
Definition intFloat (n : Z) (f : float) : Prop :=
  match f with
  | S754_zero _ => n = 0
  | S754_finite s m e => -23 <= e <= 0 /\ cond_Zopp s (Z.pos m) = n * 2 ^ (- e)
  | _ => False
  end.


(** ** The settings that invalidate the resources *)

(** [(double)f]: every [float] value is a [double] value. *)
Definition double_of_float (f : float) : float :=
  match f with
  | S754_finite s m e => binary_round 53 1024 s m e
  | _ => f
  end.

Definition setDefaultSmoothShading (on : bool) (s : GLSLSceneRendererImpl)
  : GLSLSceneRendererImpl :=
  if negb (eqb on (defaultSmoothShading (settings s)))
  then requestToClearResources
         (set_settings
            (fun cfg => {| lightingMode := lightingMode cfg;
                           shadowLightIndices := shadowLightIndices cfg;
                           defaultSmoothShading := on;
                           isNormalVisualizationEnabled := isNormalVisualizationEnabled cfg;
                           normalVisualizationLength := normalVisualizationLength cfg |}) s)
  else s.

(** [length] is a [double]; the member [normalVisualizationLength] is a
    [float], promoted for the comparison and narrowed by the assignment. *)
Definition showNormalVectors (length : float) (s : GLSLSceneRendererImpl)
  : GLSLSceneRendererImpl :=
  let isEnabled := SFltb (S754_zero false) length in
  if negb (eqb isEnabled (isNormalVisualizationEnabled (settings s)))
     || negb (SFeqb length (double_of_float (normalVisualizationLength (settings s))))
  then requestToClearResources
         (set_settings
            (fun cfg => {| lightingMode := lightingMode cfg;
                           shadowLightIndices := shadowLightIndices cfg;
                           defaultSmoothShading := defaultSmoothShading cfg;
                           isNormalVisualizationEnabled := isEnabled;
                           normalVisualizationLength := float_of_double length |}) s)
  else s.

(** ** Resources made since a moment

    [n] is the size of the heap at that moment: the resources made later
    have the addresses from [n] on. *)
Definition drawAbove (n : nat) (e : Event) : Prop :=
  match e with
  | glDrawArrays _ resource _ _ _ => (n <= resource)%nat
  | _ => True
  end.

(** The current map holds resources made since then only. *)
Definition madeSince (n : nat) (r : ResourceMembers) : Prop :=
  (n <= length (heap r))%nat
  /\ map_Forall (fun _ resource => (n <= resource)%nat) (currentMap r).

Definition freshStep (n : nat) (s s' : GLSLSceneRendererImpl) : Prop :=
  madeSince n (resources s) ->
  madeSince n (resources s')
  /\ exists ext, trace s' = trace s ++ ext /\ Forall (drawAbove n) ext.

(** ** The cached state of the driver

    The members behind [setPointSize] and [setLineWidth]: [stateFlag]
    tells which of the cached values are known to be the driver's. The calls
    that the two functions make are collected in a list of their own;
    [isPicking] is the member of the renderer that they read. *)
Inductive StateFlag := CULL_FACE | POINT_SIZE | LINE_WIDTH.

Definition NUM_STATE_FLAGS : nat := 3.

Definition flagIndex (f : StateFlag) : nat :=
  match f with
  | CULL_FACE => 0
  | POINT_SIZE => 1
  | LINE_WIDTH => 2
  end%nat.

Record StateMembers := {
  stateFlag : list bool;
  Impl_pointSize : float;
  lineWidth : float;
  defaultPointSize : float;
  defaultLineWidth : float
}.

Inductive StateCall :=
| solidColorProgram_setPointSize (s : float)
| glLineWidth (width : float).

(** [5.0f] *)
Definition MinLineWidthForPicking : float := float_of_Z 5.

(** [std::max (a, b)] is [(a < b) ? b : a]. *)
Definition std_max (a b : float) : float := if flt a b then b else a.

(** [stateFlag[f]]; the vector has [NUM_STATE_FLAGS] elements from the
    constructor on, a read past its end is undefined in the source. *)
Definition flagAt (f : StateFlag) (g : StateMembers) : bool :=
  default false (stateFlag g !! flagIndex f).

Definition clearGLState (g : StateMembers) : StateMembers :=
  {| stateFlag := map (fun _ => false) (stateFlag g);
     Impl_pointSize := defaultPointSize g;
     lineWidth := defaultLineWidth g;
     defaultPointSize := defaultPointSize g;
     defaultLineWidth := defaultLineWidth g |}.

Definition setPointSize (isPicking : bool) (size : float) (g : StateMembers)
  : StateMembers * list StateCall :=
  if negb (flagAt POINT_SIZE g) || negb (SFeqb (Impl_pointSize g) size)
  then
    let s := if isPicking then std_max size MinLineWidthForPicking else size in
    ({| stateFlag := <[flagIndex POINT_SIZE := true]> (stateFlag g);
        Impl_pointSize := s;
        lineWidth := lineWidth g;
        defaultPointSize := defaultPointSize g;
        defaultLineWidth := defaultLineWidth g |},
     [solidColorProgram_setPointSize s])
  else (g, []).

Definition setLineWidth (isPicking : bool) (width : float) (g : StateMembers)
  : StateMembers * list StateCall :=
  if negb (flagAt LINE_WIDTH g) || negb (SFeqb (lineWidth g) width)
  then
    ({| stateFlag := <[flagIndex LINE_WIDTH := true]> (stateFlag g);
        Impl_pointSize := Impl_pointSize g;
        lineWidth := width;
        defaultPointSize := defaultPointSize g;
        defaultLineWidth := defaultLineWidth g |},
     [glLineWidth (if isPicking then std_max width MinLineWidthForPicking else width)])
  else (g, []).

(** The members as the constructor leaves them. *)
Definition initial_state : StateMembers :=
  clearGLState {| stateFlag := replicate NUM_STATE_FLAGS false;
                  Impl_pointSize := fzero; lineWidth := fzero;
                  defaultPointSize := float_of_Z 1; defaultLineWidth := float_of_Z 1 |}.

(** What the traversal asks of the cached state during one pass over
    the scene, in which [isPicking] does not change. *)
Inductive StateRequest :=
| RequestClear
| RequestPointSize (size : float)
| RequestLineWidth (width : float).

Definition runStateRequest (isPicking : bool) (request : StateRequest) (g : StateMembers)
  : StateMembers * list StateCall :=
  match request with
  | RequestClear => (clearGLState g, [])
  | RequestPointSize size => setPointSize isPicking size g
  | RequestLineWidth width => setLineWidth isPicking width g
  end.

Fixpoint runStateRequests (isPicking : bool) (requests : list StateRequest) (g : StateMembers)
  : StateMembers * list StateCall :=
  match requests with
  | [] => (g, [])
  | request :: rest =>
      let '(g, calls) := runStateRequest isPicking request g in
      let '(g, more) := runStateRequests isPicking rest g in
      (g, calls ++ more)
  end.

(** The driver keeps the value of the last call. *)
Record DriverState := {
  driver_pointSize : float;
  driver_lineWidth : float
}.

Definition applyStateCall (d : DriverState) (c : StateCall) : DriverState :=
  match c with
  | solidColorProgram_setPointSize s =>
      {| driver_pointSize := s; driver_lineWidth := driver_lineWidth d |}
  | glLineWidth width =>
      {| driver_pointSize := driver_pointSize d; driver_lineWidth := width |}
  end.

(** The size that a request is to give the driver: in a picking pass
    not less than [MinLineWidthForPicking]. *)
Definition effectiveSize (isPicking : bool) (size : float) : float :=
  if isPicking then std_max size MinLineWidthForPicking else size.

(** The last size or width requested, if any. *)
Definition lastPointSize (requests : list StateRequest) : option float :=
  last (omap (fun request => match request with
                             | RequestPointSize size => Some size
                             | _ => None
                             end) requests).

Definition lastLineWidth (requests : list StateRequest) : option float :=
  last (omap (fun request => match request with
                             | RequestLineWidth width => Some width
                             | _ => None
                             end) requests).

(** The same value: identical, or equal as [==] has it (the two zeros). *)
Definition sameValue (a b : float) : Prop := a = b \/ SFeqb a b = true.

(** Where a flag is set the driver has the cached value as a request
    would have set it. *)
Definition cachedInDriver (isPicking : bool) (g : StateMembers) (d : DriverState) : Prop :=
  length (stateFlag g) = NUM_STATE_FLAGS
  /\ (flagAt LINE_WIDTH g = true ->
      sameValue (driver_lineWidth d) (effectiveSize isPicking (lineWidth g)))
  /\ (flagAt POINT_SIZE g = true ->
      driver_pointSize d = Impl_pointSize g
      /\ effectiveSize isPicking (Impl_pointSize g) = Impl_pointSize g).

(** ** Textures in the cache *)

(** The current map holds texture resource [t] for the image at [key]. *)
Definition cachedTexture (key : SgObjectPtr) (t : TextureResource) (r : ResourceMembers) : Prop :=
  exists resource, currentMap r !! key = Some resource
                   /\ textureAt resource (heap r) = Some t.

(** The calls with which [loadTextureImage] hands a whole image to the
    driver: as it is when both sides are powers of two, scaled up to the
    next powers of two otherwise. *)
Definition uploadCalls (image : Image) (format : GLenum) : list Event :=
  if isPowerOfTwo (Image_width image) && isPowerOfTwo (Image_height image)
  then [glTexImage2D (Image_width image) (Image_height image) format]
  else [gluScaleImage (Image_width image) (Image_height image)
          (potSize (Image_width image)) (potSize (Image_height image));
        glTexImage2D (potSize (Image_width image)) (potSize (Image_height image)) format].

(** ** The nodes that a picking pass can report

    The node paths that the traversal of a node records in
    [pickingNodePathList] during a picking pass, each from the node down, in
    the order of the traversal: a grouping node records its own path and
    then the paths below it; nothing is recorded for what the pass does not
    visit (a switch that is turned off, an unpickable group, an overlay) or
    does not draw (a shape without a mesh or without vertices, a point set
    without vertices, a line set without vertices or lines); a simplified
    rendering group records the paths of its children without itself. *)
Fixpoint pickablePaths (node : SgNode) : list SgNodePath :=
  match node with
  | NGroup self children | NTransform self _ children | NOutlineGroup self _ children =>
      [self] :: map (cons self) (flat_map pickablePaths children)
  | NSwitch self isTurnedOn children =>
      if isTurnedOn
      then [self] :: map (cons self) (flat_map pickablePaths children)
      else []
  | NUnpickableGroup _ _ | NOverlay _ _ => []
  | NShape shape => if hasDrawableMesh shape then [[SgShape_addr shape]] else []
  | NPointSet pointSet =>
      if SgPlot_hasVertices (SgPointSet_plot pointSet)
      then [[SgPlot_addr (SgPointSet_plot pointSet)]]
      else []
  | NLineSet lineSet =>
      if negb (SgPlot_hasVertices (SgLineSet_plot lineSet)) || (numLines lineSet <=? 0)
      then []
      else [[SgPlot_addr (SgLineSet_plot lineSet)]]
  | NSimplifiedRenderingGroup _ children => flat_map pickablePaths children
  end.

(** The members that tell a picking pass apart and those it records
    into. *)
Definition inPickingPass (s : GLSLSceneRendererImpl) : Prop :=
  isPicking s = true /\ isActuallyRendering s = false /\ isRenderingShadowMap s = false.

Definition pickView (s : GLSLSceneRendererImpl) :=
  (currentNodePath (picking s), pickingNodePathList (picking s), postRenderingFunctions s,
   isPicking s, isActuallyRendering s, isRenderingShadowMap s).

(** From [s] to [s'] in a picking pass: the paths [paths], taken from
    the current node, are added to [pickingNodePathList], and nothing else
    of [pickView] changes. *)
Definition recordsPaths (paths : list SgNodePath) (s s' : GLSLSceneRendererImpl) : Prop :=
  inPickingPass s ->
  pickView s'
  = (currentNodePath (picking s),
     pickingNodePathList (picking s) ++ map (app (currentNodePath (picking s))) paths,
     postRenderingFunctions s, true, false, false).

(** ** The shadow-map passes *)

(** What a pass that renders a shadow map may emit: triangles of shapes
    that are not transparent and points of point sets; no lines, and no
    deferral. *)
Definition shadowPassEvent (e : Event) : Prop :=
  match e with
  | glDrawArrays (ShapeSource shape) _ mode _ _ =>
      isTransparent shape = false /\ mode = GL_TRIANGLES
  | glDrawArrays (PlotSource _) _ mode _ _ => mode = GL_POINTS
  | deferred _ => False
  | _ => True
  end.

Definition shadowStep (s s' : GLSLSceneRendererImpl) : Prop :=
  isRenderingShadowMap s = true ->
  isRenderingShadowMap s' = true
  /\ transparentRenderingFunctions s' = transparentRenderingFunctions s
  /\ exists ext, trace s' = trace s ++ ext /\ Forall shadowPassEvent ext.

(** ** Half-precision texture coordinates *)

(** The object representation of a [float], read as a [uint32_t]: sign,
    eight bits of biased exponent, twenty-three bits of mantissa. (The
    payload of a NaN is not kept by [spec_float]; it is taken as zero with
    the quiet bit set.) *)
Definition float_bits (value : float) : Z :=
  match value with
  | S754_zero s => if s then 2 ^ 31 else 0
  | S754_infinity s => (if s then 2 ^ 31 else 0) + 255 * 2 ^ 23
  | S754_nan => 255 * 2 ^ 23 + 2 ^ 22
  | S754_finite s m e =>
      (if s then 2 ^ 31 else 0)
      + (if Z.pos m <? 2 ^ 23 then Z.pos m else (e + 150) * 2 ^ 23 + (Z.pos m - 2 ^ 23))
  end.

(** [GLhalf] is [unsigned short]. *)
Definition uint16 (z : Z) : Z := z mod 2 ^ 16.

(** [TexCoordArrayWrapper::toHalf]. In
    [((x >> 16) & 0x8000) | ((x & 0x7fffffff) >> 13) - 0x1c000]
    the subtraction binds tighter than [|]. *)
Definition toHalf (value : float) : Z :=
  let x := float_bits value in
  let e := Z.land x 0x7f800000 in
  if (e =? 0) || (e <? 0x38800000) then 0
  else if 0x47000000 <? e then 0x7bff
  else uint16
         (Z.lor (Z.land (Z.shiftr x 16) 0x8000)
                (uint32 (Z.shiftr (Z.land x 0x7fffffff) 13 - 0x1c000))).

(** ** No two objects share a resource *)

(** The resources of map [m] are in the heap [h], and different objects
    have different resources. *)
Definition distinctIn (m : GLResourceMap) (h : list GLResource) : Prop :=
  (forall key resource, m !! key = Some resource -> (resource < length h)%nat)
  /\ (forall key1 key2 resource,
         m !! key1 = Some resource -> m !! key2 = Some resource -> key1 = key2).

(** During a frame, of the current map; what the next map holds the
    current map holds too. *)
Definition distinctInFrame (r : ResourceMembers) : Prop :=
  distinctIn (currentMap r) (heap r) /\ nextMap r ⊆ currentMap r.

(** Between frames, of the map that is carried over. *)
Definition distinctResources (r : ResourceMembers) : Prop :=
  distinctIn (carriedMap r) (heap r).

(** A step from [s] to [s'] keeps the property [P] of the resource
    members. *)
Definition keeps (P : ResourceMembers -> Prop) (s s' : GLSLSceneRendererImpl) : Prop :=
  P (resources s) -> P (resources s').

(** ** Textures from frame to frame *)

(** The calls that hand an image to the driver. *)
Definition isImageTransfer (e : Event) : bool :=
  match e with
  | glTexSubImage2D _ _ _ | glTexImage2D _ _ _ | gluScaleImage _ _ _ _ => true
  | _ => false
  end.

Definition imageTransfers (l : list Event) : list Event := List.filter isImageTransfer l.

(** The map that the next frame will use holds texture resource [t] for
    the image at [key]. *)
Definition carriedTexture (key : SgObjectPtr) (t : TextureResource) (r : ResourceMembers)
  : Prop :=
  exists resource, carriedMap r !! key = Some resource
                   /\ textureAt resource (heap r) = Some t.

(** A rendered frame in which the texture is used. *)
Definition textureFrame (texture_ : SgTexture) : Frame :=
  {| Frame_isPicking := false; Frame_calls := [RenderTexture texture_] |}.

(** ** Example data *)
Module Example.
Import ScalarEigen.

Definition one : float := S754_finite false 8388608 (-23).
Definition half : float := S754_finite false 8388608 (-24).

(** [-2^-100], a normal number of binary32. *)
Definition tiny_negative : float := S754_finite true 8388608 (-123).

Definition triangle_mesh : SgMesh :=
  {| SgMesh_addr := ObjAddr 10;
     SgMesh_vertices := Some [(fzero, fzero, fzero); (one, fzero, fzero); (fzero, one, fzero)];
     triangleVertices := [0; 1; 2];
     SgMesh_normals := None;
     normalIndices := [];
     SgMesh_hasColors := false;
     SgMesh_hasTexCoords := false;
     isSolid := true |}.

Definition empty_mesh : SgMesh :=
  {| SgMesh_addr := ObjAddr 11;
     SgMesh_vertices := Some [];
     triangleVertices := [];
     SgMesh_normals := None;
     normalIndices := [];
     SgMesh_hasColors := false;
     SgMesh_hasTexCoords := false;
     isSolid := true |}.

Definition transparent_shape : SgShape :=
  {| SgShape_addr := ObjAddr 1; mesh := Some triangle_mesh;
     material := Some {| transparency := half |}; texture := None |}.

Definition opaque_shape : SgShape :=
  {| SgShape_addr := ObjAddr 2; mesh := Some triangle_mesh;
     material := None; texture := None |}.

Definition meshless_shape : SgShape :=
  {| SgShape_addr := ObjAddr 4; mesh := None;
     material := Some {| transparency := half |}; texture := None |}.

Definition empty_plot : SgPlot :=
  {| SgPlot_addr := ObjAddr 5; SgPlot_vertices := None;
     SgPlot_hasColors := false; SgPlot_material := None |}.

Definition empty_pointSet : SgPointSet :=
  {| SgPointSet_plot := empty_plot; pointSize := fzero |}.

Definition empty_lineSet : SgLineSet :=
  {| SgLineSet_plot := empty_plot; lineVertices := []; SgLineSet_lineWidth := fzero |}.

(** A transparent shape ahead of an opaque one. *)
Definition root : SgNode :=
  NGroup (ObjAddr 0)
    [NShape transparent_shape;
     NTransform (ObjAddr 3) Affine3_Identity [NShape opaque_shape]].

Definition renderer_with (unproject_ : Z -> Z -> float -> option Vector3) : GLSceneRenderer :=
  {| sceneRoot := root;
     currentCamera := true;
     getLightInfo := fun _ => None;
     maxNumShadows := 2;
     unproject := unproject_ |}.

Definition renderer : GLSceneRenderer :=
  renderer_with (fun _ _ _ => Some (fzero, fzero, fzero)).

(** A scene whose only shape is transparent and has no mesh. *)
Definition meshless_renderer : GLSceneRenderer :=
  {| sceneRoot := NGroup (ObjAddr 0) [NShape meshless_shape];
     currentCamera := true;
     getLightInfo := fun _ => None;
     maxNumShadows := 2;
     unproject := fun _ _ _ => Some (fzero, fzero, fzero) |}.

(** A renderer whose [unproject] fails. *)
Definition renderer_unproject_fails : GLSceneRenderer :=
  renderer_with (fun _ _ _ => None).

(** The state after the first rendered frame. *)
Definition after_first_frame : GLSLSceneRendererImpl := doRender renderer initial_renderer.

(** The pixel that carries the colour of pick id [k]. *)
Definition pixel_of_id (k : Z) : Pixel :=
  {| Pixel_color := pickColor k; Pixel_depth := half |}.

Definition loaded_rgb_2x2 : TextureResource :=
  {| isLoaded := true; isImageUpdateNeeded := true; textureId := 1; samplerId := 2;
     width := 2; height := 2; numComponents := 3 |}.

Definition image_rgba_2x2 : Image :=
  {| Image_width := 2; Image_height := 2; Image_numComponents := 4;
     Image_pixels := repeat 0 16 |}.

Definition image_rgb_2x2 : Image :=
  {| Image_width := 2; Image_height := 2; Image_numComponents := 3;
     Image_pixels := repeat 0 12 |}.

(** The binary32 image of the unit vector
    [(sqrt (1 - 2^-200), -2^-100, 0)]. *)
Definition nearly_x_axis : Vector3f := (one, tiny_negative, fzero).

End Example.


Module CacheExample.

(** Three frames that look the mesh of the example up: rendered,
    picked, rendered. *)
Definition frames : list Frame :=
  [ {| Frame_isPicking := false;
       Frame_calls := [LookupVertexResource (ObjAddr 10); LookupVertexResource (ObjAddr 11);
                       LookupVertexResource (ObjAddr 10)] |};
    {| Frame_isPicking := true;
       Frame_calls := [LookupVertexResource (ObjAddr 10)] |};
    {| Frame_isPicking := false;
       Frame_calls := [LookupVertexResource (ObjAddr 10)] |} ].

End CacheExample.
(** ** Further example data *)
Module SceneExample.
Import ScalarEigen.

Definition segment : SgLineSet :=
  {| SgLineSet_plot :=
       {| SgPlot_addr := ObjAddr 20;
          SgPlot_vertices := Some [(fzero, fzero, fzero); (Example.one, fzero, fzero)];
          SgPlot_hasColors := false; SgPlot_material := None |};
     lineVertices := [0; 1];
     SgLineSet_lineWidth := fzero |}.

Definition dots : SgPointSet :=
  {| SgPointSet_plot :=
       {| SgPlot_addr := ObjAddr 21;
          SgPlot_vertices := Some [(fzero, fzero, fzero); (fzero, Example.one, fzero)];
          SgPlot_hasColors := true; SgPlot_material := None |};
     pointSize := fzero |}.

Definition hidden_shape : SgShape :=
  {| SgShape_addr := ObjAddr 31; mesh := Some Example.triangle_mesh;
     material := None; texture := None |}.

(** A transparent and an opaque shape, a line set, a point set, and a
    shape under an unpickable group. *)
Definition root : SgNode :=
  NGroup (ObjAddr 0)
    [NShape Example.transparent_shape;
     NTransform (ObjAddr 3) Affine3_Identity [NShape Example.opaque_shape];
     NLineSet segment;
     NPointSet dots;
     NUnpickableGroup (ObjAddr 30) [NShape hidden_shape]].

(** Light 0 is on and has a shadow camera. *)
Definition renderer : GLSceneRenderer :=
  {| sceneRoot := root;
     currentCamera := true;
     getLightInfo := fun index => if index =? 0
                                  then Some {| on := true; hasShadowMapCamera := true |}
                                  else None;
     maxNumShadows := 2;
     unproject := fun _ _ _ => Some (fzero, fzero, fzero) |}.

(** The renderer in the shadow passes of [doRender]. *)
Definition in_shadow_pass : GLSLSceneRendererImpl :=
  set_isActuallyRendering false (set_isRenderingShadowMap true initial_renderer).

Definition rgb_texture : SgTexture :=
  {| SgTexture_image := Some {| SgImage_addr := ObjAddr 40;
                                constImage := Example.image_rgb_2x2 |} |}.

(** The same image object after its content was replaced. *)
Definition rgba_texture : SgTexture :=
  {| SgTexture_image := Some {| SgImage_addr := ObjAddr 40;
                                constImage := Example.image_rgba_2x2 |} |}.

Definition image_5_components : Image :=
  {| Image_width := 2; Image_height := 2; Image_numComponents := 5;
     Image_pixels := repeat 0 20 |}.

Definition unsupported_texture : SgTexture :=
  {| SgTexture_image := Some {| SgImage_addr := ObjAddr 40;
                                constImage := image_5_components |} |}.

(** [0.1], a [double] that is not a [float]. *)
Definition tenth : float := S754_finite false 7205759403792794 (-56).

(** [2.0f] and [8.0f]. *)
Definition two : float := float_of_Z 2.
Definition eight : float := float_of_Z 8.

Definition driver : DriverState := {| driver_pointSize := fzero; driver_lineWidth := fzero |}.

Definition requests : list StateRequest :=
  [RequestLineWidth two; RequestPointSize two; RequestLineWidth two; RequestClear;
   RequestPointSize eight; RequestLineWidth two].

(** A frame that looks two meshes up, and one that looks up the second
    of them only. *)
Definition both_meshes : Frame :=
  {| Frame_isPicking := false;
     Frame_calls := [LookupVertexResource (ObjAddr 10); LookupVertexResource (ObjAddr 11)] |}.

Definition second_mesh : Frame :=
  {| Frame_isPicking := false; Frame_calls := [LookupVertexResource (ObjAddr 11)] |}.

Definition picking_frame : Frame :=
  {| Frame_isPicking := true; Frame_calls := [LookupVertexResource (ObjAddr 11)] |}.

Definition after_both_meshes : GLSLSceneRendererImpl :=
  snd (runFrame both_meshes initial_renderer).

(** The renderer with flat shading and the normals shown, as
    [setDefaultSmoothShading(false)] and [showNormalVectors(0.1)] leave it. *)
Definition showing_normals : GLSLSceneRendererImpl :=
  showNormalVectors tenth (setDefaultSmoothShading false initial_renderer).

(** [2^-100]. *)
Definition tiny : float := S754_finite false 8388608 (-123).

(** A triangle in a plane that is tilted out of the plane [x = 0] by an
    angle of [2^-100]: its normal is [(1, 0, -2^-100)]. *)
Definition tilted_mesh : SgMesh :=
  {| SgMesh_addr := ObjAddr 12;
     SgMesh_vertices := Some [(fzero, fzero, fzero); (fzero, Example.one, fzero);
                              (tiny, fzero, Example.one)];
     triangleVertices := [0; 1; 2];
     SgMesh_normals := None;
     normalIndices := [];
     SgMesh_hasColors := false;
     SgMesh_hasTexCoords := false;
     isSolid := true |}.

(** A triangle with the normal [(3/5, 4/5, 0)]. *)
Definition upright_mesh : SgMesh :=
  {| SgMesh_addr := ObjAddr 13;
     SgMesh_vertices := Some [(fzero, fzero, fzero); (fzero, fzero, Example.one);
                              (float_of_Z 4, float_of_Z (-3), fzero)];
     triangleVertices := [0; 1; 2];
     SgMesh_normals := None;
     normalIndices := [];
     SgMesh_hasColors := false;
     SgMesh_hasTexCoords := false;
     isSolid := true |}.

End SceneExample.

(** * Properties *)

(** ** Clear requests *)

(** C2 (as amended): a clear request is deferred. [requestToClearResources]
    only raises [isResourceClearRequested] and leaves both resource maps as
    they are; the next [beginRendering] empties both maps and lowers the
    flag. *)
Theorem requestToClearResources_deferred (s : GLSLSceneRendererImpl) :
  resourceMaps (resources (requestToClearResources s)) = resourceMaps (resources s)
  /\ isResourceClearRequested (resources (requestToClearResources s)) = true
  /\ resourceMaps (resources (beginRendering (requestToClearResources s))) = (∅, ∅)
  /\ isResourceClearRequested (resources (beginRendering (requestToClearResources s))) = false.
Proof.
  repeat split; reflexivity.
Qed.

(** C2 (as stated) fails: after the first rendered frame of the example
    scene the next-generation map holds the mesh; it still holds it right
    after [requestToClearResources] returns. *)
Lemma requestToClearResources_not_synchronous :
  ~ (fst (resourceMaps (resources (requestToClearResources Example.after_first_frame))) = ∅
     /\ snd (resourceMaps (resources (requestToClearResources Example.after_first_frame))) = ∅).
Proof.
  intros [_ Hnext].
  assert (Hmesh : snd (resourceMaps (resources (requestToClearResources Example.after_first_frame)))
                    !! ObjAddr 10 = Some 0%nat) by (vm_compute; reflexivity).
  rewrite Hnext in Hmesh. rewrite lookup_empty in Hmesh. discriminate.
Qed.

(** ** Texture reuse *)

(** [loadTextureImage] overwrites the recorded channel count with that of
    the image before it calls [isSameSizeAs]. For a loaded resource and an
    image of a supported format, the storage is therefore reused exactly
    when the width and the height agree with the recorded ones. *)
Lemma loadTextureImage_reuse_decision (resource : TextureResource) (image : Image)
  (format : GLenum) :
  imageFormat (Image_numComponents image) = Some format ->
  isLoaded resource = true ->
  snd (loadTextureImage resource image) =
    if (width resource =? Image_width image) && (height resource =? Image_height image)
    then [glTexSubImage2D (Image_width image) (Image_height image) format]
    else if isPowerOfTwo (Image_width image) && isPowerOfTwo (Image_height image)
         then [glTexImage2D (Image_width image) (Image_height image) format]
         else [gluScaleImage (Image_width image) (Image_height image)
                 (potSize (Image_width image)) (potSize (Image_height image));
               glTexImage2D (potSize (Image_width image)) (potSize (Image_height image)) format].
Proof.
  intros Hformat Hloaded.
  unfold loadTextureImage, isSameSizeAs. rewrite Hformat.
  cbn [isLoaded width height numComponents].
  rewrite Hloaded, Z.eqb_refl, andb_true_r. cbn [andb].
  destruct ((width resource =? Image_width image) && (height resource =? Image_height image));
    [reflexivity|].
  destruct (isPowerOfTwo (Image_width image) && isPowerOfTwo (Image_height image)); reflexivity.
Qed.

(** C8, at the failing input: a loaded 2x2 resource that records three
    channels receives a 2x2 image of four channels. The recorded channel
    count differs from the image's, yet the storage is updated in place
    ([glTexSubImage2D]) with the new format instead of being reallocated. *)
Theorem loadTextureImage_reuses_despite_channel_mismatch :
  isSameSizeAs Example.loaded_rgb_2x2 Example.image_rgba_2x2 = false
  /\ loadTextureImage Example.loaded_rgb_2x2 Example.image_rgba_2x2 =
       (true,
        {| isLoaded := true; isImageUpdateNeeded := false; textureId := 1; samplerId := 2;
           width := 2; height := 2; numComponents := 4 |},
        [glTexSubImage2D 2 2 GL_RGBA]).
Proof.
  split; reflexivity.
Qed.

(** ** Packed normals *)

(** C6, at the failing input: the vector [(1, -2^-100, 0)] has norm [1] in
    [float] arithmetic. Its second component is encoded as sign bit set and
    magnitude field [0], because [y * 511 + 512] rounds to [512] and
    [512 & 511 = 0]; [get] decodes that field to [-1]. The decoded component
    is off by more than [1/511]. *)
Theorem packed_normal_round_trip_fails :
  ScalarEigen.norm Example.nearly_x_axis = Example.one
  /\ append Example.nearly_x_axis [] = [524799]
  /\ get (append Example.nearly_x_axis []) 0 = (Example.one, SFopp Example.one, fzero)
  /\ (1 # 511 <
      Qabs (Q_of_float (snd (fst (get (append Example.nearly_x_axis []) 0)))
            - Q_of_float (snd (fst Example.nearly_x_axis))))%Q.
Proof.
  repeat split; vm_compute; reflexivity.
Qed.

(** ** Picking identities *)

Lemma uint32_small (z : Z) : 0 <= z < 2 ^ 32 -> uint32 z = z.
Proof. intros Hz. unfold uint32. apply Z.mod_small. exact Hz. Qed.

Lemma pushPickId_not_picking (node : SgObjectPtr) (doSetColor : bool) (s : GLSLSceneRendererImpl) :
  isPicking s = false -> pushPickId node doSetColor s = (0, s).
Proof. intros Hp. unfold pushPickId. rewrite Hp. reflexivity. Qed.

Lemma popPickId_not_picking (s : GLSLSceneRendererImpl) :
  isPicking s = false -> popPickId s = s.
Proof. intros Hp. unfold popPickId. rewrite Hp. reflexivity. Qed.

Lemma isPicking_pushPickId (node : SgObjectPtr) (doSetColor : bool) (s : GLSLSceneRendererImpl) :
  isPicking (snd (pushPickId node doSetColor s)) = isPicking s.
Proof. unfold pushPickId. destruct (isPicking s) eqn:Hp, doSetColor; simpl; auto. Qed.

Lemma isPicking_popPickId (s : GLSLSceneRendererImpl) :
  isPicking (popPickId s) = isPicking s.
Proof. unfold popPickId. destruct (isPicking s) eqn:Hp; simpl; auto. Qed.

Lemma pushPickId_picking (node : SgObjectPtr) (doSetColor : bool) (s : GLSLSceneRendererImpl) :
  isPicking s = true ->
  let id := uint32 (Z.of_nat (length (pickingNodePathList (picking s))) + 1) in
  let s' := snd (pushPickId node doSetColor s) in
  fst (pushPickId node doSetColor s) = id
  /\ currentNodePath (picking s') = currentNodePath (picking s) ++ [node]
  /\ pickingNodePathList (picking s') =
       pickingNodePathList (picking s) ++ [currentNodePath (picking s) ++ [node]]
  /\ trace s' = trace s ++ (if doSetColor then [solidColorProgram_setColor (pickColor id)] else []).
Proof.
  intros Hp. unfold pushPickId. rewrite Hp.
  destruct doSetColor; simpl; repeat split; auto.
  symmetry; apply app_nil_r.
Qed.

Lemma popPickId_picking (s : GLSLSceneRendererImpl) :
  isPicking s = true ->
  currentNodePath (picking (popPickId s)) = List.removelast (currentNodePath (picking s))
  /\ pickingNodePathList (picking (popPickId s)) = pickingNodePathList (picking s)
  /\ trace (popPickId s) = trace s.
Proof. intros Hp. unfold popPickId. rewrite Hp. simpl. auto. Qed.

(** The ids handed out in a pass count the calls of [pushPickId]. *)
Lemma runPickCalls_ids (calls : list PickCall) :
  forall s : GLSLSceneRendererImpl,
    isPicking s = true ->
    Z.of_nat (length (pickingNodePathList (picking s))) + Z.of_nat (countPushes calls) < 2 ^ 32 ->
    fst (runPickCalls calls s) =
      seqZ (Z.of_nat (length (pickingNodePathList (picking s))) + 1) (Z.of_nat (countPushes calls)).
Proof.
  induction calls as [|c rest IH]; intros s Hp Hlen.
  - reflexivity.
  - destruct c as [node doSetColor|].
    + cbn [runPickCalls].
      destruct (pushPickId_picking node doSetColor s Hp) as (Hid & _ & Hlist & _).
      destruct (pushPickId node doSetColor s) as [id s1] eqn:Hpush.
      cbn [fst snd] in Hid, Hlist.
      assert (Hp1 : isPicking s1 = true).
      { rewrite <- Hp. generalize (isPicking_pushPickId node doSetColor s).
        rewrite Hpush. auto. }
      assert (Hcount : countPushes (PushPickId node doSetColor :: rest) = S (countPushes rest))
        by reflexivity.
      rewrite Hcount in Hlen |- *.
      specialize (IH s1 Hp1).
      rewrite Hlist, length_app in IH. cbn [length] in IH.
      destruct (runPickCalls rest s1) as [ids s2]. cbn [fst] in IH |- *.
      rewrite IH by lia.
      rewrite Hid, uint32_small by lia.
      rewrite Nat2Z.inj_succ.
      rewrite (seqZ_cons _ (Z.succ _)) by lia.
      f_equal. f_equal; lia.
    + cbn [runPickCalls].
      assert (Hcount : countPushes (PopPickId :: rest) = countPushes rest) by reflexivity.
      rewrite Hcount in Hlen |- *.
      destruct (popPickId_picking s Hp) as (_ & Hlist & _).
      rewrite <- Hlist. apply IH.
      * rewrite isPicking_popPickId. exact Hp.
      * rewrite Hlist. exact Hlen.
Qed.


(** ** Nodes without geometry *)

(** C9: a shape whose mesh is absent or has no vertices, a point set without
    vertices and a line set without vertices or without lines leave the
    renderer exactly as it was: nothing is drawn (the trace is the same),
    nothing is deferred (the queue of the transparent pass is the same), and
    the functions return normally. *)
Theorem empty_geometry_is_skipped `{Eigen} :
  (forall (shape : SgShape) (s : GLSLSceneRendererImpl),
      mesh shape = None \/ (exists m, mesh shape = Some m /\ SgMesh_hasVertices m = false) ->
      renderShape shape s = s)
  /\ (forall (pointSet : SgPointSet) (s : GLSLSceneRendererImpl),
         SgPlot_hasVertices (SgPointSet_plot pointSet) = false ->
         renderPointSet pointSet s = s)
  /\ (forall (lineSet : SgLineSet) (s : GLSLSceneRendererImpl),
         SgPlot_hasVertices (SgLineSet_plot lineSet) = false \/ numLines lineSet <= 0 ->
         renderLineSet lineSet s = s).
Proof.
  split; [|split].
  - intros shape s Hmesh. unfold renderShape, hasDrawableMesh.
    destruct Hmesh as [-> | (m & -> & ->)]; reflexivity.
  - intros pointSet s Hv. unfold renderPointSet. rewrite Hv. reflexivity.
  - intros lineSet s Hl. unfold renderLineSet.
    destruct (isRenderingShadowMap s); [reflexivity|].
    destruct Hl as [-> | Hn]; [reflexivity|].
    apply Z.leb_le in Hn. rewrite Hn, orb_true_r. reflexivity.
Qed.

Lemma empty_geometry_is_skipped_witness :
  renderShape (H := ScalarEigen.instance) Example.meshless_shape initial_renderer = initial_renderer
  /\ renderShape (H := ScalarEigen.instance)
       {| SgShape_addr := ObjAddr 6; mesh := Some Example.empty_mesh;
          material := None; texture := None |} initial_renderer = initial_renderer
  /\ renderPointSet Example.empty_pointSet initial_renderer = initial_renderer
  /\ renderLineSet Example.empty_lineSet initial_renderer = initial_renderer.
Proof.
  destruct (empty_geometry_is_skipped (H := ScalarEigen.instance)) as (Hshape & Hpoints & Hlines).
  split; [|split; [|split]].
  - apply Hshape. left. reflexivity.
  - apply Hshape. right. exists Example.empty_mesh. split; reflexivity.
  - apply Hpoints. reflexivity.
  - apply Hlines. left. reflexivity.
Defined.

(** ** Flat shading *)

Lemma for_loop_from_fold {A : Type} (body : Z -> A -> A) (count : nat) :
  forall (i : Z) (a : A),
    for_loop_from count i body a = fold_left (fun a i => body i a) (seqZ i (Z.of_nat count)) a.
Proof.
  induction count as [|count IH]; intros i a.
  - reflexivity.
  - cbn [for_loop_from]. rewrite IH.
    rewrite Nat2Z.inj_succ, (seqZ_cons i (Z.succ _)) by lia.
    cbn [fold_left]. rewrite Z.pred_succ. f_equal.
Qed.

Lemma for_loop_fold {A : Type} (body : Z -> A -> A) (n : Z) (a : A) :
  for_loop n body a = fold_left (fun a i => body i a) (seqZ 0 n) a.
Proof.
  unfold for_loop. rewrite for_loop_from_fold.
  destruct (Z.le_gt_cases 0 n) as [Hn | Hn].
  - rewrite Z2Nat.id by exact Hn. reflexivity.
  - replace (Z.to_nat n) with O by lia.
    unfold seqZ. replace (Z.to_nat n) with O by lia. reflexivity.
Qed.

Lemma fold_left_flat_map {A B C : Type} (f : A -> B -> A) (g : C -> list B) (l : list C) :
  forall a : A,
    fold_left f (flat_map g l) a = fold_left (fun a x => fold_left f (g x) a) l a.
Proof.
  induction l as [|x l IH]; intros a.
  - reflexivity.
  - cbn [flat_map fold_left]. rewrite fold_left_app. apply IH.
Qed.

Lemma fold_left_push_back {A : Type} (l : list A) :
  forall acc : list A, fold_left (fun a v => a ++ [v]) l acc = acc ++ l.
Proof.
  induction l as [|v l IH]; intros acc.
  - symmetry. apply app_nil_r.
  - cbn [fold_left]. rewrite IH, <- app_assoc. reflexivity.
Qed.

Lemma nth_triples {A : Type} (g : Z -> A) (d : A) (count : nat) :
  forall (start k j : Z),
    0 <= k < Z.of_nat count -> 0 <= j < 3 ->
    nth (Z.to_nat (3 * k + j)) (flat_map (fun i => [g i; g i; g i]) (seqZ start (Z.of_nat count))) d
    = g (start + k).
Proof.
  induction count as [|count IH]; intros start k j Hk Hj.
  - lia.
  - rewrite Nat2Z.inj_succ, (seqZ_cons start (Z.succ _)) by lia.
    rewrite Z.pred_succ. cbn [flat_map].
    destruct (Z.eq_dec k 0) as [-> | Hk0].
    + rewrite Z.add_0_r.
      assert (Hcases : j = 0 \/ j = 1 \/ j = 2) by lia.
      destruct Hcases as [-> | [-> | ->]]; reflexivity.
    + replace (Z.to_nat (3 * k + j)) with (3 + Z.to_nat (3 * (k - 1) + j))%nat by lia.
      cbn [Nat.add app nth].
      rewrite IH by lia. f_equal. lia.
Qed.


(** ** Scene traversal *)

(** Induction on the scene graph: a property holds of a node as soon as it
    holds of its children. *)
Lemma SgNode_children_ind (P : SgNode -> Prop) :
  (forall node, Forall P (childrenOf node) -> P node) -> forall node, P node.
Proof.
  intros step.
  fix rec 1. intros node. apply step.
  destruct node as [self cs|self T cs|self b cs|self cs|sh|ps|ls|self cs|self c cs|self cs];
    cbn [childrenOf]; try (constructor; fail);
    induction cs as [|child cs IH]; constructor; auto.
Qed.

Lemma traversalState_pushProgram (p : ShaderProgram) (b : bool) (s : GLSLSceneRendererImpl) :
  traversalState (pushProgram p b s) = traversalState s.
Proof. reflexivity. Qed.

Lemma traversalState_popProgram (s : GLSLSceneRendererImpl) :
  traversalState (popProgram s) = traversalState s.
Proof. reflexivity. Qed.

Lemma traversalState_emit (e : Event) (s : GLSLSceneRendererImpl) :
  traversalState (emit e s) = traversalState s.
Proof. reflexivity. Qed.

Lemma traversalState_emits (es : list Event) :
  forall s, traversalState (emits es s) = traversalState s.
Proof.
  unfold emits. induction es as [|e es IH]; intros s; [reflexivity|].
  cbn [fold_left]. rewrite IH. reflexivity.
Qed.

Lemma traversalState_set_resources (f : ResourceMembers -> ResourceMembers)
  (s : GLSLSceneRendererImpl) :
  traversalState (set_resources f s) = traversalState s.
Proof. reflexivity. Qed.

Lemma traversalState_getOrCreateVertexResource (obj : SgObjectPtr) (s : GLSLSceneRendererImpl) :
  traversalState (snd (getOrCreateVertexResource obj s)) = traversalState s.
Proof.
  unfold getOrCreateVertexResource.
  destruct (getOrCreateVertexResource_r obj (resources s)) as [[resource created] r].
  reflexivity.
Qed.

Lemma traversalState_renderTexture (texture_ : SgTexture) (s : GLSLSceneRendererImpl) :
  traversalState (snd (renderTexture texture_ s)) = traversalState s.
Proof.
  unfold renderTexture.
  destruct (SgTexture_image texture_) as [sgImage|]; [|reflexivity].
  destruct (SgImage_empty sgImage); [reflexivity|].
  destruct (mapAt (currentResourceMap (resources s)) (resourceMaps (resources s))
              !! SgImage_addr sgImage) as [resource|].
  - destruct (textureAt resource (heap (resources s))) as [t|].
    + destruct (isLoaded t && isImageUpdateNeeded t).
      * destruct (loadTextureImage t (constImage sgImage)) as [[ok t'] calls].
        match goal with
        | |- context [isCheckingUnusedResources (resources ?x)] =>
            destruct (isCheckingUnusedResources (resources x))
        end; cbn [snd]; rewrite ?traversalState_set_resources, traversalState_emits; reflexivity.
      * destruct (isCheckingUnusedResources (resources s)); reflexivity.
    + destruct (isCheckingUnusedResources (resources s)); reflexivity.
  - destruct (loadTextureImage _ (constImage sgImage)) as [[ok t'] calls].
    match goal with
    | |- context [isCheckingUnusedResources (resources ?x)] =>
        destruct (isCheckingUnusedResources (resources x))
    end; cbn [snd]; rewrite ?traversalState_set_resources, traversalState_emits; reflexivity.
Qed.

Lemma traversalState_pushPickId (node : SgObjectPtr) (doSetColor : bool)
  (s : GLSLSceneRendererImpl) :
  traversalState (snd (pushPickId node doSetColor s)) =
    (isPicking s, isActuallyRendering s, isRenderingShadowMap s, settings s,
     modelMatrixStack s,
     if isPicking s then currentNodePath (picking s) ++ [node] else currentNodePath (picking s)).
Proof.
  unfold pushPickId. destruct (isPicking s) eqn:Hp, doSetColor;
    unfold traversalState; cbn; rewrite ?Hp; reflexivity.
Qed.

(** A [popPickId] undoes the [pushPickId] it is paired with, whatever
    state-preserving rendering happens in between. *)
Lemma traversalState_push_pop (node : SgObjectPtr) (doSetColor : bool)
  (s s2 : GLSLSceneRendererImpl) :
  traversalState s2 = traversalState (snd (pushPickId node doSetColor s)) ->
  traversalState (popPickId s2) = traversalState s.
Proof.
  rewrite traversalState_pushPickId. unfold traversalState, popPickId.
  intros Heq. injection Heq as Hp Har Hsm Hset Hstack Hpath.
  rewrite Hp. destruct (isPicking s) eqn:Hpick; cbn.
  - rewrite Hp, Har, Hsm, Hset, Hstack, Hpath, List.removelast_last. reflexivity.
  - rewrite Hp, Har, Hsm, Hset, Hstack, Hpath. reflexivity.
Qed.

(** A [pop_back] of the model matrix stack undoes the [push_back] it is
    paired with. *)
Lemma traversalState_stack_push_pop (x : Affine3) (s s2 : GLSLSceneRendererImpl) :
  traversalState s2 = traversalState (set_modelMatrixStack (fun st => st ++ [x]) s) ->
  traversalState (set_modelMatrixStack (@List.removelast Affine3) s2) = traversalState s.
Proof.
  unfold traversalState. cbn. intros Heq.
  injection Heq as Hp Har Hsm Hset Hstack Hpath.
  rewrite Hp, Har, Hsm, Hset, Hstack, Hpath, List.removelast_last. reflexivity.
Qed.

Lemma traversalState_set_programs (f : ProgramMembers -> ProgramMembers)
  (s : GLSLSceneRendererImpl) :
  traversalState (set_programs f s) = traversalState s.
Proof. reflexivity. Qed.

Lemma traversalState_set_transparentRenderingFunctions f (s : GLSLSceneRendererImpl) :
  traversalState (set_transparentRenderingFunctions f s) = traversalState s.
Proof. reflexivity. Qed.

Lemma traversalState_set_postRenderingFunctions f (s : GLSLSceneRendererImpl) :
  traversalState (set_postRenderingFunctions f s) = traversalState s.
Proof. reflexivity. Qed.

Lemma traversalState_storeVertexResource (resource : nat) (v : VertexResource)
  (s : GLSLSceneRendererImpl) :
  traversalState (storeVertexResource resource v s) = traversalState s.
Proof. reflexivity. Qed.

Lemma traversalState_drawVertexResource source resource mode position
  (s : GLSLSceneRendererImpl) :
  traversalState (drawVertexResource source resource mode position s) = traversalState s.
Proof. reflexivity. Qed.

(** Sequencing a call that returns a value with what follows it. *)
Lemma traversalState_bind {A : Type} (c : A * GLSLSceneRendererImpl)
  (k : A -> GLSLSceneRendererImpl -> GLSLSceneRendererImpl) (s : GLSLSceneRendererImpl) :
  traversalState (snd c) = traversalState s ->
  (forall a s1, traversalState s1 = traversalState s -> traversalState (k a s1) = traversalState s) ->
  traversalState (let '(a, s1) := c in k a s1) = traversalState s.
Proof. destruct c as [a s1]. intros Hc Hk. apply Hk, Hc. Qed.

Section TraversalState.
Context `{Eigen}.

Lemma traversalState_writeMeshVertices mesh_ resource texture_ (s : GLSLSceneRendererImpl) :
  traversalState (writeMeshVertices mesh_ resource texture_ s) = traversalState s.
Proof.
  unfold writeMeshVertices.
  destruct (vertexAt resource (heap (resources s))); reflexivity.
Qed.

Lemma traversalState_renderPlot plot mode n (s : GLSLSceneRendererImpl) :
  traversalState (renderPlot plot mode n s) = traversalState s.
Proof.
  unfold renderPlot. cbv zeta.
  destruct (getOrCreateVertexResource (SgPlot_addr plot) (snd (pushPickId (SgPlot_addr plot) true s)))
    as [resource s1] eqn:Hget.
  apply (traversalState_push_pop (SgPlot_addr plot) true).
  rewrite traversalState_drawVertexResource.
  assert (Hs1 : traversalState s1 = traversalState (snd (pushPickId (SgPlot_addr plot) true s))).
  { rewrite <- (traversalState_getOrCreateVertexResource (SgPlot_addr plot)
                  (snd (pushPickId (SgPlot_addr plot) true s))).
    rewrite Hget. reflexivity. }
  destruct (vertexAt resource (heap (resources s1))) as [v|]; [|exact Hs1].
  destruct (isValid v) as [[|] v']; rewrite traversalState_storeVertexResource; exact Hs1.
Qed.

Lemma traversalState_renderPointSet pointSet (s : GLSLSceneRendererImpl) :
  traversalState (renderPointSet pointSet s) = traversalState s.
Proof.
  unfold renderPointSet.
  destruct (negb (SgPlot_hasVertices (SgPointSet_plot pointSet))); [reflexivity|].
  rewrite traversalState_popProgram, traversalState_renderPlot. reflexivity.
Qed.

Lemma traversalState_renderLineSet lineSet (s : GLSLSceneRendererImpl) :
  traversalState (renderLineSet lineSet s) = traversalState s.
Proof.
  unfold renderLineSet.
  destruct (isRenderingShadowMap s); [reflexivity|].
  destruct (negb (SgPlot_hasVertices (SgLineSet_plot lineSet)) || (numLines lineSet <=? 0));
    [reflexivity|].
  rewrite traversalState_popProgram, traversalState_renderPlot. reflexivity.
Qed.

Lemma traversalState_renderShapeMain shape position pickId (s : GLSLSceneRendererImpl) :
  traversalState (renderShapeMain shape position pickId s) = traversalState s.
Proof.
  unfold renderShapeMain.
  destruct (mesh shape) as [mesh_|]; [|reflexivity].
  apply traversalState_bind.
  { destruct (isPicking s); [reflexivity|].
    destruct (bool_decide _); [|reflexivity].
    destruct (texture shape) as [texture_|]; [|reflexivity].
    destruct (SgMesh_hasTexCoords mesh_); [|reflexivity].
    apply traversalState_renderTexture. }
  intros isTextureValid s1 Hs1.
  apply traversalState_bind.
  { rewrite traversalState_getOrCreateVertexResource. exact Hs1. }
  intros resource s2 Hs2.
  match goal with
  | |- context [drawVertexResource _ _ _ _ ?c] => set (s3 := c)
  end.
  assert (Hs3 : traversalState s3 = traversalState s).
  { unfold s3. destruct (vertexAt resource (heap (resources s2))) as [v|]; [|exact Hs2].
    destruct (isValid v) as [[|] v'].
    - rewrite traversalState_storeVertexResource. exact Hs2.
    - rewrite traversalState_writeMeshVertices, traversalState_storeVertexResource. exact Hs2. }
  clearbody s3.
  match goal with
  | |- traversalState (if ?c then _ else _) = _ => destruct c
  end.
  - destruct (vertexAt resource _) as [[nv nb so [lines|]]|].
    + rewrite traversalState_renderLineSet, traversalState_drawVertexResource. exact Hs3.
    + rewrite traversalState_drawVertexResource. exact Hs3.
    + rewrite traversalState_drawVertexResource. exact Hs3.
  - rewrite traversalState_drawVertexResource. exact Hs3.
Qed.

Lemma traversalState_renderShape shape (s : GLSLSceneRendererImpl) :
  traversalState (renderShape shape s) = traversalState s.
Proof.
  unfold renderShape.
  destruct (hasDrawableMesh shape); [|reflexivity].
  destruct (isTransparent shape).
  - destruct (negb (isRenderingShadowMap s)); [|reflexivity].
    destruct (pushPickId (SgShape_addr shape) false s) as [pickId s1] eqn:Hpush.
    apply (traversalState_push_pop (SgShape_addr shape) false).
    rewrite Hpush. reflexivity.
  - destruct (pushPickId (SgShape_addr shape) false s) as [pickId s1] eqn:Hpush.
    apply (traversalState_push_pop (SgShape_addr shape) false).
    rewrite traversalState_renderShapeMain, Hpush. reflexivity.
Qed.

Lemma traversalState_renderChildNodes dispatch_ (children : list SgNode) :
  Forall (fun child => preservesTraversalState (dispatch_ child)) children ->
  preservesTraversalState (renderChildNodes dispatch_ children).
Proof.
  unfold renderChildNodes.
  induction 1 as [|child children Hchild _ IH]; intros s; [reflexivity|].
  cbn [fold_left]. rewrite IH. apply Hchild.
Qed.

Lemma traversalState_renderGroup dispatch_ group (children : list SgNode) :
  Forall (fun child => preservesTraversalState (dispatch_ child)) children ->
  preservesTraversalState (renderGroup dispatch_ group children).
Proof.
  intros Hchildren s. unfold renderGroup.
  apply (traversalState_push_pop group true).
  apply traversalState_renderChildNodes, Hchildren.
Qed.

Lemma traversalState_dispatch (node : SgNode) : preservesTraversalState (dispatch node).
Proof.
  induction node as [node IH] using SgNode_children_ind.
  intros s.
  destruct node as [self cs|self T cs|self b cs|self cs|sh|ps|ls|self cs|self c cs|self cs];
    cbn [dispatch childrenOf] in *.
  - apply traversalState_renderGroup, IH.
  - unfold renderTransform.
    apply traversalState_stack_push_pop with
      (x := Affine3_mul (List.last (modelMatrixStack s) Affine3_Identity) T).
    apply (traversalState_push_pop self true).
    apply traversalState_renderChildNodes, IH.
  - unfold renderSwitch. destruct b; [|reflexivity].
    apply traversalState_renderGroup, IH.
  - unfold renderUnpickableGroup. destruct (negb (isPicking s)); [|reflexivity].
    apply traversalState_renderGroup, IH.
  - apply traversalState_renderShape.
  - apply traversalState_renderPointSet.
  - apply traversalState_renderLineSet.
  - unfold renderOverlay. destruct (negb (isActuallyRendering s)); [reflexivity|].
    rewrite traversalState_popProgram.
    apply traversalState_stack_push_pop with (x := Affine3_Identity).
    rewrite traversalState_renderGroup by exact IH. reflexivity.
  - unfold renderOutlineGroup. destruct (isPicking s); [|reflexivity].
    apply traversalState_renderGroup, IH.
  - unfold renderSimplifiedRenderingGroup.
    destruct (isRenderingShadowMap s); [reflexivity|].
    destruct (negb (isPicking s)) eqn:Hp.
    + match goal with
      | |- traversalState (if negb (isPicking ?x) then _ else _) = _ =>
          assert (Hx : traversalState x = traversalState s)
            by (rewrite traversalState_renderChildNodes by exact IH; reflexivity);
          assert (Hpx : isPicking x = isPicking s)
            by (unfold traversalState in Hx; congruence);
          rewrite Hpx, Hp, traversalState_popProgram; exact Hx
      end.
    + match goal with
      | |- traversalState (if negb (isPicking ?x) then _ else _) = _ =>
          assert (Hx : traversalState x = traversalState s)
            by (rewrite traversalState_renderChildNodes by exact IH; reflexivity);
          assert (Hpx : isPicking x = isPicking s)
            by (unfold traversalState in Hx; congruence);
          rewrite Hpx, Hp; exact Hx
      end.
Qed.

End TraversalState.

(** C10: whatever the kind of the node, when its rendering function
    returns the model matrix stack is the stack found on entry (hence the
    same depth and the same top element) and the current node path is the
    path found on entry. [dispatch] selects the rendering function by the
    kind of the node: [renderGroup], [renderTransform], [renderSwitch],
    [renderUnpickableGroup], [renderShape], [renderPointSet],
    [renderLineSet], [renderOverlay], [renderOutlineGroup] or
    [renderSimplifiedRenderingGroup]. *)
Theorem rendering_functions_preserve_traversal_state `{Eigen}
  (node : SgNode) (s : GLSLSceneRendererImpl) :
  modelMatrixStack (dispatch node s) = modelMatrixStack s
  /\ length (modelMatrixStack (dispatch node s)) = length (modelMatrixStack s)
  /\ List.last (modelMatrixStack (dispatch node s)) Affine3_Identity =
       List.last (modelMatrixStack s) Affine3_Identity
  /\ currentNodePath (picking (dispatch node s)) = currentNodePath (picking s).
Proof.
  pose proof (traversalState_dispatch node s) as Hstate.
  unfold traversalState in Hstate.
  injection Hstate as _ _ _ _ Hstack Hpath.
  rewrite Hstack, Hpath. auto.
Qed.

(** ** What a pass emits *)

Lemma deferrals_app (a b : list Event) : deferrals (a ++ b) = deferrals a ++ deferrals b.
Proof. apply omap_app. Qed.

Lemma shapeDraws_app (a b : list Event) : shapeDraws (a ++ b) = shapeDraws a ++ shapeDraws b.
Proof. apply omap_app. Qed.

Lemma plotDraws_app (a b : list Event) : plotDraws (a ++ b) = plotDraws a ++ plotDraws b.
Proof. apply omap_app. Qed.

Lemma extends_flag P (s s' : GLSLSceneRendererImpl) :
  extends P s s' -> isRenderingShadowMap s' = isRenderingShadowMap s.
Proof. intros (Hflag & _). exact Hflag. Qed.

Lemma extends_weaken (P Q : list Event -> Prop) (s s' : GLSLSceneRendererImpl) :
  (forall ext, P ext -> Q ext) -> extends P s s' -> extends Q s s'.
Proof.
  intros HPQ (Hflag & (ext & Htrace & Hqueue & HP) & Hpaths).
  split; [exact Hflag|]. split; [|exact Hpaths].
  exists ext. auto.
Qed.

Lemma extends_seq (P1 P2 P3 : list Event -> Prop) (s s1 s2 : GLSLSceneRendererImpl) :
  (forall e1 e2, P1 e1 -> P2 e2 -> P3 (e1 ++ e2)) ->
  extends P1 s s1 -> extends P2 s1 s2 -> extends P3 s s2.
Proof.
  intros Hcomp (Hflag1 & (ext1 & Htrace1 & Hqueue1 & HP1) & (paths1 & Hlist1 & Hne1))
         (Hflag2 & (ext2 & Htrace2 & Hqueue2 & HP2) & (paths2 & Hlist2 & Hne2)).
  split; [congruence|]. split.
  - exists (ext1 ++ ext2). split; [|split].
    + rewrite Htrace2, Htrace1, app_assoc. reflexivity.
    + rewrite Hqueue2, Hqueue1, deferrals_app, app_assoc. reflexivity.
    + apply Hcomp; assumption.
  - exists (paths1 ++ paths2). split.
    + rewrite Hlist2, Hlist1, app_assoc. reflexivity.
    + apply Forall_app. split; assumption.
Qed.

Lemma extends_same (P : list Event -> Prop) (s s' : GLSLSceneRendererImpl) :
  P [] ->
  isRenderingShadowMap s' = isRenderingShadowMap s ->
  trace s' = trace s ->
  transparentRenderingFunctions s' = transparentRenderingFunctions s ->
  pickingNodePathList (picking s') = pickingNodePathList (picking s) ->
  extends P s s'.
Proof.
  intros HP Hflag Htrace Hqueue Hlist. split; [exact Hflag|]. split.
  - exists []. rewrite !app_nil_r. auto.
  - exists []. rewrite app_nil_r. auto.
Qed.

Lemma extends_emit (P : list Event -> Prop) (e : Event) (s : GLSLSceneRendererImpl) :
  P [e] -> deferrals [e] = [] -> extends P s (emit e s).
Proof.
  intros HP Hdef. split; [reflexivity|]. split.
  - exists [e]. rewrite Hdef, app_nil_r. auto.
  - exists []. rewrite app_nil_r. auto.
Qed.

Section Emitting.
(** The events a piece of code may emit: [ok] accepts every auxiliary
    event, draws are accepted case by case. *)
Variable ok : Event -> Prop.
Hypothesis ok_auxiliary : forall e, isAuxiliary e = true -> ok e.

Lemma emitting_trans (s s1 s2 : GLSLSceneRendererImpl) :
  extends (Forall ok) s s1 -> extends (Forall ok) s1 s2 -> extends (Forall ok) s s2.
Proof.
  apply extends_seq. intros e1 e2 H1 H2. apply Forall_app. split; assumption.
Qed.

Lemma emitting_same (s s' : GLSLSceneRendererImpl) :
  isRenderingShadowMap s' = isRenderingShadowMap s ->
  trace s' = trace s ->
  transparentRenderingFunctions s' = transparentRenderingFunctions s ->
  pickingNodePathList (picking s') = pickingNodePathList (picking s) ->
  extends (Forall ok) s s'.
Proof. apply extends_same. constructor. Qed.

Lemma emitting_refl (s : GLSLSceneRendererImpl) : extends (Forall ok) s s.
Proof. apply emitting_same; reflexivity. Qed.

Lemma emitting_emit_auxiliary (e : Event) (s : GLSLSceneRendererImpl) :
  isAuxiliary e = true -> extends (Forall ok) s (emit e s).
Proof.
  intros Haux. apply extends_emit.
  - constructor; [apply ok_auxiliary, Haux | constructor].
  - destruct e; try discriminate Haux; reflexivity.
Qed.

Lemma emitting_emits_auxiliary (es : list Event) :
  Forall (fun e => isAuxiliary e = true) es ->
  forall s, extends (Forall ok) s (emits es s).
Proof.
  unfold emits. induction 1 as [|e es He _ IH]; intros s.
  - apply emitting_refl.
  - cbn [fold_left]. eapply emitting_trans; [|apply IH].
    apply emitting_emit_auxiliary, He.
Qed.

Lemma emitting_set_resources f (s : GLSLSceneRendererImpl) :
  extends (Forall ok) s (set_resources f s).
Proof. apply emitting_same; reflexivity. Qed.

Lemma emitting_set_programs f (s : GLSLSceneRendererImpl) :
  extends (Forall ok) s (set_programs f s).
Proof. apply emitting_same; reflexivity. Qed.

Lemma emitting_pushProgram p b (s : GLSLSceneRendererImpl) :
  extends (Forall ok) s (pushProgram p b s).
Proof. apply emitting_same; reflexivity. Qed.

Lemma emitting_popProgram (s : GLSLSceneRendererImpl) :
  extends (Forall ok) s (popProgram s).
Proof. apply emitting_same; reflexivity. Qed.

Lemma emitting_set_modelMatrixStack f (s : GLSLSceneRendererImpl) :
  extends (Forall ok) s (set_modelMatrixStack f s).
Proof. apply emitting_same; reflexivity. Qed.

Lemma emitting_set_postRenderingFunctions f (s : GLSLSceneRendererImpl) :
  extends (Forall ok) s (set_postRenderingFunctions f s).
Proof. apply emitting_same; reflexivity. Qed.

Lemma emitting_storeVertexResource resource v (s : GLSLSceneRendererImpl) :
  extends (Forall ok) s (storeVertexResource resource v s).
Proof. apply emitting_same; reflexivity. Qed.

Lemma emitting_getOrCreateVertexResource obj (s : GLSLSceneRendererImpl) :
  extends (Forall ok) s (snd (getOrCreateVertexResource obj s)).
Proof.
  unfold getOrCreateVertexResource.
  destruct (getOrCreateVertexResource_r obj (resources s)) as [[resource created] r].
  apply emitting_same; reflexivity.
Qed.

Lemma emitting_setPickColor id (s : GLSLSceneRendererImpl) :
  extends (Forall ok) s (setPickColor id s).
Proof. apply emitting_emit_auxiliary. reflexivity. Qed.

Lemma emitting_pushPickId node doSetColor (s : GLSLSceneRendererImpl) :
  extends (Forall ok) s (snd (pushPickId node doSetColor s)).
Proof.
  unfold pushPickId. destruct (isPicking s); [|apply emitting_refl].
  cbn [snd].
  match goal with
  | |- extends _ _ (if doSetColor then setPickColor ?id ?x else _) =>
      apply emitting_trans with (s1 := x);
      [|destruct doSetColor; [apply emitting_setPickColor | apply emitting_refl]]
  end.
  split; [reflexivity|]. split.
  - exists []. cbn. rewrite !app_nil_r. auto.
  - exists [currentNodePath (picking s) ++ [node]]. split; [reflexivity|].
    constructor; [|constructor].
    intros Hnil. apply app_eq_nil in Hnil. destruct Hnil as [_ Hnil]. discriminate.
Qed.

Lemma emitting_popPickId (s : GLSLSceneRendererImpl) :
  extends (Forall ok) s (popPickId s).
Proof.
  unfold popPickId. destruct (isPicking s); [|apply emitting_refl].
  apply emitting_same; reflexivity.
Qed.

Lemma emitting_drawVertexResource source resource mode position (s : GLSLSceneRendererImpl) :
  okDraw ok source -> extends (Forall ok) s (drawVertexResource source resource mode position s).
Proof.
  intros Hdraw. unfold drawVertexResource. apply extends_emit.
  - constructor; [apply Hdraw | constructor].
  - reflexivity.
Qed.

End Emitting.

Lemma loadTextureImage_auxiliary (t : TextureResource) (image_ : Image) :
  Forall (fun e => isAuxiliary e = true) (snd (loadTextureImage t image_)).
Proof.
  unfold loadTextureImage.
  destruct (imageFormat (Image_numComponents image_)) as [format|].
  - cbn [isLoaded].
    destruct (isLoaded t && isSameSizeAs _ image_); cbn [snd].
    + repeat constructor.
    + destruct (isPowerOfTwo (Image_width image_) && isPowerOfTwo (Image_height image_));
        repeat constructor.
  - unfold TextureResource_clear. destruct (isLoaded t); cbn [snd]; [|constructor].
    destruct (textureId t =? 0), (samplerId t =? 0); repeat constructor.
Qed.

(** Sequencing a call that returns a value with what follows it. *)
Lemma extends_bind {A : Type} (P Q : list Event -> Prop) (c : A * GLSLSceneRendererImpl)
  (k : A -> GLSLSceneRendererImpl -> GLSLSceneRendererImpl) (s : GLSLSceneRendererImpl) :
  extends P s (snd c) ->
  (forall a s1, extends P s s1 -> extends Q s (k a s1)) ->
  extends Q s (let '(a, s1) := c in k a s1).
Proof. destruct c as [a s1]. intros Hc Hk. apply Hk, Hc. Qed.

Section EmittingDraws.
Context `{Eigen}.
Variable ok : Event -> Prop.
Hypothesis ok_auxiliary : forall e, isAuxiliary e = true -> ok e.

Lemma emitting_renderTexture texture_ (s : GLSLSceneRendererImpl) :
  extends (Forall ok) s (snd (renderTexture texture_ s)).
Proof.
  unfold renderTexture.
  destruct (SgTexture_image texture_) as [sgImage|]; [|apply emitting_refl].
  destruct (SgImage_empty sgImage); [apply emitting_refl|].
  assert (Hcheck : forall key resource s1,
             extends (Forall ok) s s1 ->
             extends (Forall ok) s
               (if isCheckingUnusedResources (resources s1)
                then set_resources
                       (fun r => set_resourceMaps
                                   (updateMapAt (nextResourceMap r)
                                      (unordered_map_insert key resource) (resourceMaps r)) r) s1
                else s1)).
  { intros key resource s1 Hs1. destruct (isCheckingUnusedResources (resources s1)); [|exact Hs1].
    eapply emitting_trans; [exact Hs1 | apply emitting_set_resources]. }
  destruct (mapAt (currentResourceMap (resources s)) (resourceMaps (resources s))
              !! SgImage_addr sgImage) as [resource|].
  - destruct (textureAt resource (heap (resources s))) as [t|].
    + destruct (isLoaded t && isImageUpdateNeeded t).
      * pose proof (loadTextureImage_auxiliary t (constImage sgImage)) as Haux.
        destruct (loadTextureImage t (constImage sgImage)) as [[loaded t'] calls].
        cbn [snd] in *. apply Hcheck.
        eapply emitting_trans; [apply emitting_set_resources|].
        apply emitting_emits_auxiliary; assumption.
      * cbn [snd]. apply Hcheck, emitting_refl.
    + cbn [snd]. apply Hcheck, emitting_refl.
  - match goal with
    | |- context [loadTextureImage ?t0 _] =>
        pose proof (loadTextureImage_auxiliary t0 (constImage sgImage)) as Haux;
        destruct (loadTextureImage t0 (constImage sgImage)) as [[loaded t'] calls]
    end.
    cbn [snd] in *. apply Hcheck.
    eapply emitting_trans; [apply emitting_set_resources|].
    apply emitting_emits_auxiliary; assumption.
Qed.

Lemma emitting_writeMeshVertices mesh_ resource texture_ (s : GLSLSceneRendererImpl) :
  extends (Forall ok) s (writeMeshVertices mesh_ resource texture_ s).
Proof.
  unfold writeMeshVertices.
  destruct (vertexAt resource (heap (resources s))); [|apply emitting_refl].
  apply emitting_storeVertexResource.
Qed.

Lemma emitting_renderPlot plot mode n (s : GLSLSceneRendererImpl) :
  okDraw ok (PlotSource plot) -> extends (Forall ok) s (renderPlot plot mode n s).
Proof.
  intros Hdraw. unfold renderPlot. cbv zeta.
  apply (extends_bind (Forall ok)).
  { eapply emitting_trans; [apply emitting_pushPickId; assumption|].
    apply emitting_getOrCreateVertexResource. }
  intros resource s1 Hs1.
  eapply emitting_trans; [|apply emitting_popPickId].
  eapply emitting_trans; [|apply emitting_drawVertexResource; assumption].
  destruct (vertexAt resource (heap (resources s1))) as [v|]; [|exact Hs1].
  destruct (isValid v) as [[|] v'];
    (eapply emitting_trans; [exact Hs1 | apply emitting_storeVertexResource]).
Qed.

Lemma emitting_renderPointSet pointSet (s : GLSLSceneRendererImpl) :
  okDraw ok (PlotSource (SgPointSet_plot pointSet)) ->
  extends (Forall ok) s (renderPointSet pointSet s).
Proof.
  intros Hdraw. unfold renderPointSet.
  destruct (negb (SgPlot_hasVertices (SgPointSet_plot pointSet))); [apply emitting_refl|].
  eapply emitting_trans; [|apply emitting_popProgram].
  eapply emitting_trans; [apply emitting_pushProgram|].
  apply emitting_renderPlot, Hdraw.
Qed.

Lemma emitting_renderLineSet lineSet (s : GLSLSceneRendererImpl) :
  okDraw ok (PlotSource (SgLineSet_plot lineSet)) ->
  extends (Forall ok) s (renderLineSet lineSet s).
Proof.
  intros Hdraw. unfold renderLineSet.
  destruct (isRenderingShadowMap s); [apply emitting_refl|].
  destruct (negb (SgPlot_hasVertices (SgLineSet_plot lineSet)) || (numLines lineSet <=? 0));
    [apply emitting_refl|].
  eapply emitting_trans; [|apply emitting_popProgram].
  eapply emitting_trans; [apply emitting_pushProgram|].
  apply emitting_renderPlot, Hdraw.
Qed.

End EmittingDraws.

(** An event that [ok] accepts and that is not the draw of a shape. *)
Lemma Forall_not_shape_draw (ok : Event -> Prop) (ext : list Event) :
  Forall (fun e => ok e /\ shapeDraws [e] = []) ext -> shapeDraws ext = [] /\ Forall ok ext.
Proof.
  induction 1 as [|e ext [He Hs] _ [IHs IHok]]; [split; [reflexivity | constructor]|].
  split; [|constructor; assumption].
  change (e :: ext) with ([e] ++ ext). rewrite shapeDraws_app, Hs, IHs. reflexivity.
Qed.

Section ShapeMain.
Context `{Eigen}.
Variable ok : Event -> Prop.
Hypothesis ok_auxiliary : forall e, isAuxiliary e = true -> ok e.

(** [renderShapeMain] draws its shape once; whatever else it emits is
    auxiliary or draws the line set of the normal visualization. *)
Lemma renderShapeMain_draws_once shape position pickId (s : GLSLSceneRendererImpl) :
  mesh shape <> None ->
  okDraw ok (ShapeSource shape) ->
  (forall plot, isNormalVisualization plot -> okDraw ok (PlotSource plot)) ->
  extends (fun ext => shapeDraws ext = [shape] /\ Forall ok ext) s
    (renderShapeMain shape position pickId s).
Proof.
  intros Hmesh Hshape Hnormals.
  set (ok' := fun e => ok e /\ shapeDraws [e] = []).
  assert (Haux' : forall e, isAuxiliary e = true -> ok' e).
  { intros e He. split; [apply ok_auxiliary, He|].
    destruct e; try discriminate He; reflexivity. }
  assert (Hnormals' : forall plot, isNormalVisualization plot -> okDraw ok' (PlotSource plot)).
  { intros plot Hplot r m p c. split; [apply Hnormals, Hplot | reflexivity]. }
  unfold renderShapeMain.
  destruct (mesh shape) as [mesh_|]; [|congruence].
  apply (extends_bind (Forall ok')).
  { destruct (isPicking s); [apply emitting_setPickColor; assumption|].
    destruct (bool_decide _); [|apply emitting_refl].
    destruct (texture shape) as [texture_|]; [|apply emitting_refl].
    destruct (SgMesh_hasTexCoords mesh_); [|apply emitting_refl].
    apply emitting_renderTexture, Haux'. }
  intros isTextureValid s1 Hs1.
  apply (extends_bind (Forall ok')).
  { eapply emitting_trans; [exact Hs1 | apply emitting_getOrCreateVertexResource]. }
  intros resource s2 Hs2.
  match goal with
  | |- context [drawVertexResource _ _ _ _ ?c] => set (s3 := c)
  end.
  assert (Hs3 : extends (Forall ok') s s3).
  { unfold s3. destruct (vertexAt resource (heap (resources s2))) as [v|]; [|exact Hs2].
    destruct (isValid v) as [[|] v'].
    - eapply emitting_trans; [exact Hs2 | apply emitting_storeVertexResource].
    - eapply emitting_trans; [|apply emitting_writeMeshVertices].
      eapply emitting_trans; [exact Hs2 | apply emitting_storeVertexResource]. }
  clearbody s3.
  set (s4 := drawVertexResource (ShapeSource shape) resource GL_TRIANGLES position s3).
  assert (Hs4 : extends (fun ext => shapeDraws ext = [shape] /\ Forall ok ext) s s4).
  { apply extends_seq with (P1 := Forall ok')
                           (P2 := fun ext => shapeDraws ext = [shape] /\ Forall ok ext)
                           (s1 := s3); [|exact Hs3|].
    - intros e1 e2 H1 [H2 H2ok]. apply Forall_not_shape_draw in H1. destruct H1 as [H1 H1ok].
      rewrite shapeDraws_app, H1, H2. split; [reflexivity|].
      apply Forall_app. split; assumption.
    - unfold s4, drawVertexResource. apply extends_emit; [|reflexivity].
      split; [reflexivity|]. constructor; [apply Hshape | constructor]. }
  clearbody s4.
  assert (Hsuffix : forall s5, extends (Forall ok') s4 s5 ->
                               extends (fun ext => shapeDraws ext = [shape] /\ Forall ok ext) s s5).
  { intros s5 Hs5.
    apply extends_seq with (P1 := fun ext => shapeDraws ext = [shape] /\ Forall ok ext)
                           (P2 := Forall ok') (s1 := s4); [|exact Hs4|exact Hs5].
    intros e1 e2 [H1 H1ok] H2. apply Forall_not_shape_draw in H2. destruct H2 as [H2 H2ok].
    rewrite shapeDraws_app, H1, H2. split; [reflexivity|].
    apply Forall_app. split; assumption. }
  match goal with
  | |- extends _ _ (if ?c then _ else _) => destruct c
  end; [|exact Hs4].
  destruct (vertexAt resource _) as [[nv nb so [lines|]]|]; try exact Hs4.
  apply Hsuffix. apply emitting_renderLineSet; [exact Haux'|].
  apply Hnormals'. exists resource. reflexivity.
Qed.

Lemma emitting_renderShapeMain shape position pickId (s : GLSLSceneRendererImpl) :
  okDraw ok (ShapeSource shape) ->
  (forall plot, isNormalVisualization plot -> okDraw ok (PlotSource plot)) ->
  extends (Forall ok) s (renderShapeMain shape position pickId s).
Proof.
  intros Hshape Hnormals.
  destruct (mesh shape) as [mesh_|] eqn:Hmesh.
  - apply extends_weaken with (P := fun ext => shapeDraws ext = [shape] /\ Forall ok ext);
      [intros ext [_ Hok]; exact Hok|].
    apply renderShapeMain_draws_once; [congruence | assumption | assumption].
  - unfold renderShapeMain. rewrite Hmesh. apply emitting_refl.
Qed.

End ShapeMain.


(** ** The opaque part of a pass *)

Lemma opaqueEvent_auxiliary (shadow : bool) (e : Event) :
  isAuxiliary e = true -> opaqueEvent shadow e.
Proof. destruct e; try discriminate; intros _; exact I. Qed.

Lemma opaqueEvent_plot (shadow : bool) (plot : SgPlot) :
  okDraw (opaqueEvent shadow) (PlotSource plot).
Proof. intros r m p c. exact I. Qed.

Section OpaquePass.
Context `{Eigen}.

Lemma emitsOpaque_renderShape (shape : SgShape) : emitsOpaque (renderShape shape).
Proof.
  intros shadow s Hshadow. unfold renderShape.
  destruct (hasDrawableMesh shape) eqn:Hmesh; [|apply emitting_refl].
  destruct (isTransparent shape) eqn:Htransparent.
  - destruct (isRenderingShadowMap s) eqn:Hflag; cbn [negb]; [apply emitting_refl|].
    apply (extends_bind (Forall (opaqueEvent shadow))).
    { apply emitting_pushPickId, opaqueEvent_auxiliary. }
    intros pickId s1 Hs1.
    eapply emitting_trans; [|apply emitting_popPickId].
    eapply emitting_trans; [exact Hs1|].
    split; [reflexivity|]. split.
    + eexists [deferred _]. split; [reflexivity|]. split; [reflexivity|].
      constructor; [|constructor]. cbn. subst shadow. auto.
    + exists []. rewrite app_nil_r. auto.
  - apply (extends_bind (Forall (opaqueEvent shadow))).
    { apply emitting_pushPickId, opaqueEvent_auxiliary. }
    intros pickId s1 Hs1.
    eapply emitting_trans; [|apply emitting_popPickId].
    eapply emitting_trans; [exact Hs1|].
    apply emitting_renderShapeMain.
    + apply opaqueEvent_auxiliary.
    + intros r m p c. exact Htransparent.
    + intros plot _. apply opaqueEvent_plot.
Qed.

Lemma emitsOpaque_renderChildNodes dispatch_ (children : list SgNode) :
  Forall (fun child => emitsOpaque (dispatch_ child)) children ->
  emitsOpaque (renderChildNodes dispatch_ children).
Proof.
  unfold renderChildNodes.
  induction 1 as [|child children Hchild _ IH]; intros shadow s Hshadow.
  - apply emitting_refl.
  - cbn [fold_left].
    pose proof (Hchild shadow s Hshadow) as Hstep.
    eapply emitting_trans; [exact Hstep|].
    apply IH. rewrite (extends_flag _ _ _ Hstep). exact Hshadow.
Qed.

(** [f] then the rendering of the children then [g], where [f] and [g]
    emit opaque events only. *)
Lemma emitsOpaque_around dispatch_ (children : list SgNode)
  (before after : GLSLSceneRendererImpl -> GLSLSceneRendererImpl) :
  Forall (fun child => emitsOpaque (dispatch_ child)) children ->
  emitsOpaque before -> emitsOpaque after ->
  emitsOpaque (fun s => after (renderChildNodes dispatch_ children (before s))).
Proof.
  intros Hchildren Hbefore Hafter shadow s Hshadow.
  pose proof (Hbefore shadow s Hshadow) as H1.
  pose proof (emitsOpaque_renderChildNodes dispatch_ children Hchildren shadow (before s)) as H2.
  rewrite (extends_flag _ _ _ H1) in H2. specialize (H2 Hshadow).
  eapply emitting_trans; [|apply Hafter].
  - eapply emitting_trans; [exact H1 | exact H2].
  - rewrite (extends_flag _ _ _ H2), (extends_flag _ _ _ H1). exact Hshadow.
Qed.

Lemma emitsOpaque_pushPickId node doSetColor :
  emitsOpaque (fun s => snd (pushPickId node doSetColor s)).
Proof. intros shadow s _. apply emitting_pushPickId, opaqueEvent_auxiliary. Qed.

Lemma emitsOpaque_popPickId : emitsOpaque popPickId.
Proof. intros shadow s _. apply emitting_popPickId. Qed.

Lemma emitsOpaque_compose (f g : GLSLSceneRendererImpl -> GLSLSceneRendererImpl) :
  emitsOpaque f -> emitsOpaque g -> emitsOpaque (fun s => g (f s)).
Proof.
  intros Hf Hg shadow s Hshadow.
  pose proof (Hf shadow s Hshadow) as H1.
  eapply emitting_trans; [exact H1|].
  apply Hg. rewrite (extends_flag _ _ _ H1). exact Hshadow.
Qed.

Lemma emitsOpaque_renderGroup dispatch_ group (children : list SgNode) :
  Forall (fun child => emitsOpaque (dispatch_ child)) children ->
  emitsOpaque (renderGroup dispatch_ group children).
Proof.
  intros Hchildren.
  apply (emitsOpaque_around dispatch_ children
           (fun s => snd (pushPickId group true s)) popPickId Hchildren).
  - apply emitsOpaque_pushPickId.
  - apply emitsOpaque_popPickId.
Qed.

Lemma emitsOpaque_silent (f : GLSLSceneRendererImpl -> GLSLSceneRendererImpl) :
  (forall s, isRenderingShadowMap (f s) = isRenderingShadowMap s
             /\ trace (f s) = trace s
             /\ transparentRenderingFunctions (f s) = transparentRenderingFunctions s
             /\ pickingNodePathList (picking (f s)) = pickingNodePathList (picking s)) ->
  emitsOpaque f.
Proof.
  intros Hf shadow s _. destruct (Hf s) as (H1 & H2 & H3 & H4).
  apply emitting_same; assumption.
Qed.

Lemma emitsOpaque_dispatch (node : SgNode) : emitsOpaque (dispatch node).
Proof.
  induction node as [node IH] using SgNode_children_ind.
  destruct node as [self cs|self T cs|self b cs|self cs|sh|ps|ls|self cs|self c cs|self cs];
    cbn [dispatch childrenOf] in *.
  - apply emitsOpaque_renderGroup, IH.
  - unfold renderTransform.
    apply (emitsOpaque_around dispatch cs
             (fun s => snd (pushPickId self true
                              (set_modelMatrixStack
                                 (fun st => st ++ [Affine3_mul (List.last st Affine3_Identity) T]) s)))
             (fun s => set_modelMatrixStack (@List.removelast Affine3) (popPickId s)) IH).
    + apply (emitsOpaque_compose
               (set_modelMatrixStack
                  (fun st => st ++ [Affine3_mul (List.last st Affine3_Identity) T]))
               (fun s => snd (pushPickId self true s))).
      * apply emitsOpaque_silent. intros s. repeat split.
      * apply emitsOpaque_pushPickId.
    + apply (emitsOpaque_compose popPickId (set_modelMatrixStack (@List.removelast Affine3))).
      * apply emitsOpaque_popPickId.
      * apply emitsOpaque_silent. intros s. repeat split.
  - intros shadow s Hshadow. unfold renderSwitch. destruct b; [|apply emitting_refl].
    apply emitsOpaque_renderGroup; assumption.
  - intros shadow s Hshadow. unfold renderUnpickableGroup.
    destruct (negb (isPicking s)); [|apply emitting_refl].
    apply emitsOpaque_renderGroup; assumption.
  - apply emitsOpaque_renderShape.
  - intros shadow s _. apply emitting_renderPointSet.
    + apply opaqueEvent_auxiliary.
    + apply opaqueEvent_plot.
  - intros shadow s _. apply emitting_renderLineSet.
    + apply opaqueEvent_auxiliary.
    + apply opaqueEvent_plot.
  - intros shadow s Hshadow. unfold renderOverlay.
    destruct (negb (isActuallyRendering s)); [apply emitting_refl|].
    eapply emitting_trans; [|apply emitting_popProgram].
    eapply emitting_trans; [|apply emitting_set_modelMatrixStack].
    eapply emitting_trans; [|apply emitsOpaque_renderGroup; [exact IH | exact Hshadow]].
    eapply emitting_trans; [apply emitting_pushProgram | apply emitting_set_modelMatrixStack].
  - intros shadow s Hshadow. unfold renderOutlineGroup.
    destruct (isPicking s).
    + apply emitsOpaque_renderGroup; assumption.
    + apply emitting_set_postRenderingFunctions.
  - intros shadow s Hshadow. unfold renderSimplifiedRenderingGroup.
    destruct (isRenderingShadowMap s) eqn:Hflag; [apply emitting_refl|].
    cbv zeta.
    match goal with
    | |- context [renderChildNodes dispatch cs ?first] => set (s1 := first)
    end.
    assert (Hs1 : extends (Forall (opaqueEvent shadow)) s s1).
    { unfold s1. destruct (negb (isPicking s)); [|apply emitting_refl].
      eapply emitting_trans; [apply emitting_pushProgram | apply emitting_set_programs]. }
    assert (Hs2 : extends (Forall (opaqueEvent shadow)) s (renderChildNodes dispatch cs s1)).
    { eapply emitting_trans; [exact Hs1|].
      apply emitsOpaque_renderChildNodes; [exact IH|].
      rewrite (extends_flag _ _ _ Hs1). congruence. }
    clearbody s1.
    destruct (negb (isPicking _)); [|exact Hs2].
    eapply emitting_trans; [exact Hs2 | apply emitting_popProgram].
Qed.

Lemma emitsOpaque_step (f : GLSLSceneRendererImpl -> GLSLSceneRendererImpl)
  (shadow : bool) (s s1 : GLSLSceneRendererImpl) :
  emitsOpaque f ->
  isRenderingShadowMap s = shadow ->
  extends (Forall (opaqueEvent shadow)) s s1 ->
  extends (Forall (opaqueEvent shadow)) s (f s1).
Proof.
  intros Hf Hshadow Hs1.
  eapply emitting_trans; [exact Hs1|].
  apply Hf. rewrite (extends_flag _ _ _ Hs1). exact Hshadow.
Qed.

Lemma emitsOpaque_renderOutlineGroupMain (f : PostRenderingFunction) :
  emitsOpaque (renderOutlineGroupMain f).
Proof.
  assert (Hchildren : emitsOpaque (renderChildNodes dispatch (captured_children f))).
  { apply emitsOpaque_renderChildNodes. apply Forall_forall. intros child _.
    apply emitsOpaque_dispatch. }
  intros shadow s Hshadow. unfold renderOutlineGroupMain. cbv zeta.
  apply emitsOpaque_step; [apply emitsOpaque_silent; intros s0; repeat split | exact Hshadow |].
  apply emitsOpaque_step; [apply emitsOpaque_silent; intros s0; repeat split | exact Hshadow |].
  apply emitsOpaque_step; [exact Hchildren | exact Hshadow |].
  apply emitsOpaque_step; [| exact Hshadow |].
  { intros shadow0 s0 _. apply emitting_emit_auxiliary;
      [apply opaqueEvent_auxiliary | reflexivity]. }
  apply emitsOpaque_step; [apply emitsOpaque_silent; intros s0; repeat split | exact Hshadow |].
  apply emitsOpaque_step; [exact Hchildren | exact Hshadow |].
  apply emitting_set_modelMatrixStack.
Qed.

End OpaquePass.

(** ** Passes and frames *)

Lemma opaqueEvent_any_pass (shadow : bool) (e : Event) :
  opaqueEvent shadow e -> opaqueEvent false e.
Proof.
  destruct e as [| | |[shape|plot]| | | | | | |f]; cbn; auto.
  intros (_ & Ht & Hm). auto.
Qed.

Lemma opaqueEvent_shadow_defers_nothing (ext : list Event) :
  Forall (opaqueEvent true) ext -> deferrals ext = [].
Proof.
  induction 1 as [|e ext He _ IH]; [reflexivity|].
  change (e :: ext) with ([e] ++ ext). rewrite deferrals_app, IH, app_nil_r.
  destruct e; try reflexivity. destruct He as (Hfalse & _). discriminate.
Qed.

Lemma opaqueEvent_shapeDraws (shadow : bool) (ext : list Event) :
  Forall (opaqueEvent shadow) ext ->
  Forall (fun shape => isTransparent shape = false) (shapeDraws ext).
Proof.
  induction 1 as [|e ext He _ IH]; [constructor|].
  change (e :: ext) with ([e] ++ ext). rewrite shapeDraws_app. apply Forall_app. split; [|exact IH].
  destruct e as [| | |[shape|plot]| | | | | | |f]; cbn; constructor; auto.
Qed.

Lemma opaqueEvent_deferrals (shadow : bool) (ext : list Event) :
  Forall (opaqueEvent shadow) ext ->
  Forall (fun f => isTransparent (captured_shape f) = true
                   /\ hasDrawableMesh (captured_shape f) = true) (deferrals ext).
Proof.
  induction 1 as [|e ext He _ IH]; [constructor|].
  change (e :: ext) with ([e] ++ ext). rewrite deferrals_app. apply Forall_app. split; [|exact IH].
  destruct e as [| | |[shape|plot]| | | | | | |f]; cbn; constructor; auto.
  destruct He as (_ & Ht & Hm). auto.
Qed.

Lemma transparentPassEvent_deferrals (ext : list Event) :
  Forall transparentPassEvent ext -> deferrals ext = [].
Proof.
  induction 1 as [|e ext He _ IH]; [reflexivity|].
  change (e :: ext) with ([e] ++ ext). rewrite deferrals_app, IH, app_nil_r.
  destruct e; try reflexivity. destruct He.
Qed.

Lemma transparentPassEvent_plotDraws (ext : list Event) :
  Forall transparentPassEvent ext -> Forall isNormalVisualization (plotDraws ext).
Proof.
  induction 1 as [|e ext He _ IH]; [constructor|].
  change (e :: ext) with ([e] ++ ext). rewrite plotDraws_app. apply Forall_app. split; [|exact IH].
  destruct e as [| | |[shape|plot]| | | | | | |f]; cbn; constructor; auto.
Qed.

Lemma transparentPassEvent_auxiliary (e : Event) :
  isAuxiliary e = true -> transparentPassEvent e.
Proof. destruct e; try discriminate; intros _; exact I. Qed.

Lemma scenePass_orderedFrame (s s' : GLSLSceneRendererImpl) (opaquePass transparentPass : list Event) :
  scenePass s s' opaquePass transparentPass -> orderedFrame opaquePass transparentPass.
Proof.
  intros (_ & Hopaque & Hdraws & Htransparent & _).
  split; [apply (opaqueEvent_shapeDraws false), Hopaque|].
  split.
  { eapply Forall_impl; [apply (opaqueEvent_deferrals false), Hopaque|].
    intros f [Ht _]. exact Ht. }
  split; [exact Hdraws|].
  split; [apply transparentPassEvent_deferrals, Htransparent|].
  apply transparentPassEvent_plotDraws, Htransparent.
Qed.

Section Passes.
Context `{Eigen}.
Variable self : GLSceneRenderer.

Lemma renderTransparentObjects_closures (closures : list TransparentRenderingFunction) :
  Forall (fun f => mesh (captured_shape f) <> None) closures ->
  forall s,
    extends (fun ext => shapeDraws ext = map captured_shape closures
                        /\ Forall transparentPassEvent ext) s
      (fold_left (fun s f => renderShapeMain (captured_shape f) (captured_position f)
                               (captured_pickId f) s) closures s).
Proof.
  induction 1 as [|f closures Hf _ IH]; intros s.
  - apply extends_same; try reflexivity. split; [reflexivity | constructor].
  - cbn [fold_left map].
    eapply extends_seq; [| |apply IH].
    2:{ apply (renderShapeMain_draws_once transparentPassEvent
                 transparentPassEvent_auxiliary (captured_shape f)); [exact Hf | |].
        - intros r m p c. exact I.
        - intros plot Hplot r m p c. exact Hplot. }
    intros e1 e2 [H1 H1ok] [H2 H2ok]. cbv beta.
    rewrite shapeDraws_app, H1, H2. split; [reflexivity|].
    apply Forall_app. split; assumption.
Qed.

Lemma renderTransparentObjects_pass (s : GLSLSceneRendererImpl) :
  Forall (fun f => mesh (captured_shape f) <> None) (transparentRenderingFunctions s) ->
  exists ext,
    trace (renderTransparentObjects s) = trace s ++ ext
    /\ shapeDraws ext = map captured_shape (transparentRenderingFunctions s)
    /\ Forall transparentPassEvent ext
    /\ isRenderingShadowMap (renderTransparentObjects s) = isRenderingShadowMap s
    /\ exists paths,
        pickingNodePathList (picking (renderTransparentObjects s)) =
          pickingNodePathList (picking s) ++ paths
        /\ Forall (fun path => path <> []) paths.
Proof.
  intros Hmesh. unfold renderTransparentObjects. cbv zeta.
  set (P := fun ext => shapeDraws ext = map captured_shape (transparentRenderingFunctions s)
                       /\ Forall transparentPassEvent ext).
  set (s1 := if negb (isPicking s) then emit (glDepthMask false) (emit (glEnable GL_BLEND) s) else s).
  assert (Hs1 : extends (Forall (fun e => isAuxiliary e = true)) s s1).
  { unfold s1. destruct (negb (isPicking s)); [|apply emitting_refl].
    eapply emitting_trans; apply emitting_emit_auxiliary; auto. }
  assert (Hqueue : transparentRenderingFunctions s1 = transparentRenderingFunctions s).
  { unfold s1. destruct (negb (isPicking s)); reflexivity. }
  rewrite Hqueue. clearbody s1.
  match goal with
  | |- context [fold_left ?body ?l s1] => set (s2 := fold_left body l s1)
  end.
  assert (Hs2 : extends P s s2).
  { eapply extends_seq; [|exact Hs1|apply renderTransparentObjects_closures, Hmesh].
    intros e1 e2 H1 [H2 H2ok]. split.
    - rewrite shapeDraws_app, H2.
      replace (shapeDraws e1) with (@nil SgShape); [reflexivity|].
      clear - H1. induction H1 as [|e e1 He _ IH]; [reflexivity|].
      change (e :: e1) with ([e] ++ e1). rewrite shapeDraws_app, <- IH.
      destruct e; try discriminate He; reflexivity.
    - apply Forall_app. split; [|exact H2ok].
      eapply Forall_impl; [exact H1|]. apply transparentPassEvent_auxiliary. }
  clearbody s2.
  match goal with
  | |- context [set_transparentRenderingFunctions _ ?x] => set (s3 := x)
  end.
  assert (Hs3 : extends P s s3).
  { unfold s3. destruct (negb (isPicking s2)); [|exact Hs2].
    eapply extends_seq; [|exact Hs2|].
    2:{ eapply (emitting_trans (fun e => isAuxiliary e = true));
          apply emitting_emit_auxiliary; auto. }
    intros e1 e2 [H1 H1ok] H2. split.
    - rewrite shapeDraws_app, H1.
      replace (shapeDraws e2) with (@nil SgShape); [apply app_nil_r|].
      clear - H2. induction H2 as [|e e2 He _ IH]; [reflexivity|].
      change (e :: e2) with ([e] ++ e2). rewrite shapeDraws_app, <- IH.
      destruct e; try discriminate He; reflexivity.
    - apply Forall_app. split; [exact H1ok|].
      eapply Forall_impl; [exact H2|]. apply transparentPassEvent_auxiliary. }
  clearbody s3.
  destruct Hs3 as (Hflag & (ext & Htrace & _ & Hdraws & Hok) & Hpaths).
  exists ext. cbn. auto.
Qed.

Lemma renderOpaqueObjects_pass (s : GLSLSceneRendererImpl) :
  exists ext,
    trace (renderOpaqueObjects self s) = trace s ++ ext
    /\ transparentRenderingFunctions (renderOpaqueObjects self s) = deferrals ext
    /\ Forall (opaqueEvent (isRenderingShadowMap s)) ext
    /\ isRenderingShadowMap (renderOpaqueObjects self s) = isRenderingShadowMap s
    /\ exists paths,
        pickingNodePathList (picking (renderOpaqueObjects self s)) =
          pickingNodePathList (picking s) ++ paths
        /\ Forall (fun path => path <> []) paths.
Proof.
  unfold renderOpaqueObjects, renderSceneGraphNodes, renderCamera. cbv zeta.
  set (s1 := set_transparentRenderingFunctions _ _).
  set (shadow := isRenderingShadowMap s).
  assert (Hs1 : isRenderingShadowMap s1 = shadow) by reflexivity.
  assert (Hs2 : extends (Forall (opaqueEvent shadow)) s1 (dispatch (sceneRoot self) s1))
    by apply emitsOpaque_dispatch, Hs1.
  set (s2 := dispatch (sceneRoot self) s1) in *.
  assert (Hposts : forall posts s', extends (Forall (opaqueEvent shadow)) s1 s' ->
             extends (Forall (opaqueEvent shadow)) s1
               (fold_left (fun s f => renderOutlineGroupMain f s) posts s')).
  { induction posts as [|f posts IH]; intros s' Hs'; [exact Hs'|].
    cbn [fold_left]. apply IH.
    apply emitsOpaque_step; [apply emitsOpaque_renderOutlineGroupMain | exact Hs1 | exact Hs']. }
  specialize (Hposts (postRenderingFunctions s2) s2 Hs2).
  set (s3 := fold_left _ _ s2) in *. clearbody s3.
  destruct Hposts as (Hflag & (ext & Htrace & Hqueue & Hok) & Hpaths).
  exists ext. cbn. auto.
Qed.

Lemma renderScene_pass (s : GLSLSceneRendererImpl) :
  exists opaquePass transparentPass,
    scenePass s (renderScene self s) opaquePass transparentPass.
Proof.
  unfold renderScene.
  destruct (currentCamera self).
  2:{ exists [], []. unfold scenePass. rewrite !app_nil_r.
      repeat split; try constructor. exists []. rewrite app_nil_r. auto. }
  destruct (renderOpaqueObjects_pass s)
    as (ext & Htrace & Hqueue & Hok & Hflag & paths & Hlist & Hpaths).
  set (s1 := renderOpaqueObjects self s) in *. clearbody s1.
  assert (Hok' : Forall (opaqueEvent false) ext).
  { eapply Forall_impl; [exact Hok|]. apply opaqueEvent_any_pass. }
  destruct (transparentRenderingFunctions s1) as [|f queue] eqn:Hq.
  - exists ext, []. unfold scenePass. rewrite app_nil_r, <- Hqueue.
    repeat split; auto. exists paths. auto.
  - assert (Hmesh : Forall (fun f => mesh (captured_shape f) <> None)
                      (transparentRenderingFunctions s1)).
    { rewrite Hq, Hqueue.
      eapply Forall_impl; [apply (opaqueEvent_deferrals _ _ Hok)|].
      intros g [_ Hg]. unfold hasDrawableMesh in Hg.
      destruct (mesh (captured_shape g)); [discriminate | discriminate Hg]. }
    destruct (renderTransparentObjects_pass s1 Hmesh)
      as (ext2 & Htrace2 & Hdraws2 & Hok2 & Hflag2 & paths2 & Hlist2 & Hpaths2).
    exists ext, ext2. unfold scenePass.
    rewrite Htrace2, Htrace, Hdraws2, Hq, Hqueue, Hflag2, Hflag, Hlist2, Hlist, <- !app_assoc.
    repeat split; auto.
    exists (paths ++ paths2). split; [reflexivity|]. apply Forall_app. auto.
Qed.

End Passes.

Lemma orderedFrame_wrap (before opaquePass transparentPass after : list Event) :
  Forall (opaqueEvent true) before ->
  Forall (fun e => isAuxiliary e = true) after ->
  Forall (opaqueEvent false) opaquePass ->
  shapeDraws transparentPass = map captured_shape (deferrals opaquePass) ->
  Forall transparentPassEvent transparentPass ->
  orderedFrame (before ++ opaquePass) (transparentPass ++ after).
Proof.
  intros Hbefore Hafter Hopaque Hdraws Htransparent.
  assert (Hafter' : Forall transparentPassEvent after).
  { eapply Forall_impl; [exact Hafter|]. apply transparentPassEvent_auxiliary. }
  assert (Hafter_draws : shapeDraws after = []).
  { clear - Hafter. induction Hafter as [|e after He _ IH]; [reflexivity|].
    change (e :: after) with ([e] ++ after). rewrite shapeDraws_app, IH.
    destruct e; try discriminate He; reflexivity. }
  unfold orderedFrame.
  rewrite !shapeDraws_app, !deferrals_app, plotDraws_app.
  rewrite (opaqueEvent_shadow_defers_nothing before Hbefore), Hafter_draws, app_nil_r.
  rewrite (transparentPassEvent_deferrals _ Htransparent).
  rewrite (transparentPassEvent_deferrals _ Hafter').
  split; [apply Forall_app; split; eapply opaqueEvent_shapeDraws; eassumption|].
  split.
  { eapply Forall_impl; [apply (opaqueEvent_deferrals false), Hopaque|].
    intros f [Ht _]. exact Ht. }
  split; [exact Hdraws|]. split; [reflexivity|].
  apply Forall_app. split; apply transparentPassEvent_plotDraws; assumption.
Qed.

Section FrameOrder.
Context `{Eigen}.
Variable self : GLSceneRenderer.

Lemma renderShadowMaps_pass (indices : list Z) :
  forall (shadowMapIndex : Z) (s : GLSLSceneRendererImpl),
    isRenderingShadowMap s = true ->
    extends (Forall (opaqueEvent true)) s (renderShadowMaps self indices shadowMapIndex s).
Proof.
  induction indices as [|index rest IH]; intros shadowMapIndex s Hflag.
  - apply emitting_refl.
  - cbn [renderShadowMaps].
    destruct (shadowMapIndex <? maxNumShadows self); [|apply emitting_refl].
    assert (Hone : extends (Forall (opaqueEvent true)) s (snd (renderShadowMap self index s))).
    { unfold renderShadowMap.
      destruct (getLightInfo self index) as [light|]; [|apply emitting_refl].
      destruct (on light && hasShadowMapCamera light); [|apply emitting_refl].
      cbn [snd]. unfold renderSceneGraphNodes, renderCamera.
      eapply emitting_trans; [apply emitting_set_modelMatrixStack|].
      apply emitsOpaque_dispatch. exact Hflag. }
    destruct (renderShadowMap self index s) as [rendered s1]. cbn [snd] in Hone.
    eapply emitting_trans; [exact Hone|].
    apply IH. rewrite (extends_flag _ _ _ Hone). exact Hflag.
Qed.

(** The end of a frame, from [renderScene] on. *)
Lemma frame_from_renderScene (s sC : GLSLSceneRendererImpl) (before after : list Event)
  (finish : GLSLSceneRendererImpl -> GLSLSceneRendererImpl) :
  trace sC = trace s ++ before ->
  Forall (opaqueEvent true) before ->
  Forall (fun e => isAuxiliary e = true) after ->
  (forall s', trace (finish s') = trace s' ++ after) ->
  exists opaquePass transparentPass,
    trace (finish (renderScene self sC)) = trace s ++ opaquePass ++ transparentPass
    /\ orderedFrame opaquePass transparentPass.
Proof.
  intros HsC Hbefore Hafter Hfinish.
  destruct (renderScene_pass self sC)
    as (o & t & Htrace & Hopaque & Hdraws & Htransparent & _).
  exists (before ++ o), (t ++ after). split.
  - rewrite Hfinish, Htrace, HsC, <- !app_assoc. reflexivity.
  - apply orderedFrame_wrap; assumption.
Qed.

Lemma doRender_pass (s : GLSLSceneRendererImpl) :
  exists opaquePass transparentPass,
    trace (doRender self s) = trace s ++ opaquePass ++ transparentPass
    /\ orderedFrame opaquePass transparentPass.
Proof.
  unfold doRender. cbv zeta.
  set (s0 := set_programs _ (beginRendering s)).
  assert (Hs0 : trace s0 = trace s) by reflexivity.
  clearbody s0.
  assert (Hfinish : forall s', trace (endRendering (popProgram s')) = trace s' ++ []).
  { intros s'. rewrite app_nil_r. reflexivity. }
  destruct (lightingMode (settings s0)).
  - apply (frame_from_renderScene s _ [] [] (fun s' => endRendering (popProgram s')));
      [rewrite app_nil_r; exact Hs0 | constructor | constructor | exact Hfinish].
  - apply (frame_from_renderScene s _ [] [] (fun s' => endRendering (popProgram s')));
      [rewrite app_nil_r; exact Hs0 | constructor | constructor | exact Hfinish].
  - apply (frame_from_renderScene s _ [] [] (fun s' => endRendering (popProgram s')));
      [rewrite app_nil_r; exact Hs0 | constructor | constructor | exact Hfinish].
  - destruct (shadowLightIndices (settings s0)) as [|index rest].
    + apply (frame_from_renderScene s _ [] [] (fun s' => endRendering (popProgram s')));
        [rewrite app_nil_r; exact Hs0 | constructor | constructor | exact Hfinish].
    + match goal with
      | |- context [renderShadowMaps self ?l 0 ?x] =>
          pose proof (renderShadowMaps_pass l 0 x eq_refl) as Hshadow;
          set (s1 := renderShadowMaps self l 0 x) in *
      end.
      destruct Hshadow as (_ & (ext & Htrace & _ & Hok) & _).
      change (trace s1 = trace s0 ++ ext) in Htrace.
      rewrite Hs0 in Htrace. clearbody s1.
      apply (frame_from_renderScene s _ ext [] (fun s' => endRendering (popProgram s')));
        [exact Htrace | exact Hok | constructor | exact Hfinish].
Qed.

(** [doPick], step by step: the picking pass runs from a state [s1] in
    which the list of pick paths is empty to a state [s2]; the picked path
    and point are then chosen from the list of [s2]. *)
Lemma doPick_scenePass (x y : Z) (pixel : Pixel) (s : GLSLSceneRendererImpl) :
  exists (s1 s2 : GLSLSceneRendererImpl) (opaquePass transparentPass : list Event),
    scenePass s1 s2 opaquePass transparentPass
    /\ trace s1 = trace s ++ (if negb SHOW_IMAGE_FOR_PICKING then [glEnable GL_SCISSOR_TEST] else [])
    /\ pickingNodePathList (picking s1) = []
    /\ trace (snd (doPick self x y pixel s)) = trace s2 ++ [glDisable GL_SCISSOR_TEST]
    /\ pickingNodePathList (picking (snd (doPick self x y pixel s))) =
         pickingNodePathList (picking s2)
    /\ fst (doPick self x y pixel s) =
         match pickedNodePath (picking (snd (doPick self x y pixel s))) with
         | [] => false
         | _ => true
         end
    /\ (if (0 <? decodePickId (Pixel_color pixel))
           && (decodePickId (Pixel_color pixel)
               <? Z.of_nat (length (pickingNodePathList (picking s2))))
        then match unproject self x y (Pixel_depth pixel) with
             | Some point =>
                 pickedNodePath (picking (snd (doPick self x y pixel s))) =
                   at_ [] (pickingNodePathList (picking s2)) (decodePickId (Pixel_color pixel))
                 /\ pickedPoint (picking (snd (doPick self x y pixel s))) = point
             | None => pickedNodePath (picking (snd (doPick self x y pixel s))) = []
             end
        else pickedNodePath (picking (snd (doPick self x y pixel s))) = []).
Proof.
  unfold doPick. cbv zeta.
  match goal with
  | |- context [renderScene self ?x] => set (s1 := x)
  end.
  destruct (renderScene_pass self s1) as (o & t & Hpass).
  set (s2 := renderScene self s1) in *. clearbody s2.
  exists s1, s2, o, t.
  split; [exact Hpass|]. split; [reflexivity|]. split; [reflexivity|].
  set (id := decodePickId (Pixel_color pixel)).
  assert (Hlist : pickingNodePathList
                    (picking (set_picking (fun p => set_picked [] (pickedPoint p) p)
                       (endRendering (emit (glDisable GL_SCISSOR_TEST)
                          (set_isPicking false (popProgram s2))))))
                  = pickingNodePathList (picking s2)) by reflexivity.
  rewrite Hlist.
  destruct ((0 <? id) && (id <? Z.of_nat (length (pickingNodePathList (picking s2))))).
  - destruct (unproject self x y (Pixel_depth pixel)) as [point|]; cbn; auto 10.
  - cbn. auto 10.
Qed.

End FrameOrder.

(** ** Transparent shapes *)


(** C3 (as amended): a transparent shape that has a mesh with vertices is
    never drawn during the traversal; outside a shadow-map pass
    [renderShape] defers it (it emits nothing but the deferral and appends
    the closure to the queue), inside a shadow-map pass it skips it, and a
    shape without such a mesh is neither drawn nor deferred. In every frame,
    rendered or picked, the trace splits into an opaque part followed by a
    transparent part: the opaque part draws no transparent shape, and the
    transparent part draws exactly the deferred shapes, in the order in
    which they were deferred; the only other objects that it draws are line
    sets that show normals, and it defers nothing. *)
Theorem transparent_shapes_are_deferred_and_drawn_last `{Eigen} (self : GLSceneRenderer) :
  (forall (shape : SgShape) (s : GLSLSceneRendererImpl),
      hasDrawableMesh shape = true ->
      isTransparent shape = true ->
      if isRenderingShadowMap s
      then renderShape shape s = s
      else exists f,
          captured_shape f = shape
          /\ trace (renderShape shape s) = trace s ++ [deferred f]
          /\ transparentRenderingFunctions (renderShape shape s) =
               transparentRenderingFunctions s ++ [f])
  /\ (forall (shape : SgShape) (s : GLSLSceneRendererImpl),
         hasDrawableMesh shape = false -> renderShape shape s = s)
  /\ (forall s : GLSLSceneRendererImpl,
         exists opaquePass transparentPass,
           trace (doRender self s) = trace s ++ opaquePass ++ transparentPass
           /\ orderedFrame opaquePass transparentPass)
  /\ (forall (x y : Z) (pixel : Pixel) (s : GLSLSceneRendererImpl),
         exists opaquePass transparentPass,
           trace (snd (doPick self x y pixel s)) = trace s ++ opaquePass ++ transparentPass
           /\ orderedFrame opaquePass transparentPass).
Proof.
  split; [|split; [|split]].
  - intros shape s Hmesh Htransparent. unfold renderShape.
    rewrite Hmesh, Htransparent.
    destruct (isRenderingShadowMap s); [reflexivity|]. cbn [negb].
    unfold pushPickId, popPickId.
    destruct (isPicking s) eqn:Hp; cbn; rewrite ?Hp; eexists; repeat split; reflexivity.
  - intros shape s Hmesh. unfold renderShape. rewrite Hmesh. reflexivity.
  - apply doRender_pass.
  - intros x y pixel s.
    destruct (doPick_scenePass self x y pixel s)
      as (s1 & s2 & o & t & Hpass & Hs1 & _ & Htrace & _).
    destruct Hpass as (Hs2 & Hopaque & Hdraws & Htransparent & _).
    exists ((if negb SHOW_IMAGE_FOR_PICKING then [glEnable GL_SCISSOR_TEST] else []) ++ o),
           (t ++ [glDisable GL_SCISSOR_TEST]).
    split.
    + rewrite Htrace, Hs2, Hs1, <- !app_assoc. reflexivity.
    + apply orderedFrame_wrap; auto.
      destruct (negb SHOW_IMAGE_FOR_PICKING); repeat constructor.
Qed.

(** The transparent shape of the example is deferred by [renderShape]. *)
Lemma transparent_shapes_are_deferred_and_drawn_last_witness :
  exists f,
    captured_shape f = Example.transparent_shape
    /\ trace (renderShape (H := ScalarEigen.instance) Example.transparent_shape initial_renderer)
       = trace initial_renderer ++ [deferred f]
    /\ transparentRenderingFunctions
         (renderShape (H := ScalarEigen.instance) Example.transparent_shape initial_renderer)
       = transparentRenderingFunctions initial_renderer ++ [f].
Proof.
  destruct (transparent_shapes_are_deferred_and_drawn_last
              (H := ScalarEigen.instance) Example.renderer) as (Hdefer & _).
  exact (Hdefer Example.transparent_shape initial_renderer eq_refl eq_refl).
Defined.

(** ** Picking *)

Lemma at_in_range {A : Type} (d : A) (l : list A) (i : Z) :
  0 <= i < Z.of_nat (length l) -> In (at_ d l i) l.
Proof.
  intros Hi. unfold at_.
  destruct (i <? 0) eqn:Hneg; [apply Z.ltb_lt in Hneg; lia|].
  apply nth_In. lia.
Qed.

(** C5 (as stated) fails: with the id read back in range and not zero,
    [doPick] still reports no pick when [unproject] fails. *)
Lemma doPick_fails_when_unproject_fails :
  let result := doPick (H := ScalarEigen.instance) Example.renderer_unproject_fails 0 0
                  (Example.pixel_of_id 3) initial_renderer in
  let id := decodePickId (Pixel_color (Example.pixel_of_id 3)) in
  fst result = false
  /\ pickedNodePath (picking (snd result)) = []
  /\ id = 2
  /\ length (pickingNodePathList (picking (snd result))) = 4%nat
  /\ ~ (id = 0 \/ Z.of_nat (length (pickingNodePathList (picking (snd result)))) <= id).
Proof.
  cbv zeta.
  assert (Hid : decodePickId (Pixel_color (Example.pixel_of_id 3)) = 2) by (vm_compute; reflexivity).
  assert (Hlen : length (pickingNodePathList
                           (picking (snd (doPick (H := ScalarEigen.instance)
                                            Example.renderer_unproject_fails 0 0
                                            (Example.pixel_of_id 3) initial_renderer)))) = 4%nat)
    by (vm_compute; reflexivity).
  rewrite Hid, Hlen.
  split; [vm_compute; reflexivity|]. split; [vm_compute; reflexivity|].
  split; [reflexivity|]. split; [reflexivity|]. lia.
Qed.

(** C5 (as amended): let [id] be the id that [doPick] decodes from the
    pixel read back (the colour value minus one). [doPick] returns true
    exactly when [id] is not 0, is within the list of pick paths built
    during the pass, and [unproject] succeeds for the depth read back; it
    then returns entry [id] of that list as the picked path and the
    unprojected point as the picked point. In every other case it returns
    false and the picked path is empty. *)
Theorem doPick_result `{Eigen} (self : GLSceneRenderer) (x y : Z) (pixel : Pixel)
  (s : GLSLSceneRendererImpl) :
  let found := fst (doPick self x y pixel s) in
  let s' := snd (doPick self x y pixel s) in
  let id := decodePickId (Pixel_color pixel) in
  let entries := pickingNodePathList (picking s') in
  (found = true <->
     0 < id < Z.of_nat (length entries) /\ unproject self x y (Pixel_depth pixel) <> None)
  /\ (found = false -> pickedNodePath (picking s') = [])
  /\ (found = true ->
      pickedNodePath (picking s') = at_ [] entries id
      /\ unproject self x y (Pixel_depth pixel) = Some (pickedPoint (picking s'))).
Proof.
  cbv zeta.
  destruct (doPick_scenePass self x y pixel s)
    as (s1 & s2 & o & t & Hpass & _ & Hempty & _ & Hlist & Hfound & Hpicked).
  destruct Hpass as (_ & _ & _ & _ & _ & paths & Hpaths & Hnonempty).
  rewrite Hempty in Hpaths. cbn [app] in Hpaths.
  rewrite Hlist, Hfound. clear Hfound.
  set (id := decodePickId (Pixel_color pixel)) in *. clearbody id.
  destruct ((0 <? id) && (id <? Z.of_nat (length (pickingNodePathList (picking s2))))) eqn:Hrange.
  - apply andb_true_iff in Hrange. destruct Hrange as [H0 Hlt].
    apply Z.ltb_lt in H0, Hlt.
    destruct (unproject self x y (Pixel_depth pixel)) as [point|].
    + destruct Hpicked as [Hpath Hpoint]. rewrite Hpath, Hpoint.
      assert (Hin : In (at_ [] (pickingNodePathList (picking s2)) id)
                       (pickingNodePathList (picking s2))). { apply at_in_range. split; [lia | exact Hlt]. }
      rewrite Hpaths in Hin at 2.
      rewrite Forall_forall in Hnonempty. apply list_elem_of_In, Hnonempty in Hin.
      destruct (at_ [] (pickingNodePathList (picking s2)) id) as [|node path]; [congruence|].
      repeat split; auto; try discriminate; intros; lia.
    + rewrite Hpicked. split; [|split]; auto; try discriminate.
      split; [discriminate|]. intros [_ Hsome]. congruence.
  - rewrite Hpicked. split; [|split]; auto; try discriminate.
    split; [discriminate|]. intros [[H0 Hlt] _].
    apply andb_false_iff in Hrange. destruct Hrange as [Hr | Hr]; apply Z.ltb_ge in Hr; lia.
Qed.

(** ** The resource cache *)

Lemma mapAt_updateMapAt_same (i : Z) (f : GLResourceMap -> GLResourceMap)
  (maps : GLResourceMap * GLResourceMap) :
  mapAt i (updateMapAt i f maps) = f (mapAt i maps).
Proof. unfold mapAt, updateMapAt. destruct (i =? 0); reflexivity. Qed.

Lemma mapAt_updateMapAt_other (i j : Z) (f : GLResourceMap -> GLResourceMap)
  (maps : GLResourceMap * GLResourceMap) :
  (i =? 0) <> (j =? 0) ->
  mapAt i (updateMapAt j f maps) = mapAt i maps.
Proof.
  unfold mapAt, updateMapAt. intros Hne.
  destruct (i =? 0), (j =? 0); try reflexivity; exfalso; apply Hne; reflexivity.
Qed.

Lemma map_pointers_differ (index current next : Z) :
  (index = 0 \/ index = 1) -> current = index -> next = 1 - index ->
  (current =? 0) <> (next =? 0) /\ (next =? 0) <> (current =? 0).
Proof. intros [-> | ->] -> ->; split; discriminate. Qed.

Lemma unordered_map_insert_subseteq (k : SgObjectPtr) (v : nat) (m : GLResourceMap) :
  m ⊆ unordered_map_insert k v m.
Proof.
  unfold unordered_map_insert. destruct (m !! k) eqn:Hk; [reflexivity|].
  apply insert_subseteq. exact Hk.
Qed.

(** Reads of the resource members after assignments to them. *)
Ltac simpl_members :=
  unfold set_resourceMaps, set_mapPointers, set_doUnusedResourceCheck,
    set_isCheckingUnusedResources, set_hasValidNextResourceMap,
    set_isResourceClearRequested, set_heap, set_glNames in *;
  cbn [resourceMaps currentResourceMap nextResourceMap currentResourceMapIndex
       doUnusedResourceCheck isCheckingUnusedResources hasValidNextResourceMap
       isResourceClearRequested heap glNames fst snd] in *.

(** The same by value, for members of a record given by its fields. *)
Ltac eval_members :=
  cbv beta iota zeta delta
    [set_resourceMaps set_mapPointers set_doUnusedResourceCheck
     set_isCheckingUnusedResources set_hasValidNextResourceMap
     set_isResourceClearRequested set_heap set_glNames
     resourceMaps currentResourceMap nextResourceMap currentResourceMapIndex
     doUnusedResourceCheck isCheckingUnusedResources hasValidNextResourceMap
     isResourceClearRequested heap glNames fst snd
     frame_wf cache_wf carriedMap currentMap nextMap mapAt updateMapAt
     Z.sub Z.add Z.opp Z.pos_sub Z.eqb Pos.eqb] in *.

(** What one lookup does to the maps. *)
Lemma getOrCreateVertexResource_r_spec (obj : SgObjectPtr) (r : ResourceMembers) :
  frame_wf r ->
  let resource := fst (fst (getOrCreateVertexResource_r obj r)) in
  let created := snd (fst (getOrCreateVertexResource_r obj r)) in
  let r' := snd (getOrCreateVertexResource_r obj r) in
  frame_wf r'
  /\ cacheFlags r' = cacheFlags r
  /\ currentMap r ⊆ currentMap r'
  /\ nextMap r ⊆ nextMap r'
  /\ currentMap r' !! obj = Some resource
  /\ (isCheckingUnusedResources r = true -> nextMap r' !! obj = Some resource)
  /\ (forall x, currentMap r !! obj = Some x -> resource = x /\ created = false).
Proof.
  intros (Hindex & Hcur & Hnext & Hvalid & Hsub & Hempty).
  destruct (map_pointers_differ _ _ _ Hindex Hcur Hnext) as [Hcn Hnc].
  pose proof (unordered_map_insert_subseteq obj) as Hgrow.
  assert (Hweak : forall y, nextMap r !! obj = Some y -> currentMap r !! obj = Some y).
  { intros y Hy. exact (lookup_weaken _ _ _ _ Hy Hsub). }
  unfold getOrCreateVertexResource_r. cbv zeta.
  fold (currentMap r).
  destruct (currentMap r !! obj) as [resource|] eqn:Hfound;
    destruct (isCheckingUnusedResources r) eqn:Hcheck;
    unfold frame_wf, currentMap, nextMap, cacheFlags; simpl_members;
    rewrite ?Hcheck, ?Hvalid; simpl_members;
    rewrite ?mapAt_updateMapAt_same;
    rewrite ?(mapAt_updateMapAt_other (currentResourceMap r) (nextResourceMap r)) by exact Hcn;
    rewrite ?(mapAt_updateMapAt_other (nextResourceMap r) (currentResourceMap r)) by exact Hnc;
    rewrite ?mapAt_updateMapAt_same;
    fold (currentMap r); fold (nextMap r).
  - (* found, checking *)
    assert (Hins : unordered_map_insert obj resource (nextMap r) !! obj = Some resource).
    { unfold unordered_map_insert. destruct (nextMap r !! obj) as [y|] eqn:Hy.
      - specialize (Hweak y eq_refl). congruence.
      - apply lookup_insert_eq. }
    assert (Hsub' : unordered_map_insert obj resource (nextMap r) ⊆ currentMap r).
    { unfold unordered_map_insert. destruct (nextMap r !! obj) as [y|] eqn:Hy; [exact Hsub|].
      apply insert_subseteq_l; assumption. }
    split_and!; intros;
      first [assumption | reflexivity | discriminate | split; congruence | apply Hgrow].
  - (* found, not checking *)
    split_and!; intros; first [assumption | reflexivity | discriminate | split; congruence | auto].
  - (* created, checking *)
    assert (Hnone : nextMap r !! obj = None).
    { destruct (nextMap r !! obj) as [y|] eqn:Hy; [|reflexivity].
      specialize (Hweak y eq_refl). discriminate. }
    unfold unordered_map_insert. rewrite Hnone.
    split_and!; intros;
      first [assumption | reflexivity | discriminate | apply lookup_insert_eq
            | apply insert_mono; assumption | apply insert_subseteq; assumption].
  - (* created, not checking *)
    split_and!; intros;
      first [assumption | reflexivity | discriminate | apply lookup_insert_eq
            | apply insert_subseteq; assumption
            | rewrite (Hempty eq_refl); apply map_empty_subseteq | auto].
Qed.

Lemma resources_emits (es : list Event) :
  forall s, resources (emits es s) = resources s.
Proof.
  unfold emits. induction es as [|e es IH]; intros s; [reflexivity|].
  cbn [fold_left]. rewrite IH. reflexivity.
Qed.

(** Marking a resource of the current map as used. *)
Lemma mark_used_spec (key : SgObjectPtr) (resource : nat) (r : ResourceMembers) :
  frame_wf r ->
  currentMap r !! key = Some resource ->
  let r' := if isCheckingUnusedResources r
            then set_resourceMaps
                   (updateMapAt (nextResourceMap r) (unordered_map_insert key resource)
                      (resourceMaps r)) r
            else r in
  frame_wf r' /\ cacheFlags r' = cacheFlags r /\ currentMap r' = currentMap r
  /\ nextMap r ⊆ nextMap r'.
Proof.
  intros (Hindex & Hcur & Hnext & Hvalid & Hsub & Hempty) Hfound.
  destruct (map_pointers_differ _ _ _ Hindex Hcur Hnext) as [Hcn Hnc].
  cbv zeta. destruct (isCheckingUnusedResources r) eqn:Hcheck.
  - unfold frame_wf, currentMap, nextMap, cacheFlags. simpl_members.
    rewrite ?Hcheck, ?Hvalid.
    rewrite mapAt_updateMapAt_same, mapAt_updateMapAt_other by exact Hcn.
    fold (currentMap r). fold (nextMap r).
    assert (Hsub' : unordered_map_insert key resource (nextMap r) ⊆ currentMap r).
    { unfold unordered_map_insert. destruct (nextMap r !! key) as [y|] eqn:Hy; [exact Hsub|].
      apply insert_subseteq_l; assumption. }
    split_and!; intros;
      first [assumption | reflexivity | discriminate | apply unordered_map_insert_subseteq].
  - unfold frame_wf. rewrite Hcheck. split_and!; auto.
Qed.

(** Entering a new resource into the current map. *)
Lemma enter_resource_spec (key : SgObjectPtr) (resource : nat) (r : ResourceMembers) :
  frame_wf r ->
  currentMap r !! key = None ->
  let r' := set_resourceMaps
              (updateMapAt (currentResourceMap r) (insert key resource) (resourceMaps r)) r in
  frame_wf r' /\ cacheFlags r' = cacheFlags r
  /\ currentMap r ⊆ currentMap r' /\ currentMap r' !! key = Some resource
  /\ nextMap r' = nextMap r.
Proof.
  intros (Hindex & Hcur & Hnext & Hvalid & Hsub & Hempty) Hfound.
  destruct (map_pointers_differ _ _ _ Hindex Hcur Hnext) as [Hcn Hnc].
  cbv zeta. unfold frame_wf, currentMap, nextMap, cacheFlags. simpl_members.
  rewrite mapAt_updateMapAt_same, mapAt_updateMapAt_other by exact Hnc.
  fold (currentMap r). fold (nextMap r).
  assert (Hgrow : currentMap r ⊆ <[key := resource]> (currentMap r))
    by (apply insert_subseteq; exact Hfound).
  split_and!; intros;
    first [assumption | reflexivity | apply lookup_insert_eq
          | etransitivity; eassumption | auto].
Qed.

(** Changes of the heap and of the driver's names leave the maps alone. *)
Lemma frame_wf_same_maps (r r' : ResourceMembers) :
  resourceMaps r' = resourceMaps r -> cacheFlags r' = cacheFlags r ->
  frame_wf r -> frame_wf r'.
Proof.
  unfold frame_wf, cacheFlags, currentMap, nextMap.
  intros Hmaps Hflags. injection Hflags as -> -> -> _ -> -> _. rewrite Hmaps. auto.
Qed.

Lemma renderTexture_cache (texture_ : SgTexture) (s : GLSLSceneRendererImpl) :
  frame_wf (resources s) ->
  let r' := resources (snd (renderTexture texture_ s)) in
  frame_wf r' /\ cacheFlags r' = cacheFlags (resources s)
  /\ currentMap (resources s) ⊆ currentMap r'
  /\ nextMap (resources s) ⊆ nextMap r'.
Proof.
  intros Hwf. cbv zeta. unfold renderTexture.
  destruct (SgTexture_image texture_) as [sgImage|]; [|cbn; auto].
  destruct (SgImage_empty sgImage); [cbn; auto|].
  fold (currentMap (resources s)).
  destruct (currentMap (resources s) !! SgImage_addr sgImage) as [resource|] eqn:Hfound.
  - assert (Hload : forall s1,
               resourceMaps (resources s1) = resourceMaps (resources s) ->
               cacheFlags (resources s1) = cacheFlags (resources s) ->
               let r' := resources
                           (if isCheckingUnusedResources (resources s1)
                            then set_resources
                                   (fun r => set_resourceMaps
                                               (updateMapAt (nextResourceMap r)
                                                  (unordered_map_insert (SgImage_addr sgImage) resource)
                                                  (resourceMaps r)) r) s1
                            else s1) in
               frame_wf r' /\ cacheFlags r' = cacheFlags (resources s)
               /\ currentMap (resources s) ⊆ currentMap r'
               /\ nextMap (resources s) ⊆ nextMap r').
    { intros s1 Hmaps Hflags.
      assert (Hwf1 : frame_wf (resources s1)) by (eapply frame_wf_same_maps; eassumption).
      assert (Hcur1 : currentMap (resources s1) = currentMap (resources s)).
      { unfold currentMap. rewrite Hmaps. unfold cacheFlags in Hflags. congruence. }
      assert (Hnext1 : nextMap (resources s1) = nextMap (resources s)).
      { unfold nextMap. rewrite Hmaps. unfold cacheFlags in Hflags. congruence. }
      assert (Hfound1 : currentMap (resources s1) !! SgImage_addr sgImage = Some resource)
        by (rewrite Hcur1; exact Hfound).
      pose proof (mark_used_spec _ _ _ Hwf1 Hfound1) as (Hwf' & Hflags' & Hcur' & Hnext').
      cbv zeta in Hwf', Hflags', Hcur', Hnext' |- *. rewrite Hnext1 in Hnext'.
      destruct (isCheckingUnusedResources (resources s1));
        cbn [resources set_resources]; rewrite ?Hflags', ?Hcur', ?Hcur1; auto. }
    destruct (textureAt resource (heap (resources s))) as [t|].
    + destruct (isLoaded t && isImageUpdateNeeded t).
      * destruct (loadTextureImage t (constImage sgImage)) as [[loaded t'] calls].
        cbn [snd]. apply Hload; rewrite resources_emits; reflexivity.
      * cbn [snd]. apply Hload; reflexivity.
    + cbn [snd]. apply Hload; reflexivity.
  - destruct (loadTextureImage _ (constImage sgImage)) as [[loaded t'] calls].
    cbn [snd].
    match goal with
    | |- context [emits calls (set_resources (fun _ => ?rnew) s)] => set (r1 := rnew)
    end.
    assert (Hr1 : frame_wf r1 /\ cacheFlags r1 = cacheFlags (resources s)
                  /\ currentMap (resources s) ⊆ currentMap r1
                  /\ currentMap r1 !! SgImage_addr sgImage = Some (length (heap (resources s)))
                  /\ nextMap r1 = nextMap (resources s)).
    { pose proof (enter_resource_spec (SgImage_addr sgImage) (length (heap (resources s)))
                    (resources s) Hwf Hfound) as (Hwf' & Hflags' & Hsub' & Hkey' & Hnext').
      unfold r1. split; [|split; [|split; [|split]]].
      - eapply frame_wf_same_maps; [| |exact Hwf']; reflexivity.
      - exact Hflags'.
      - exact Hsub'.
      - exact Hkey'.
      - exact Hnext'. }
    clearbody r1. destruct Hr1 as (Hwf1 & Hflags1 & Hsub1 & Hkey1 & Hnext1).
    set (s1 := emits calls (set_resources (fun _ => r1) s)).
    assert (Hs1 : resources s1 = r1) by (unfold s1; rewrite resources_emits; reflexivity).
    clearbody s1.
    pose proof (mark_used_spec _ _ _ Hwf1 Hkey1) as (Hwf' & Hflags' & Hcur' & Hnext').
    cbv zeta in Hwf', Hflags', Hcur', Hnext'. rewrite Hnext1 in Hnext'.
    rewrite Hs1.
    destruct (isCheckingUnusedResources r1);
      cbn [resources set_resources]; rewrite ?Hs1, ?Hflags', ?Hcur'; auto.
Qed.

Lemma lookupsOf_app (obj : SgObjectPtr) (l1 l2 : list Lookup) :
  lookupsOf obj (l1 ++ l2) = lookupsOf obj l1 ++ lookupsOf obj l2.
Proof. apply List.filter_app. Qed.

Lemma cacheFlags_isChecking (r r' : ResourceMembers) :
  cacheFlags r' = cacheFlags r ->
  isCheckingUnusedResources r' = isCheckingUnusedResources r.
Proof. unfold cacheFlags. congruence. Qed.

(** The lookups between [beginRendering] and [endRendering]. *)
Lemma runCacheCalls_spec (obj : SgObjectPtr) (calls : list CacheCall) :
  forall s : GLSLSceneRendererImpl,
    frame_wf (resources s) ->
    let log := fst (runCacheCalls calls s) in
    let r' := resources (snd (runCacheCalls calls s)) in
    frame_wf r'
    /\ cacheFlags r' = cacheFlags (resources s)
    /\ currentMap (resources s) ⊆ currentMap r'
    /\ nextMap (resources s) ⊆ nextMap r'
    /\ Forall (fun k => currentMap r' !! Lookup_obj k = Some (Lookup_resource k)) log
    /\ (isCheckingUnusedResources (resources s) = true ->
        Forall (fun k => nextMap r' !! Lookup_obj k = Some (Lookup_resource k)) log)
    /\ (forall x, currentMap (resources s) !! obj = Some x ->
                  Forall (fun k => Lookup_resource k = x /\ Lookup_created k = false)
                         (lookupsOf obj log))
    /\ match lookupsOf obj log with
       | [] => True
       | first :: rest =>
           Forall (fun k => Lookup_resource k = Lookup_resource first
                            /\ Lookup_created k = false) rest
       end.
Proof.
  induction calls as [|c calls IH]; intros s Hwf; cbv zeta.
  - cbn. split_and!; auto; constructor.
  - cbn [runCacheCalls].
    destruct c as [o|texture_]; cbn [runCacheCall].
    + pose proof (getOrCreateVertexResource_r_spec o (resources s) Hwf)
        as (Hwf1 & Hflags1 & Hcur1 & Hnext1 & Hkey1 & Hmark1 & Hknown1).
      cbv zeta in Hwf1, Hflags1, Hcur1, Hnext1, Hkey1, Hmark1, Hknown1.
      destruct (getOrCreateVertexResource_r o (resources s)) as [[resource created] r1].
      cbn [fst snd] in Hwf1, Hflags1, Hcur1, Hnext1, Hkey1, Hmark1, Hknown1.
      specialize (IH (set_resources (fun _ => r1) s) Hwf1).
      cbv zeta in IH. cbn [resources set_resources] in IH.
      destruct (runCacheCalls calls (set_resources (fun _ => r1) s)) as [log2 s2].
      cbn [fst snd] in IH |- *.
      destruct IH as (Hwf2 & Hflags2 & Hcur2 & Hnext2 & Hall2 & Hmark2 & Hknown2 & Hfirst2).
      split_and!.
      * exact Hwf2.
      * congruence.
      * etransitivity; eassumption.
      * etransitivity; eassumption.
      * constructor; [|exact Hall2]. cbn. exact (lookup_weaken _ _ _ _ Hkey1 Hcur2).
      * intros Hcheck. constructor.
        -- cbn. exact (lookup_weaken _ _ _ _ (Hmark1 Hcheck) Hnext2).
        -- apply Hmark2. rewrite (cacheFlags_isChecking _ _ Hflags1). exact Hcheck.
      * intros x Hx. change (?k :: log2) with ([k] ++ log2).
        rewrite lookupsOf_app. apply Forall_app. split.
        -- unfold lookupsOf. cbn. destruct (bool_decide (o = obj)) eqn:Ho; [|constructor].
           apply bool_decide_eq_true in Ho. subst o.
           constructor; [|constructor]. cbn. apply (Hknown1 x Hx).
        -- apply (Hknown2 x). exact (lookup_weaken _ _ _ _ Hx Hcur1).
      * change (?k :: log2) with ([k] ++ log2).
        rewrite lookupsOf_app. unfold lookupsOf at 1. cbn.
        destruct (bool_decide (o = obj)) eqn:Ho; cbn; [|exact Hfirst2].
        apply bool_decide_eq_true in Ho. subst o.
        apply (Hknown2 resource). exact Hkey1.
    + pose proof (renderTexture_cache texture_ s Hwf) as (Hwf1 & Hflags1 & Hcur1 & Hnext1).
      cbv zeta in Hwf1, Hflags1, Hcur1, Hnext1.
      specialize (IH (snd (renderTexture texture_ s)) Hwf1). cbv zeta in IH.
      destruct (runCacheCalls calls (snd (renderTexture texture_ s))) as [log2 s2].
      cbn [fst snd app] in IH |- *.
      destruct IH as (Hwf2 & Hflags2 & Hcur2 & Hnext2 & Hall2 & Hmark2 & Hknown2 & Hfirst2).
      split_and!.
      * exact Hwf2.
      * congruence.
      * etransitivity; eassumption.
      * etransitivity; eassumption.
      * exact Hall2.
      * intros Hcheck. apply Hmark2. rewrite (cacheFlags_isChecking _ _ Hflags1). exact Hcheck.
      * intros x Hx. apply (Hknown2 x). exact (lookup_weaken _ _ _ _ Hx Hcur1).
      * exact Hfirst2.
Qed.

Lemma beginRendering_spec (s : GLSLSceneRendererImpl) :
  cache_wf (resources s) ->
  let r := resources s in
  let rb := resources (beginRendering s) in
  frame_wf rb
  /\ doUnusedResourceCheck rb = doUnusedResourceCheck r
  /\ isResourceClearRequested rb = false
  /\ currentMap rb = (if isResourceClearRequested r then ∅ else carriedMap r).
Proof.
  intros Hwf. cbv zeta.
  unfold beginRendering. cbn [resources set_resources].
  destruct (resources s) as [[m0 m1] c n i du ic hv cr h g].
  destruct (isPicking s), cr, hv, du; eval_members;
    destruct Hwf as (Hindex & Hcur & Hnext & Hcarry); subst c n;
    destruct Hindex as [-> | ->]; eval_members; subst;
    split_and!; auto; try reflexivity; try discriminate;
    try apply map_empty_subseteq.
Qed.

Lemma endRendering_spec (s : GLSLSceneRendererImpl) :
  frame_wf (resources s) ->
  let r := resources s in
  let re := resources (endRendering s) in
  cache_wf re
  /\ doUnusedResourceCheck re = doUnusedResourceCheck r
  /\ isResourceClearRequested re = isResourceClearRequested r
  /\ carriedMap re = (if isCheckingUnusedResources r then nextMap r else currentMap r).
Proof.
  intros Hwf. cbv zeta.
  unfold endRendering. cbn [resources set_resources].
  destruct (resources s) as [[m0 m1] c n i du ic hv cr h g].
  destruct ic; eval_members;
    destruct Hwf as (Hindex & Hcur & Hnext & Hvalid & Hsub & Hempty); subst c n hv;
    destruct Hindex as [-> | ->]; eval_members;
    split_and!; auto; try reflexivity; try (apply Hempty; reflexivity).
Qed.

Lemma runCacheCalls_has_lookup (obj : SgObjectPtr) (calls : list CacheCall) :
  In (LookupVertexResource obj) calls ->
  forall s, lookupsOf obj (fst (runCacheCalls calls s)) <> [].
Proof.
  induction calls as [|c calls IH]; intros Hin s; [destruct Hin|].
  cbn [runCacheCalls].
  destruct (runCacheCall c s) as [l1 s1] eqn:Hcall.
  specialize (fun H => IH H s1).
  destruct (runCacheCalls calls s1) as [l2 s2]. cbn [fst] in *.
  rewrite lookupsOf_app.
  destruct Hin as [-> | Hin].
  - cbn [runCacheCall] in Hcall.
    destruct (getOrCreateVertexResource_r obj (resources s)) as [[resource created] r1].
    injection Hcall as <- _. unfold lookupsOf at 1. cbn.
    rewrite bool_decide_eq_true_2 by reflexivity. discriminate.
  - intros Hnil. apply app_eq_nil in Hnil. destruct Hnil as [_ Hnil]. exact (IH Hin Hnil).
Qed.

(** One frame, seen from the cache. *)
Lemma runFrame_spec (obj : SgObjectPtr) (f : Frame) (s : GLSLSceneRendererImpl) :
  cache_wf (resources s) ->
  let r := resources s in
  let log := fst (runFrame f s) in
  let r' := resources (snd (runFrame f s)) in
  cache_wf r'
  /\ isResourceClearRequested r' = false
  /\ doUnusedResourceCheck r' = doUnusedResourceCheck r
  /\ Forall (fun k => carriedMap r' !! Lookup_obj k = Some (Lookup_resource k)) log
  /\ (isResourceClearRequested r = false ->
      forall x, carriedMap r !! obj = Some x ->
                Forall (fun k => Lookup_resource k = x /\ Lookup_created k = false)
                       (lookupsOf obj log))
  /\ match lookupsOf obj log with
     | [] => True
     | first :: rest =>
         Forall (fun k => Lookup_resource k = Lookup_resource first
                          /\ Lookup_created k = false) rest
     end.
Proof.
  intros Hwf. cbv zeta. unfold runFrame. cbv zeta.
  pose proof (beginRendering_spec (set_isPicking (Frame_isPicking f) s) Hwf)
    as (Hwfb & Hdub & Hcrb & Hcurb).
  cbv zeta in Hwfb, Hdub, Hcrb, Hcurb.
  set (sb := beginRendering (set_isPicking (Frame_isPicking f) s)) in *.
  change (resources (set_isPicking (Frame_isPicking f) s)) with (resources s) in *.
  clearbody sb.
  pose proof (runCacheCalls_spec obj (Frame_calls f) sb Hwfb)
    as (Hwfc & Hflagsc & Hcurc & Hnextc & Hallc & Hmarkc & Hknownc & Hfirstc).
  cbv zeta in Hwfc, Hflagsc, Hcurc, Hnextc, Hallc, Hmarkc, Hknownc, Hfirstc.
  destruct (runCacheCalls (Frame_calls f) sb) as [log sc].
  cbn [fst snd] in *.
  pose proof (endRendering_spec (set_isPicking false sc) Hwfc) as (Hwfe & Hdue & Hcre & Hcarrye).
  cbv zeta in Hwfe, Hdue, Hcre, Hcarrye.
  change (resources (set_isPicking false sc)) with (resources sc) in *.
  assert (Hflags : doUnusedResourceCheck (resources sc) = doUnusedResourceCheck (resources sb)
                   /\ isResourceClearRequested (resources sc) = isResourceClearRequested (resources sb)
                   /\ isCheckingUnusedResources (resources sc) = isCheckingUnusedResources (resources sb)).
  { unfold cacheFlags in Hflagsc. injection Hflagsc as _ _ _ Hdu Hic _ Hcr. auto. }
  destruct Hflags as (Hdu & Hcr & Hic).
  split_and!.
  - exact Hwfe.
  - congruence.
  - congruence.
  - rewrite Hcarrye. destruct (isCheckingUnusedResources (resources sc)) eqn:Hcheck.
    + apply Hmarkc. congruence.
    + exact Hallc.
  - intros Hclear x Hx. apply (Hknownc x). rewrite Hcurb, Hclear. exact Hx.
  - exact Hfirstc.
Qed.

(** Once the carried map knows the object, every frame that looks it up
    finds that resource. *)
Lemma runFrames_known (obj : SgObjectPtr) (frames : list Frame) :
  forall (s : GLSLSceneRendererImpl) (x : nat),
    cache_wf (resources s) ->
    isResourceClearRequested (resources s) = false ->
    carriedMap (resources s) !! obj = Some x ->
    Forall (fun f => In (LookupVertexResource obj) (Frame_calls f)) frames ->
    Forall (fun k => Lookup_resource k = x /\ Lookup_created k = false)
           (lookupsOf obj (fst (runFrames frames s))).
Proof.
  induction frames as [|f frames IH]; intros s x Hwf Hclear Hx Hall; [constructor|].
  cbn [runFrames].
  pose proof (runFrame_spec obj f s Hwf) as (Hwf1 & Hclear1 & _ & Hcarried1 & Hknown1 & _).
  cbv zeta in Hwf1, Hclear1, Hcarried1, Hknown1.
  specialize (Hknown1 Hclear x Hx).
  inversion Hall as [|f' frames' Hf Hframes]; subst.
  assert (Hsome : lookupsOf obj (fst (runFrame f s)) <> []).
  { unfold runFrame. cbv zeta.
    pose proof (runCacheCalls_has_lookup obj (Frame_calls f) Hf
                  (beginRendering (set_isPicking (Frame_isPicking f) s))) as Hne.
    destruct (runCacheCalls _ _) as [log sc]. exact Hne. }
  destruct (runFrame f s) as [log1 s1]. cbn [fst snd] in *.
  assert (Hx1 : carriedMap (resources s1) !! obj = Some x).
  { destruct (lookupsOf obj log1) as [|k rest] eqn:Hlog; [congruence|].
    assert (Hk : In k (lookupsOf obj log1)) by (rewrite Hlog; left; reflexivity).
    unfold lookupsOf in Hk. apply List.filter_In in Hk. destruct Hk as [Hk Hobj].
    apply bool_decide_eq_true in Hobj.
    rewrite Forall_forall in Hcarried1. apply list_elem_of_In, Hcarried1 in Hk.
    inversion Hknown1 as [|k' rest' [Hres _] _]; subst. congruence. }
  specialize (IH s1 x Hwf1 Hclear1 Hx1 Hframes).
  destruct (runFrames frames s1) as [log2 s2]. cbn [fst] in *.
  rewrite lookupsOf_app. apply Forall_app. split; assumption.
Qed.

(** C1: take a renderer between two frames, with the unused-resource
    check enabled, and any sequence of frames (rendered or picked, no clear
    request and no change of the check in between) each of which looks the
    object up through [getOrCreateVertexResource]. Every lookup after the
    first returns the resource that the first lookup returned, and none of
    them creates a resource. *)
Theorem getOrCreateVertexResource_is_stable (obj : SgObjectPtr) (frames : list Frame)
  (s : GLSLSceneRendererImpl) :
  cache_wf (resources s) ->
  doUnusedResourceCheck (resources s) = true ->
  Forall (fun f => In (LookupVertexResource obj) (Frame_calls f)) frames ->
  match lookupsOf obj (fst (runFrames frames s)) with
  | [] => True
  | first :: rest =>
      Forall (fun k => Lookup_resource k = Lookup_resource first /\ Lookup_created k = false) rest
  end.
Proof.
  intros Hwf _ Hall.
  destruct frames as [|f frames]; [exact I|].
  cbn [runFrames].
  pose proof (runFrame_spec obj f s Hwf) as (Hwf1 & Hclear1 & _ & Hcarried1 & _ & Hfirst1).
  cbv zeta in Hwf1, Hclear1, Hcarried1, Hfirst1.
  inversion Hall as [|f' frames' Hf Hframes]; subst.
  assert (Hsome : lookupsOf obj (fst (runFrame f s)) <> []).
  { unfold runFrame. cbv zeta.
    pose proof (runCacheCalls_has_lookup obj (Frame_calls f) Hf
                  (beginRendering (set_isPicking (Frame_isPicking f) s))) as Hne.
    destruct (runCacheCalls _ _) as [log sc]. exact Hne. }
  destruct (runFrame f s) as [log1 s1]. cbn [fst snd] in *.
  destruct (lookupsOf obj log1) as [|first rest1] eqn:Hlog; [congruence|].
  assert (Hx1 : carriedMap (resources s1) !! obj = Some (Lookup_resource first)).
  { assert (Hk : In first (lookupsOf obj log1)) by (rewrite Hlog; left; reflexivity).
    unfold lookupsOf in Hk. apply List.filter_In in Hk. destruct Hk as [Hk Hobj].
    apply bool_decide_eq_true in Hobj.
    rewrite Forall_forall in Hcarried1. apply list_elem_of_In, Hcarried1 in Hk.
    congruence. }
  pose proof (runFrames_known obj frames s1 (Lookup_resource first) Hwf1 Hclear1 Hx1 Hframes)
    as Hrest.
  destruct (runFrames frames s1) as [log2 s2]. cbn [fst] in *.
  rewrite lookupsOf_app, Hlog. cbn [app].
  apply Forall_app. split; assumption.
Qed.

Lemma cache_wf_initial : cache_wf (resources initial_renderer).
Proof. unfold cache_wf. cbn. auto. Qed.

Lemma getOrCreateVertexResource_is_stable_witness :
  match lookupsOf (ObjAddr 10) (fst (runFrames CacheExample.frames initial_renderer)) with
  | [] => True
  | first :: rest =>
      Forall (fun k => Lookup_resource k = Lookup_resource first /\ Lookup_created k = false) rest
  end.
Proof.
  apply (getOrCreateVertexResource_is_stable (ObjAddr 10) CacheExample.frames initial_renderer).
  - exact cache_wf_initial.
  - reflexivity.
  - unfold CacheExample.frames. repeat constructor.
Defined.

(** The calls of the public interface keep the resource members well
    formed between frames: the hypothesis of the theorem above holds in
    every state that these calls reach from the initial one. *)
Lemma cache_wf_runApiCall (c : ApiCall) (s : GLSLSceneRendererImpl) :
  cache_wf (resources s) -> cache_wf (resources (runApiCall c s)).
Proof.
  intros Hwf. destruct c as [f| |on_]; cbn [runApiCall].
  - apply (runFrame_spec (ObjAddr 0) f s Hwf).
  - exact Hwf.
  - destruct Hwf as (Hindex & Hcur & Hnext & Hcarry).
    unfold enableUnusedResourceCheck. cbn [resources set_resources].
    destruct (resources s) as [[m0 m1] c n i du ic hv cr h g].
    simpl_members. subst c n. unfold cache_wf. 
    destruct Hindex as [-> | ->]; destruct on_, hv; simpl_members;
      cbn in Hcarry |- *; split_and!; auto.
Qed.

Lemma cache_wf_reachable (calls : list ApiCall) :
  cache_wf (resources (fold_left (fun s c => runApiCall c s) calls initial_renderer)).
Proof.
  generalize cache_wf_initial. generalize initial_renderer.
  induction calls as [|c calls IH]; intros s Hwf; [exact Hwf|].
  cbn [fold_left]. apply IH, cache_wf_runApiCall, Hwf.
Qed.
(** * Further properties of the renderer *)

(** ** Rounding of whole numbers *)

(** ** Exact arithmetic on small integers in [float] *)

Lemma iter_pos_Pos_iter {A : Type} (f : A -> A) (p : positive) :
  forall x : A, SpecFloat.iter_pos f p x = Pos.iter f x p.
Proof.
  induction p as [p IH|p IH|]; intros x; cbn [SpecFloat.iter_pos Pos.iter].
  - rewrite !IH, !Pos.iter_swap. reflexivity.
  - rewrite !IH. reflexivity.
  - reflexivity.
Qed.

Lemma iter_pos_succ {A : Type} (f : A -> A) (p : positive) (x : A) :
  SpecFloat.iter_pos f (Pos.succ p) x = SpecFloat.iter_pos f p (f x).
Proof. rewrite !iter_pos_Pos_iter. apply Pos.iter_succ_r. Qed.

(** Rounding sees the value, not the way it is written: doubling the
    mantissa and lowering the exponent by one changes nothing. *)
Lemma binary_round_double (prec emax : Z) (s : bool) (m : positive) (e : Z) :
  binary_round prec emax s (m~0) (e - 1) = binary_round prec emax s m e.
Proof.
  unfold binary_round. cbn [digits2_pos].
  rewrite Pos2Z.inj_succ.
  replace (Z.succ (Z.pos (digits2_pos m)) + (e - 1)) with (Z.pos (digits2_pos m) + e) by lia.
  set (e' := fexp prec emax (Z.pos (digits2_pos m) + e)).
  unfold shl_align.
  destruct (e' - e) as [|k|k] eqn:Hk.
  - replace (e' - (e - 1)) with 1 by lia.
    unfold binary_round_aux, shr_fexp. cbn [Zdigits2 digits2_pos].
    rewrite Pos2Z.inj_succ.
    replace (Z.succ (Z.pos (digits2_pos m)) + (e - 1)) with (Z.pos (digits2_pos m) + e) by lia.
    fold e'. rewrite Hk. replace (e' - (e - 1)) with 1 by lia.
    cbn [shr shr_record_of_loc SpecFloat.iter_pos shr_1 orb]. replace (e - 1 + 1) with e by lia.
    reflexivity.
  - replace (e' - (e - 1)) with (Z.pos (Pos.succ k)) by lia.
    unfold binary_round_aux, shr_fexp. cbn [Zdigits2 digits2_pos].
    rewrite Pos2Z.inj_succ.
    replace (Z.succ (Z.pos (digits2_pos m)) + (e - 1)) with (Z.pos (digits2_pos m) + e) by lia.
    fold e'. rewrite Hk. replace (e' - (e - 1)) with (Z.pos (Pos.succ k)) by lia.
    cbn [shr shr_record_of_loc]. rewrite iter_pos_succ. cbn [shr_1 orb].
    replace (e - 1 + Z.pos (Pos.succ k)) with (e + Z.pos k) by lia.
    reflexivity.
  - destruct (Pos.eq_dec k 1%positive) as [-> | Hk1].
    + replace (e' - (e - 1)) with 0 by lia. cbn [Pos.iter].
      replace e' with (e - 1) by lia. reflexivity.
    + replace (e' - (e - 1)) with (Z.neg (Pos.pred k)) by lia.
      rewrite <- (Pos.succ_pred k) at 2 by exact Hk1.
      rewrite Pos.iter_succ_r. reflexivity.
Qed.

Lemma binary_normalize_double (prec emax : Z) (n e : Z) (z : bool) :
  binary_normalize prec emax (2 * n) (e - 1) z = binary_normalize prec emax n e z.
Proof.
  destruct n as [|p|p]; cbn [Z.mul Pos.mul binary_normalize];
    [reflexivity | apply binary_round_double | apply binary_round_double].
Qed.

Lemma binary_normalize_scale (prec emax : Z) (n : Z) (z : bool) (k : Z) :
  0 <= k ->
  forall e : Z,
    binary_normalize prec emax (n * 2 ^ k) (e - k) z = binary_normalize prec emax n e z.
Proof.
  intros Hk. pattern k. apply natlike_ind; [| |exact Hk].
  - intros e. rewrite Z.pow_0_r, Z.mul_1_r, Z.sub_0_r. reflexivity.
  - clear k Hk. intros k Hk IH e.
    rewrite Z.pow_succ_r by exact Hk.
    replace (n * (2 * 2 ^ k)) with (2 * (n * 2 ^ k)) by ring.
    replace (e - Z.succ k) with (e - k - 1) by lia.
    rewrite binary_normalize_double. apply IH.
Qed.

Lemma Pos_iter_xO_value (m k : positive) :
  Z.pos (Pos.iter xO m k) = Z.pos m * 2 ^ Z.pos k.
Proof.
  induction k as [|k IH] using Pos.peano_ind.
  - cbn [Pos.iter]. rewrite Pos2Z.inj_xO, Z.pow_1_r. ring.
  - rewrite Pos.iter_succ, Pos2Z.inj_succ, Z.pow_succ_r by lia.
    rewrite Pos2Z.inj_xO, IH. ring.
Qed.

Lemma Pos_iter_xO_digits (m k : positive) :
  Z.pos (digits2_pos (Pos.iter xO m k)) = Z.pos (digits2_pos m) + Z.pos k.
Proof.
  induction k as [|k IH] using Pos.peano_ind.
  - cbn [Pos.iter digits2_pos]. lia.
  - rewrite Pos.iter_succ. cbn [digits2_pos]. rewrite !Pos2Z.inj_succ, IH. lia.
Qed.

(** What [shl_align] yields when the target exponent is not above the
    exponent given. *)
Lemma shl_align_spec (m : positive) (e e' : Z) :
  e' <= e ->
  snd (shl_align m e e') = e'
  /\ Z.pos (fst (shl_align m e e')) = Z.pos m * 2 ^ (e - e')
  /\ Z.pos (digits2_pos (fst (shl_align m e e'))) = Z.pos (digits2_pos m) + (e - e').
Proof.
  intros Hle. unfold shl_align.
  destruct (e' - e) as [|k|k] eqn:Hk; cbn [fst snd]; try lia.
  - replace (e - e') with 0 by lia. rewrite Z.pow_0_r. lia.
  - replace (e - e') with (Z.pos k) by lia.
    rewrite Pos_iter_xO_value, Pos_iter_xO_digits. auto.
Qed.

Lemma digits2_pos_size (p : positive) : digits2_pos p = Pos.size p.
Proof. induction p as [p IH|p IH|]; cbn [digits2_pos Pos.size]; congruence. Qed.

Lemma digits2_pos_le (p : positive) (k : Z) :
  Z.pos p < 2 ^ k -> Z.pos (digits2_pos p) <= k.
Proof.
  intros Hp. rewrite digits2_pos_size.
  destruct (Z.le_gt_cases (Z.pos (Pos.size p)) k) as [Hle | Hgt]; [exact Hle|].
  exfalso.
  assert (Hk : 0 <= k).
  { destruct (Z.le_gt_cases 0 k) as [H0 | H0]; [exact H0|].
    rewrite Z.pow_neg_r in Hp by exact H0. lia. }
  pose proof (Pos.size_le p) as Hsize.
  assert (Hz : 2 ^ Z.pos (Pos.size p) <= 2 * Z.pos p).
  { change (2 * Z.pos p) with (Z.pos p~0). rewrite <- Pos2Z.inj_pow. exact Hsize. }
  assert (Hmono : 2 ^ (k + 1) <= 2 ^ Z.pos (Pos.size p))
    by (apply Z.pow_le_mono_r; lia).
  rewrite Z.pow_add_r, Z.pow_1_r in Hmono by lia. lia.
Qed.

(** A mantissa of exactly 24 bits with an exponent in range is a
    [float] as it stands. *)
Lemma binary_round_aux_canonical (s : bool) (m : positive) (e : Z) :
  Z.pos (digits2_pos m) = 24 -> -149 <= e <= 104 ->
  binary_round_aux prec32 emax32 s (Z.pos m) e loc_Exact = S754_finite s m e.
Proof.
  intros Hd He.
  assert (Hfexp : fexp prec32 emax32 (Z.pos (digits2_pos m) + e) - e = 0).
  { unfold fexp, emin, prec32, emax32. rewrite Hd. lia. }
  unfold binary_round_aux, shr_fexp. cbn [Zdigits2 shr_record_of_loc].
  rewrite Hfexp. cbn [shr shr_m loc_of_shr_record round_nearest_even Zdigits2 shr_record_of_loc].
  rewrite Hfexp. cbn [shr shr_m].
  replace (e <=? emax32 - prec32) with true; [reflexivity|].
  symmetry. apply Z.leb_le. unfold emax32, prec32. lia.
Qed.

(** The [float] of a non-zero integer below [2^24]: the integer itself,
    written with a mantissa of 24 bits. *)
Lemma binary_round_small_integer (s : bool) (p : positive) :
  Z.pos p < 2 ^ 24 ->
  exists (m : positive) (e : Z),
    binary_round prec32 emax32 s p 0 = S754_finite s m e
    /\ -23 <= e <= 0 /\ Z.pos m = Z.pos p * 2 ^ (- e).
Proof.
  intros Hp.
  pose proof (digits2_pos_le p 24 Hp) as Hd.
  assert (Hd1 : 1 <= Z.pos (digits2_pos p)) by lia.
  unfold binary_round.
  assert (Hfexp : fexp prec32 emax32 (Z.pos (digits2_pos p) + 0) = Z.pos (digits2_pos p) - 24).
  { unfold fexp, emin, prec32, emax32. lia. }
  rewrite Hfexp.
  destruct (shl_align_spec p 0 (Z.pos (digits2_pos p) - 24)) as (He & Hm & Hdm); [lia|].
  destruct (shl_align p 0 (Z.pos (digits2_pos p) - 24)) as [mz ez]. cbn [fst snd] in *.
  subst ez. exists mz, (Z.pos (digits2_pos p) - 24).
  rewrite binary_round_aux_canonical by lia.
  split; [reflexivity|]. split; [lia|].
  rewrite Hm. reflexivity.
Qed.

Lemma float_of_Z_intFloat (n : Z) :
  Z.abs n < 2 ^ 24 -> intFloat n (float_of_Z n).
Proof.
  intros Hn. unfold float_of_Z, binary_normalize.
  destruct n as [|p|p].
  - reflexivity.
  - destruct (binary_round_small_integer false p) as (m & e & -> & He & Hm); [exact Hn|].
    cbn [intFloat cond_Zopp]. auto.
  - destruct (binary_round_small_integer true p) as (m & e & -> & He & Hm); [exact Hn|].
    cbn [intFloat cond_Zopp]. split; [exact He|]. rewrite Hm.
    change (Z.neg p) with (- Z.pos p). ring.
Qed.

Lemma float_of_Z_zero (n : Z) : float_of_Z n = S754_zero false \/ n <> 0.
Proof. destruct n; [left; reflexivity | right; discriminate | right; discriminate]. Qed.

Lemma intFloat_nonzero (n : Z) (f : float) :
  intFloat n f -> n <> 0 -> exists s m e, f = S754_finite s m e.
Proof.
  destruct f as [z| | |s m e]; cbn [intFloat]; intros Hf Hn; try contradiction; eauto.
Qed.

Lemma trunc_float_intFloat (n : Z) (f : float) : intFloat n f -> trunc_float f = n.
Proof.
  destruct f as [z| | |s m e]; cbn [intFloat trunc_float]; try contradiction.
  - intros ->. reflexivity.
  - intros [He Hm].
    rewrite Z.shiftl_div_pow2 by lia.
    assert (Hpow : 0 < 2 ^ (- e)) by (apply Z.pow_pos_nonneg; lia).
    destruct s; cbn [cond_Zopp] in *.
    + replace (Z.pos m) with (- n * 2 ^ (- e)) by lia.
      rewrite Z.div_mul by lia. lia.
    + rewrite Hm, Z.div_mul by lia. reflexivity.
Qed.

(** The mantissa aligned to a lower exponent still stands for the integer. *)
Lemma intFloat_align (n : Z) (s : bool) (m : positive) (e ez : Z) :
  intFloat n (S754_finite s m e) -> ez <= e ->
  cond_Zopp s (Z.pos (fst (shl_align m e ez))) = n * 2 ^ (- ez).
Proof.
  cbn [intFloat]. intros [He Hm] Hle.
  destruct (shl_align_spec m e ez Hle) as (_ & Hv & _). rewrite Hv.
  replace (- ez) with (- e + (e - ez)) by lia.
  rewrite Z.pow_add_r by lia.
  destruct s; cbn [cond_Zopp] in *; rewrite Z.mul_assoc, <- Hm; ring.
Qed.

(** Addition and subtraction of integers below [2^24] in [float] round
    the exact sum once. *)
Lemma fadd_float_of_Z (a b : Z) :
  Z.abs a < 2 ^ 24 -> Z.abs b < 2 ^ 24 ->
  fadd (float_of_Z a) (float_of_Z b) = float_of_Z (a + b).
Proof.
  intros Ha Hb.
  pose proof (float_of_Z_intFloat a Ha) as Hfa.
  pose proof (float_of_Z_intFloat b Hb) as Hfb.
  destruct (Z.eq_dec a 0) as [-> | Ha0]; [|destruct (Z.eq_dec b 0) as [-> | Hb0]].
  - change (float_of_Z 0) with (S754_zero false) at 1. rewrite Z.add_0_l.
    destruct (float_of_Z b) as [[|]| | |s m e] eqn:Hf; cbn [intFloat] in Hfb;
      try contradiction; subst; try discriminate; reflexivity.
  - change (float_of_Z 0) with (S754_zero false). rewrite Z.add_0_r.
    destruct (intFloat_nonzero a _ Hfa Ha0) as (s & m & e & ->). reflexivity.
  - destruct (intFloat_nonzero a _ Hfa Ha0) as (s1 & m1 & e1 & Hf1).
    destruct (intFloat_nonzero b _ Hfb Hb0) as (s2 & m2 & e2 & Hf2).
    rewrite Hf1, Hf2 in *. unfold fadd, SFadd.
    rewrite (intFloat_align a s1 m1 e1 (Z.min e1 e2) Hfa) by lia.
    rewrite (intFloat_align b s2 m2 e2 (Z.min e1 e2) Hfb) by lia.
    rewrite <- Z.mul_add_distr_r.
    cbn [intFloat] in Hfa, Hfb.
    replace (Z.min e1 e2) with (0 - - Z.min e1 e2) at 2 by lia.
    apply binary_normalize_scale. lia.
Qed.

Lemma fsub_float_of_Z (a b : Z) :
  Z.abs a < 2 ^ 24 -> Z.abs b < 2 ^ 24 -> a <> 0 ->
  fsub (float_of_Z a) (float_of_Z b) = float_of_Z (a - b).
Proof.
  intros Ha Hb Ha0.
  pose proof (float_of_Z_intFloat a Ha) as Hfa.
  pose proof (float_of_Z_intFloat b Hb) as Hfb.
  destruct (intFloat_nonzero a _ Hfa Ha0) as (s1 & m1 & e1 & Hf1).
  destruct (Z.eq_dec b 0) as [-> | Hb0].
  - change (float_of_Z 0) with (S754_zero false). rewrite Z.sub_0_r, Hf1. reflexivity.
  - destruct (intFloat_nonzero b _ Hfb Hb0) as (s2 & m2 & e2 & Hf2).
    rewrite Hf1, Hf2 in *. unfold fsub, SFsub.
    rewrite (intFloat_align a s1 m1 e1 (Z.min e1 e2) Hfa) by lia.
    rewrite (intFloat_align b s2 m2 e2 (Z.min e1 e2) Hfb) by lia.
    rewrite <- Z.mul_sub_distr_r.
    cbn [intFloat] in Hfa, Hfb.
    replace (Z.min e1 e2) with (0 - - Z.min e1 e2) at 2 by lia.
    apply binary_normalize_scale. lia.
Qed.

Lemma trunc_float_of_Z (n : Z) : Z.abs n < 2 ^ 24 -> trunc_float (float_of_Z n) = n.
Proof. intros Hn. apply trunc_float_intFloat, float_of_Z_intFloat, Hn. Qed.

(** ** The colour of a pick id *)

Lemma map_seqZ_pointwise {A : Type} (f g : Z -> A) (n : Z) :
  map f (seqZ 0 n) = map g (seqZ 0 n) ->
  forall b : Z, 0 <= b < n -> f b = g b.
Proof.
  intros Hmap b Hb.
  assert (Hf : map f (seqZ 0 n) !! Z.to_nat b = Some (f b)).
  { rewrite list_lookup_fmap, lookup_seqZ_lt by lia. cbn. f_equal. f_equal. lia. }
  rewrite Hmap, list_lookup_fmap, lookup_seqZ_lt in Hf by lia.
  cbn in Hf. injection Hf as Hf. rewrite <- Hf. f_equal. lia.
Qed.

(** Multiplying a channel by 255 gives the byte back, for each of the
    256 bytes. *)
Lemma pickChannel_times_255 (b : Z) :
  0 <= b < 256 -> fmul (pickChannel b) (float_of_Z 255) = float_of_Z b.
Proof.
  apply (map_seqZ_pointwise (fun b => fmul (pickChannel b) (float_of_Z 255)) float_of_Z 256).
  vm_compute. reflexivity.
Qed.

Lemma pickColor_channels (id : Z) :
  pickColor id =
    (pickChannel (Z.land id 255),
     pickChannel (Z.land (Z.shiftr id 8) 255),
     pickChannel (Z.land (Z.shiftr id 16) 255)).
Proof. reflexivity. Qed.

Lemma byte_of (z : Z) : 0 <= Z.land z 255 < 256 /\ Z.land z 255 = z mod 256.
Proof.
  change 255 with (Z.ones 8). rewrite Z.land_ones by lia.
  change (2 ^ 8) with 256. split; [apply Z.mod_pos_bound; lia | reflexivity].
Qed.

(** The id that [doPick] computes from three channels. *)
Lemma decodePickId_channels (b0 b1 b2 : Z) :
  0 <= b0 < 256 -> 0 <= b1 < 256 -> 0 <= b2 < 256 ->
  1 <= b0 + 256 * b1 + 65536 * b2 ->
  decodePickId (pickChannel b0, pickChannel b1, pickChannel b2)
  = b0 + 256 * b1 + 65536 * b2 - 1.
Proof.
  intros H0 H1 H2 Hid. unfold decodePickId, SHOW_IMAGE_FOR_PICKING.
  rewrite !pickChannel_times_255 by assumption.
  rewrite !trunc_float_of_Z by lia.
  rewrite !Z.shiftl_mul_pow2 by lia.
  rewrite fadd_float_of_Z by lia.
  rewrite fadd_float_of_Z by lia.
  rewrite fsub_float_of_Z by lia.
  rewrite trunc_float_of_Z by lia.
  rewrite uint32_small by lia. lia.
Qed.

Lemma decodePickId_pickColor (id : Z) :
  1 <= id < 2 ^ 24 -> decodePickId (pickColor id) = id - 1.
Proof.
  intros Hid. rewrite pickColor_channels, !Z.shiftr_div_pow2 by lia.
  change (2 ^ 8) with 256. change (2 ^ 16) with 65536.
  destruct (byte_of id) as [H0 E0].
  destruct (byte_of (id / 256)) as [H1 E1].
  destruct (byte_of (id / 65536)) as [H2 E2].
  assert (Hsum : Z.land id 255 + 256 * Z.land (id / 256) 255
                 + 65536 * Z.land (id / 65536) 255 = id).
  { rewrite E0, E1, E2.
    pose proof (Z.div_mod id 256 ltac:(lia)) as D0.
    pose proof (Z.div_mod (id / 256) 256 ltac:(lia)) as D1.
    rewrite Z.div_div in D1 by lia. change (256 * 256) with 65536 in D1.
    assert (Hhigh : 0 <= id / 65536 < 256).
    { split; [apply Z.div_pos; lia | apply Z.div_lt_upper_bound; lia]. }
    rewrite (Z.mod_small (id / 65536) 256) by exact Hhigh. lia. }
  rewrite decodePickId_channels by lia. lia.
Qed.

(** X1: the colour that [setPickColor] hands to the solid colour program
    for a pick id from 1 to [2^24 - 1] is decoded by the arithmetic of
    [doPick] to the id minus one, which is the position in
    [pickingNodePathList] of the path that [pushPickId] recorded under the
    id. *)
Theorem setPickColor_decodes_to_entry (id : Z) (s : GLSLSceneRendererImpl) :
  1 <= id < 2 ^ 24 ->
  exists color : Vector3f,
    trace (setPickColor id s) = trace s ++ [solidColorProgram_setColor color]
    /\ decodePickId color = id - 1
    /\ 0 <= decodePickId color < 2 ^ 24 - 1.
Proof.
  intros Hid. exists (pickColor id).
  split; [reflexivity|].
  rewrite decodePickId_pickColor by exact Hid. lia.
Qed.

Lemma setPickColor_decodes_to_entry_witness :
  exists color : Vector3f,
    trace (setPickColor 70000 initial_renderer)
    = trace initial_renderer ++ [solidColorProgram_setColor color]
    /\ decodePickId color = 70000 - 1
    /\ 0 <= decodePickId color < 2 ^ 24 - 1.
Proof. apply (setPickColor_decodes_to_entry 70000 initial_renderer). lia. Defined.

(** X2: the colour of a pick id holds the three low bytes of the id
    only: two ids that differ by a multiple of [2^24] get the same colour,
    so at most [2^24 - 1] nodes can be told apart in one picking pass. *)
Theorem pickColor_keeps_24_bits (id k : Z) :
  pickColor (id + k * 2 ^ 24) = pickColor id.
Proof.
  rewrite !pickColor_channels, !Z.shiftr_div_pow2 by lia.
  destruct (byte_of (id + k * 2 ^ 24)) as [_ ->].
  destruct (byte_of ((id + k * 2 ^ 24) / 2 ^ 8)) as [_ ->].
  destruct (byte_of ((id + k * 2 ^ 24) / 2 ^ 16)) as [_ ->].
  destruct (byte_of id) as [_ ->].
  destruct (byte_of (id / 2 ^ 8)) as [_ ->].
  destruct (byte_of (id / 2 ^ 16)) as [_ ->].
  replace (k * 2 ^ 24) with (k * 2 ^ 16 * 256) at 1 by lia.
  replace (k * 2 ^ 24) with (k * 2 ^ 16 * 2 ^ 8) at 1 by lia.
  replace (k * 2 ^ 24) with (k * 2 ^ 8 * 2 ^ 16) by lia.
  rewrite !Z.div_add, !Z.mod_add by lia.
  replace (k * 2 ^ 16) with (k * 2 ^ 8 * 256) by lia.
  replace (k * 2 ^ 8) with (k * 256) by lia.
  rewrite !Z.mod_add by lia.
  reflexivity.
Qed.

(** X3: when the pixel read back by [doPick] shows the colour of pick id
    [k], [doPick] reports a pick exactly when [k] is at least 2, some
    [pushPickId] of the pass returned [k], and [unproject] succeeds; the
    picked path is then the path recorded by that [pushPickId]. The node
    that received pick id 1, the first one visited in the pass, is never
    reported. *)
Theorem doPick_reports_node_of_color `{Eigen} (self : GLSceneRenderer) (x y k : Z)
  (depth : float) (s : GLSLSceneRendererImpl) :
  1 <= k < 2 ^ 24 ->
  let pixel := {| Pixel_color := pickColor k; Pixel_depth := depth |} in
  let found := fst (doPick self x y pixel s) in
  let s' := snd (doPick self x y pixel s) in
  let entries := pickingNodePathList (picking s') in
  (found = true <->
     2 <= k <= Z.of_nat (length entries) /\ unproject self x y depth <> None)
  /\ (found = true -> pickedNodePath (picking s') = at_ [] entries (k - 1))
  /\ (k = 1 -> found = false).
Proof.
  intros Hk. cbv zeta.
  destruct (doPick_scenePass self x y {| Pixel_color := pickColor k; Pixel_depth := depth |} s)
    as (s1 & s2 & o & t & Hpass & _ & Hempty & _ & Hlist & Hfound & Hpicked).
  destruct Hpass as (_ & _ & _ & _ & _ & paths & Hpaths & Hnonempty).
  rewrite Hempty in Hpaths. cbn [app] in Hpaths.
  cbn [Pixel_color Pixel_depth] in Hpicked.
  rewrite decodePickId_pickColor in Hpicked by exact Hk.
  rewrite Hlist, Hfound. clear Hfound.
  destruct ((0 <? k - 1) && (k - 1 <? Z.of_nat (length (pickingNodePathList (picking s2)))))
    eqn:Hrange.
  - apply andb_true_iff in Hrange. destruct Hrange as [H0 Hlt].
    apply Z.ltb_lt in H0, Hlt.
    destruct (unproject self x y depth) as [point|].
    + destruct Hpicked as [Hpath Hpoint]. rewrite Hpath.
      assert (Hin : In (at_ [] (pickingNodePathList (picking s2)) (k - 1))
                       (pickingNodePathList (picking s2))).
      { apply at_in_range. split; [lia | exact Hlt]. }
      rewrite Hpaths in Hin at 2.
      rewrite Forall_forall in Hnonempty. apply list_elem_of_In, Hnonempty in Hin.
      destruct (at_ [] (pickingNodePathList (picking s2)) (k - 1)) as [|node path];
        [congruence|].
      split; [|split]; [|reflexivity|intros ->; lia].
      split; [intros _|reflexivity]. split; [|discriminate]. split; [lia|].
      revert Hlt. generalize (length (pickingNodePathList (picking s2))). intros n Hn. lia.
    + rewrite Hpicked. split; [|split]; [|discriminate|reflexivity].
      split; [discriminate|]. intros [_ Hsome]. congruence.
  - rewrite Hpicked. split; [|split]; [|discriminate|reflexivity].
    split; [discriminate|]. intros [[H2 Hle] _].
    apply andb_false_iff in Hrange. destruct Hrange as [Hr | Hr]; apply Z.ltb_ge in Hr.
    + lia.
    + revert Hle Hr. generalize (length (pickingNodePathList (picking s2))). intros n Hle Hr. lia.
Qed.

Lemma doPick_reports_node_of_color_witness :
  let pixel := {| Pixel_color := pickColor 3; Pixel_depth := Example.half |} in
  let found := fst (doPick (H := ScalarEigen.instance) SceneExample.renderer 0 0 pixel
                      initial_renderer) in
  let s' := snd (doPick (H := ScalarEigen.instance) SceneExample.renderer 0 0 pixel
                   initial_renderer) in
  let entries := pickingNodePathList (picking s') in
  (found = true <->
     2 <= 3 <= Z.of_nat (length entries)
     /\ unproject SceneExample.renderer 0 0 Example.half <> None)
  /\ (found = true -> pickedNodePath (picking s') = at_ [] entries (3 - 1))
  /\ (3 = 1 -> found = false).
Proof.
  apply (doPick_reports_node_of_color (H := ScalarEigen.instance) SceneExample.renderer 0 0 3
           Example.half initial_renderer).
  lia.
Defined.

(** ** Relations that hold throughout a frame

    A relation between the state before and the state after that is
    reflexive and transitive, holds of the steps that the grouping nodes
    take between their children, and holds of the rendering functions of the
    leaves, holds of the rendering function of every node and of
    [renderScene]. *)
Section Throughout.
Context `{Eigen}.
Variable R : GLSLSceneRendererImpl -> GLSLSceneRendererImpl -> Prop.

Hypothesis R_refl : forall s, R s s.
Hypothesis R_trans : forall s1 s2 s3, R s1 s2 -> R s2 s3 -> R s1 s3.
Hypothesis R_pushPickId : forall node doSetColor s, R s (snd (pushPickId node doSetColor s)).
Hypothesis R_popPickId : forall s, R s (popPickId s).
Hypothesis R_modelMatrixStack : forall f s, R s (set_modelMatrixStack f s).
Hypothesis R_postRenderingFunctions : forall f s, R s (set_postRenderingFunctions f s).
Hypothesis R_transparentRenderingFunctions :
  forall f s, R s (set_transparentRenderingFunctions f s).
Hypothesis R_minimum :
  forall b s, R s (set_programs (set_isMinimumLightingProgramActivatedInThisFrame b) s).
Hypothesis R_program_bracket :
  forall program_ isLightingProgram s s2,
    R (pushProgram program_ isLightingProgram s) s2 -> R s (popProgram s2).
Hypothesis R_emit : forall e s, isAuxiliary e = true -> R s (emit e s).
Hypothesis R_flags :
  forall s, (forall b, R s (set_isRenderingShadowMap b s))
            /\ (forall b, R s (set_isActuallyRendering b s)).
Hypothesis R_renderShape : forall shape s, R s (renderShape shape s).
Hypothesis R_renderShapeMain :
  forall shape position pickId s, R s (renderShapeMain shape position pickId s).
Hypothesis R_renderPointSet : forall pointSet s, R s (renderPointSet pointSet s).
Hypothesis R_renderLineSet : forall lineSet s, R s (renderLineSet lineSet s).

Lemma throughout_renderChildNodes dispatch_ (children : list SgNode) :
  Forall (fun child => forall s, R s (dispatch_ child s)) children ->
  forall s, R s (renderChildNodes dispatch_ children s).
Proof.
  unfold renderChildNodes.
  induction 1 as [|child children Hchild _ IH]; intros s; [apply R_refl|].
  cbn [fold_left]. eapply R_trans; [apply Hchild | apply IH].
Qed.

Lemma throughout_renderGroup dispatch_ group (children : list SgNode) :
  Forall (fun child => forall s, R s (dispatch_ child s)) children ->
  forall s, R s (renderGroup dispatch_ group children s).
Proof.
  intros Hchildren s. unfold renderGroup.
  eapply R_trans; [apply R_pushPickId|].
  eapply R_trans; [apply throughout_renderChildNodes, Hchildren | apply R_popPickId].
Qed.

Lemma throughout_dispatch (node : SgNode) : forall s, R s (dispatch node s).
Proof.
  induction node as [node IH] using SgNode_children_ind.
  intros s.
  destruct node as [self cs|self T cs|self b cs|self cs|sh|ps|ls|self cs|self c cs|self cs];
    cbn [dispatch childrenOf] in *.
  - apply throughout_renderGroup, IH.
  - unfold renderTransform.
    eapply R_trans; [apply R_modelMatrixStack|].
    eapply R_trans; [apply R_pushPickId|].
    eapply R_trans; [apply throughout_renderChildNodes, IH|].
    eapply R_trans; [apply R_popPickId | apply R_modelMatrixStack].
  - unfold renderSwitch. destruct b; [|apply R_refl].
    apply throughout_renderGroup, IH.
  - unfold renderUnpickableGroup. destruct (negb (isPicking s)); [|apply R_refl].
    apply throughout_renderGroup, IH.
  - apply R_renderShape.
  - apply R_renderPointSet.
  - apply R_renderLineSet.
  - unfold renderOverlay. destruct (negb (isActuallyRendering s)); [apply R_refl|].
    apply (R_program_bracket solidColorProgram false).
    eapply R_trans; [apply R_modelMatrixStack|].
    eapply R_trans; [apply throughout_renderGroup, IH | apply R_modelMatrixStack].
  - unfold renderOutlineGroup. destruct (isPicking s).
    + apply throughout_renderGroup, IH.
    + apply R_postRenderingFunctions.
  - unfold renderSimplifiedRenderingGroup.
    destruct (isRenderingShadowMap s); [apply R_refl|].
    match goal with
    | |- R s (if negb (isPicking ?x) then _ else _) =>
        assert (Hpx : isPicking x = isPicking s)
    end.
    { match goal with
      | |- isPicking (renderChildNodes dispatch cs ?y) = _ =>
          pose proof (traversalState_renderChildNodes dispatch cs
                        ltac:(apply Forall_forall; intros; apply traversalState_dispatch) y) as Hy
      end.
      unfold traversalState in Hy. injection Hy as Hy _.
      rewrite Hy. destruct (negb (isPicking s)); reflexivity. }
    rewrite Hpx. destruct (negb (isPicking s)).
    + apply (R_program_bracket minimumLightingProgram true).
      eapply R_trans; [apply R_minimum | apply throughout_renderChildNodes, IH].
    + apply throughout_renderChildNodes, IH.
Qed.

Lemma throughout_renderOutlineGroupMain (f : PostRenderingFunction) :
  forall s, R s (renderOutlineGroupMain f s).
Proof.
  intros s. unfold renderOutlineGroupMain.
  assert (Hchildren : forall s, R s (renderChildNodes dispatch (captured_children f) s)).
  { apply throughout_renderChildNodes, Forall_forall. intros child _.
    apply throughout_dispatch. }
  eapply R_trans; [apply R_modelMatrixStack|].
  eapply R_trans; [apply Hchildren|].
  eapply R_trans; [|apply R_modelMatrixStack].
  apply (R_program_bracket solidColorProgram false).
  eapply R_trans;
    [apply (R_emit (solidColorProgram_setColor (captured_color f))); reflexivity
    | apply Hchildren].
Qed.

Lemma throughout_fold {A : Type} (step : A -> GLSLSceneRendererImpl -> GLSLSceneRendererImpl)
  (l : list A) :
  (forall a s, R s (step a s)) ->
  forall s, R s (fold_left (fun s a => step a s) l s).
Proof.
  intros Hstep. induction l as [|a l IH]; intros s; [apply R_refl|].
  cbn [fold_left]. eapply R_trans; [apply Hstep | apply IH].
Qed.

Variable self : GLSceneRenderer.

Lemma throughout_renderScene : forall s, R s (renderScene self s).
Proof.
  intros s. unfold renderScene. destruct (currentCamera self); [|apply R_refl].
  assert (Hopaque : R s (renderOpaqueObjects self s)).
  { unfold renderOpaqueObjects, renderCamera, renderSceneGraphNodes.
    eapply R_trans; [apply R_modelMatrixStack|].
    eapply R_trans; [apply R_postRenderingFunctions|].
    eapply R_trans; [apply R_transparentRenderingFunctions|].
    eapply R_trans; [apply throughout_dispatch|].
    eapply R_trans; [|apply R_postRenderingFunctions].
    apply (throughout_fold renderOutlineGroupMain), throughout_renderOutlineGroupMain. }
  destruct (transparentRenderingFunctions (renderOpaqueObjects self s)) eqn:Hqueue;
    [exact Hopaque|].
  eapply R_trans; [exact Hopaque|]. clear Hqueue Hopaque.
  generalize (renderOpaqueObjects self s). clear s. intros s.
  assert (Hblend : forall (s : GLSLSceneRendererImpl) (e1 e2 : Event),
             isAuxiliary e1 = true -> isAuxiliary e2 = true ->
             R s (if negb (isPicking s) then emit e2 (emit e1 s) else s)).
  { intros s1 e1 e2 H1 H2. destruct (negb (isPicking s1)); [|apply R_refl].
    eapply R_trans; apply R_emit; assumption. }
  unfold renderTransparentObjects. cbv zeta.
  set (s0 := if negb (isPicking s)
             then emit (glDepthMask false) (emit (glEnable GL_BLEND) s) else s).
  assert (H0 : R s s0) by (unfold s0; apply Hblend; reflexivity).
  clearbody s0.
  eapply R_trans; [exact H0|].
  eapply R_trans; [|apply R_transparentRenderingFunctions].
  eapply R_trans; [|apply Hblend; reflexivity].
  apply (throughout_fold
           (fun f => renderShapeMain (captured_shape f) (captured_position f) (captured_pickId f))).
  intros f s1. apply R_renderShapeMain.
Qed.

Lemma throughout_renderShadowMaps (indices : list Z) :
  forall (shadowMapIndex : Z) (s : GLSLSceneRendererImpl),
    R s (renderShadowMaps self indices shadowMapIndex s).
Proof.
  induction indices as [|i indices IH]; intros k s; cbn [renderShadowMaps]; [apply R_refl|].
  destruct (k <? maxNumShadows self); [|apply R_refl].
  unfold renderShadowMap.
  destruct (getLightInfo self i) as [light|]; [|apply IH].
  destruct (on light && hasShadowMapCamera light); [|apply IH].
  eapply R_trans; [|apply IH].
  unfold renderCamera, renderSceneGraphNodes.
  eapply R_trans; [apply R_modelMatrixStack | apply throughout_dispatch].
Qed.

(** [doRender] is [beginRendering], steps that keep the relation, and
    [endRendering]. *)
Lemma throughout_doRender (s : GLSLSceneRendererImpl) :
  exists sm : GLSLSceneRendererImpl,
    doRender self s = endRendering sm /\ R (beginRendering s) sm.
Proof.
  unfold doRender. eexists. split; [reflexivity|].
  generalize (beginRendering s). clear s. intros s.
  eapply R_trans; [apply (R_minimum false)|].
  generalize (set_programs (set_isMinimumLightingProgramActivatedInThisFrame false) s).
  clear s. intros s.
  assert (Hscene : forall s, R s (renderScene self (set_isActuallyRendering true s))).
  { intros s1. eapply R_trans; [apply (proj2 (R_flags _)) | apply throughout_renderScene]. }
  destruct (lightingMode (settings s)) eqn:Hmode.
  - apply (R_program_bracket nolightingProgram false).
    eapply R_trans; [apply (R_minimum true) | apply Hscene].
  - apply (R_program_bracket solidColorProgram false), Hscene.
  - apply (R_program_bracket minimumLightingProgram true), Hscene.
  - match goal with
    | |- R s (popProgram (renderScene self (set_isActuallyRendering true
                                              (pushProgram _ _ ?x)))) =>
        set (s1 := x)
    end.
    assert (Hshadow : R s s1).
    { unfold s1. destruct (shadowLightIndices (settings s)) as [|i indices]; [apply R_refl|].
      eapply R_trans; [|apply (proj1 (R_flags _))].
      apply (R_program_bracket shadowMapProgram false).
      eapply R_trans; [apply (proj1 (R_flags _))|].
      eapply R_trans; [apply (proj2 (R_flags _))|].
      apply throughout_renderShadowMaps. }
    clearbody s1.
    eapply R_trans; [exact Hshadow|].
    apply (R_program_bracket phongShadowLightingProgram true), Hscene.
Qed.

End Throughout.

(** ** Relations that ignore the resources and the trace

    A relation as above that also holds of every change of the resource
    members and of every event holds of the rendering functions of the
    leaves, hence of every rendering function and of the frame. *)
Section Untouched.
Context `{Eigen}.
Variable R : GLSLSceneRendererImpl -> GLSLSceneRendererImpl -> Prop.

Hypothesis R_refl : forall s, R s s.
Hypothesis R_trans : forall s1 s2 s3, R s1 s2 -> R s2 s3 -> R s1 s3.
Hypothesis R_pushPickId : forall node doSetColor s, R s (snd (pushPickId node doSetColor s)).
Hypothesis R_popPickId : forall s, R s (popPickId s).
Hypothesis R_modelMatrixStack : forall f s, R s (set_modelMatrixStack f s).
Hypothesis R_postRenderingFunctions : forall f s, R s (set_postRenderingFunctions f s).
Hypothesis R_transparentRenderingFunctions :
  forall f s, R s (set_transparentRenderingFunctions f s).
Hypothesis R_minimum :
  forall b s, R s (set_programs (set_isMinimumLightingProgramActivatedInThisFrame b) s).
Hypothesis R_program_bracket :
  forall program_ isLightingProgram s s2,
    R (pushProgram program_ isLightingProgram s) s2 -> R s (popProgram s2).
Hypothesis R_flags :
  forall s, (forall b, R s (set_isRenderingShadowMap b s))
            /\ (forall b, R s (set_isActuallyRendering b s)).
Hypothesis R_emit : forall e s, R s (emit e s).
Hypothesis R_resources : forall f s, R s (set_resources f s).

Lemma untouched_emits (es : list Event) : forall s, R s (emits es s).
Proof.
  unfold emits. induction es as [|e es IH]; intros s; [apply R_refl|].
  cbn [fold_left]. eapply R_trans; [apply R_emit | apply IH].
Qed.

Lemma untouched_getOrCreateVertexResource obj s :
  R s (snd (getOrCreateVertexResource obj s)).
Proof.
  unfold getOrCreateVertexResource.
  destruct (getOrCreateVertexResource_r obj (resources s)) as [[resource created] r].
  apply R_resources.
Qed.

Lemma untouched_renderTexture texture_ s : R s (snd (renderTexture texture_ s)).
Proof.
  unfold renderTexture.
  destruct (SgTexture_image texture_) as [sgImage|]; [|apply R_refl].
  destruct (SgImage_empty sgImage); [apply R_refl|].
  assert (Hmark : forall resource s1,
             R s1 (if isCheckingUnusedResources (resources s1)
                   then set_resources
                          (fun r => set_resourceMaps
                                      (updateMapAt (nextResourceMap r)
                                         (unordered_map_insert (SgImage_addr sgImage) resource)
                                         (resourceMaps r)) r) s1
                   else s1)).
  { intros resource s1. destruct (isCheckingUnusedResources (resources s1));
      [apply R_resources | apply R_refl]. }
  destruct (mapAt (currentResourceMap (resources s)) (resourceMaps (resources s))
              !! SgImage_addr sgImage) as [resource|].
  - destruct (textureAt resource (heap (resources s))) as [t|].
    + destruct (isLoaded t && isImageUpdateNeeded t).
      * destruct (loadTextureImage t (constImage sgImage)) as [[ok t'] calls]. cbn [snd].
        eapply R_trans; [|apply Hmark].
        eapply R_trans; [apply R_resources | apply untouched_emits].
      * cbn [snd]. apply Hmark.
    + cbn [snd]. apply Hmark.
  - destruct (loadTextureImage _ (constImage sgImage)) as [[ok t'] calls]. cbn [snd].
    eapply R_trans; [|apply Hmark].
    eapply R_trans; [apply R_resources | apply untouched_emits].
Qed.

Lemma untouched_writeMeshVertices mesh_ resource texture_ s :
  R s (writeMeshVertices mesh_ resource texture_ s).
Proof.
  unfold writeMeshVertices.
  destruct (vertexAt resource (heap (resources s))); [apply R_resources | apply R_refl].
Qed.

Lemma untouched_renderPlot plot mode n s : R s (renderPlot plot mode n s).
Proof.
  unfold renderPlot. cbv zeta.
  eapply R_trans; [apply (R_pushPickId (SgPlot_addr plot) true)|].
  generalize (snd (pushPickId (SgPlot_addr plot) true s)). clear s. intros s.
  pose proof (untouched_getOrCreateVertexResource (SgPlot_addr plot) s) as Hget.
  destruct (getOrCreateVertexResource (SgPlot_addr plot) s) as [resource s1]. cbn [snd] in Hget.
  eapply R_trans; [exact Hget|].
  eapply R_trans; [|apply R_popPickId].
  eapply R_trans; [|apply R_emit].
  destruct (vertexAt resource (heap (resources s1))) as [v|]; [|apply R_refl].
  destruct (isValid v) as [[|] v']; apply R_resources.
Qed.

Lemma untouched_renderPointSet pointSet s : R s (renderPointSet pointSet s).
Proof.
  unfold renderPointSet.
  destruct (negb (SgPlot_hasVertices (SgPointSet_plot pointSet))); [apply R_refl|].
  apply (R_program_bracket solidColorProgram false), untouched_renderPlot.
Qed.

Lemma untouched_renderLineSet lineSet s : R s (renderLineSet lineSet s).
Proof.
  unfold renderLineSet.
  destruct (isRenderingShadowMap s); [apply R_refl|].
  destruct (negb (SgPlot_hasVertices (SgLineSet_plot lineSet)) || (numLines lineSet <=? 0));
    [apply R_refl|].
  apply (R_program_bracket solidColorProgram false), untouched_renderPlot.
Qed.

Lemma untouched_renderShapeMain shape position pickId s :
  R s (renderShapeMain shape position pickId s).
Proof.
  unfold renderShapeMain.
  destruct (mesh shape) as [mesh_|]; [|apply R_refl].
  match goal with
  | |- R s (let '(_, _) := ?c in _) => assert (Hc : R s (snd c))
  end.
  { destruct (isPicking s); [apply R_emit|].
    destruct (bool_decide _); [|apply R_refl].
    destruct (texture shape) as [texture_|]; [|apply R_refl].
    destruct (SgMesh_hasTexCoords mesh_); [|apply R_refl].
    apply untouched_renderTexture. }
  match goal with
  | |- R s (let '(_, _) := ?c in _) => destruct c as [isTextureValid s1]
  end.
  cbn [snd] in Hc. eapply R_trans; [exact Hc|]. clear Hc.
  pose proof (untouched_getOrCreateVertexResource (SgMesh_addr mesh_) s1) as Hget.
  destruct (getOrCreateVertexResource (SgMesh_addr mesh_) s1) as [resource s2].
  cbn [snd] in Hget. eapply R_trans; [exact Hget|]. clear Hget.
  match goal with
  | |- context [drawVertexResource _ _ _ _ ?c] => set (s3 := c)
  end.
  assert (Hs3 : R s2 s3).
  { unfold s3. destruct (vertexAt resource (heap (resources s2))) as [v|]; [|apply R_refl].
    destruct (isValid v) as [[|] v']; [apply R_resources|].
    eapply R_trans; [apply R_resources | apply untouched_writeMeshVertices]. }
  clearbody s3. eapply R_trans; [exact Hs3|].
  assert (Hdraw : R s3 (drawVertexResource (ShapeSource shape) resource GL_TRIANGLES position s3))
    by apply R_emit.
  match goal with
  | |- R s3 (if ?c then _ else _) => destruct c; [|exact Hdraw]
  end.
  destruct (vertexAt resource _) as [[nv nb so [lines|]]|]; try exact Hdraw.
  eapply R_trans; [exact Hdraw | apply untouched_renderLineSet].
Qed.

Lemma untouched_renderShape shape s : R s (renderShape shape s).
Proof.
  unfold renderShape.
  destruct (hasDrawableMesh shape); [|apply R_refl].
  destruct (isTransparent shape).
  - destruct (negb (isRenderingShadowMap s)); [|apply R_refl].
    pose proof (R_pushPickId (SgShape_addr shape) false s) as Hpush.
    destruct (pushPickId (SgShape_addr shape) false s) as [pickId s1]. cbn [snd] in Hpush.
    eapply R_trans; [exact Hpush|].
    eapply R_trans; [apply R_transparentRenderingFunctions|].
    eapply R_trans; [apply R_emit | apply R_popPickId].
  - pose proof (R_pushPickId (SgShape_addr shape) false s) as Hpush.
    destruct (pushPickId (SgShape_addr shape) false s) as [pickId s1]. cbn [snd] in Hpush.
    eapply R_trans; [exact Hpush|].
    eapply R_trans; [apply untouched_renderShapeMain | apply R_popPickId].
Qed.

Lemma untouched_dispatch (node : SgNode) (s : GLSLSceneRendererImpl) : R s (dispatch node s).
Proof.
  apply (throughout_dispatch R); auto using untouched_renderShape,
    untouched_renderPointSet, untouched_renderLineSet.
Qed.

Lemma untouched_renderScene (self : GLSceneRenderer) (s : GLSLSceneRendererImpl) :
  R s (renderScene self s).
Proof.
  apply (throughout_renderScene R); auto using untouched_renderShape,
    untouched_renderPointSet, untouched_renderLineSet, untouched_renderShapeMain.
Qed.

Lemma untouched_doRender (self : GLSceneRenderer) (s : GLSLSceneRendererImpl) :
  exists sm : GLSLSceneRendererImpl,
    doRender self s = endRendering sm /\ R (beginRendering s) sm.
Proof.
  apply (throughout_doRender R); auto using untouched_renderShape,
    untouched_renderPointSet, untouched_renderLineSet, untouched_renderShapeMain.
Qed.

End Untouched.

(** ** The shader program stack *)

(** A [popProgram] undoes the [pushProgram] it is paired with, whatever
    happens in between that hands the program state back as it found it. *)
Lemma programState_bracket (program_ : ShaderProgram) (isLightingProgram : bool)
  (s s2 : GLSLSceneRendererImpl) :
  programState s2 = programState (pushProgram program_ isLightingProgram s) ->
  programState (popProgram s2) = programState s.
Proof.
  unfold programState, popProgram, pushProgram. cbn [programs set_programs].
  destruct (programs s) as [c l n st m]. destruct (programs s2) as [c2 l2 n2 st2 m2].
  cbn [currentProgram currentLightingProgram currentNolightingProgram programStack].
  intros Heq.
  assert (Hst : st2 = st ++ [{| program := c; lightingProgram := l; nolightingProgram_ := n |}]).
  { destruct (bool_decide (Some program_ = c)); [|destruct isLightingProgram];
      cbn in Heq; congruence. }
  assert (Hcur : c2 = c -> l2 = l /\ n2 = n).
  { intros ->. destruct (bool_decide (Some program_ = c)) eqn:Hsame.
    - cbn in Heq. split; congruence.
    - apply bool_decide_eq_false in Hsame.
      destruct isLightingProgram; cbn in Heq; exfalso; apply Hsame; congruence. }
  clear Heq. subst st2. rewrite last_snoc.
  cbn [program lightingProgram nolightingProgram_].
  destruct (bool_decide (c = c2)) eqn:Hsame.
  - apply bool_decide_eq_true in Hsame. subst c2. destruct (Hcur eq_refl) as [-> ->].
    cbn. rewrite List.removelast_last. reflexivity.
  - cbn. rewrite List.removelast_last. reflexivity.
Qed.

(** X6: [popProgram] undoes [pushProgram] on the program members.
    [pushProgram] puts the current program and the current lighting and
    non-lighting programs on the stack; whatever program is pushed, lighting
    or not, and whatever program was current (none included), the program
    members after the pop are those before the push: the same current
    program, the same current lighting and non-lighting programs, the same
    stack. (Where the program changes the source also activates it and
    clears the cached GL state; these are not program members.) *)
Theorem popProgram_undoes_pushProgram (program_ : ShaderProgram) (isLightingProgram : bool)
  (s : GLSLSceneRendererImpl) :
  programStack (programs (pushProgram program_ isLightingProgram s))
  = programStack (programs s)
      ++ [{| program := currentProgram (programs s);
             lightingProgram := currentLightingProgram (programs s);
             nolightingProgram_ := currentNolightingProgram (programs s) |}]
  /\ programs (popProgram (pushProgram program_ isLightingProgram s)) = programs s.
Proof.
  split.
  - unfold pushProgram. cbn [programs set_programs].
    destruct (bool_decide (Some program_ = currentProgram (programs s)));
      [|destruct isLightingProgram]; reflexivity.
  - pose proof (programState_bracket program_ isLightingProgram s
                  (pushProgram program_ isLightingProgram s) eq_refl) as Hstate.
    assert (Hflag : isMinimumLightingProgramActivatedInThisFrame
                      (programs (popProgram (pushProgram program_ isLightingProgram s)))
                    = isMinimumLightingProgramActivatedInThisFrame (programs s)).
    { unfold popProgram, pushProgram. cbn [programs set_programs].
      destruct (bool_decide (Some program_ = currentProgram (programs s)));
        [|destruct isLightingProgram];
        cbn [set_programStack set_currentPrograms programStack]; rewrite last_snoc;
        match goal with
        | |- context [bool_decide ?P] => destruct (bool_decide P)
        end; reflexivity. }
    revert Hstate Hflag. unfold programState.
    generalize (programs (popProgram (pushProgram program_ isLightingProgram s))).
    intros [c' l' n' st' m']. destruct (programs s) as [c l n st m]. cbn.
    intros Hstate Hflag. congruence.
Qed.

(** The program state is handed back by every step that is not a
    [pushProgram] or a [popProgram]. *)
Section ProgramState.
Context `{Eigen}.

Ltac program_state_step :=
  cbv beta;
  first [ solve [intros; reflexivity]
        | solve [intros; congruence]
        | solve [intros; eapply programState_bracket; eassumption]
        | solve [intros node' b s'; unfold pushPickId;
                 destruct (isPicking s'); [destruct b|]; reflexivity]
        | solve [intros s'; unfold popPickId; destruct (isPicking s'); reflexivity]
        | solve [intros s'; split; intros; reflexivity] ].

Lemma programState_dispatch (node : SgNode) (s : GLSLSceneRendererImpl) :
  programState (dispatch node s) = programState s.
Proof. apply (untouched_dispatch (fun s s' : GLSLSceneRendererImpl => programState s' = programState s)); program_state_step. Qed.

Lemma programState_renderScene (self : GLSceneRenderer) (s : GLSLSceneRendererImpl) :
  programState (renderScene self s) = programState s.
Proof. apply (untouched_renderScene (fun s s' : GLSLSceneRendererImpl => programState s' = programState s)); program_state_step. Qed.

Lemma programState_doRender (self : GLSceneRenderer) (s : GLSLSceneRendererImpl) :
  programState (doRender self s) = programState s.
Proof.
  destruct (untouched_doRender (fun s s' : GLSLSceneRendererImpl => programState s' = programState s)) with (self := self) (s := s) as (sm & -> & Hsm);
    try program_state_step.
  cbv beta in Hsm.
  change (programState (endRendering sm)) with (programState sm).
  rewrite Hsm. reflexivity.
Qed.

Lemma programState_doPick (self : GLSceneRenderer) (x y : Z) (pixel : Pixel)
  (s : GLSLSceneRendererImpl) :
  programState (snd (doPick self x y pixel s)) = programState s.
Proof.
  unfold doPick. cbv zeta.
  match goal with
  | |- context [popProgram (renderScene self ?x)] => set (s1 := x)
  end.
  assert (Hpop : programState (popProgram (renderScene self s1)) = programState s).
  { eapply programState_bracket. rewrite programState_renderScene. reflexivity. }
  clearbody s1.
  destruct ((0 <? decodePickId (Pixel_color pixel)) && _);
    [destruct (unproject self x y (Pixel_depth pixel))|]; exact Hpop.
Qed.

End ProgramState.

(** X7: the shader program state is balanced. The rendering function of
    every node, a whole [doRender] and a whole [doPick] hand back the
    current program, the current lighting and non-lighting programs and the
    program stack as they found them: every [pushProgram] made on the way is
    undone by its [popProgram], whatever the scene. *)
Theorem rendering_restores_program_state `{Eigen} (self : GLSceneRenderer) (node : SgNode)
  (x y : Z) (pixel : Pixel) (s : GLSLSceneRendererImpl) :
  (currentProgram (programs (dispatch node s)) = currentProgram (programs s)
   /\ programStack (programs (dispatch node s)) = programStack (programs s))
  /\ programState (dispatch node s) = programState s
  /\ programState (doRender self s) = programState s
  /\ programState (snd (doPick self x y pixel s)) = programState s.
Proof.
  pose proof (programState_dispatch node s) as Hnode.
  split; [|split; [exact Hnode|split]].
  - unfold programState in Hnode. injection Hnode as Hc _ _ Hst. auto.
  - apply programState_doRender.
  - apply programState_doPick.
Qed.

(** The picking members outside a picking pass. *)
Section PickResult.
Context `{Eigen}.

Ltac pick_result_step :=
  cbv beta;
  first [ solve [intros; split; reflexivity]
        | solve [intros a1 a2 a3 H12 H23 Ha; destruct (H12 Ha) as [Hp Heq];
                 destruct (H23 Hp) as [Hp3 Heq3]; split; congruence]
        | solve [intros node' b a1 Ha; unfold pushPickId; rewrite Ha; split; [exact Ha | reflexivity]]
        | solve [intros a1 Ha; unfold popPickId; rewrite Ha; split; [exact Ha | reflexivity]]
        | solve [intros p b a1 a2 Hstep Ha; apply (Hstep Ha)]
        | solve [intros a1; split; intros b Ha; (split; [exact Ha | reflexivity])]
        | solve [intros; split; [assumption | reflexivity]] ].

Lemma pick_result_doRender (self : GLSceneRenderer) (s : GLSLSceneRendererImpl) :
  isPicking s = false -> picking (doRender self s) = picking s.
Proof.
  intros Hs.
  destruct (untouched_doRender
               (fun s s' : GLSLSceneRendererImpl =>
                  isPicking s = false -> isPicking s' = false /\ picking s' = picking s)) with (self := self) (s := s) as (sm & -> & Hsm);
    try pick_result_step.
  apply (Hsm Hs).
Qed.

End PickResult.

(** X5: a rendered frame does not disturb the picking members. Outside a
    picking pass [doRender] leaves [pickedNodePath] and [pickedPoint], the
    result of the last [doPick], and the list of pick paths as they are,
    whatever the scene. *)
Theorem doRender_keeps_pick_result `{Eigen} (self : GLSceneRenderer)
  (s : GLSLSceneRendererImpl) :
  isPicking s = false ->
  pickedNodePath (picking (doRender self s)) = pickedNodePath (picking s)
  /\ pickedPoint (picking (doRender self s)) = pickedPoint (picking s)
  /\ pickingNodePathList (picking (doRender self s)) = pickingNodePathList (picking s).
Proof.
  intros Hs. rewrite (pick_result_doRender self s Hs). auto.
Qed.

Lemma doRender_keeps_pick_result_witness :
  pickedNodePath
    (picking (doRender (H := ScalarEigen.instance) SceneExample.renderer initial_renderer))
  = pickedNodePath (picking initial_renderer)
  /\ pickedPoint
       (picking (doRender (H := ScalarEigen.instance) SceneExample.renderer initial_renderer))
     = pickedPoint (picking initial_renderer)
  /\ pickingNodePathList
       (picking (doRender (H := ScalarEigen.instance) SceneExample.renderer initial_renderer))
     = pickingNodePathList (picking initial_renderer).
Proof.
  apply (doRender_keeps_pick_result (H := ScalarEigen.instance) SceneExample.renderer
           initial_renderer).
  reflexivity.
Defined.

(** ** Eviction from the resource cache *)

(** What [beginRendering] decides about the check of unused resources,
    and the next map it leaves. *)
Lemma beginRendering_check (s : GLSLSceneRendererImpl) :
  cache_wf (resources s) ->
  let r := resources s in
  let rb := resources (beginRendering s) in
  isCheckingUnusedResources rb
  = (if isPicking s then false else doUnusedResourceCheck r) && negb (isResourceClearRequested r)
  /\ nextMap rb = ∅
  /\ (isResourceClearRequested r = true -> currentMap rb = ∅).
Proof.
  intros Hwf. cbv zeta.
  unfold beginRendering. cbn [resources set_resources].
  destruct (resources s) as [[m0 m1] c n i du ic hv cr h g].
  destruct (isPicking s), cr, hv, du; eval_members;
    destruct Hwf as (Hindex & Hcur & Hnext & Hcarry); subst c n;
    destruct Hindex as [-> | ->]; eval_members; subst;
    split_and!; auto; try reflexivity; try discriminate.
Qed.

(** A lookup leaves the entries of the other objects alone. *)
Lemma getOrCreateVertexResource_r_other (obj other : SgObjectPtr) (r : ResourceMembers) :
  frame_wf r -> other <> obj ->
  let r' := snd (getOrCreateVertexResource_r obj r) in
  currentMap r' !! other = currentMap r !! other
  /\ nextMap r' !! other = nextMap r !! other.
Proof.
  intros (Hindex & Hcur & Hnext & _) Hne. cbv zeta.
  destruct (map_pointers_differ _ _ _ Hindex Hcur Hnext) as [Hcn Hnc].
  unfold getOrCreateVertexResource_r. fold (currentMap r).
  assert (Hins : forall (v : nat) (m : GLResourceMap),
             unordered_map_insert obj v m !! other = m !! other).
  { intros v m. unfold unordered_map_insert.
    destruct (m !! obj); [reflexivity|]. apply lookup_insert_ne. congruence. }
  destruct (currentMap r !! obj) as [resource|];
    destruct (isCheckingUnusedResources r) eqn:Hcheck;
    unfold currentMap, nextMap; simpl_members; rewrite ?Hcheck; simpl_members;
    rewrite ?mapAt_updateMapAt_same, ?mapAt_updateMapAt_other by assumption;
    rewrite ?mapAt_updateMapAt_same, ?mapAt_updateMapAt_other by assumption;
    rewrite ?Hins, ?lookup_insert_ne by congruence; auto.
Qed.

Lemma renderTexture_other (texture_ : SgTexture) (other : SgObjectPtr)
  (s : GLSLSceneRendererImpl) :
  frame_wf (resources s) ->
  cacheKey (RenderTexture texture_) <> Some other ->
  let r' := resources (snd (renderTexture texture_ s)) in
  currentMap r' !! other = currentMap (resources s) !! other
  /\ nextMap r' !! other = nextMap (resources s) !! other.
Proof.
  intros (Hindex & Hcur & Hnext & _) Hne. cbv zeta.
  destruct (map_pointers_differ _ _ _ Hindex Hcur Hnext) as [Hcn Hnc].
  unfold renderTexture. cbn [cacheKey] in Hne.
  destruct (SgTexture_image texture_) as [sgImage|]; [|cbn; auto].
  destruct (SgImage_empty sgImage); [cbn; auto|].
  assert (Hkey : SgImage_addr sgImage <> other) by congruence.
  assert (Hins : forall (v : nat) (m : GLResourceMap),
             unordered_map_insert (SgImage_addr sgImage) v m !! other = m !! other).
  { intros v m. unfold unordered_map_insert.
    destruct (m !! SgImage_addr sgImage); [reflexivity|]. apply lookup_insert_ne. congruence. }
  assert (Hmark : forall (resource : nat) (s1 : GLSLSceneRendererImpl),
             currentResourceMap (resources s1) = currentResourceMap (resources s) ->
             nextResourceMap (resources s1) = nextResourceMap (resources s) ->
             let r' := resources
                         (if isCheckingUnusedResources (resources s1)
                          then set_resources
                                 (fun r => set_resourceMaps
                                             (updateMapAt (nextResourceMap r)
                                                (unordered_map_insert (SgImage_addr sgImage) resource)
                                                (resourceMaps r)) r) s1
                          else s1) in
             currentMap r' !! other = currentMap (resources s1) !! other
             /\ nextMap r' !! other = nextMap (resources s1) !! other).
  { intros resource s1 Hc Hn. cbv zeta.
    destruct (isCheckingUnusedResources (resources s1)); [|auto].
    cbn [resources set_resources]. unfold currentMap, nextMap. simpl_members.
    rewrite Hc, Hn.
    rewrite mapAt_updateMapAt_same, mapAt_updateMapAt_other by assumption.
    rewrite Hins. auto. }
  destruct (mapAt (currentResourceMap (resources s)) (resourceMaps (resources s))
              !! SgImage_addr sgImage) as [resource|] eqn:Hfound.
  - destruct (textureAt resource (heap (resources s))) as [t|].
    + destruct (isLoaded t && isImageUpdateNeeded t).
      * destruct (loadTextureImage t (constImage sgImage)) as [[loaded t'] calls].
        cbn [snd].
        match goal with
        | |- context [isCheckingUnusedResources (resources ?x)] =>
            destruct (Hmark resource x) as [H1 H2];
              [rewrite resources_emits; reflexivity | rewrite resources_emits; reflexivity |];
              rewrite H1, H2, resources_emits
        end.
        unfold currentMap, nextMap. simpl_members. auto.
      * cbn [snd]. apply Hmark; reflexivity.
    + cbn [snd]. apply Hmark; reflexivity.
  - destruct (loadTextureImage _ (constImage sgImage)) as [[loaded t'] calls].
    cbn [snd].
    match goal with
    | |- context [isCheckingUnusedResources (resources ?x)] =>
        destruct (Hmark (length (heap (resources s))) x) as [H1 H2];
          [rewrite resources_emits; reflexivity | rewrite resources_emits; reflexivity |];
          rewrite H1, H2, resources_emits
    end.
    cbn [resources set_resources]. unfold currentMap, nextMap. simpl_members.
    rewrite mapAt_updateMapAt_same, mapAt_updateMapAt_other by assumption.
    rewrite lookup_insert_ne by exact Hkey. auto.
Qed.

(** The calls of a frame leave alone the entries of the objects they do
    not name. *)
Lemma runCacheCalls_other (other : SgObjectPtr) (calls : list CacheCall) :
  Forall (fun c => cacheKey c <> Some other) calls ->
  forall s : GLSLSceneRendererImpl,
    frame_wf (resources s) ->
    let r' := resources (snd (runCacheCalls calls s)) in
    currentMap r' !! other = currentMap (resources s) !! other
    /\ nextMap r' !! other = nextMap (resources s) !! other.
Proof.
  induction 1 as [|c calls Hc _ IH]; intros s Hwf; cbv zeta; [cbn; auto|].
  cbn [runCacheCalls].
  destruct (runCacheCall c s) as [l1 s1] eqn:Hcall.
  assert (Hs1 : frame_wf (resources s1)
                /\ currentMap (resources s1) !! other = currentMap (resources s) !! other
                /\ nextMap (resources s1) !! other = nextMap (resources s) !! other).
  { destruct c as [obj|texture_]; cbn [runCacheCall] in Hcall.
    - pose proof (getOrCreateVertexResource_r_spec obj (resources s) Hwf) as Hspec.
      pose proof (getOrCreateVertexResource_r_other obj other (resources s) Hwf) as Hother.
      cbv zeta in Hspec, Hother.
      destruct (getOrCreateVertexResource_r obj (resources s)) as [[resource created] r1].
      injection Hcall as _ <-. cbn [resources set_resources snd] in *.
      split; [apply Hspec|]. apply Hother. cbn [cacheKey] in Hc. congruence.
    - injection Hcall as _ <-.
      split; [apply (renderTexture_cache texture_ s Hwf)|].
      apply (renderTexture_other texture_ other s Hwf Hc). }
  destruct Hs1 as (Hwf1 & Hcur1 & Hnext1).
  specialize (IH s1 Hwf1). cbv zeta in IH.
  destruct (runCacheCalls calls s1) as [l2 s2]. cbn [snd] in *.
  rewrite <- Hcur1, <- Hnext1. exact IH.
Qed.

Lemma endRendering_valid (s : GLSLSceneRendererImpl) :
  hasValidNextResourceMap (resources (endRendering s))
  = isCheckingUnusedResources (resources s) || hasValidNextResourceMap (resources s).
Proof.
  unfold endRendering. cbn [resources set_resources].
  destruct (isCheckingUnusedResources (resources s)); reflexivity.
Qed.

(** The stages of a frame: the state after [beginRendering], the state
    after the calls of the traversal, and what [endRendering] carries over. *)
Lemma runFrame_stages (f : Frame) (s : GLSLSceneRendererImpl) :
  cache_wf (resources s) ->
  let sb := beginRendering (set_isPicking (Frame_isPicking f) s) in
  let sc := snd (runCacheCalls (Frame_calls f) sb) in
  let r' := resources (snd (runFrame f s)) in
  frame_wf (resources sb) /\ frame_wf (resources sc)
  /\ isCheckingUnusedResources (resources sc) = isCheckingUnusedResources (resources sb)
  /\ carriedMap r' = (if isCheckingUnusedResources (resources sb)
                      then nextMap (resources sc) else currentMap (resources sc))
  /\ hasValidNextResourceMap r' = isCheckingUnusedResources (resources sb).
Proof.
  intros Hwf. cbv zeta. unfold runFrame. cbv zeta.
  pose proof (beginRendering_spec (set_isPicking (Frame_isPicking f) s) Hwf) as (Hwfb & _).
  cbv zeta in Hwfb.
  set (sb := beginRendering (set_isPicking (Frame_isPicking f) s)) in *. clearbody sb.
  pose proof (runCacheCalls_spec (ObjAddr 0) (Frame_calls f) sb Hwfb) as (Hwfc & Hflags & _).
  cbv zeta in Hwfc, Hflags.
  destruct (runCacheCalls (Frame_calls f) sb) as [log sc]. cbn [fst snd] in *.
  pose proof (cacheFlags_isChecking _ _ Hflags) as Hcheck.
  pose proof (endRendering_spec (set_isPicking false sc) Hwfc) as (_ & _ & _ & Hcarried).
  cbv zeta in Hcarried.
  change (resources (set_isPicking false sc)) with (resources sc) in Hcarried.
  rewrite Hcarried, endRendering_valid.
  change (resources (set_isPicking false sc)) with (resources sc).
  rewrite Hcheck. pose proof Hwfc as (_ & _ & _ & Hv & _).
  rewrite Hv, orb_false_r. auto.
Qed.

(** X8: eviction. With the check of unused resources enabled, a rendered
    frame (not a picking pass) that neither looks an object up nor renders
    it as the image of a texture leaves no resource for that object: the
    map that the next frame starts from has no entry for it. *)
Theorem unused_resource_is_evicted (obj : SgObjectPtr) (f : Frame) (s : GLSLSceneRendererImpl) :
  cache_wf (resources s) ->
  doUnusedResourceCheck (resources s) = true ->
  Frame_isPicking f = false ->
  Forall (fun c => cacheKey c <> Some obj) (Frame_calls f) ->
  carriedMap (resources (snd (runFrame f s))) !! obj = None.
Proof.
  intros Hwf Hcheck Hpick Hunused.
  destruct f as [pick calls]. cbn [Frame_isPicking Frame_calls] in Hpick, Hunused. subst pick.
  pose proof (runFrame_stages {| Frame_isPicking := false; Frame_calls := calls |} s Hwf)
    as (Hwfb & _ & _ & Hcarried & _).
  cbv zeta in Hwfb, Hcarried. rewrite Hcarried.
  pose proof (beginRendering_check (set_isPicking false s) Hwf)
    as (Hchecking & Hnext & Hcleared).
  cbv zeta in Hchecking, Hnext, Hcleared.
  cbn [Frame_isPicking Frame_calls] in *.
  change (resources (set_isPicking false s)) with (resources s) in *.
  change (isPicking (set_isPicking false s)) with false in *.
  rewrite Hcheck in Hchecking. cbn [andb] in Hchecking.
  pose proof (runCacheCalls_other obj calls Hunused _ Hwfb) as [Hcur' Hnext'].
  cbv zeta in Hcur', Hnext'.
  rewrite Hchecking.
  destruct (isResourceClearRequested (resources s)) eqn:Hclear; cbn [negb].
  - rewrite Hcur', Hcleared by reflexivity. apply lookup_empty.
  - rewrite Hnext', Hnext. apply lookup_empty.
Qed.

Lemma unused_resource_is_evicted_witness :
  carriedMap (resources SceneExample.after_both_meshes) !! ObjAddr 10 = Some 0%nat
  /\ carriedMap (resources (snd (runFrame SceneExample.second_mesh
                                   SceneExample.after_both_meshes))) !! ObjAddr 10 = None.
Proof.
  split; [reflexivity|].
  apply (unused_resource_is_evicted (ObjAddr 10) SceneExample.second_mesh
           SceneExample.after_both_meshes).
  - apply (runFrame_spec (ObjAddr 0) SceneExample.both_meshes initial_renderer cache_wf_initial).
  - reflexivity.
  - reflexivity.
  - repeat constructor. discriminate.
Defined.

(** X9: no eviction without the check. A picking pass, and any frame
    rendered while the check of unused resources is disabled, keeps every
    resource of the cache (no clear request pending): each entry of the map
    the frame started from is in the map the next frame starts from, with
    the same resource. *)
Theorem frame_without_check_keeps_resources (f : Frame) (s : GLSLSceneRendererImpl) :
  cache_wf (resources s) ->
  isResourceClearRequested (resources s) = false ->
  Frame_isPicking f = true \/ doUnusedResourceCheck (resources s) = false ->
  carriedMap (resources s) ⊆ carriedMap (resources (snd (runFrame f s))).
Proof.
  intros Hwf Hclear Hnocheck.
  pose proof (runFrame_stages f s Hwf) as (Hwfb & _ & _ & Hcarried & _).
  cbv zeta in Hwfb, Hcarried. rewrite Hcarried.
  pose proof (beginRendering_check (set_isPicking (Frame_isPicking f) s) Hwf)
    as (Hchecking & _).
  pose proof (beginRendering_spec (set_isPicking (Frame_isPicking f) s) Hwf)
    as (_ & _ & _ & Hcurb).
  cbv zeta in Hchecking, Hcurb.
  change (resources (set_isPicking (Frame_isPicking f) s)) with (resources s) in *.
  change (isPicking (set_isPicking (Frame_isPicking f) s)) with (Frame_isPicking f) in *.
  rewrite Hclear in Hcurb.
  assert (Hoff : isCheckingUnusedResources
                   (resources (beginRendering (set_isPicking (Frame_isPicking f) s))) = false).
  { rewrite Hchecking. destruct Hnocheck as [-> | ->]; [reflexivity|].
    destruct (Frame_isPicking f); reflexivity. }
  rewrite Hoff, <- Hcurb.
  apply (runCacheCalls_spec (ObjAddr 0) (Frame_calls f) _ Hwfb).
Qed.

Lemma frame_without_check_keeps_resources_witness :
  carriedMap (resources SceneExample.after_both_meshes)
  ⊆ carriedMap (resources (snd (runFrame SceneExample.picking_frame
                                  SceneExample.after_both_meshes))).
Proof.
  apply (frame_without_check_keeps_resources SceneExample.picking_frame
           SceneExample.after_both_meshes).
  - apply (runFrame_spec (ObjAddr 0) SceneExample.both_meshes initial_renderer cache_wf_initial).
  - reflexivity.
  - left. reflexivity.
Defined.

(** X10: disabling the check of unused resources right after a frame
    that was rendered with the check drops the whole cache. The frame left
    its resources in the next map only, and [enableUnusedResourceCheck]
    clears that map: the map the next frame starts from is empty, so every
    object gets a new resource. After a frame without the check (a picking
    pass for one) the call leaves the cache as it is. *)
Theorem disabling_check_drops_checked_cache (f : Frame) (s : GLSLSceneRendererImpl) :
  cache_wf (resources s) ->
  let s1 := snd (runFrame f s) in
  let s2 := enableUnusedResourceCheck false s1 in
  (doUnusedResourceCheck (resources s) = true ->
   isResourceClearRequested (resources s) = false ->
   Frame_isPicking f = false ->
   carriedMap (resources s2) = ∅
   /\ currentMap (resources (beginRendering s2)) = ∅)
  /\ (Frame_isPicking f = true ->
      carriedMap (resources s2) = carriedMap (resources s1)).
Proof.
  intros Hwf. cbv zeta.
  pose proof (runFrame_stages f s Hwf) as (_ & _ & _ & _ & Hvalid).
  pose proof (runFrame_spec (ObjAddr 0) f s Hwf) as (Hwf1 & Hclear1 & _).
  cbv zeta in Hvalid, Hwf1, Hclear1.
  pose proof (beginRendering_check (set_isPicking (Frame_isPicking f) s) Hwf)
    as (Hchecking & _).
  cbv zeta in Hchecking.
  change (resources (set_isPicking (Frame_isPicking f) s)) with (resources s) in *.
  change (isPicking (set_isPicking (Frame_isPicking f) s)) with (Frame_isPicking f) in *.
  rewrite Hchecking in Hvalid. clear Hchecking.
  set (s1 := snd (runFrame f s)) in *. clearbody s1.
  assert (Hoff : forall hv : bool,
             hasValidNextResourceMap (resources s1) = hv ->
             carriedMap (resources (enableUnusedResourceCheck false s1))
             = (if hv then ∅ else carriedMap (resources s1))
             /\ cache_wf (resources (enableUnusedResourceCheck false s1))
             /\ isResourceClearRequested (resources (enableUnusedResourceCheck false s1))
                = isResourceClearRequested (resources s1)).
  { intros hv' Hhv. unfold enableUnusedResourceCheck. cbn [resources set_resources].
    destruct (resources s1) as [[m0 m1] c n i du ic hv cr h g].
    cbn [hasValidNextResourceMap] in Hhv. subst hv'.
    destruct hv; eval_members;
      destruct Hwf1 as (Hindex & Hcur & Hnext & Hcarry); subst c n;
      destruct Hindex as [-> | ->]; eval_members; subst;
      split_and!; auto. }
  split.
  - intros Hcheck Hclear Hpick. rewrite Hpick, Hcheck, Hclear in Hvalid. cbn in Hvalid.
    destruct (Hoff true Hvalid) as (Hcarried & Hwf2 & Hclear2).
    split; [exact Hcarried|].
    pose proof (beginRendering_spec _ Hwf2) as (_ & _ & _ & Hcurb). cbv zeta in Hcurb.
    rewrite Hcurb, Hclear2, Hclear1. exact Hcarried.
  - intros Hpick. rewrite Hpick in Hvalid. cbn in Hvalid.
    apply (Hoff false Hvalid).
Qed.

Lemma disabling_check_drops_checked_cache_witness :
  (carriedMap (resources (enableUnusedResourceCheck false SceneExample.after_both_meshes)) = ∅
   /\ currentMap (resources (beginRendering
                               (enableUnusedResourceCheck false
                                  SceneExample.after_both_meshes))) = ∅)
  /\ carriedMap (resources (enableUnusedResourceCheck false
                              (snd (runFrame SceneExample.picking_frame initial_renderer))))
     = carriedMap (resources (snd (runFrame SceneExample.picking_frame initial_renderer))).
Proof.
  split.
  - apply (proj1 (disabling_check_drops_checked_cache SceneExample.both_meshes
                    initial_renderer cache_wf_initial)); reflexivity.
  - apply (proj2 (disabling_check_drops_checked_cache SceneExample.picking_frame
                    initial_renderer cache_wf_initial)); reflexivity.
Defined.

(** ** Smooth shading and the lines of the normals *)

(** The two nested loops of [writeMeshNormalsSub] with their running
    index: one step for each expanded vertex. *)
Lemma counted_loops_from {A : Type} (body : Z -> Z * A -> Z * A) (g : Z -> A -> A) :
  (forall (j index : Z) (acc : A), body j (index, acc) = (index + 1, g index acc)) ->
  forall (count : nat) (i k : Z) (a : A),
    for_loop_from count i (fun _ => for_loop 3 body) (k, a)
    = (k + 3 * Z.of_nat count,
       fold_left (fun acc index => g index acc) (seqZ k (3 * Z.of_nat count)) a).
Proof.
  intros Hbody.
  induction count as [|count IH]; intros i k a.
  - cbn. f_equal. lia.
  - cbn [for_loop_from]. unfold for_loop at 2. change (Z.to_nat 3) with 3%nat.
    cbn [for_loop_from]. rewrite !Hbody, IH.
    replace (3 * Z.of_nat (S count)) with (Z.succ (Z.succ (Z.succ (3 * Z.of_nat count)))) by lia.
    rewrite (seqZ_cons k), Z.pred_succ by lia.
    rewrite (seqZ_cons (Z.succ k)), Z.pred_succ by lia.
    rewrite (seqZ_cons (Z.succ (Z.succ k))), Z.pred_succ by lia.
    cbn [fold_left].
    replace (k + 1 + 1 + 1) with (Z.succ (Z.succ (Z.succ k))) by lia.
    replace (k + 1 + 1) with (Z.succ (Z.succ k)) by lia.
    replace (k + 1) with (Z.succ k) by lia.
    f_equal. lia.
Qed.

Lemma counted_loops {A : Type} (body : Z -> Z * A -> Z * A) (g : Z -> A -> A) (n : Z) (a : A) :
  (forall (j index : Z) (acc : A), body j (index, acc) = (index + 1, g index acc)) ->
  snd (for_loop n (fun _ => for_loop 3 body) (0, a))
  = fold_left (fun acc index => g index acc) (seqZ 0 (3 * n)) a.
Proof.
  intros Hbody.
  unfold for_loop at 1. rewrite (counted_loops_from body g Hbody). cbn [snd].
  destruct (Z.le_gt_cases 0 n) as [Hn | Hn].
  - rewrite Z2Nat.id by exact Hn. reflexivity.
  - replace (Z.to_nat n) with O by lia. cbn.
    unfold seqZ. replace (Z.to_nat (3 * n)) with O by lia. reflexivity.
Qed.

Lemma fold_left_map {A B C : Type} (f : A -> B -> A) (g : C -> B) (l : list C) :
  forall a : A, fold_left f (map g l) a = fold_left (fun a x => f a (g x)) l a.
Proof. induction l as [|x l IH]; intros a; [reflexivity|]. cbn. apply IH. Qed.

Lemma at_map_seqZ {A : Type} (g : Z -> A) (d : A) (n k : Z) :
  0 <= k < n -> at_ d (map g (seqZ 0 n)) k = g k.
Proof.
  intros Hk. unfold at_.
  destruct (k <? 0) eqn:Hneg; [apply Z.ltb_lt in Hneg; lia|].
  apply nth_lookup_Some.
  rewrite list_lookup_fmap, lookup_seqZ_lt by lia. cbn. f_equal. f_equal. lia.
Qed.

Section SmoothShading.
Context `{Eigen}.

(** Smooth shading of a mesh that has normals. *)
Lemma smooth_shading_with_normals {E : Type} `{NormalArrayWrapper E}
  (isNormalVisualizationEnabled_ : bool) (normalVisualizationLength_ : float)
  (mesh_ : SgMesh) (orgNormals : list Vector3f) (normals : list E) :
  SgMesh_normals mesh_ = Some orgNormals ->
  let result := writeMeshNormalsSub true isNormalVisualizationEnabled_
                  normalVisualizationLength_ mesh_ normals in
  let expected := map (smoothNormal mesh_ orgNormals) (seqZ 0 (3 * numTriangles mesh_)) in
  ready result = true
  /\ array result = fold_left (fun a v => append v a) expected normals
  /\ array (writeMeshNormalsFloat true isNormalVisualizationEnabled_
              normalVisualizationLength_ mesh_ []) = expected
  /\ (forall k : Z,
         0 <= k < 3 * numTriangles mesh_ ->
         get (array (writeMeshNormalsFloat true isNormalVisualizationEnabled_
                       normalVisualizationLength_ mesh_ [])) k
         = smoothNormal mesh_ orgNormals k).
Proof.
  intros Hnormals.
  assert (Harray : forall (E' : Type) (W : NormalArrayWrapper E') (normals' : list E'),
             array (writeMeshNormalsSub true isNormalVisualizationEnabled_
                      normalVisualizationLength_ mesh_ normals')
             = fold_left (fun a v => append v a)
                 (map (smoothNormal mesh_ orgNormals) (seqZ 0 (3 * numTriangles mesh_)))
                 normals').
  { intros E' W normals'. unfold writeMeshNormalsSub. rewrite Hnormals.
    cbn [negb array].
    rewrite (counted_loops _
               (fun index acc => append (smoothNormal mesh_ orgNormals index) acc))
      by reflexivity.
    rewrite fold_left_map. reflexivity. }
  assert (Hfloat : array (writeMeshNormalsFloat true isNormalVisualizationEnabled_
                            normalVisualizationLength_ mesh_ [])
                   = map (smoothNormal mesh_ orgNormals) (seqZ 0 (3 * numTriangles mesh_))).
  { unfold writeMeshNormalsFloat. rewrite Harray.
    apply (fold_left_push_back _ []). }
  cbv zeta. split; [|split; [apply Harray|split; [exact Hfloat|]]].
  - unfold writeMeshNormalsSub. rewrite Hnormals. reflexivity.
  - intros k Hk. rewrite Hfloat. cbn [get FloatNormalArray].
    apply at_map_seqZ. exact Hk.
Qed.

(** X18: smooth shading. With [defaultSmoothShading] set and a mesh that
    has normals, [writeMeshNormalsSub] appends one normal for each expanded
    vertex, in order: for vertex [k] the normal at index [normalIndices[k]],
    or at index [triangleVertices[k]] when the mesh has no normal indices;
    with the [float] array the array read back at [k] is that normal. For a
    mesh without normals it appends nothing and returns false, so that no
    normal buffer is handed to the driver. *)
Theorem smooth_shading_normals {E : Type} `{NormalArrayWrapper E}
  (isNormalVisualizationEnabled_ : bool) (normalVisualizationLength_ : float)
  (mesh_ : SgMesh) (normals : list E) :
  let result := writeMeshNormalsSub true isNormalVisualizationEnabled_
                  normalVisualizationLength_ mesh_ normals in
  match SgMesh_normals mesh_ with
  | Some orgNormals =>
      let expected := map (smoothNormal mesh_ orgNormals) (seqZ 0 (3 * numTriangles mesh_)) in
      ready result = true
      /\ array result = fold_left (fun a v => append v a) expected normals
      /\ array (writeMeshNormalsFloat true isNormalVisualizationEnabled_
                  normalVisualizationLength_ mesh_ []) = expected
      /\ (forall k : Z,
             0 <= k < 3 * numTriangles mesh_ ->
             get (array (writeMeshNormalsFloat true isNormalVisualizationEnabled_
                           normalVisualizationLength_ mesh_ [])) k
             = smoothNormal mesh_ orgNormals k)
  | None => ready result = false /\ array result = normals
  end.
Proof.
  cbv zeta. destruct (SgMesh_normals mesh_) as [orgNormals|] eqn:Hnormals.
  - apply smooth_shading_with_normals. exact Hnormals.
  - unfold writeMeshNormalsSub. rewrite Hnormals. split; reflexivity.
Qed.

(** The line set that [writeMeshNormalsSub] builds reads the array back:
    two vertices for each expanded vertex [k], the position of the vertex
    and that position plus the entry [k] of the array scaled by the length. *)
Lemma normal_lines_read_back {E : Type} `{NormalArrayWrapper E}
  (defaultSmoothShading_ : bool) (normalVisualizationLength_ : float)
  (mesh_ : SgMesh) (normals : list E) :
  let result := writeMeshNormalsSub defaultSmoothShading_ true
                  normalVisualizationLength_ mesh_ normals in
  let n := 3 * numTriangles mesh_ in
  normalLines result =
    Some (flat_map (fun k => [expandedVertex mesh_ k;
                              Vector3f_add (expandedVertex mesh_ k)
                                (Vector3f_scale (get (array result) k)
                                   normalVisualizationLength_)])
                   (seqZ 0 n),
          flat_map (fun k => [k * 2; k * 2 + 1]) (seqZ 0 n))
  /\ normalLines (writeMeshNormalsSub defaultSmoothShading_ false
                    normalVisualizationLength_ mesh_ normals) = None.
Proof.
  cbv zeta. split; [|unfold writeMeshNormalsSub;
                     destruct (negb defaultSmoothShading_); [reflexivity|];
                     destruct (SgMesh_normals mesh_); reflexivity].
  assert (Hlines : forall (final : list E),
             snd (for_loop (numTriangles mesh_)
                    (fun _ =>
                       for_loop 3
                         (fun _ '(vertexIndex, (lineVertices_, lines_)) =>
                            let v := at_ Vector3f_Zero (default [] (SgMesh_vertices mesh_))
                                         (at_ 0 (triangleVertices mesh_) vertexIndex) in
                            (vertexIndex + 1,
                             (lineVertices_
                                ++ [v; Vector3f_add v
                                         (Vector3f_scale (get final vertexIndex)
                                            normalVisualizationLength_)],
                              lines_ ++ [vertexIndex * 2; vertexIndex * 2 + 1]))))
                    (0, ([], [])))
             = (flat_map (fun k => [expandedVertex mesh_ k;
                                    Vector3f_add (expandedVertex mesh_ k)
                                      (Vector3f_scale (get final k)
                                         normalVisualizationLength_)])
                         (seqZ 0 (3 * numTriangles mesh_)),
                flat_map (fun k => [k * 2; k * 2 + 1]) (seqZ 0 (3 * numTriangles mesh_)))).
  { intros final.
    rewrite (counted_loops _
               (fun index acc =>
                  (fst acc
                     ++ [expandedVertex mesh_ index;
                         Vector3f_add (expandedVertex mesh_ index)
                           (Vector3f_scale (get final index) normalVisualizationLength_)],
                   snd acc ++ [index * 2; index * 2 + 1])))
      by (intros j index [lineVertices_ lines_]; reflexivity).
    set (F := fun k => [expandedVertex mesh_ k;
                        Vector3f_add (expandedVertex mesh_ k)
                          (Vector3f_scale (get final k) normalVisualizationLength_)]).
    set (G := fun k : Z => [k * 2; k * 2 + 1]).
    assert (Hfold : forall l done : list Z,
               fold_left (fun (acc : list Vector3f * list Z) index =>
                            (fst acc ++ F index, snd acc ++ G index))
                         l (flat_map F done, flat_map G done)
               = (flat_map F (done ++ l), flat_map G (done ++ l))).
    { induction l as [|k l IH]; intros done.
      - rewrite app_nil_r. reflexivity.
      - cbn [fold_left fst snd].
        replace (F k) with (flat_map F [k]) by (cbn [flat_map]; apply app_nil_r).
        replace (G k) with (flat_map G [k]) by (cbn [flat_map]; apply app_nil_r).
        rewrite <- !flat_map_app, (IH (done ++ [k])), <- app_assoc. reflexivity. }
    apply (Hfold _ []). }
  unfold writeMeshNormalsSub.
  destruct (negb defaultSmoothShading_);
    [|destruct (SgMesh_normals mesh_)]; cbn [normalLines array]; rewrite Hlines; reflexivity.
Qed.

(** The array that [writeMeshNormalsSub] leaves with flat shading. *)
Lemma flat_shading_array {E : Type} `{NormalArrayWrapper E}
  (isNormalVisualizationEnabled_ : bool) (normalVisualizationLength_ : float)
  (mesh_ : SgMesh) (normals : list E) :
  array (writeMeshNormalsSub false isNormalVisualizationEnabled_
           normalVisualizationLength_ mesh_ normals)
  = fold_left (fun a v => append v a) (spec_flatNormals mesh_) normals.
Proof.
  unfold writeMeshNormalsSub. cbn [negb array].
  rewrite for_loop_fold. unfold spec_flatNormals.
  rewrite fold_left_flat_map. reflexivity.
Qed.

(** With flat shading, and with smooth shading of a mesh that has
    normals, an array whose [append] adds one entry holds one entry for
    each expanded vertex. *)
Lemma normal_array_is_filled {E : Type} `{NormalArrayWrapper E}
  (defaultSmoothShading_ isNormalVisualizationEnabled_ : bool)
  (normalVisualizationLength_ : float) (mesh_ : SgMesh) :
  (forall (v : Vector3f) (a : list E), length (append v a) = S (length a)) ->
  defaultSmoothShading_ = false \/ SgMesh_normals mesh_ <> None ->
  Z.of_nat (length (array (writeMeshNormalsSub defaultSmoothShading_
                             isNormalVisualizationEnabled_ normalVisualizationLength_
                             mesh_ [])))
  = 3 * numTriangles mesh_.
Proof.
  intros Happend Hfilled.
  assert (Hfold : forall (l : list Vector3f) (a : list E),
             length (fold_left (fun a v => append v a) l a) = (length a + length l)%nat).
  { induction l as [|v l IH]; intros a; cbn [fold_left length]; [lia|].
    rewrite IH, Happend. lia. }
  assert (Hn : 0 <= numTriangles mesh_) by (unfold numTriangles; apply Z.div_pos; lia).
  destruct defaultSmoothShading_.
  - destruct Hfilled as [Hflat | Hnormals]; [discriminate|].
    destruct (SgMesh_normals mesh_) as [orgNormals|] eqn:Horg; [|congruence].
    destruct (smooth_shading_with_normals isNormalVisualizationEnabled_
                normalVisualizationLength_ mesh_ orgNormals [] Horg) as (_ & -> & _).
    rewrite Hfold, length_map, length_seqZ. cbn [length]. lia.
  - rewrite flat_shading_array, Hfold. unfold spec_flatNormals.
    rewrite (flat_map_constant_length (c := 3%nat)) by (intros; reflexivity).
    rewrite length_seqZ. cbn [length]. lia.
Qed.

End SmoothShading.

(** X19: the lines of the normals, where the mesh has a normal for every
    expanded vertex: with flat shading, or with smooth shading of a mesh
    that has normals. The array of normals, packed or [float], then holds
    one entry for each expanded vertex, so that every read of it is within
    the array; and [writeMeshNormalsSub] builds a line set with two vertices
    for each expanded vertex [k]: the position of the vertex, and that
    position plus the normal read back from the array at [k] scaled by
    [normalVisualizationLength]; line [k] joins the vertices [2 k] and
    [2 k + 1]. With the visualization disabled there is no line set. (With
    smooth shading of a mesh without normals the array stays empty and the
    source reads beyond it; nothing is said about that case.) *)
Theorem normal_visualization_lines `{Eigen} (defaultSmoothShading_ : bool)
  (normalVisualizationLength_ : float) (mesh_ : SgMesh) :
  defaultSmoothShading_ = false \/ SgMesh_normals mesh_ <> None ->
  let n := 3 * numTriangles mesh_ in
  let expected {E : Type} `{NormalArrayWrapper E} (array_ : list E) :=
    Some (flat_map (fun k => [expandedVertex mesh_ k;
                              Vector3f_add (expandedVertex mesh_ k)
                                (Vector3f_scale (get array_ k) normalVisualizationLength_)])
                   (seqZ 0 n),
          flat_map (fun k => [k * 2; k * 2 + 1]) (seqZ 0 n)) in
  let packed := writeMeshNormalsPacked defaultSmoothShading_ true
                  normalVisualizationLength_ mesh_ [] in
  let floats := writeMeshNormalsFloat defaultSmoothShading_ true
                  normalVisualizationLength_ mesh_ [] in
  (Z.of_nat (length (array packed)) = n /\ normalLines packed = expected (array packed))
  /\ (Z.of_nat (length (array floats)) = n /\ normalLines floats = expected (array floats))
  /\ normalLines (writeMeshNormalsPacked defaultSmoothShading_ false
                    normalVisualizationLength_ mesh_ []) = None
  /\ normalLines (writeMeshNormalsFloat defaultSmoothShading_ false
                    normalVisualizationLength_ mesh_ []) = None.
Proof.
  intros Hfilled. cbv zeta.
  split; [|split; [|split]].
  - split.
    + apply (normal_array_is_filled (E := Z)); [|exact Hfilled].
      intros [[x y] z] a. unfold append, PackedNormalArray, packed_append.
      rewrite length_app. cbn [length]. lia.
    + apply (normal_lines_read_back (E := Z)).
  - split.
    + apply (normal_array_is_filled (E := Vector3f)); [|exact Hfilled].
      intros v a. cbn [append FloatNormalArray]. rewrite length_app. cbn [length]. lia.
    + apply (normal_lines_read_back (E := Vector3f)).
  - apply (normal_lines_read_back (E := Z)).
  - apply (normal_lines_read_back (E := Vector3f)).
Qed.

Lemma normal_visualization_lines_witness :
  let packed := writeMeshNormalsPacked (H := ScalarEigen.instance) false true Example.half
                  Example.triangle_mesh [] in
  Z.of_nat (length (array packed)) = 3
  /\ option_map snd (normalLines packed) = Some [0; 1; 2; 3; 4; 5].
Proof.
  destruct (normal_visualization_lines (H := ScalarEigen.instance) false Example.half
              Example.triangle_mesh (or_introl eq_refl)) as ((Hlen & Hlines) & _).
  split; [exact Hlen|]. rewrite Hlines. reflexivity.
Defined.

(** ** Draw calls and the resource cache *)

Lemma drawnFromCache_mono (r r' : ResourceMembers) (e : Event) :
  cacheFlags r' = cacheFlags r ->
  currentMap r ⊆ currentMap r' -> nextMap r ⊆ nextMap r' ->
  drawnFromCache r e -> drawnFromCache r' e.
Proof.
  intros Hflags Hcur Hnext. destruct e; cbn [drawnFromCache]; auto.
  intros (key & Hkey & Hc & Hn). exists key. split; [exact Hkey|]. split.
  - eapply lookup_weaken; eassumption.
  - rewrite (cacheFlags_isChecking _ _ Hflags). intros Hcheck.
    eapply lookup_weaken; [apply Hn, Hcheck | exact Hnext].
Qed.

Lemma cacheStep_refl (s : GLSLSceneRendererImpl) : cacheStep s s.
Proof.
  intros Hwf. split; [exact Hwf|]. split; [reflexivity|]. split; [reflexivity|].
  split; [reflexivity|]. exists []. rewrite app_nil_r. split; [reflexivity | constructor].
Qed.

Lemma cacheReach_trans (s1 s2 s3 : GLSLSceneRendererImpl) :
  cacheReach s1 s2 -> cacheReach s2 s3 -> cacheReach s1 s3.
Proof.
  intros (Hwf2 & Hflags2 & Hcur2 & Hnext2 & ext2 & Htrace2 & Hdraws2)
         (Hwf3 & Hflags3 & Hcur3 & Hnext3 & ext3 & Htrace3 & Hdraws3).
  split; [exact Hwf3|]. split; [congruence|].
  split; [etransitivity; eassumption|]. split; [etransitivity; eassumption|].
  exists (ext2 ++ ext3). split; [rewrite Htrace3, Htrace2, app_assoc; reflexivity|].
  apply Forall_app. split; [|exact Hdraws3].
  eapply Forall_impl; [exact Hdraws2|]. intros e. apply drawnFromCache_mono; assumption.
Qed.

Lemma cacheReach_step (s1 s2 s3 : GLSLSceneRendererImpl) :
  cacheReach s1 s2 -> cacheStep s2 s3 -> cacheReach s1 s3.
Proof.
  intros H12 H23. eapply cacheReach_trans; [exact H12|]. apply H23, H12.
Qed.

Lemma cacheStep_trans (s1 s2 s3 : GLSLSceneRendererImpl) :
  cacheStep s1 s2 -> cacheStep s2 s3 -> cacheStep s1 s3.
Proof. intros H12 H23 Hwf1. eapply cacheReach_step; [apply H12, Hwf1 | exact H23]. Qed.

(** A step that leaves the maps and the flags alone and emits events
    that are not draw calls. *)
Lemma cacheStep_aside (s s' : GLSLSceneRendererImpl) (ext : list Event) :
  resourceMaps (resources s') = resourceMaps (resources s) ->
  cacheFlags (resources s') = cacheFlags (resources s) ->
  trace s' = trace s ++ ext ->
  Forall (fun e => isAuxiliary e = true \/ exists f, e = deferred f) ext ->
  cacheStep s s'.
Proof.
  intros Hmaps Hflags Htrace Haux Hwf.
  assert (Hcur : currentMap (resources s') = currentMap (resources s)).
  { unfold currentMap. rewrite Hmaps. unfold cacheFlags in Hflags. congruence. }
  assert (Hnext : nextMap (resources s') = nextMap (resources s)).
  { unfold nextMap. rewrite Hmaps. unfold cacheFlags in Hflags. congruence. }
  split; [eapply frame_wf_same_maps; eassumption|]. split; [exact Hflags|].
  rewrite Hcur, Hnext. split; [reflexivity|]. split; [reflexivity|].
  exists ext. split; [exact Htrace|].
  eapply Forall_impl; [exact Haux|].
  intros e [He | [f ->]]; [|exact I]. destruct e; try discriminate He; exact I.
Qed.

Lemma cacheStep_same (s s' : GLSLSceneRendererImpl) :
  resources s' = resources s -> trace s' = trace s -> cacheStep s s'.
Proof.
  intros Hr Ht. apply (cacheStep_aside s s' []); rewrite ?Hr, ?Ht, ?app_nil_r;
    constructor || reflexivity.
Qed.

Lemma cacheStep_heap (f : list GLResource -> list GLResource) (s : GLSLSceneRendererImpl) :
  cacheStep s (set_resources (fun r => set_heap (f (heap r)) r) s).
Proof. apply (cacheStep_aside _ _ []); rewrite ?app_nil_r; constructor || reflexivity. Qed.

Lemma cacheStep_emit (e : Event) (s : GLSLSceneRendererImpl) :
  isAuxiliary e = true \/ (exists f, e = deferred f) -> cacheStep s (emit e s).
Proof.
  intros He. apply (cacheStep_aside _ _ [e]); try reflexivity.
  constructor; [exact He | constructor].
Qed.

Lemma cacheStep_emits (es : list Event) :
  Forall (fun e => isAuxiliary e = true) es -> forall s, cacheStep s (emits es s).
Proof.
  unfold emits. induction 1 as [|e es He _ IH]; intros s; [apply cacheStep_refl|].
  cbn [fold_left]. eapply cacheStep_trans; [apply cacheStep_emit; left; exact He | apply IH].
Qed.

Lemma cacheStep_pushPickId node doSetColor s : cacheStep s (snd (pushPickId node doSetColor s)).
Proof.
  unfold pushPickId. destruct (isPicking s); [|apply cacheStep_refl].
  destruct doSetColor; cbn [snd].
  - eapply cacheStep_trans; [|apply cacheStep_emit; left; reflexivity].
    apply cacheStep_same; reflexivity.
  - apply cacheStep_same; reflexivity.
Qed.

Lemma cacheStep_popPickId s : cacheStep s (popPickId s).
Proof.
  unfold popPickId. destruct (isPicking s); [|apply cacheStep_refl].
  apply cacheStep_same; reflexivity.
Qed.

Lemma cacheStep_program_bracket program_ isLightingProgram s s2 :
  cacheStep (pushProgram program_ isLightingProgram s) s2 -> cacheStep s (popProgram s2).
Proof.
  intros Hstep.
  eapply cacheStep_trans; [apply (cacheStep_same s (pushProgram program_ isLightingProgram s));
                           reflexivity|].
  eapply cacheStep_trans; [exact Hstep | apply cacheStep_same; reflexivity].
Qed.

(** A lookup: the resource returned is the one the maps hold afterwards. *)
Lemma cacheReach_getOrCreateVertexResource (obj : SgObjectPtr) (s : GLSLSceneRendererImpl) :
  frame_wf (resources s) ->
  let resource := fst (getOrCreateVertexResource obj s) in
  let s1 := snd (getOrCreateVertexResource obj s) in
  cacheReach s s1
  /\ currentMap (resources s1) !! obj = Some resource
  /\ (isCheckingUnusedResources (resources s1) = true ->
      nextMap (resources s1) !! obj = Some resource).
Proof.
  intros Hwf. cbv zeta. unfold getOrCreateVertexResource.
  pose proof (getOrCreateVertexResource_r_spec obj (resources s) Hwf)
    as (Hwf1 & Hflags & Hcur & Hnext & Hc & Hn & _).
  cbv zeta in Hwf1, Hflags, Hcur, Hnext, Hc, Hn.
  destruct (getOrCreateVertexResource_r obj (resources s)) as [[resource created] r1].
  cbn [fst snd resources set_resources] in *.
  split; [|split; [exact Hc | rewrite (cacheFlags_isChecking _ _ Hflags); exact Hn]].
  split; [exact Hwf1|]. split; [exact Hflags|]. split; [exact Hcur|]. split; [exact Hnext|].
  exists []. rewrite app_nil_r. split; [reflexivity | constructor].
Qed.

(** After changes of the heap only, a draw call with the resource that
    the maps hold for the object of the call. *)
Lemma cacheStep_draw (source : DrawSource) (key : SgObjectPtr) (resource : nat)
  (mode : GLenum) (position : Affine3) (s s1 : GLSLSceneRendererImpl) :
  drawKey source = Some key ->
  currentMap (resources s) !! key = Some resource ->
  (isCheckingUnusedResources (resources s) = true -> nextMap (resources s) !! key = Some resource) ->
  resourceMaps (resources s1) = resourceMaps (resources s) ->
  cacheFlags (resources s1) = cacheFlags (resources s) ->
  trace s1 = trace s ->
  cacheStep s (drawVertexResource source resource mode position s1).
Proof.
  intros Hkey Hc Hn Hmaps Hflags Htrace Hwf.
  assert (Hcur : currentMap (resources s1) = currentMap (resources s)).
  { unfold currentMap. rewrite Hmaps. unfold cacheFlags in Hflags. congruence. }
  assert (Hnext : nextMap (resources s1) = nextMap (resources s)).
  { unfold nextMap. rewrite Hmaps. unfold cacheFlags in Hflags. congruence. }
  unfold drawVertexResource.
  match goal with |- cacheReach s (emit ?e s1) => set (event := e) end.
  change (resources (emit event s1)) with (resources s1).
  split; [eapply frame_wf_same_maps; eassumption|]. split; [exact Hflags|].
  change (resources (emit event s1)) with (resources s1).
  rewrite Hcur, Hnext. split; [reflexivity|]. split; [reflexivity|].
  exists [event]. split; [cbn [trace emit]; rewrite Htrace; reflexivity|].
  constructor; [|constructor]. unfold event. cbn [drawnFromCache].
  exists key. rewrite Hcur, Hnext, (cacheFlags_isChecking _ _ Hflags). auto.
Qed.

Section CacheLeaves.
Context `{Eigen}.

Lemma cacheStep_renderTexture texture_ s : cacheStep s (snd (renderTexture texture_ s)).
Proof.
  intros Hwf.
  pose proof (renderTexture_cache texture_ s Hwf) as (Hwf1 & Hflags & Hcur & Hnext).
  cbv zeta in Hwf1, Hflags, Hcur, Hnext.
  pose proof (emitting_renderTexture (fun e => isAuxiliary e = true) (fun e He => He)
                texture_ s) as (_ & (ext & Htrace & _ & Haux) & _).
  split; [exact Hwf1|]. split; [exact Hflags|]. split; [exact Hcur|]. split; [exact Hnext|].
  exists ext. split; [exact Htrace|].
  eapply Forall_impl; [exact Haux|]. intros e He. destruct e; try discriminate He; exact I.
Qed.

Lemma cacheStep_renderPlot plot mode n s : cacheStep s (renderPlot plot mode n s).
Proof.
  unfold renderPlot. cbv zeta.
  eapply cacheStep_trans; [apply (cacheStep_pushPickId (SgPlot_addr plot) true)|].
  generalize (snd (pushPickId (SgPlot_addr plot) true s)). clear s. intros s Hwf.
  pose proof (cacheReach_getOrCreateVertexResource (SgPlot_addr plot) s Hwf)
    as (Hreach & Hc & Hn). cbv zeta in Hreach, Hc, Hn.
  destruct (getOrCreateVertexResource (SgPlot_addr plot) s) as [resource s1].
  cbn [fst snd] in *.
  eapply cacheReach_step; [exact Hreach|].
  eapply cacheStep_trans; [|apply cacheStep_popPickId].
  apply (cacheStep_draw _ (SgPlot_addr plot)); try assumption; try reflexivity;
    (destruct (vertexAt resource (heap (resources s1))) as [v|]; [|reflexivity];
     destruct (isValid v) as [[|] v']; reflexivity).
Qed.

Lemma cacheStep_renderPointSet pointSet s : cacheStep s (renderPointSet pointSet s).
Proof.
  unfold renderPointSet.
  destruct (negb (SgPlot_hasVertices (SgPointSet_plot pointSet))); [apply cacheStep_refl|].
  apply (cacheStep_program_bracket solidColorProgram false), cacheStep_renderPlot.
Qed.

Lemma cacheStep_renderLineSet lineSet s : cacheStep s (renderLineSet lineSet s).
Proof.
  unfold renderLineSet.
  destruct (isRenderingShadowMap s); [apply cacheStep_refl|].
  destruct (negb (SgPlot_hasVertices (SgLineSet_plot lineSet)) || (numLines lineSet <=? 0));
    [apply cacheStep_refl|].
  apply (cacheStep_program_bracket solidColorProgram false), cacheStep_renderPlot.
Qed.

Lemma cacheStep_renderShapeMain shape position pickId s :
  cacheStep s (renderShapeMain shape position pickId s).
Proof.
  unfold renderShapeMain.
  destruct (mesh shape) as [mesh_|] eqn:Hmesh; [|apply cacheStep_refl].
  match goal with
  | |- cacheStep s (let '(_, _) := ?c in _) => assert (Hc : cacheStep s (snd c))
  end.
  { destruct (isPicking s); [apply cacheStep_emit; left; reflexivity|].
    destruct (bool_decide _); [|apply cacheStep_refl].
    destruct (texture shape) as [texture_|]; [|apply cacheStep_refl].
    destruct (SgMesh_hasTexCoords mesh_); [|apply cacheStep_refl].
    apply cacheStep_renderTexture. }
  match goal with
  | |- cacheStep s (let '(_, _) := ?c in _) => destruct c as [isTextureValid s1]
  end.
  cbn [snd] in Hc. eapply cacheStep_trans; [exact Hc|]. clear Hc s. intros Hwf.
  pose proof (cacheReach_getOrCreateVertexResource (SgMesh_addr mesh_) s1 Hwf)
    as (Hreach & Hcur & Hnext). cbv zeta in Hreach, Hcur, Hnext.
  destruct (getOrCreateVertexResource (SgMesh_addr mesh_) s1) as [resource s2].
  cbn [fst snd] in *.
  eapply cacheReach_step; [exact Hreach|]. clear Hreach Hwf s1.
  match goal with
  | |- context [drawVertexResource _ _ _ _ ?c] => set (s3 := c)
  end.
  assert (Hs3 : resourceMaps (resources s3) = resourceMaps (resources s2)
                /\ cacheFlags (resources s3) = cacheFlags (resources s2)
                /\ trace s3 = trace s2).
  { unfold s3. destruct (vertexAt resource (heap (resources s2))) as [v|]; [|auto].
    destruct (isValid v) as [[|] v']; [cbn; auto|].
    unfold writeMeshVertices.
    destruct (vertexAt resource (heap (resources (storeVertexResource resource v' s2))));
      cbn; auto. }
  clearbody s3. destruct Hs3 as (Hmaps & Hflags & Htrace).
  assert (Hdraw : cacheStep s2
                    (drawVertexResource (ShapeSource shape) resource GL_TRIANGLES position s3)).
  { apply (cacheStep_draw _ (SgMesh_addr mesh_)); try assumption.
    cbn [drawKey]. rewrite Hmesh. reflexivity. }
  match goal with
  | |- cacheStep s2 (if ?c then _ else _) => destruct c; [|exact Hdraw]
  end.
  destruct (vertexAt resource _) as [[nv nb so [lines|]]|]; try exact Hdraw.
  eapply cacheStep_trans; [exact Hdraw | apply cacheStep_renderLineSet].
Qed.

Lemma cacheStep_renderShape shape s : cacheStep s (renderShape shape s).
Proof.
  unfold renderShape.
  destruct (hasDrawableMesh shape); [|apply cacheStep_refl].
  destruct (isTransparent shape).
  - destruct (negb (isRenderingShadowMap s)); [|apply cacheStep_refl].
    pose proof (cacheStep_pushPickId (SgShape_addr shape) false s) as Hpush.
    destruct (pushPickId (SgShape_addr shape) false s) as [pickId s1]. cbn [snd] in Hpush.
    eapply cacheStep_trans; [exact Hpush|].
    eapply cacheStep_trans; [|apply cacheStep_popPickId].
    eapply cacheStep_trans; [|apply cacheStep_emit; right; eexists; reflexivity].
    apply cacheStep_same; reflexivity.
  - pose proof (cacheStep_pushPickId (SgShape_addr shape) false s) as Hpush.
    destruct (pushPickId (SgShape_addr shape) false s) as [pickId s1]. cbn [snd] in Hpush.
    eapply cacheStep_trans; [exact Hpush|].
    eapply cacheStep_trans; [apply cacheStep_renderShapeMain | apply cacheStep_popPickId].
Qed.

Ltac cache_step :=
  first [ solve [intros; apply cacheStep_refl]
        | solve [intros; eapply cacheStep_trans; eassumption]
        | solve [intros; apply cacheStep_pushPickId]
        | solve [intros; apply cacheStep_popPickId]
        | solve [intros; apply cacheStep_same; reflexivity]
        | solve [intros; eapply cacheStep_program_bracket; eassumption]
        | solve [intros; apply cacheStep_emit; left; assumption]
        | solve [intros; split; intros; apply cacheStep_same; reflexivity]
        | solve [intros; apply cacheStep_renderShape]
        | solve [intros; apply cacheStep_renderShapeMain]
        | solve [intros; apply cacheStep_renderPointSet]
        | solve [intros; apply cacheStep_renderLineSet] ].

Lemma cacheStep_dispatch (node : SgNode) (s : GLSLSceneRendererImpl) :
  cacheStep s (dispatch node s).
Proof. apply (throughout_dispatch cacheStep); cache_step. Qed.

Lemma cacheStep_renderScene (self : GLSceneRenderer) (s : GLSLSceneRendererImpl) :
  cacheStep s (renderScene self s).
Proof. apply (throughout_renderScene cacheStep); cache_step. Qed.

Lemma cacheStep_doRender (self : GLSceneRenderer) (s : GLSLSceneRendererImpl) :
  exists sm : GLSLSceneRendererImpl,
    doRender self s = endRendering sm /\ cacheStep (beginRendering s) sm.
Proof. apply (throughout_doRender cacheStep); cache_step. Qed.

End CacheLeaves.

(** ** Frames and the resource cache *)

Lemma eventsSince_app (s s' : GLSLSceneRendererImpl) (ext : list Event) :
  trace s' = trace s ++ ext -> eventsSince s s' = ext.
Proof. intros Htrace. unfold eventsSince. rewrite Htrace. apply drop_app_length. Qed.

Lemma cacheDraws_cached (r : ResourceMembers) (ext : list Event) :
  Forall (drawnFromCache r) ext ->
  Forall (fun draw => currentMap r !! fst draw = Some (snd draw)
                      /\ (isCheckingUnusedResources r = true ->
                          nextMap r !! fst draw = Some (snd draw)))
         (cacheDraws ext).
Proof.
  unfold cacheDraws. induction 1 as [|e ext He _ IH]; [constructor|].
  cbn [omap list_omap]. destruct e; try exact IH.
  cbn [drawnFromCache] in He. destruct He as (key & Hkey & Hc & Hn).
  rewrite Hkey. cbn [option_map]. constructor; [|exact IH]. cbn [fst snd]. auto.
Qed.

(** A frame: [beginRendering], a traversal that keeps [cacheStep], and
    [endRendering]. *)
Lemma frame_cache (s sb sm : GLSLSceneRendererImpl) :
  cache_wf (resources s) ->
  resources sb = resources (beginRendering (set_isPicking (isPicking sb) s)) ->
  trace sb = trace s ++ eventsSince s sb ->
  Forall (fun e => isAuxiliary e = true) (eventsSince s sb) ->
  cacheStep sb sm ->
  framePost (isPicking sb || negb (doUnusedResourceCheck (resources s))) s (endRendering sm).
Proof.
  intros Hwf Hsb Htraceb Hauxb Hstep.
  pose proof (beginRendering_spec (set_isPicking (isPicking sb) s) Hwf)
    as (Hwfb & Hdub & Hclearb & Hcurb).
  pose proof (beginRendering_check (set_isPicking (isPicking sb) s) Hwf) as (Hcheckb & _).
  cbv zeta in Hwfb, Hdub, Hclearb, Hcurb, Hcheckb.
  change (resources (set_isPicking (isPicking sb) s)) with (resources s) in *.
  change (isPicking (set_isPicking (isPicking sb) s)) with (isPicking sb) in *.
  rewrite <- Hsb in *.
  destruct (Hstep Hwfb) as (Hwfm & Hflags & Hcur & Hnext & ext & Htrace & Hdraws).
  pose proof (endRendering_spec sm Hwfm) as (Hwfe & Hdue & Hcleare & Hcarried).
  cbv zeta in Hwfe, Hdue, Hcleare, Hcarried.
  assert (Hext : eventsSince s (endRendering sm) = eventsSince s sb ++ ext).
  { apply eventsSince_app. change (trace (endRendering sm)) with (trace sm).
    rewrite Htrace, Htraceb, app_assoc. reflexivity. }
  assert (Hauxdraws : cacheDraws (eventsSince s sb) = []).
  { clear -Hauxb. unfold cacheDraws. induction Hauxb as [|e l He _ IH]; [reflexivity|].
    cbn [omap list_omap]. destruct e; try discriminate He; exact IH. }
  assert (Hcached : cacheDraws (eventsSince s (endRendering sm)) = cacheDraws ext).
  { rewrite Hext. unfold cacheDraws in *. rewrite omap_app, Hauxdraws. reflexivity. }
  pose proof (cacheDraws_cached _ _ Hdraws) as Hall.
  split; [exact Hwfe|].
  split; [rewrite Hcleare; unfold cacheFlags in Hflags; congruence|].
  split; [rewrite Hdue; unfold cacheFlags in Hflags; congruence|].
  split; [change (trace (endRendering sm)) with (trace sm);
          rewrite Hext, Htrace, Htraceb, app_assoc; reflexivity|].
  rewrite Hcached. split.
  - eapply Forall_impl; [exact Hall|]. intros [key resource] [Hc Hn]. cbn [fst snd] in *.
    rewrite Hcarried. destruct (isCheckingUnusedResources (resources sm)); auto.
  - intros Hclear. rewrite Hclear in Hcurb. split.
    + intros key resource Hkey.
      eapply Forall_impl; [exact Hall|]. intros [key' resource'] [Hc _] Heq.
      cbn [fst snd] in *. subst key'.
      rewrite <- Hcurb in Hkey.
      pose proof (lookup_weaken _ _ _ _ Hkey Hcur) as Hkey'. congruence.
    + intros Hunchecked. rewrite Hcarried, (cacheFlags_isChecking _ _ Hflags), Hcheckb.
      rewrite <- Hcurb.
      destruct (isPicking sb); [exact Hcur|].
      cbn [orb] in Hunchecked. apply negb_true_iff in Hunchecked.
      rewrite Hunchecked. exact Hcur.
Qed.

Section FrameCache.
Context `{Eigen}.
Variable self : GLSceneRenderer.

Lemma doRender_framePost (s : GLSLSceneRendererImpl) :
  cache_wf (resources s) ->
  framePost (isPicking s || negb (doUnusedResourceCheck (resources s))) s (doRender self s).
Proof.
  intros Hwf.
  destruct (cacheStep_doRender self s) as (sm & -> & Hstep).
  assert (Hnone : eventsSince s (beginRendering s) = []).
  { unfold eventsSince. change (trace (beginRendering s)) with (trace s). apply drop_all. }
  apply (frame_cache s (beginRendering s) sm Hwf).
  - reflexivity.
  - rewrite Hnone, app_nil_r. reflexivity.
  - rewrite Hnone. constructor.
  - exact Hstep.
Qed.

Lemma doPick_framePost (x y : Z) (pixel : Pixel) (s : GLSLSceneRendererImpl) :
  cache_wf (resources s) ->
  framePost true s (snd (doPick self x y pixel s)).
Proof.
  intros Hwf. unfold doPick. cbv zeta.
  match goal with
  | |- context [renderScene self ?x] => set (s1 := x)
  end.
  match goal with
  | |- context [endRendering ?x] => set (sm := x)
  end.
  set (sb := beginRendering
               (set_isActuallyRendering false
                  (set_isPicking true
                     (if negb SHOW_IMAGE_FOR_PICKING
                      then emit (glEnable GL_SCISSOR_TEST) s else s)))).
  assert (Hsince : eventsSince s sb = [glEnable GL_SCISSOR_TEST]).
  { apply eventsSince_app. reflexivity. }
  assert (Hstep : cacheStep sb sm).
  { unfold sm. eapply cacheStep_trans; [|apply cacheStep_emit; left; reflexivity].
    eapply cacheStep_trans; [|apply cacheStep_same; reflexivity].
    apply (cacheStep_program_bracket solidColorProgram false).
    eapply cacheStep_trans; [|apply cacheStep_renderScene].
    apply cacheStep_same; reflexivity. }
  pose proof (frame_cache s sb sm Hwf eq_refl) as Hpost.
  rewrite Hsince in Hpost. specialize (Hpost eq_refl ltac:(repeat constructor) Hstep).
  change (isPicking sb || negb (doUnusedResourceCheck (resources s))) with true in Hpost.
  clearbody sm. clear -Hpost.
  assert (Hsame : forall s2 : GLSLSceneRendererImpl,
             resources s2 = resources (endRendering sm) ->
             trace s2 = trace (endRendering sm) ->
             framePost true s s2).
  { intros s2 Hr Ht. unfold framePost, eventsSince in *. rewrite Hr, Ht. exact Hpost. }
  destruct ((0 <? decodePickId (Pixel_color pixel)) && _);
    [destruct (unproject self x y (Pixel_depth pixel))|]; apply Hsame; reflexivity.
Qed.

End FrameCache.

(** X11: [doRender] and [doPick] keep the resource members well formed
    between frames: the two map pointers follow [currentResourceMapIndex] and
    point to different maps, the map that the next [beginRendering] will not
    start from is empty, and no clear request is left pending. *)
Theorem frames_keep_cache_well_formed `{Eigen} (self : GLSceneRenderer) (x y : Z)
  (pixel : Pixel) (s : GLSLSceneRendererImpl) :
  cache_wf (resources s) ->
  (cache_wf (resources (doRender self s))
   /\ isResourceClearRequested (resources (doRender self s)) = false)
  /\ (cache_wf (resources (snd (doPick self x y pixel s)))
      /\ isResourceClearRequested (resources (snd (doPick self x y pixel s))) = false).
Proof.
  intros Hwf. split.
  - destruct (doRender_framePost self s Hwf) as (Hwf' & Hclear & _). auto.
  - destruct (doPick_framePost self x y pixel s Hwf) as (Hwf' & Hclear & _). auto.
Qed.

Lemma frames_keep_cache_well_formed_witness :
  (cache_wf (resources (doRender (H := ScalarEigen.instance) Example.renderer initial_renderer))
   /\ isResourceClearRequested
        (resources (doRender (H := ScalarEigen.instance) Example.renderer initial_renderer))
      = false)
  /\ (cache_wf (resources (snd (doPick (H := ScalarEigen.instance) Example.renderer 0 0
                                  (Example.pixel_of_id 3) initial_renderer)))
      /\ isResourceClearRequested
           (resources (snd (doPick (H := ScalarEigen.instance) Example.renderer 0 0
                              (Example.pixel_of_id 3) initial_renderer))) = false).
Proof.
  apply (frames_keep_cache_well_formed (H := ScalarEigen.instance) Example.renderer 0 0
           (Example.pixel_of_id 3) initial_renderer).
  exact cache_wf_initial.
Defined.

(** X12: two frames rendered one after the other draw an object with the
    same resource. Whatever the two scenes, whether unused resources are
    checked or not: when a mesh or a plot is drawn in the first frame and
    drawn again in the second, both [glDrawArrays] calls are made with the
    same vertex resource; and all the draw calls of one frame for one object
    use one resource. *)
Theorem rendered_frames_reuse_resources `{Eigen} (self1 self2 : GLSceneRenderer)
  (s : GLSLSceneRendererImpl) :
  cache_wf (resources s) ->
  let s1 := doRender self1 s in
  let s2 := doRender self2 s1 in
  forall (key : SgObjectPtr) (resource1 : nat),
    In (key, resource1) (cacheDraws (eventsSince s s1)) ->
    (forall resource, In (key, resource) (cacheDraws (eventsSince s s1)) -> resource = resource1)
    /\ (forall resource, In (key, resource) (cacheDraws (eventsSince s1 s2)) ->
                         resource = resource1).
Proof.
  intros Hwf s1 s2 key resource1 Hdraw1.
  destruct (doRender_framePost self1 s Hwf) as (Hwf1 & Hclear1 & _ & _ & Hcached1 & _).
  destruct (doRender_framePost self2 s1 Hwf1) as (_ & _ & _ & _ & _ & Hkept2).
  fold s1 in Hwf1, Hclear1, Hcached1. fold s2 in Hkept2.
  rewrite Forall_forall in Hcached1.
  assert (Hkey : carriedMap (resources s1) !! key = Some resource1).
  { apply (Hcached1 (key, resource1)), list_elem_of_In, Hdraw1. }
  split.
  - intros resource Hdraw.
    apply list_elem_of_In, Hcached1 in Hdraw. cbn [fst snd] in Hdraw. congruence.
  - intros resource Hdraw2.
    destruct (Hkept2 Hclear1) as [Hsame _].
    specialize (Hsame key resource1 Hkey). rewrite Forall_forall in Hsame.
    apply (Hsame (key, resource)); [apply list_elem_of_In, Hdraw2 | reflexivity].
Qed.

Lemma rendered_frames_reuse_resources_witness :
  let s := initial_renderer in
  let s1 := doRender (H := ScalarEigen.instance) SceneExample.renderer s in
  let s2 := doRender (H := ScalarEigen.instance) Example.renderer s1 in
  In (ObjAddr 10, 0%nat) (cacheDraws (eventsSince s s1))
  /\ (forall resource, In (ObjAddr 10, resource) (cacheDraws (eventsSince s s1)) ->
                       resource = 0%nat)
  /\ (forall resource, In (ObjAddr 10, resource) (cacheDraws (eventsSince s1 s2)) ->
                       resource = 0%nat).
Proof.
  assert (Hdrawn : In (ObjAddr 10, 0%nat)
                      (cacheDraws
                         (eventsSince initial_renderer
                            (doRender (H := ScalarEigen.instance) SceneExample.renderer
                               initial_renderer)))).
  { vm_compute. left. reflexivity. }
  split; [exact Hdrawn|].
  apply (rendered_frames_reuse_resources (H := ScalarEigen.instance) SceneExample.renderer
           Example.renderer initial_renderer cache_wf_initial (ObjAddr 10) 0%nat Hdrawn).
Defined.

(** X13: a picking pass between two rendered frames neither drops nor
    replaces a resource. An object drawn in the frame before the pick is
    drawn with the same resource in the picking pass and in the frame after
    it, even when the picking pass itself does not draw the object. *)
Theorem picking_pass_keeps_resources `{Eigen} (self1 selfp self2 : GLSceneRenderer)
  (x y : Z) (pixel : Pixel) (s : GLSLSceneRendererImpl) :
  cache_wf (resources s) ->
  let s1 := doRender self1 s in
  let sp := snd (doPick selfp x y pixel s1) in
  let s2 := doRender self2 sp in
  forall (key : SgObjectPtr) (resource1 : nat),
    In (key, resource1) (cacheDraws (eventsSince s s1)) ->
    carriedMap (resources sp) !! key = Some resource1
    /\ (forall resource, In (key, resource) (cacheDraws (eventsSince s1 sp)) ->
                         resource = resource1)
    /\ (forall resource, In (key, resource) (cacheDraws (eventsSince sp s2)) ->
                         resource = resource1).
Proof.
  intros Hwf s1 sp s2 key resource1 Hdraw1.
  destruct (doRender_framePost self1 s Hwf) as (Hwf1 & Hclear1 & _ & _ & Hcached1 & _).
  destruct (doPick_framePost selfp x y pixel s1 Hwf1) as (Hwfp & Hclearp & _ & _ & _ & Hkeptp).
  destruct (doRender_framePost self2 sp Hwfp) as (_ & _ & _ & _ & _ & Hkept2).
  fold s1 in Hwf1, Hclear1, Hcached1, Hkeptp. fold sp in Hwfp, Hclearp, Hkeptp, Hkept2.
  fold s2 in Hkept2.
  rewrite Forall_forall in Hcached1.
  assert (Hkey : carriedMap (resources s1) !! key = Some resource1).
  { apply (Hcached1 (key, resource1)), list_elem_of_In, Hdraw1. }
  destruct (Hkeptp Hclear1) as [Hsamep Hsubp].
  assert (Hkeyp : carriedMap (resources sp) !! key = Some resource1).
  { eapply lookup_weaken; [exact Hkey | apply Hsubp; reflexivity]. }
  split; [exact Hkeyp|]. split.
  - intros resource Hdrawp.
    specialize (Hsamep key resource1 Hkey). rewrite Forall_forall in Hsamep.
    apply (Hsamep (key, resource)); [apply list_elem_of_In, Hdrawp | reflexivity].
  - intros resource Hdraw2.
    destruct (Hkept2 Hclearp) as [Hsame2 _].
    specialize (Hsame2 key resource1 Hkeyp). rewrite Forall_forall in Hsame2.
    apply (Hsame2 (key, resource)); [apply list_elem_of_In, Hdraw2 | reflexivity].
Qed.

Lemma picking_pass_keeps_resources_witness :
  let s := initial_renderer in
  let s1 := doRender (H := ScalarEigen.instance) SceneExample.renderer s in
  let sp := snd (doPick (H := ScalarEigen.instance) Example.meshless_renderer 0 0
                   (Example.pixel_of_id 3) s1) in
  let s2 := doRender (H := ScalarEigen.instance) SceneExample.renderer sp in
  In (ObjAddr 10, 0%nat) (cacheDraws (eventsSince s s1))
  /\ carriedMap (resources sp) !! ObjAddr 10 = Some 0%nat
  /\ (forall resource, In (ObjAddr 10, resource) (cacheDraws (eventsSince s1 sp)) ->
                       resource = 0%nat)
  /\ (forall resource, In (ObjAddr 10, resource) (cacheDraws (eventsSince sp s2)) ->
                       resource = 0%nat).
Proof.
  assert (Hdrawn : In (ObjAddr 10, 0%nat)
                      (cacheDraws
                         (eventsSince initial_renderer
                            (doRender (H := ScalarEigen.instance) SceneExample.renderer
                               initial_renderer)))).
  { vm_compute. left. reflexivity. }
  split; [exact Hdrawn|].
  apply (picking_pass_keeps_resources (H := ScalarEigen.instance) SceneExample.renderer
           Example.meshless_renderer SceneExample.renderer 0 0 (Example.pixel_of_id 3)
           initial_renderer cache_wf_initial (ObjAddr 10) 0%nat Hdrawn).
Defined.

(** ** The number of buffers of a vertex resource *)

Lemma buffersInRange_vertexAt (h : list GLResource) (a : nat) (v : VertexResource) :
  buffersInRange h -> vertexAt a h = Some v -> 0 <= numBuffers v <= MAX_NUM_BUFFERS.
Proof.
  unfold buffersInRange, vertexAt. intros Hall Hat.
  destruct (h !! a) as [[v'|t]|] eqn:Hlookup; try discriminate. injection Hat as ->.
  rewrite Forall_lookup in Hall. apply (Hall a (VertexRes v) Hlookup).
Qed.

Lemma buffersInRange_store (h : list GLResource) (a : nat) (v : VertexResource) :
  buffersInRange h -> 0 <= numBuffers v <= MAX_NUM_BUFFERS ->
  buffersInRange (<[a := VertexRes v]> h).
Proof. intros Hall Hv. apply Forall_insert; assumption. Qed.

Lemma isValid_buffers (v : VertexResource) :
  0 <= numBuffers v <= MAX_NUM_BUFFERS ->
  0 <= numBuffers (snd (isValid v)) <= MAX_NUM_BUFFERS
  /\ (fst (isValid v) = false -> numBuffers (snd (isValid v)) = 0).
Proof.
  intros Hv. unfold isValid, MAX_NUM_BUFFERS in *.
  destruct (0 <? numVertices v); [cbn; split; [exact Hv | discriminate]|].
  destruct (0 <? numBuffers v) eqn:Hb; cbn; [lia|].
  apply Z.ltb_ge in Hb. lia.
Qed.

Lemma buffersStep_refl (s : GLSLSceneRendererImpl) : buffersStep s s.
Proof. intros Hb. exact Hb. Qed.

Lemma buffersStep_trans (s1 s2 s3 : GLSLSceneRendererImpl) :
  buffersStep s1 s2 -> buffersStep s2 s3 -> buffersStep s1 s3.
Proof. unfold buffersStep. auto. Qed.

Lemma buffersStep_same (s s' : GLSLSceneRendererImpl) :
  heap (resources s') = heap (resources s) -> buffersStep s s'.
Proof. unfold buffersStep. intros ->. auto. Qed.

Lemma buffersStep_emits (es : list Event) : forall s, buffersStep s (emits es s).
Proof. intros s. apply buffersStep_same. rewrite resources_emits. reflexivity. Qed.

Lemma buffersStep_pushPickId node doSetColor s :
  buffersStep s (snd (pushPickId node doSetColor s)).
Proof.
  apply buffersStep_same. unfold pushPickId.
  destruct (isPicking s); [destruct doSetColor|]; reflexivity.
Qed.

Lemma buffersStep_popPickId s : buffersStep s (popPickId s).
Proof. apply buffersStep_same. unfold popPickId. destruct (isPicking s); reflexivity. Qed.

Lemma buffersStep_program_bracket program_ isLightingProgram s s2 :
  buffersStep (pushProgram program_ isLightingProgram s) s2 -> buffersStep s (popProgram s2).
Proof. unfold buffersStep. auto. Qed.

Lemma buffersStep_getOrCreateVertexResource obj s :
  buffersStep s (snd (getOrCreateVertexResource obj s)).
Proof.
  unfold getOrCreateVertexResource, getOrCreateVertexResource_r.
  intros Hb.
  destruct (mapAt (currentResourceMap (resources s)) (resourceMaps (resources s)) !! obj)
    as [resource|];
    destruct (isCheckingUnusedResources (resources s)) eqn:Hcheck;
    unfold set_resources; simpl_members; rewrite ?Hcheck; simpl_members;
    try exact Hb;
    (apply Forall_app; split; [exact Hb|]; repeat constructor;
     unfold MAX_NUM_BUFFERS; cbn; lia).
Qed.

Lemma buffersStep_renderTexture texture_ s : buffersStep s (snd (renderTexture texture_ s)).
Proof.
  unfold renderTexture.
  destruct (SgTexture_image texture_) as [sgImage|]; [|apply buffersStep_refl].
  destruct (SgImage_empty sgImage); [apply buffersStep_refl|].
  assert (Hmark : forall resource s1,
             buffersStep s1
               (if isCheckingUnusedResources (resources s1)
                then set_resources
                       (fun r => set_resourceMaps
                                   (updateMapAt (nextResourceMap r)
                                      (unordered_map_insert (SgImage_addr sgImage) resource)
                                      (resourceMaps r)) r) s1
                else s1)).
  { intros resource s1. destruct (isCheckingUnusedResources (resources s1));
      [apply buffersStep_same; reflexivity | apply buffersStep_refl]. }
  destruct (mapAt (currentResourceMap (resources s)) (resourceMaps (resources s))
              !! SgImage_addr sgImage) as [resource|].
  - destruct (textureAt resource (heap (resources s))) as [t|].
    + destruct (isLoaded t && isImageUpdateNeeded t).
      * destruct (loadTextureImage t (constImage sgImage)) as [[ok t'] calls]. cbn [snd].
        eapply buffersStep_trans; [|apply Hmark].
        eapply buffersStep_trans; [|apply buffersStep_emits].
        intros Hb. cbn. apply Forall_insert; [exact Hb | exact I].
      * cbn [snd]. apply Hmark.
    + cbn [snd]. apply Hmark.
  - destruct (loadTextureImage _ (constImage sgImage)) as [[ok t'] calls]. cbn [snd].
    eapply buffersStep_trans; [|apply Hmark].
    eapply buffersStep_trans; [|apply buffersStep_emits].
    intros Hb. cbn. apply Forall_app. split; [exact Hb|]. repeat constructor.
Qed.

(** Storing what [isValid] leaves of a resource, then the buffers that
    a writer adds to an invalid resource: at most [MAX_NUM_BUFFERS]. *)
Lemma buffersStep_rewrite (resource : nat) (v : VertexResource) (added : Z)
  (make : VertexResource -> VertexResource) (s : GLSLSceneRendererImpl) :
  vertexAt resource (heap (resources s)) = Some v ->
  0 <= added <= MAX_NUM_BUFFERS ->
  (forall v', numBuffers (make v') = numBuffers v' + added) ->
  buffersStep s
    (let '(valid, v') := isValid v in
     if valid then storeVertexResource resource v' s
     else storeVertexResource resource (make v') s).
Proof.
  intros Hat Hadded Hmake Hb.
  pose proof (buffersInRange_vertexAt _ _ _ Hb Hat) as Hv.
  destruct (isValid_buffers v Hv) as [Hv' Hzero].
  destruct (isValid v) as [[|] v']; cbn [fst snd] in *.
  - apply buffersInRange_store; assumption.
  - apply buffersInRange_store; [exact Hb|]. rewrite Hmake, Hzero by reflexivity. lia.
Qed.

Lemma heap_beginRendering (s : GLSLSceneRendererImpl) :
  heap (resources (beginRendering s)) = heap (resources s).
Proof.
  unfold beginRendering. cbn [resources set_resources].
  destruct (resources s) as [[m0 m1] c n i du ic hv cr h g].
  destruct (isPicking s), cr, hv, du; reflexivity.
Qed.

Lemma heap_endRendering (s : GLSLSceneRendererImpl) :
  heap (resources (endRendering s)) = heap (resources s).
Proof.
  unfold endRendering. cbn [resources set_resources].
  destruct (isCheckingUnusedResources (resources s)); reflexivity.
Qed.

Section BufferLeaves.
Context `{Eigen}.

Lemma buffersStep_renderPlot plot mode n s : buffersStep s (renderPlot plot mode n s).
Proof.
  unfold renderPlot. cbv zeta.
  eapply buffersStep_trans; [apply (buffersStep_pushPickId (SgPlot_addr plot) true)|].
  generalize (snd (pushPickId (SgPlot_addr plot) true s)). clear s. intros s.
  pose proof (buffersStep_getOrCreateVertexResource (SgPlot_addr plot) s) as Hget.
  destruct (getOrCreateVertexResource (SgPlot_addr plot) s) as [resource s1]. cbn [snd] in Hget.
  eapply buffersStep_trans; [exact Hget|]. clear Hget s.
  match goal with
  | |- context [drawVertexResource _ _ _ _ ?c] => set (s3 := c)
  end.
  assert (Hs3 : buffersStep s1 s3).
  { unfold s3.
    destruct (vertexAt resource (heap (resources s1))) as [v|] eqn:Hat; [|apply buffersStep_refl].
    apply (buffersStep_rewrite resource v (1 + (if SgPlot_hasColors plot then 1 else 0))
             (fun v' => {| numVertices := n;
                           numBuffers := numBuffers v' + 1
                                         + (if SgPlot_hasColors plot then 1 else 0);
                           sceneObject := sceneObject v';
                           normalVisualization := normalVisualization v' |})).
    - exact Hat.
    - unfold MAX_NUM_BUFFERS. destruct (SgPlot_hasColors plot); lia.
    - intros v'. cbn [numBuffers]. lia. }
  clearbody s3. eapply buffersStep_trans; [exact Hs3|].
  eapply buffersStep_trans; [|apply buffersStep_popPickId].
  apply buffersStep_same; reflexivity.
Qed.

Lemma buffersStep_renderPointSet pointSet s : buffersStep s (renderPointSet pointSet s).
Proof.
  unfold renderPointSet.
  destruct (negb (SgPlot_hasVertices (SgPointSet_plot pointSet))); [apply buffersStep_refl|].
  apply (buffersStep_program_bracket solidColorProgram false), buffersStep_renderPlot.
Qed.

Lemma buffersStep_renderLineSet lineSet s : buffersStep s (renderLineSet lineSet s).
Proof.
  unfold renderLineSet.
  destruct (isRenderingShadowMap s); [apply buffersStep_refl|].
  destruct (negb (SgPlot_hasVertices (SgLineSet_plot lineSet)) || (numLines lineSet <=? 0));
    [apply buffersStep_refl|].
  apply (buffersStep_program_bracket solidColorProgram false), buffersStep_renderPlot.
Qed.

Lemma buffersStep_renderShapeMain shape position pickId s :
  buffersStep s (renderShapeMain shape position pickId s).
Proof.
  unfold renderShapeMain.
  destruct (mesh shape) as [mesh_|] eqn:Hmesh; [|apply buffersStep_refl].
  match goal with
  | |- buffersStep s (let '(_, _) := ?c in _) => assert (Hc : buffersStep s (snd c))
  end.
  { destruct (isPicking s); [apply buffersStep_same; reflexivity|].
    destruct (bool_decide _); [|apply buffersStep_refl].
    destruct (texture shape) as [texture_|]; [|apply buffersStep_refl].
    destruct (SgMesh_hasTexCoords mesh_); [|apply buffersStep_refl].
    apply buffersStep_renderTexture. }
  match goal with
  | |- buffersStep s (let '(_, _) := ?c in _) => destruct c as [isTextureValid s1]
  end.
  cbn [snd] in Hc. eapply buffersStep_trans; [exact Hc|]. clear Hc s.
  pose proof (buffersStep_getOrCreateVertexResource (SgMesh_addr mesh_) s1) as Hget.
  destruct (getOrCreateVertexResource (SgMesh_addr mesh_) s1) as [resource s2].
  cbn [snd] in Hget. eapply buffersStep_trans; [exact Hget|]. clear Hget s1.
  match goal with
  | |- context [drawVertexResource _ _ _ _ ?c] => set (s3 := c)
  end.
  assert (Hs3 : buffersStep s2 s3).
  { unfold s3. destruct (vertexAt resource (heap (resources s2))) as [v|] eqn:Hat;
      [|apply buffersStep_refl].
    intros Hb.
    pose proof (buffersInRange_vertexAt _ _ _ Hb Hat) as Hv.
    destruct (isValid_buffers v Hv) as [Hv' Hzero].
    destruct (isValid v) as [[|] v']; cbn [fst snd] in *.
    - apply buffersInRange_store; assumption.
    - unfold writeMeshVertices.
      assert (Hstored : vertexAt resource
                          (heap (resources (storeVertexResource resource v' s2))) = Some v').
      { unfold vertexAt in *. cbn.
        destruct (heap (resources s2) !! resource) as [res|] eqn:Hres; [|discriminate].
        rewrite list_lookup_insert_eq by (eapply lookup_lt_Some; eassumption). reflexivity. }
      rewrite Hstored.
      apply buffersInRange_store; [apply buffersInRange_store; assumption|].
      cbn [numBuffers]. rewrite Hzero by reflexivity. unfold MAX_NUM_BUFFERS.
      destruct (if isTextureValid then texture shape else None), (SgMesh_hasColors mesh_); lia. }
  clearbody s3. eapply buffersStep_trans; [exact Hs3|].
  assert (Hdraw : buffersStep s3
                    (drawVertexResource (ShapeSource shape) resource GL_TRIANGLES position s3))
    by (apply buffersStep_same; reflexivity).
  match goal with
  | |- buffersStep s3 (if ?c then _ else _) => destruct c; [|exact Hdraw]
  end.
  destruct (vertexAt resource _) as [[nv nb so [lines|]]|]; try exact Hdraw.
  eapply buffersStep_trans; [exact Hdraw | apply buffersStep_renderLineSet].
Qed.

Lemma buffersStep_renderShape shape s : buffersStep s (renderShape shape s).
Proof.
  unfold renderShape.
  destruct (hasDrawableMesh shape); [|apply buffersStep_refl].
  destruct (isTransparent shape).
  - destruct (negb (isRenderingShadowMap s)); [|apply buffersStep_refl].
    pose proof (buffersStep_pushPickId (SgShape_addr shape) false s) as Hpush.
    destruct (pushPickId (SgShape_addr shape) false s) as [pickId s1]. cbn [snd] in Hpush.
    eapply buffersStep_trans; [exact Hpush|].
    eapply buffersStep_trans; [|apply buffersStep_popPickId].
    apply buffersStep_same; reflexivity.
  - pose proof (buffersStep_pushPickId (SgShape_addr shape) false s) as Hpush.
    destruct (pushPickId (SgShape_addr shape) false s) as [pickId s1]. cbn [snd] in Hpush.
    eapply buffersStep_trans; [exact Hpush|].
    eapply buffersStep_trans; [apply buffersStep_renderShapeMain | apply buffersStep_popPickId].
Qed.

Ltac buffers_step :=
  first [ solve [intros; apply buffersStep_refl]
        | solve [intros; eapply buffersStep_trans; eassumption]
        | solve [intros; apply buffersStep_pushPickId]
        | solve [intros; apply buffersStep_popPickId]
        | solve [intros; apply buffersStep_same; reflexivity]
        | solve [intros; eapply buffersStep_program_bracket; eassumption]
        | solve [intros; split; intros; apply buffersStep_same; reflexivity]
        | solve [intros; apply buffersStep_renderShape]
        | solve [intros; apply buffersStep_renderShapeMain]
        | solve [intros; apply buffersStep_renderPointSet]
        | solve [intros; apply buffersStep_renderLineSet] ].

Lemma buffersStep_dispatch (node : SgNode) (s : GLSLSceneRendererImpl) :
  buffersStep s (dispatch node s).
Proof. apply (throughout_dispatch buffersStep); buffers_step. Qed.

Lemma buffersStep_renderScene (self : GLSceneRenderer) (s : GLSLSceneRendererImpl) :
  buffersStep s (renderScene self s).
Proof. apply (throughout_renderScene buffersStep); buffers_step. Qed.

Lemma buffersStep_doRender (self : GLSceneRenderer) (s : GLSLSceneRendererImpl) :
  buffersStep s (doRender self s).
Proof.
  destruct (throughout_doRender buffersStep) with (self := self) (s := s) as (sm & -> & Hsm);
    try buffers_step.
  intros Hb. rewrite heap_endRendering. apply Hsm. rewrite heap_beginRendering. exact Hb.
Qed.

Lemma buffersStep_doPick (self : GLSceneRenderer) (x y : Z) (pixel : Pixel)
  (s : GLSLSceneRendererImpl) :
  buffersStep s (snd (doPick self x y pixel s)).
Proof.
  unfold doPick. cbv zeta.
  match goal with
  | |- context [popProgram (renderScene self ?x)] => set (s1 := x)
  end.
  match goal with
  | |- context [endRendering ?x] => set (sm := x)
  end.
  assert (Hscene : buffersStep s (endRendering sm)).
  { intros Hb. rewrite heap_endRendering. unfold sm.
    change (buffersInRange (heap (resources (popProgram (renderScene self s1))))).
    match goal with
    | s1 := set_picking _ (pushProgram _ _ ?x) |- _ => set (s0 := x) in *
    end.
    assert (Hstep : buffersStep s0 (popProgram (renderScene self s1))).
    { apply (buffersStep_program_bracket solidColorProgram false).
      eapply buffersStep_trans; [|apply buffersStep_renderScene].
      apply buffersStep_same. reflexivity. }
    apply Hstep. unfold s0. rewrite heap_beginRendering. exact Hb. }
  clearbody sm. intros Hb. specialize (Hscene Hb).
  destruct ((0 <? decodePickId (Pixel_color pixel)) && _);
    [destruct (unproject self x y (Pixel_depth pixel))|]; exact Hscene.
Qed.

End BufferLeaves.

(** X17: no vertex resource ever counts more than [MAX_NUM_BUFFERS]
    buffers, so that [newBuffer] never stores a handle past the end of
    [vbos]. A resource that is not valid has its buffers deleted before
    [writeMeshVertices] or [renderPlot] make new ones, and these make at
    most four (positions, normals, texture coordinates, colours). The bound
    holds after the rendering function of every node, after [doRender] and
    after [doPick] when it holds before; it holds of the renderer as
    [initialize] leaves it. *)
Theorem vertex_buffers_stay_in_range `{Eigen} (self : GLSceneRenderer) (node : SgNode)
  (x y : Z) (pixel : Pixel) (s : GLSLSceneRendererImpl) :
  buffersInRange (heap (resources s)) ->
  buffersInRange (heap (resources (dispatch node s)))
  /\ buffersInRange (heap (resources (doRender self s)))
  /\ buffersInRange (heap (resources (snd (doPick self x y pixel s)))).
Proof.
  intros Hb. split; [|split].
  - apply buffersStep_dispatch, Hb.
  - apply buffersStep_doRender, Hb.
  - apply buffersStep_doPick, Hb.
Qed.

Lemma vertex_buffers_stay_in_range_witness :
  buffersInRange (heap (resources initial_renderer))
  /\ buffersInRange
       (heap (resources (dispatch (H := ScalarEigen.instance) Example.root initial_renderer)))
  /\ buffersInRange
       (heap (resources (doRender (H := ScalarEigen.instance) Example.renderer initial_renderer)))
  /\ buffersInRange
       (heap (resources (snd (doPick (H := ScalarEigen.instance) Example.renderer 0 0
                                (Example.pixel_of_id 3) initial_renderer)))).
Proof.
  assert (Hinit : buffersInRange (heap (resources initial_renderer))) by constructor.
  split; [exact Hinit|].
  apply (vertex_buffers_stay_in_range (H := ScalarEigen.instance) Example.renderer Example.root
           0 0 (Example.pixel_of_id 3) initial_renderer Hinit).
Defined.

(** ** Resources made since a moment *)

Lemma mapAt_updateMapAt_Forall (P : SgObjectPtr -> nat -> Prop) (i j : Z)
  (f : GLResourceMap -> GLResourceMap) (maps : GLResourceMap * GLResourceMap) :
  map_Forall P (mapAt i maps) ->
  (map_Forall P (mapAt i maps) -> map_Forall P (f (mapAt i maps))) ->
  map_Forall P (mapAt i (updateMapAt j f maps)).
Proof. unfold mapAt, updateMapAt. destruct (i =? 0), (j =? 0); cbn; auto. Qed.

Lemma unordered_map_insert_Forall (P : SgObjectPtr -> nat -> Prop) (k : SgObjectPtr) (v : nat)
  (m : GLResourceMap) :
  P k v -> map_Forall P m -> map_Forall P (unordered_map_insert k v m).
Proof.
  intros Hv Hm. unfold unordered_map_insert. destruct (m !! k); [exact Hm|].
  apply map_Forall_insert_2; assumption.
Qed.

(** Marking a resource of the current map as used. *)
Lemma madeSince_mark (n : nat) (key : SgObjectPtr) (resource : nat) (r : ResourceMembers) :
  (n <= resource)%nat -> madeSince n r ->
  madeSince n (if isCheckingUnusedResources r
               then set_resourceMaps
                      (updateMapAt (nextResourceMap r) (unordered_map_insert key resource)
                         (resourceMaps r)) r
               else r).
Proof.
  intros Hres [Hlen Hmap]. destruct (isCheckingUnusedResources r); [|split; assumption].
  split; [exact Hlen|]. unfold currentMap in *. cbn.
  apply mapAt_updateMapAt_Forall; [exact Hmap|].
  apply unordered_map_insert_Forall, Hres.
Qed.

(** Entering a resource made now. *)
Lemma madeSince_enter (n : nat) (key : SgObjectPtr) (res : GLResource) (names : Z)
  (r : ResourceMembers) :
  madeSince n r ->
  madeSince n (set_glNames names
                 (set_resourceMaps
                    (updateMapAt (currentResourceMap r) (insert key (length (heap r)))
                       (resourceMaps r))
                    (set_heap (heap r ++ [res]) r)))
  /\ (n <= length (heap r))%nat.
Proof.
  intros [Hlen Hmap]. split; [|exact Hlen]. split.
  - cbn. rewrite length_app. lia.
  - unfold currentMap in *. cbn. rewrite mapAt_updateMapAt_same.
    apply map_Forall_insert_2; assumption.
Qed.

Lemma madeSince_heap (n : nat) (r : ResourceMembers) (a : nat) (res : GLResource) :
  madeSince n r -> madeSince n (set_heap (<[a := res]> (heap r)) r).
Proof. intros [Hlen Hmap]. split; [cbn; rewrite length_insert; exact Hlen | exact Hmap]. Qed.

Lemma madeSince_getOrCreateVertexResource_r (n : nat) (obj : SgObjectPtr) (r : ResourceMembers) :
  madeSince n r ->
  madeSince n (snd (getOrCreateVertexResource_r obj r))
  /\ (n <= fst (fst (getOrCreateVertexResource_r obj r)))%nat.
Proof.
  intros Hr. unfold getOrCreateVertexResource_r.
  destruct (mapAt (currentResourceMap r) (resourceMaps r) !! obj) as [resource|] eqn:Hfound.
  - assert (Hres : (n <= resource)%nat) by (apply (proj2 Hr obj resource Hfound)).
    pose proof (madeSince_mark n obj resource r Hres Hr) as Hmark.
    destruct (isCheckingUnusedResources r); cbn [fst snd]; auto.
  - pose proof (madeSince_enter n obj (VertexRes (new_VertexResource obj)) (glNames r) r Hr)
      as [Henter Hres].
    match goal with
    | |- context [set_resourceMaps ?m (set_heap ?h r)] =>
        set (r1 := set_resourceMaps m (set_heap h r))
    end.
    assert (Hr1 : madeSince n r1).
    { destruct Henter as [Hlen Hmap]. split; [exact Hlen | exact Hmap]. }
    pose proof (madeSince_mark n obj (length (heap r)) r1 Hres Hr1) as Hmark.
    change (isCheckingUnusedResources r1) with (isCheckingUnusedResources r) in *.
    destruct (isCheckingUnusedResources r); cbn [fst snd]; auto.
Qed.

Lemma freshStep_refl (n : nat) (s : GLSLSceneRendererImpl) : freshStep n s s.
Proof. intros Hs. split; [exact Hs|]. exists []. rewrite app_nil_r. split; [reflexivity | constructor]. Qed.

Lemma freshStep_trans (n : nat) (s1 s2 s3 : GLSLSceneRendererImpl) :
  freshStep n s1 s2 -> freshStep n s2 s3 -> freshStep n s1 s3.
Proof.
  intros H12 H23 Hs1.
  destruct (H12 Hs1) as (Hs2 & ext2 & Htrace2 & Hdraws2).
  destruct (H23 Hs2) as (Hs3 & ext3 & Htrace3 & Hdraws3).
  split; [exact Hs3|]. exists (ext2 ++ ext3).
  split; [rewrite Htrace3, Htrace2, app_assoc; reflexivity|].
  apply Forall_app. split; assumption.
Qed.

(** A step that emits nothing. *)
Lemma freshStep_quiet (n : nat) (s s' : GLSLSceneRendererImpl) :
  (madeSince n (resources s) -> madeSince n (resources s')) ->
  trace s' = trace s -> freshStep n s s'.
Proof.
  intros Hkeep Htrace Hs. split; [apply Hkeep, Hs|].
  exists []. rewrite app_nil_r. split; [exact Htrace | constructor].
Qed.

Lemma freshStep_same (n : nat) (s s' : GLSLSceneRendererImpl) :
  resources s' = resources s -> trace s' = trace s -> freshStep n s s'.
Proof. intros Hr Ht. apply freshStep_quiet; [rewrite Hr; auto | exact Ht]. Qed.

Lemma freshStep_emit (n : nat) (e : Event) (s : GLSLSceneRendererImpl) :
  drawAbove n e -> freshStep n s (emit e s).
Proof.
  intros He Hs. split; [exact Hs|]. exists [e]. split; [reflexivity|].
  constructor; [exact He | constructor].
Qed.

Lemma drawAbove_auxiliary (n : nat) (e : Event) : isAuxiliary e = true -> drawAbove n e.
Proof. destruct e; try discriminate; intros _; exact I. Qed.

Lemma freshStep_emits (n : nat) (es : list Event) :
  Forall (fun e => isAuxiliary e = true) es -> forall s, freshStep n s (emits es s).
Proof.
  unfold emits. induction 1 as [|e es He _ IH]; intros s; [apply freshStep_refl|].
  cbn [fold_left].
  eapply freshStep_trans; [apply freshStep_emit, drawAbove_auxiliary, He | apply IH].
Qed.

Lemma freshStep_pushPickId n node doSetColor s :
  freshStep n s (snd (pushPickId node doSetColor s)).
Proof.
  unfold pushPickId. destruct (isPicking s); [|apply freshStep_refl].
  destruct doSetColor; cbn [snd].
  - eapply freshStep_trans; [|apply freshStep_emit; exact I].
    apply freshStep_same; reflexivity.
  - apply freshStep_same; reflexivity.
Qed.

Lemma freshStep_popPickId n s : freshStep n s (popPickId s).
Proof.
  unfold popPickId. destruct (isPicking s); [|apply freshStep_refl].
  apply freshStep_same; reflexivity.
Qed.

Lemma freshStep_program_bracket n program_ isLightingProgram s s2 :
  freshStep n (pushProgram program_ isLightingProgram s) s2 -> freshStep n s (popProgram s2).
Proof.
  intros Hstep.
  eapply freshStep_trans;
    [apply (freshStep_same n s (pushProgram program_ isLightingProgram s)); reflexivity|].
  eapply freshStep_trans; [exact Hstep | apply freshStep_same; reflexivity].
Qed.

Lemma freshStep_getOrCreateVertexResource n obj s :
  madeSince n (resources s) ->
  freshStep n s (snd (getOrCreateVertexResource obj s))
  /\ (n <= fst (getOrCreateVertexResource obj s))%nat.
Proof.
  intros Hs. unfold getOrCreateVertexResource.
  pose proof (madeSince_getOrCreateVertexResource_r n obj (resources s) Hs) as [Hr Hres].
  destruct (getOrCreateVertexResource_r obj (resources s)) as [[resource created] r1].
  cbn [fst snd] in *. split; [|exact Hres].
  apply freshStep_quiet; [intros _; exact Hr | reflexivity].
Qed.

Lemma freshStep_storeVertexResource n resource v s :
  freshStep n s (storeVertexResource resource v s).
Proof.
  apply freshStep_quiet; [|reflexivity]. intros Hs. apply madeSince_heap, Hs.
Qed.

Lemma freshStep_assuming (n : nat) (s s' : GLSLSceneRendererImpl) :
  (madeSince n (resources s) -> freshStep n s s') -> freshStep n s s'.
Proof. intros Hstep Hs. exact (Hstep Hs Hs). Qed.

Lemma freshStep_renderTexture n texture_ s : freshStep n s (snd (renderTexture texture_ s)).
Proof.
  unfold renderTexture.
  destruct (SgTexture_image texture_) as [sgImage|]; [|apply freshStep_refl].
  destruct (SgImage_empty sgImage); [apply freshStep_refl|].
  assert (Hmark : forall resource s1,
             (n <= resource)%nat ->
             freshStep n s1
               (if isCheckingUnusedResources (resources s1)
                then set_resources
                       (fun r => set_resourceMaps
                                   (updateMapAt (nextResourceMap r)
                                      (unordered_map_insert (SgImage_addr sgImage) resource)
                                      (resourceMaps r)) r) s1
                else s1)).
  { intros resource s1 Hres.
    apply freshStep_quiet; [|destruct (isCheckingUnusedResources (resources s1)); reflexivity].
    intros Hs1. pose proof (madeSince_mark n (SgImage_addr sgImage) resource _ Hres Hs1).
    destruct (isCheckingUnusedResources (resources s1)); assumption. }
  apply freshStep_assuming. intros Hs.
  destruct (mapAt (currentResourceMap (resources s)) (resourceMaps (resources s))
              !! SgImage_addr sgImage) as [resource|] eqn:Hfound.
  - assert (Hres : (n <= resource)%nat) by (apply (proj2 Hs _ _ Hfound)).
    destruct (textureAt resource (heap (resources s))) as [t|].
    + destruct (isLoaded t && isImageUpdateNeeded t).
      * pose proof (loadTextureImage_auxiliary t (constImage sgImage)) as Haux.
        destruct (loadTextureImage t (constImage sgImage)) as [[ok t'] calls]. cbn [snd] in *.
        eapply freshStep_trans; [|apply Hmark, Hres].
        eapply freshStep_trans; [|apply freshStep_emits, Haux].
        apply freshStep_quiet; [|reflexivity]. intros Hs'. apply madeSince_heap, Hs'.
      * cbn [snd]. apply Hmark, Hres.
    + cbn [snd]. apply Hmark, Hres.
  - pose proof (loadTextureImage_auxiliary
                  {| isLoaded := false; isImageUpdateNeeded := false;
                     textureId := glNames (resources s); samplerId := 0;
                     width := 0; height := 0; numComponents := 0 |} (constImage sgImage)) as Haux.
    destruct (loadTextureImage _ (constImage sgImage)) as [[ok t'] calls]. cbn [snd] in *.
    eapply freshStep_trans; [|apply Hmark, Hs].
    eapply freshStep_trans; [|apply freshStep_emits, Haux].
    apply freshStep_quiet; [|reflexivity]. intros Hs'.
    apply (madeSince_enter n (SgImage_addr sgImage)), Hs'.
Qed.

(** The draw call of a resource made since then, after changes of the
    heap only. *)
Lemma freshStep_draw n source resource mode position s s1 :
  (n <= resource)%nat ->
  freshStep n s s1 ->
  freshStep n s (drawVertexResource source resource mode position s1).
Proof.
  intros Hres Hstep. eapply freshStep_trans; [exact Hstep|].
  unfold drawVertexResource. apply freshStep_emit. exact Hres.
Qed.

Section FreshLeaves.
Context `{Eigen}.
Variable n : nat.

Lemma freshStep_writeMeshVertices mesh_ resource texture_ s :
  freshStep n s (writeMeshVertices mesh_ resource texture_ s).
Proof.
  unfold writeMeshVertices.
  destruct (vertexAt resource (heap (resources s))); [|apply freshStep_refl].
  apply freshStep_storeVertexResource.
Qed.

Lemma freshStep_renderPlot plot mode count s : freshStep n s (renderPlot plot mode count s).
Proof.
  unfold renderPlot. cbv zeta.
  eapply freshStep_trans; [apply (freshStep_pushPickId n (SgPlot_addr plot) true)|].
  generalize (snd (pushPickId (SgPlot_addr plot) true s)). clear s. intros s.
  apply freshStep_assuming. intros Hs.
  pose proof (freshStep_getOrCreateVertexResource n (SgPlot_addr plot) s Hs) as [Hget Hres].
  destruct (getOrCreateVertexResource (SgPlot_addr plot) s) as [resource s1].
  cbn [fst snd] in Hget, Hres.
  eapply freshStep_trans; [exact Hget|]. clear Hget Hs s.
  eapply freshStep_trans; [|apply freshStep_popPickId].
  apply freshStep_draw; [exact Hres|].
  destruct (vertexAt resource (heap (resources s1))) as [v|]; [|apply freshStep_refl].
  destruct (isValid v) as [[|] v']; apply freshStep_storeVertexResource.
Qed.

Lemma freshStep_renderPointSet pointSet s : freshStep n s (renderPointSet pointSet s).
Proof.
  unfold renderPointSet.
  destruct (negb (SgPlot_hasVertices (SgPointSet_plot pointSet))); [apply freshStep_refl|].
  apply (freshStep_program_bracket n solidColorProgram false), freshStep_renderPlot.
Qed.

Lemma freshStep_renderLineSet lineSet s : freshStep n s (renderLineSet lineSet s).
Proof.
  unfold renderLineSet.
  destruct (isRenderingShadowMap s); [apply freshStep_refl|].
  destruct (negb (SgPlot_hasVertices (SgLineSet_plot lineSet)) || (numLines lineSet <=? 0));
    [apply freshStep_refl|].
  apply (freshStep_program_bracket n solidColorProgram false), freshStep_renderPlot.
Qed.

Lemma freshStep_renderShapeMain shape position pickId s :
  freshStep n s (renderShapeMain shape position pickId s).
Proof.
  unfold renderShapeMain.
  destruct (mesh shape) as [mesh_|] eqn:Hmesh; [|apply freshStep_refl].
  match goal with
  | |- freshStep n s (let '(_, _) := ?c in _) => assert (Hc : freshStep n s (snd c))
  end.
  { destruct (isPicking s); [apply freshStep_emit; exact I|].
    destruct (bool_decide _); [|apply freshStep_refl].
    destruct (texture shape) as [texture_|]; [|apply freshStep_refl].
    destruct (SgMesh_hasTexCoords mesh_); [|apply freshStep_refl].
    apply freshStep_renderTexture. }
  match goal with
  | |- freshStep n s (let '(_, _) := ?c in _) => destruct c as [isTextureValid s1]
  end.
  cbn [snd] in Hc. eapply freshStep_trans; [exact Hc|]. clear Hc s.
  apply freshStep_assuming. intros Hs.
  pose proof (freshStep_getOrCreateVertexResource n (SgMesh_addr mesh_) s1 Hs) as [Hget Hres].
  destruct (getOrCreateVertexResource (SgMesh_addr mesh_) s1) as [resource s2].
  cbn [fst snd] in Hget, Hres. eapply freshStep_trans; [exact Hget|]. clear Hget Hs s1.
  match goal with
  | |- context [drawVertexResource _ _ _ _ ?c] => set (s3 := c)
  end.
  assert (Hs3 : freshStep n s2 s3).
  { unfold s3. destruct (vertexAt resource (heap (resources s2))) as [v|];
      [|apply freshStep_refl].
    destruct (isValid v) as [[|] v']; [apply freshStep_storeVertexResource|].
    eapply freshStep_trans; [apply freshStep_storeVertexResource|].
    apply freshStep_writeMeshVertices. }
  clearbody s3.
  assert (Hdraw : freshStep n s2
                    (drawVertexResource (ShapeSource shape) resource GL_TRIANGLES position s3))
    by (apply freshStep_draw; assumption).
  match goal with
  | |- freshStep n s2 (if ?c then _ else _) => destruct c; [|exact Hdraw]
  end.
  destruct (vertexAt resource _) as [[nv nb so [lines|]]|]; try exact Hdraw.
  eapply freshStep_trans; [exact Hdraw | apply freshStep_renderLineSet].
Qed.

Lemma freshStep_renderShape shape s : freshStep n s (renderShape shape s).
Proof.
  unfold renderShape.
  destruct (hasDrawableMesh shape); [|apply freshStep_refl].
  destruct (isTransparent shape).
  - destruct (negb (isRenderingShadowMap s)); [|apply freshStep_refl].
    pose proof (freshStep_pushPickId n (SgShape_addr shape) false s) as Hpush.
    destruct (pushPickId (SgShape_addr shape) false s) as [pickId s1]. cbn [snd] in Hpush.
    eapply freshStep_trans; [exact Hpush|].
    eapply freshStep_trans; [|apply freshStep_popPickId].
    eapply freshStep_trans; [|apply freshStep_emit; exact I].
    apply freshStep_same; reflexivity.
  - pose proof (freshStep_pushPickId n (SgShape_addr shape) false s) as Hpush.
    destruct (pushPickId (SgShape_addr shape) false s) as [pickId s1]. cbn [snd] in Hpush.
    eapply freshStep_trans; [exact Hpush|].
    eapply freshStep_trans; [apply freshStep_renderShapeMain | apply freshStep_popPickId].
Qed.

Ltac fresh_step :=
  first [ solve [intros; apply freshStep_refl]
        | solve [intros; eapply freshStep_trans; eassumption]
        | solve [intros; apply freshStep_pushPickId]
        | solve [intros; apply freshStep_popPickId]
        | solve [intros; apply freshStep_same; reflexivity]
        | solve [intros; eapply freshStep_program_bracket; eassumption]
        | solve [intros; apply freshStep_emit, drawAbove_auxiliary; assumption]
        | solve [intros; split; intros; apply freshStep_same; reflexivity]
        | solve [intros; apply freshStep_renderShape]
        | solve [intros; apply freshStep_renderShapeMain]
        | solve [intros; apply freshStep_renderPointSet]
        | solve [intros; apply freshStep_renderLineSet] ].

Lemma freshStep_dispatch (node : SgNode) (s : GLSLSceneRendererImpl) :
  freshStep n s (dispatch node s).
Proof. apply (throughout_dispatch (freshStep n)); fresh_step. Qed.

Lemma freshStep_renderScene (self : GLSceneRenderer) (s : GLSLSceneRendererImpl) :
  freshStep n s (renderScene self s).
Proof. apply (throughout_renderScene (freshStep n)); fresh_step. Qed.

Lemma freshStep_doRender (self : GLSceneRenderer) (s : GLSLSceneRendererImpl) :
  exists sm : GLSLSceneRendererImpl,
    doRender self s = endRendering sm /\ freshStep n (beginRendering s) sm.
Proof. apply (throughout_doRender (freshStep n)); fresh_step. Qed.

End FreshLeaves.

(** ** Frames after a request to clear the resources *)

Lemma madeSince_beginRendering_cleared (s : GLSLSceneRendererImpl) :
  isResourceClearRequested (resources s) = true ->
  madeSince (length (heap (resources s))) (resources (beginRendering s)).
Proof.
  intros Hclear. unfold beginRendering. cbn [resources set_resources].
  destruct (resources s) as [[m0 m1] c n i du ic hv cr h g]. cbn in Hclear. subst cr.
  destruct (isPicking s), du; unfold madeSince, currentMap; eval_members;
    (split; [cbn; lia|]); destruct c; apply map_Forall_empty.
Qed.

Section FreshFrames.
Context `{Eigen}.
Variable self : GLSceneRenderer.

Lemma doRender_fresh (s : GLSLSceneRendererImpl) :
  isResourceClearRequested (resources s) = true ->
  exists ext, trace (doRender self s) = trace s ++ ext
              /\ Forall (drawAbove (length (heap (resources s)))) ext.
Proof.
  intros Hclear.
  destruct (freshStep_doRender (length (heap (resources s))) self s) as (sm & -> & Hstep).
  destruct (Hstep (madeSince_beginRendering_cleared s Hclear)) as (_ & ext & Htrace & Hdraws).
  exists ext. split; [|exact Hdraws].
  change (trace (endRendering sm)) with (trace sm). rewrite Htrace. reflexivity.
Qed.

Lemma doPick_fresh (x y : Z) (pixel : Pixel) (s : GLSLSceneRendererImpl) :
  isResourceClearRequested (resources s) = true ->
  exists ext, trace (snd (doPick self x y pixel s)) = trace s ++ ext
              /\ Forall (drawAbove (length (heap (resources s)))) ext.
Proof.
  intros Hclear. unfold doPick. cbv zeta.
  match goal with
  | |- context [renderScene self ?x] => set (s1 := x)
  end.
  match goal with
  | |- context [endRendering ?x] => set (sm := x)
  end.
  set (n := length (heap (resources s))).
  set (s0 := set_isActuallyRendering false
               (set_isPicking true
                  (if negb SHOW_IMAGE_FOR_PICKING
                   then emit (glEnable GL_SCISSOR_TEST) s else s))).
  assert (Hstep : freshStep n (beginRendering s0) sm).
  { unfold sm. eapply freshStep_trans; [|apply freshStep_emit; exact I].
    eapply freshStep_trans; [|apply freshStep_same; reflexivity].
    apply (freshStep_program_bracket n solidColorProgram false).
    eapply freshStep_trans; [|apply freshStep_renderScene].
    apply freshStep_same; reflexivity. }
  destruct (Hstep (madeSince_beginRendering_cleared s0 Hclear)) as (_ & ext & Htrace & Hdraws).
  assert (Hend : exists ext', trace (endRendering sm) = trace s ++ ext'
                              /\ Forall (drawAbove n) ext').
  { exists (glEnable GL_SCISSOR_TEST :: ext).
    change (trace (endRendering sm)) with (trace sm). rewrite Htrace.
    change (trace (beginRendering s0)) with (trace s ++ [glEnable GL_SCISSOR_TEST]).
    rewrite <- app_assoc.
    split; [reflexivity|]. constructor; [exact I | exact Hdraws]. }
  clearbody sm. clear -Hend.
  destruct ((0 <? decodePickId (Pixel_color pixel)) && _);
    [destruct (unproject self x y (Pixel_depth pixel))|]; exact Hend.
Qed.

End FreshFrames.

(** The settings are not written during a frame. *)
Section FrameSettings.
Context `{Eigen}.

Ltac settings_step :=
  cbv beta;
  first [ solve [intros; reflexivity]
        | solve [intros; congruence]
        | solve [intros p b s1 s2 Hstep; exact Hstep]
        | solve [intros node' b s'; unfold pushPickId;
                 destruct (isPicking s'); [destruct b|]; reflexivity]
        | solve [intros s'; unfold popPickId; destruct (isPicking s'); reflexivity]
        | solve [intros s'; split; intros; reflexivity] ].

Lemma settings_doRender (self : GLSceneRenderer) (s : GLSLSceneRendererImpl) :
  settings (doRender self s) = settings s.
Proof.
  destruct (untouched_doRender (fun s s' : GLSLSceneRendererImpl => settings s' = settings s)) with (self := self) (s := s) as (sm & -> & Hsm);
    try settings_step.
  exact Hsm.
Qed.

End FrameSettings.

Lemma eventsSince_ext (s s' : GLSLSceneRendererImpl) (ext : list Event) :
  trace s' = trace s ++ ext -> eventsSince s s' = ext.
Proof. intros Htrace. unfold eventsSince. rewrite Htrace. apply drop_app_length. Qed.

(** X14: after [requestToClearResources] nothing that was cached is
    drawn again. In the next frame, rendered or picked, every [glDrawArrays]
    call uses a vertex resource made during that frame: its address is not
    below the size that the heap had when the clear was requested. *)
Theorem clear_request_rebuilds_every_resource `{Eigen} (self : GLSceneRenderer)
  (x y : Z) (pixel : Pixel) (s : GLSLSceneRendererImpl) :
  let s1 := requestToClearResources s in
  Forall (drawAbove (length (heap (resources s)))) (eventsSince s1 (doRender self s1))
  /\ Forall (drawAbove (length (heap (resources s))))
            (eventsSince s1 (snd (doPick self x y pixel s1))).
Proof.
  intros s1.
  assert (Hclear : isResourceClearRequested (resources s1) = true) by reflexivity.
  split.
  - destruct (doRender_fresh self s1 Hclear) as (ext & Htrace & Hdraws).
    rewrite (eventsSince_ext _ _ _ Htrace). exact Hdraws.
  - destruct (doPick_fresh self x y pixel s1 Hclear) as (ext & Htrace & Hdraws).
    rewrite (eventsSince_ext _ _ _ Htrace). exact Hdraws.
Qed.

(** X15: a change of the default shading reaches every mesh.
    [setDefaultSmoothShading] with a value that differs from the current
    one stores it and requests a clear: every draw call of the next rendered
    frame uses a vertex resource made during that frame, hence written under
    the new value; the frame itself leaves the setting alone. *)
Theorem smooth_shading_change_rebuilds_resources `{Eigen} (self : GLSceneRenderer)
  (on : bool) (s : GLSLSceneRendererImpl) :
  on <> defaultSmoothShading (settings s) ->
  let s1 := setDefaultSmoothShading on s in
  defaultSmoothShading (settings s1) = on
  /\ defaultSmoothShading (settings (doRender self s1)) = on
  /\ Forall (drawAbove (length (heap (resources s)))) (eventsSince s1 (doRender self s1)).
Proof.
  intros Hne s1.
  assert (Hs1 : s1 = requestToClearResources
                       (set_settings
                          (fun cfg => {| lightingMode := lightingMode cfg;
                                         shadowLightIndices := shadowLightIndices cfg;
                                         defaultSmoothShading := on;
                                         isNormalVisualizationEnabled :=
                                           isNormalVisualizationEnabled cfg;
                                         normalVisualizationLength :=
                                           normalVisualizationLength cfg |}) s)).
  { unfold s1, setDefaultSmoothShading.
    destruct on, (defaultSmoothShading (settings s)); try reflexivity; contradiction. }
  assert (Hon : defaultSmoothShading (settings s1) = on) by (rewrite Hs1; reflexivity).
  split; [exact Hon|]. split; [rewrite settings_doRender; exact Hon|].
  assert (Hclear : isResourceClearRequested (resources s1) = true) by (rewrite Hs1; reflexivity).
  destruct (doRender_fresh self s1 Hclear) as (ext & Htrace & Hdraws).
  rewrite (eventsSince_ext _ _ _ Htrace).
  replace (length (heap (resources s))) with (length (heap (resources s1)))
    by (rewrite Hs1; reflexivity).
  exact Hdraws.
Qed.

Lemma smooth_shading_change_rebuilds_resources_witness :
  let s := doRender (H := ScalarEigen.instance) SceneExample.renderer initial_renderer in
  let s1 := setDefaultSmoothShading false s in
  defaultSmoothShading (settings s) = true
  /\ defaultSmoothShading (settings s1) = false
  /\ defaultSmoothShading
       (settings (doRender (H := ScalarEigen.instance) SceneExample.renderer s1)) = false
  /\ Forall (drawAbove (length (heap (resources s))))
            (eventsSince s1 (doRender (H := ScalarEigen.instance) SceneExample.renderer s1)).
Proof.
  split; [reflexivity|].
  apply (smooth_shading_change_rebuilds_resources (H := ScalarEigen.instance)
           SceneExample.renderer false
           (doRender (H := ScalarEigen.instance) SceneExample.renderer initial_renderer)).
  exact diff_false_true.
Defined.

(** X16: turning the normal visualization on with a length that is not a
    [float] value makes every repetition of the call drop the resources
    again. The first [showNormalVectors (length)] enables the visualization,
    stores [length] narrowed to [float] and requests a clear, which the next
    frame consumes; the same call made after that frame requests a clear
    again exactly when [length] differs from its [float] image, because the
    stored [float] is compared with the [double] argument. *)
Theorem showNormalVectors_repeated `{Eigen} (self : GLSceneRenderer) (length : float)
  (s : GLSLSceneRendererImpl) :
  cache_wf (resources s) ->
  isNormalVisualizationEnabled (settings s) = false ->
  SFltb (S754_zero false) length = true ->
  let s1 := showNormalVectors length s in
  let s2 := doRender self s1 in
  (isNormalVisualizationEnabled (settings s1) = true
   /\ normalVisualizationLength (settings s1) = float_of_double length
   /\ isResourceClearRequested (resources s1) = true)
  /\ isResourceClearRequested (resources s2) = false
  /\ isResourceClearRequested (resources (showNormalVectors length s2))
     = negb (SFeqb length (double_of_float (float_of_double length)))
  /\ (SFeqb length (double_of_float (float_of_double length)) = true ->
      showNormalVectors length s2 = s2).
Proof.
  intros Hwf Hoff Hpos s1 s2.
  assert (Hs1 : s1 = requestToClearResources
                       (set_settings
                          (fun cfg => {| lightingMode := lightingMode cfg;
                                         shadowLightIndices := shadowLightIndices cfg;
                                         defaultSmoothShading := defaultSmoothShading cfg;
                                         isNormalVisualizationEnabled := true;
                                         normalVisualizationLength :=
                                           float_of_double length |}) s)).
  { unfold s1, showNormalVectors. rewrite Hpos, Hoff. reflexivity. }
  assert (Hwf1 : cache_wf (resources s1)) by (rewrite Hs1; exact Hwf).
  destruct (doRender_framePost self s1 Hwf1) as (_ & Hclear2 & _).
  fold s2 in Hclear2.
  assert (Hcfg : settings s2 = settings s1) by apply settings_doRender.
  split; [rewrite Hs1; repeat split|]. split; [exact Hclear2|].
  unfold showNormalVectors. rewrite Hpos, Hcfg.
  replace (isNormalVisualizationEnabled (settings s1)) with true by (rewrite Hs1; reflexivity).
  replace (normalVisualizationLength (settings s1)) with (float_of_double length)
    by (rewrite Hs1; reflexivity).
  cbn [eqb negb orb].
  destruct (SFeqb length (double_of_float (float_of_double length))); cbn [negb].
  - split; [exact Hclear2 | reflexivity].
  - split; [reflexivity | discriminate].
Qed.

Lemma showNormalVectors_repeated_witness :
  let s1 := showNormalVectors SceneExample.tenth initial_renderer in
  let s2 := doRender (H := ScalarEigen.instance) SceneExample.renderer s1 in
  (isNormalVisualizationEnabled (settings s1) = true
   /\ normalVisualizationLength (settings s1) = float_of_double SceneExample.tenth
   /\ isResourceClearRequested (resources s1) = true)
  /\ isResourceClearRequested (resources s2) = false
  /\ isResourceClearRequested (resources (showNormalVectors SceneExample.tenth s2))
     = negb (SFeqb SceneExample.tenth
               (double_of_float (float_of_double SceneExample.tenth)))
  /\ (SFeqb SceneExample.tenth (double_of_float (float_of_double SceneExample.tenth)) = true ->
      showNormalVectors SceneExample.tenth s2 = s2).
Proof.
  apply (showNormalVectors_repeated (H := ScalarEigen.instance) SceneExample.renderer
           SceneExample.tenth initial_renderer).
  - exact cache_wf_initial.
  - reflexivity.
  - reflexivity.
Defined.

(** ** Comparisons of floating-point values *)

Lemma SFeqb_cases (a b : float) :
  SFeqb a b = true ->
  a = b \/ exists s s', a = S754_zero s /\ b = S754_zero s'.
Proof.
  unfold SFeqb, SFcompare.
  destruct a as [sa|sa| |sa ma ea], b as [sb|sb| |sb mb eb]; try discriminate;
    try (destruct sa; discriminate); try (destruct sb; discriminate).
  - intros _. right. eauto.
  - destruct sa, sb; try discriminate; intros _; left; reflexivity.
  - destruct sa, sb; try discriminate;
      (destruct (ea ?= eb) eqn:He; try discriminate;
       apply Z.compare_eq in He; subst eb;
       destruct (Pos.compare_cont Eq ma mb) eqn:Hm; try discriminate;
       apply Pos.compare_eq in Hm; subst mb;
       intros _; left; reflexivity).
Qed.

Lemma SFltb_SFeqb (a b c : float) : SFeqb a b = true -> SFltb a c = SFltb b c.
Proof.
  intros Heq. destruct (SFeqb_cases a b Heq) as [-> | (s & s' & -> & ->)]; [reflexivity|].
  destruct c; reflexivity.
Qed.

Lemma sameValue_refl (a : float) : sameValue a a.
Proof. left. reflexivity. Qed.

Lemma SFeqb_zeros (s s' : bool) : SFeqb (S754_zero s) (S754_zero s') = true.
Proof. reflexivity. Qed.

Lemma sameValue_trans (a b c : float) : sameValue a b -> sameValue b c -> sameValue a c.
Proof.
  intros [-> | Hab] [-> | Hbc]; [left; reflexivity | right; exact Hbc | right; exact Hab |].
  destruct (SFeqb_cases a b Hab) as [-> | (s1 & s2 & -> & ->)]; [right; exact Hbc|].
  destruct (SFeqb_cases _ c Hbc) as [<- | (s3 & s4 & _ & ->)]; right; reflexivity.
Qed.

Lemma effectiveSize_SFeqb (isPicking : bool) (a b : float) :
  SFeqb a b = true -> sameValue (effectiveSize isPicking a) (effectiveSize isPicking b).
Proof.
  intros Heq. unfold effectiveSize, std_max, flt. destruct isPicking; [|right; exact Heq].
  rewrite (SFltb_SFeqb a b _ Heq).
  destruct (SFltb b MinLineWidthForPicking); [left; reflexivity | right; exact Heq].
Qed.

Lemma effectiveSize_idempotent (isPicking : bool) (size : float) :
  effectiveSize isPicking (effectiveSize isPicking size) = effectiveSize isPicking size.
Proof.
  unfold effectiveSize, std_max. destruct isPicking; [|reflexivity].
  destruct (flt size MinLineWidthForPicking) eqn:Hlt; [reflexivity|].
  rewrite Hlt. reflexivity.
Qed.

(** ** The cached state and the driver *)

Lemma flagAt_clearGLState (f : StateFlag) (g : StateMembers) :
  flagAt f (clearGLState g) = false.
Proof.
  unfold flagAt, clearGLState. cbn [stateFlag].
  rewrite list_lookup_fmap. destruct (stateFlag g !! flagIndex f); reflexivity.
Qed.

Lemma flagAt_set_same (f : StateFlag) (flags : list bool) (p w dp dw : float) :
  length flags = NUM_STATE_FLAGS ->
  flagAt f {| stateFlag := <[flagIndex f := true]> flags; Impl_pointSize := p;
              lineWidth := w; defaultPointSize := dp; defaultLineWidth := dw |} = true.
Proof.
  intros Hlen. unfold flagAt. cbn [stateFlag].
  rewrite list_lookup_insert_eq; [reflexivity|].
  rewrite Hlen. unfold NUM_STATE_FLAGS. destruct f; cbn; lia.
Qed.

Lemma flagAt_set_other (f f' : StateFlag) (flags : list bool) (p w p' w' dp dw : float) :
  f <> f' ->
  flagAt f' {| stateFlag := <[flagIndex f := true]> flags; Impl_pointSize := p;
               lineWidth := w; defaultPointSize := dp; defaultLineWidth := dw |}
  = flagAt f' {| stateFlag := flags; Impl_pointSize := p'; lineWidth := w';
                 defaultPointSize := dp; defaultLineWidth := dw |}.
Proof.
  intros Hne. unfold flagAt. cbn [stateFlag].
  rewrite list_lookup_insert_ne; [reflexivity|].
  destruct f, f'; cbn; congruence.
Qed.

Lemma fold_applyStateCall_nil (d : DriverState) : fold_left applyStateCall [] d = d.
Proof. reflexivity. Qed.

Lemma cachedInDriver_clear (isPicking : bool) (g : StateMembers) (d : DriverState) :
  length (stateFlag g) = NUM_STATE_FLAGS -> cachedInDriver isPicking (clearGLState g) d.
Proof.
  intros Hlen. split; [cbn; rewrite length_map; exact Hlen|].
  split; rewrite flagAt_clearGLState; discriminate.
Qed.

(** One request: the invariant is kept, and the driver has what the
    request asks for. *)
Lemma runStateRequest_spec (isPicking : bool) (request : StateRequest) (g : StateMembers)
  (d : DriverState) :
  cachedInDriver isPicking g d ->
  let g' := fst (runStateRequest isPicking request g) in
  let d' := fold_left applyStateCall (snd (runStateRequest isPicking request g)) d in
  cachedInDriver isPicking g' d'
  /\ match request with
     | RequestLineWidth width =>
         sameValue (driver_lineWidth d') (effectiveSize isPicking width)
     | _ => driver_lineWidth d' = driver_lineWidth d
     end
  /\ match request with
     | RequestPointSize size =>
         sameValue (driver_pointSize d') (effectiveSize isPicking size)
     | _ => driver_pointSize d' = driver_pointSize d
     end.
Proof.
  intros Hinv. pose proof Hinv as (Hlen & Hline & Hpoint). cbv zeta.
  destruct request as [|size|width]; cbn [runStateRequest].
  - cbn [fst snd fold_left]. split; [apply cachedInDriver_clear, Hlen | split; reflexivity].
  - unfold setPointSize.
    destruct (flagAt POINT_SIZE g) eqn:Hflag; cbn [negb orb].
    + destruct (SFeqb (Impl_pointSize g) size) eqn:Heq; cbn [negb fst snd fold_left].
      * destruct (Hpoint eq_refl) as [Hd Heff].
        split; [exact Hinv|]. split; [reflexivity|].
        rewrite Hd, <- Heff. apply effectiveSize_SFeqb, Heq.
      * split; [|split; [reflexivity | left; reflexivity]].
        split; [cbn; rewrite length_insert; exact Hlen|]. split.
        -- rewrite (flagAt_set_other POINT_SIZE LINE_WIDTH _ _ _ (Impl_pointSize g) (lineWidth g))
             by discriminate.
           destruct g. exact Hline.
        -- intros _. split; [reflexivity|]. apply effectiveSize_idempotent.
    + cbn [fst snd fold_left].
      split; [|split; [reflexivity | left; reflexivity]].
      split; [cbn; rewrite length_insert; exact Hlen|]. split.
      * rewrite (flagAt_set_other POINT_SIZE LINE_WIDTH _ _ _ (Impl_pointSize g) (lineWidth g))
          by discriminate.
        destruct g. exact Hline.
      * intros _. split; [reflexivity|]. apply effectiveSize_idempotent.
  - unfold setLineWidth.
    destruct (flagAt LINE_WIDTH g) eqn:Hflag; cbn [negb orb].
    + destruct (SFeqb (lineWidth g) width) eqn:Heq; cbn [negb fst snd fold_left].
      * split; [exact Hinv|]. split; [|reflexivity].
        eapply sameValue_trans; [apply Hline; reflexivity|].
        apply effectiveSize_SFeqb, Heq.
      * split; [|split; [left; reflexivity | reflexivity]].
        split; [cbn; rewrite length_insert; exact Hlen|]. split.
        -- intros _. left. reflexivity.
        -- rewrite (flagAt_set_other LINE_WIDTH POINT_SIZE _ _ _ (Impl_pointSize g) (lineWidth g))
             by discriminate.
           destruct g. exact Hpoint.
    + cbn [fst snd fold_left].
      split; [|split; [left; reflexivity | reflexivity]].
      split; [cbn; rewrite length_insert; exact Hlen|]. split.
      * intros _. left. reflexivity.
      * rewrite (flagAt_set_other LINE_WIDTH POINT_SIZE _ _ _ (Impl_pointSize g) (lineWidth g))
          by discriminate.
        destruct g. exact Hpoint.
Qed.

Lemma runStateRequests_spec (isPicking : bool) (requests : list StateRequest) :
  forall (g : StateMembers) (d : DriverState),
    cachedInDriver isPicking g d ->
    let g' := fst (runStateRequests isPicking requests g) in
    let d' := fold_left applyStateCall (snd (runStateRequests isPicking requests g)) d in
    cachedInDriver isPicking g' d'
    /\ match lastLineWidth requests with
       | Some width => sameValue (driver_lineWidth d') (effectiveSize isPicking width)
       | None => driver_lineWidth d' = driver_lineWidth d
       end
    /\ match lastPointSize requests with
       | Some size => sameValue (driver_pointSize d') (effectiveSize isPicking size)
       | None => driver_pointSize d' = driver_pointSize d
       end.
Proof.
  induction requests as [|request rest IH]; intros g d Hinv; cbv zeta.
  - cbn. auto.
  - pose proof (runStateRequest_spec isPicking request g d Hinv) as (Hinv1 & Hline1 & Hpoint1).
    cbv zeta in Hinv1, Hline1, Hpoint1.
    cbn [runStateRequests].
    destruct (runStateRequest isPicking request g) as [g1 calls]. cbn [fst snd] in *.
    specialize (IH g1 (fold_left applyStateCall calls d) Hinv1). cbv zeta in IH.
    destruct (runStateRequests isPicking rest g1) as [g2 more]. cbn [fst snd] in *.
    rewrite fold_left_app.
    destruct IH as (Hinv2 & Hline2 & Hpoint2).
    split; [exact Hinv2|].
    unfold lastLineWidth, lastPointSize in *. split.
    + destruct request as [|size|width]; cbn [omap list_omap]; rewrite ?last_cons;
        (match goal with |- context [last ?l] => destruct (last l) end);
        [exact Hline2 | congruence | exact Hline2 | congruence | exact Hline2 |].
      rewrite Hline2. exact Hline1.
    + destruct request as [|size|width]; cbn [omap list_omap]; rewrite ?last_cons;
        (match goal with |- context [last ?l] => destruct (last l) end);
        [exact Hpoint2 | congruence | exact Hpoint2 | | exact Hpoint2 | congruence].
      rewrite Hpoint2. exact Hpoint1.
Qed.

Lemma MinLineWidthForPicking_irreflexive :
  flt MinLineWidthForPicking MinLineWidthForPicking = false.
Proof. reflexivity. Qed.

(** X23: the cache of the line width never leaves a stale width in the
    driver. Whatever the traversal requests during a pass, starting from
    [clearGLState], the width that the driver has after the calls that were
    let through is the width requested last (in a picking pass not less
    than [MinLineWidthForPicking]), although [setLineWidth] drops the
    requests that repeat the cached width: a width that is not a NaN,
    requested twice in a row, reaches the driver at most once. *)
Theorem line_width_cache_is_transparent (isPicking : bool) (requests : list StateRequest)
  (g0 : StateMembers) (d0 : DriverState) :
  length (stateFlag g0) = NUM_STATE_FLAGS ->
  let run := runStateRequests isPicking requests (clearGLState g0) in
  let d := fold_left applyStateCall (snd run) d0 in
  match lastLineWidth requests with
  | Some width => sameValue (driver_lineWidth d) (effectiveSize isPicking width)
  | None => driver_lineWidth d = driver_lineWidth d0
  end
  /\ forall width : float,
      SFeqb width width = true ->
      snd (setLineWidth isPicking width (fst (setLineWidth isPicking width (fst run)))) = [].
Proof.
  intros Hlen run d.
  pose proof (runStateRequests_spec isPicking requests (clearGLState g0) d0
                (cachedInDriver_clear isPicking g0 d0 Hlen)) as (Hinv & Hline & _).
  cbv zeta in Hinv, Hline. fold run in Hinv, Hline. fold d in Hline.
  split; [exact Hline|].
  intros width Hwidth. destruct Hinv as (Hlen' & _).
  generalize dependent (fst run). intros g Hg.
  unfold setLineWidth at 2.
  destruct (negb (flagAt LINE_WIDTH g) || negb (SFeqb (lineWidth g) width)) eqn:Hmiss;
    cbn [fst].
  - unfold setLineWidth. rewrite flagAt_set_same by exact Hg.
    cbn [lineWidth]. rewrite Hwidth. reflexivity.
  - unfold setLineWidth. rewrite Hmiss. reflexivity.
Qed.

Lemma line_width_cache_is_transparent_witness :
  let run := runStateRequests true SceneExample.requests (clearGLState initial_state) in
  let d := fold_left applyStateCall (snd run) SceneExample.driver in
  match lastLineWidth SceneExample.requests with
  | Some width => sameValue (driver_lineWidth d) (effectiveSize true width)
  | None => driver_lineWidth d = driver_lineWidth SceneExample.driver
  end
  /\ forall width : float,
      SFeqb width width = true ->
      snd (setLineWidth true width (fst (setLineWidth true width (fst run)))) = [].
Proof.
  apply (line_width_cache_is_transparent true SceneExample.requests initial_state
           SceneExample.driver).
  reflexivity.
Defined.

(** X24: the cache of the point size never leaves a stale size in the
    program either; but in a picking pass it does not hold a size below
    [MinLineWidthForPicking]: the size stored is the enlarged one, the next
    request is compared with it, and every request of such a size is sent to
    the program again. *)
Theorem point_size_cache_is_transparent (isPicking : bool) (requests : list StateRequest)
  (g0 : StateMembers) (d0 : DriverState) :
  length (stateFlag g0) = NUM_STATE_FLAGS ->
  let run := runStateRequests isPicking requests (clearGLState g0) in
  let d := fold_left applyStateCall (snd run) d0 in
  match lastPointSize requests with
  | Some size => sameValue (driver_pointSize d) (effectiveSize isPicking size)
  | None => driver_pointSize d = driver_pointSize d0
  end
  /\ forall size : float,
      isPicking = true -> flt size MinLineWidthForPicking = true ->
      snd (setPointSize isPicking size (fst run))
      = [solidColorProgram_setPointSize MinLineWidthForPicking].
Proof.
  intros Hlen run d.
  pose proof (runStateRequests_spec isPicking requests (clearGLState g0) d0
                (cachedInDriver_clear isPicking g0 d0 Hlen)) as (Hinv & _ & Hpoint).
  cbv zeta in Hinv, Hpoint. fold run in Hinv, Hpoint. fold d in Hpoint.
  split; [exact Hpoint|].
  intros size -> Hsmall. destruct Hinv as (_ & _ & Hcached).
  generalize dependent (fst run). intros g Hcached.
  unfold setPointSize.
  assert (Hmiss : negb (flagAt POINT_SIZE g) || negb (SFeqb (Impl_pointSize g) size) = true).
  { destruct (flagAt POINT_SIZE g); [|reflexivity]. cbn [negb orb].
    destruct (Hcached eq_refl) as [_ Heff].
    destruct (SFeqb (Impl_pointSize g) size) eqn:Heq; [|reflexivity]. exfalso.
    unfold effectiveSize, std_max, flt in *.
    rewrite (SFltb_SFeqb _ _ _ Heq), Hsmall in Heff.
    rewrite <- Heff in Heq.
    destruct (SFeqb_cases _ _ Heq) as [<- | (s & s' & Hmin & _)]; [|discriminate Hmin].
    pose proof MinLineWidthForPicking_irreflexive as Hirr. unfold flt in Hirr.
    rewrite Hirr in Hsmall. discriminate. }
  rewrite Hmiss. cbn [snd]. unfold std_max. rewrite Hsmall. reflexivity.
Qed.

Lemma point_size_cache_is_transparent_witness :
  let run := runStateRequests true SceneExample.requests (clearGLState initial_state) in
  let d := fold_left applyStateCall (snd run) SceneExample.driver in
  match lastPointSize SceneExample.requests with
  | Some size => sameValue (driver_pointSize d) (effectiveSize true size)
  | None => driver_pointSize d = driver_pointSize SceneExample.driver
  end
  /\ snd (setPointSize true SceneExample.two (fst run))
     = [solidColorProgram_setPointSize MinLineWidthForPicking].
Proof.
  destruct (point_size_cache_is_transparent true SceneExample.requests initial_state
              SceneExample.driver eq_refl) as [Hlast Hsmall].
  split; [exact Hlast|].
  apply Hsmall; reflexivity.
Defined.

(** ** The life of a texture resource *)

(** The last step of [renderTexture]: the resource is entered into the
    next map while unused resources are checked. *)
Lemma renderTexture_mark (key : SgObjectPtr) (resource : nat) (s : GLSLSceneRendererImpl) :
  let s' := if isCheckingUnusedResources (resources s)
            then set_resources
                   (fun r => set_resourceMaps
                               (updateMapAt (nextResourceMap r)
                                  (unordered_map_insert key resource) (resourceMaps r)) r) s
            else s in
  trace s' = trace s
  /\ heap (resources s') = heap (resources s)
  /\ hasValidNextResourceMap (resources s') = hasValidNextResourceMap (resources s)
  /\ (currentMap (resources s) !! key = Some resource ->
      currentMap (resources s') !! key = Some resource).
Proof.
  cbv zeta. destruct (isCheckingUnusedResources (resources s)); [|auto].
  split; [reflexivity|]. split; [reflexivity|]. split; [reflexivity|].
  unfold currentMap, mapAt, updateMapAt, unordered_map_insert. cbn.
  destruct (currentResourceMap (resources s) =? 0), (nextResourceMap (resources s) =? 0);
    cbn; auto; intros Hfound; rewrite Hfound; exact Hfound.
Qed.

Lemma textureAt_insert (a : nat) (t t' : TextureResource) (h : list GLResource) :
  textureAt a h = Some t -> textureAt a (<[a := TextureRes t']> h) = Some t'.
Proof.
  unfold textureAt. intros Hat.
  destruct (h !! a) as [res|] eqn:Hres; [|discriminate].
  rewrite list_lookup_insert_eq by (eapply lookup_lt_Some; eassumption). reflexivity.
Qed.

Lemma textureAt_new (t : TextureResource) (h : list GLResource) :
  textureAt (length h) (h ++ [TextureRes t]) = Some t.
Proof.
  unfold textureAt.
  rewrite lookup_app_r by lia. rewrite Nat.sub_diag. reflexivity.
Qed.

Lemma trace_emits (calls : list Event) :
  forall s, trace (emits calls s) = trace s ++ calls.
Proof.
  unfold emits. induction calls as [|c calls IH]; intros s; cbn [fold_left].
  - rewrite app_nil_r. reflexivity.
  - rewrite IH. cbn [trace emit]. rewrite <- app_assoc. reflexivity.
Qed.

Section RenderTextureCases.
Variables (texture_ : SgTexture) (sgImage : SgImage) (s : GLSLSceneRendererImpl).
Hypothesis Himage : SgTexture_image texture_ = Some sgImage.
Hypothesis Hfull : SgImage_empty sgImage = false.

(** A cached resource that needs no update: no image is loaded, and the
    resource stays as it is. *)
Lemma renderTexture_idle (t : TextureResource) :
  cachedTexture (SgImage_addr sgImage) t (resources s) ->
  isLoaded t && isImageUpdateNeeded t = false ->
  fst (renderTexture texture_ s) = isLoaded t
  /\ trace (snd (renderTexture texture_ s)) = trace s
  /\ heap (resources (snd (renderTexture texture_ s))) = heap (resources s)
  /\ hasValidNextResourceMap (resources (snd (renderTexture texture_ s)))
     = hasValidNextResourceMap (resources s)
  /\ cachedTexture (SgImage_addr sgImage) t (resources (snd (renderTexture texture_ s))).
Proof.
  intros (resource & Hfound & Hat) Hidle.
  unfold renderTexture. rewrite Himage, Hfull.
  unfold currentMap in Hfound. rewrite Hfound, Hat, Hidle.
  destruct (renderTexture_mark (SgImage_addr sgImage) resource s) as (Htrace & Hheap & Hvalid & Hkey).
  cbv zeta in Htrace, Hheap, Hvalid, Hkey. cbn [fst snd].
  rewrite Hheap, Hat. split; [reflexivity|]. split; [exact Htrace|].
  split; [reflexivity|]. split; [exact Hvalid|].
  exists resource. rewrite Hheap. split; [apply Hkey, Hfound | exact Hat].
Qed.

(** A loaded resource whose image was updated: the image is loaded
    into it. *)
Lemma renderTexture_update (t : TextureResource) :
  cachedTexture (SgImage_addr sgImage) t (resources s) ->
  isLoaded t = true -> isImageUpdateNeeded t = true ->
  let '(ok, t', calls) := loadTextureImage t (constImage sgImage) in
  fst (renderTexture texture_ s) = isLoaded t'
  /\ trace (snd (renderTexture texture_ s)) = trace s ++ calls
  /\ hasValidNextResourceMap (resources (snd (renderTexture texture_ s)))
     = hasValidNextResourceMap (resources s)
  /\ cachedTexture (SgImage_addr sgImage) t' (resources (snd (renderTexture texture_ s))).
Proof.
  intros (resource & Hfound & Hat) Hloaded Hneeded.
  unfold renderTexture. rewrite Himage, Hfull.
  unfold currentMap in Hfound. rewrite Hfound, Hat, Hloaded, Hneeded. cbn [andb].
  destruct (loadTextureImage t (constImage sgImage)) as [[ok t'] calls].
  match goal with
  | |- context [emits calls ?x] => set (s1 := emits calls x)
  end.
  destruct (renderTexture_mark (SgImage_addr sgImage) resource s1)
    as (Htrace & Hheap & Hvalid & Hkey).
  cbv zeta in Htrace, Hheap, Hvalid, Hkey. cbn [fst snd].
  assert (Hheap1 : heap (resources s1)
                   = <[resource := TextureRes t']> (heap (resources s))).
  { unfold s1. rewrite resources_emits. reflexivity. }
  assert (Hat1 : textureAt resource (heap (resources s1)) = Some t').
  { rewrite Hheap1. eapply textureAt_insert, Hat. }
  assert (Htrace1 : trace s1 = trace s ++ calls).
  { unfold s1. rewrite trace_emits. reflexivity. }
  assert (Hfound1 : currentMap (resources s1) !! SgImage_addr sgImage = Some resource).
  { unfold s1. rewrite resources_emits. exact Hfound. }
  rewrite Hheap, Hat1. split; [reflexivity|]. split; [rewrite Htrace; exact Htrace1|].
  split; [rewrite Hvalid; unfold s1; rewrite resources_emits; reflexivity|].
  exists resource. rewrite Hheap. split; [apply Hkey, Hfound1 | exact Hat1].
Qed.

End RenderTextureCases.

Section RenderTextureNew.
Variables (texture_ : SgTexture) (sgImage : SgImage) (s : GLSLSceneRendererImpl).
Hypothesis Himage : SgTexture_image texture_ = Some sgImage.
Hypothesis Hfull : SgImage_empty sgImage = false.

(** An image that is not cached: a resource is made and entered, the
    image is loaded into it. *)
Lemma renderTexture_new :
  currentMap (resources s) !! SgImage_addr sgImage = None ->
  let t0 := {| isLoaded := false; isImageUpdateNeeded := false;
               textureId := glNames (resources s); samplerId := 0;
               width := 0; height := 0; numComponents := 0 |} in
  let '(ok, t1, calls) := loadTextureImage t0 (constImage sgImage) in
  let t := if ok
           then {| isLoaded := isLoaded t1; isImageUpdateNeeded := isImageUpdateNeeded t1;
                   textureId := textureId t1; samplerId := glNames (resources s) + 1;
                   width := width t1; height := height t1;
                   numComponents := numComponents t1 |}
           else t1 in
  fst (renderTexture texture_ s) = isLoaded t
  /\ trace (snd (renderTexture texture_ s)) = trace s ++ calls
  /\ hasValidNextResourceMap (resources (snd (renderTexture texture_ s)))
     = hasValidNextResourceMap (resources s)
  /\ cachedTexture (SgImage_addr sgImage) t (resources (snd (renderTexture texture_ s))).
Proof.
  intros Hnew. cbv zeta.
  unfold renderTexture. rewrite Himage, Hfull.
  unfold currentMap in Hnew. rewrite Hnew.
  destruct (loadTextureImage _ (constImage sgImage)) as [[ok t1] calls]. cbv zeta.
  match goal with
  | |- context [TextureRes ?x] => set (t := x)
  end.
  match goal with
  | |- context [emits calls ?x] => set (s1 := emits calls x)
  end.
  destruct (renderTexture_mark (SgImage_addr sgImage) (length (heap (resources s))) s1)
    as (Htrace & Hheap & Hvalid & Hkey).
  cbv zeta in Htrace, Hheap, Hvalid, Hkey. cbn [fst snd].
  assert (Hheap1 : heap (resources s1) = heap (resources s) ++ [TextureRes t]).
  { unfold s1. rewrite resources_emits. reflexivity. }
  assert (Hat1 : textureAt (length (heap (resources s))) (heap (resources s1)) = Some t).
  { rewrite Hheap1. apply textureAt_new. }
  assert (Hfound1 : currentMap (resources s1) !! SgImage_addr sgImage
                    = Some (length (heap (resources s)))).
  { unfold s1. rewrite resources_emits. unfold currentMap. cbn.
    rewrite mapAt_updateMapAt_same. apply lookup_insert_eq. }
  rewrite Hheap, Hat1. split; [reflexivity|].
  split; [rewrite Htrace; unfold s1; rewrite trace_emits; reflexivity|].
  split; [rewrite Hvalid; unfold s1; rewrite resources_emits; reflexivity|].
  exists (length (heap (resources s))). rewrite Hheap. split; [apply Hkey, Hfound1 | exact Hat1].
Qed.

End RenderTextureNew.

(** ** What [loadTextureImage] does *)

Lemma loadTextureImage_first (t : TextureResource) (image : Image) (format : GLenum) :
  imageFormat (Image_numComponents image) = Some format ->
  isLoaded t = false ->
  loadTextureImage t image
  = (true,
     {| isLoaded := true; isImageUpdateNeeded := false;
        textureId := textureId t; samplerId := samplerId t;
        width := Image_width image; height := Image_height image;
        numComponents := Image_numComponents image |},
     uploadCalls image format).
Proof.
  intros Hformat Hloaded. unfold loadTextureImage, uploadCalls.
  rewrite Hformat. cbn [isLoaded]. rewrite Hloaded. cbn [andb].
  destruct (isPowerOfTwo (Image_width image) && isPowerOfTwo (Image_height image)); reflexivity.
Qed.

Lemma loadTextureImage_again (t : TextureResource) (image : Image) (format : GLenum) :
  imageFormat (Image_numComponents image) = Some format ->
  isLoaded t = true ->
  loadTextureImage t image
  = (true,
     {| isLoaded := true; isImageUpdateNeeded := false;
        textureId := textureId t; samplerId := samplerId t;
        width := Image_width image; height := Image_height image;
        numComponents := Image_numComponents image |},
     if (width t =? Image_width image) && (height t =? Image_height image)
     then [glTexSubImage2D (Image_width image) (Image_height image) format]
     else uploadCalls image format).
Proof.
  intros Hformat Hloaded. unfold loadTextureImage, uploadCalls, isSameSizeAs.
  rewrite Hformat. cbn [isLoaded width height numComponents]. rewrite Hloaded.
  rewrite Z.eqb_refl, andb_true_r. cbn [andb].
  destruct (width t =? Image_width image) eqn:Hw;
    [destruct (height t =? Image_height image) eqn:Hh|]; cbn [andb].
  - apply Z.eqb_eq in Hw, Hh. rewrite <- Hw, <- Hh. reflexivity.
  - destruct (isPowerOfTwo (Image_width image) && isPowerOfTwo (Image_height image));
      reflexivity.
  - destruct (isPowerOfTwo (Image_width image) && isPowerOfTwo (Image_height image));
      reflexivity.
Qed.

Lemma loadTextureImage_unsupported (t : TextureResource) (image : Image) :
  imageFormat (Image_numComponents image) = None ->
  isLoaded t = false ->
  loadTextureImage t image = (false, t, []).
Proof.
  intros Hformat Hloaded. unfold loadTextureImage, TextureResource_clear.
  rewrite Hformat, Hloaded. reflexivity.
Qed.

(** ** [onImageUpdated] *)

Lemma onImageUpdated_cached (image_ : SgImage) (t : TextureResource)
  (s : GLSLSceneRendererImpl) :
  hasValidNextResourceMap (resources s) = false ->
  cachedTexture (SgImage_addr image_) t (resources s) ->
  trace (onImageUpdated image_ s) = trace s
  /\ hasValidNextResourceMap (resources (onImageUpdated image_ s)) = false
  /\ cachedTexture (SgImage_addr image_)
       {| isLoaded := isLoaded t; isImageUpdateNeeded := true;
          textureId := textureId t; samplerId := samplerId t;
          width := width t; height := height t; numComponents := numComponents t |}
       (resources (onImageUpdated image_ s)).
Proof.
  intros Hvalid (resource & Hfound & Hat).
  unfold onImageUpdated. rewrite Hvalid.
  unfold currentMap in Hfound. rewrite Hfound, Hat.
  split; [reflexivity|]. split; [exact Hvalid|].
  exists resource. split; [exact Hfound|]. cbn. eapply textureAt_insert, Hat.
Qed.

(** [onImageUpdated] does not load anything: a resource that is not
    loaded stays so. *)
Lemma onImageUpdated_unloaded (image_ : SgImage) (key : SgObjectPtr) (t : TextureResource)
  (s : GLSLSceneRendererImpl) :
  cachedTexture key t (resources s) -> isLoaded t = false ->
  trace (onImageUpdated image_ s) = trace s
  /\ exists t', cachedTexture key t' (resources (onImageUpdated image_ s))
                /\ isLoaded t' = false.
Proof.
  intros (resource & Hfound & Hat) Hloaded. unfold onImageUpdated.
  destruct (mapAt _ (resourceMaps (resources s)) !! SgImage_addr image_) as [other|];
    [|split; [reflexivity | exists t; split; [exists resource; auto | exact Hloaded]]].
  destruct (textureAt other (heap (resources s))) as [t2|] eqn:Hother;
    [|split; [reflexivity | exists t; split; [exists resource; auto | exact Hloaded]]].
  split; [reflexivity|].
  destruct (decide (other = resource)) as [-> | Hne].
  - rewrite Hat in Hother. injection Hother as <-.
    eexists. split; [exists resource; split; [exact Hfound | cbn; eapply textureAt_insert, Hat]|].
    exact Hloaded.
  - exists t. split; [|exact Hloaded]. exists resource. split; [exact Hfound|].
    cbn. unfold textureAt in *. rewrite list_lookup_insert_ne by exact Hne. exact Hat.
Qed.

(** *** From frame to frame *)

(** While unused resources are checked, [renderTexture] enters the image
    into the next map. *)
Lemma renderTexture_marked (texture_ : SgTexture) (sgImage : SgImage)
  (s : GLSLSceneRendererImpl) :
  SgTexture_image texture_ = Some sgImage -> SgImage_empty sgImage = false ->
  isCheckingUnusedResources (resources s) = true ->
  is_Some (nextMap (resources (snd (renderTexture texture_ s))) !! SgImage_addr sgImage).
Proof.
  intros Himage Hfull Hchecking.
  assert (Hmark : forall resource s1,
             isCheckingUnusedResources (resources s1) = true ->
             is_Some
               (nextMap
                  (resources
                     (if isCheckingUnusedResources (resources s1)
                      then set_resources
                             (fun r => set_resourceMaps
                                         (updateMapAt (nextResourceMap r)
                                            (unordered_map_insert (SgImage_addr sgImage) resource)
                                            (resourceMaps r)) r) s1
                      else s1))
                !! SgImage_addr sgImage)).
  { intros resource s1 Hs1. rewrite Hs1. unfold nextMap.
    cbn [resources set_resources set_resourceMaps resourceMaps nextResourceMap].
    rewrite mapAt_updateMapAt_same. unfold unordered_map_insert.
    destruct (mapAt _ _ !! SgImage_addr sgImage) as [x|] eqn:Hx.
    - rewrite Hx. eauto.
    - rewrite lookup_insert_eq. eauto. }
  unfold renderTexture. rewrite Himage, Hfull.
  destruct (mapAt (currentResourceMap (resources s)) (resourceMaps (resources s))
              !! SgImage_addr sgImage) as [resource|].
  - destruct (textureAt resource (heap (resources s))) as [t|].
    + destruct (isLoaded t && isImageUpdateNeeded t).
      * destruct (loadTextureImage t (constImage sgImage)) as [[ok t'] calls]. cbn [snd].
        apply Hmark. rewrite resources_emits. exact Hchecking.
      * cbn [snd]. apply Hmark, Hchecking.
    + cbn [snd]. apply Hmark, Hchecking.
  - destruct (loadTextureImage _ (constImage sgImage)) as [[ok t'] calls]. cbn [snd].
    apply Hmark. rewrite resources_emits. exact Hchecking.
Qed.

(** A frame that uses a texture: [beginRendering], [renderTexture],
    [endRendering]. What [renderTexture] leaves in the current map is
    carried over to the next frame. *)
Lemma textureFrame_stages (texture_ : SgTexture) (sgImage : SgImage)
  (s : GLSLSceneRendererImpl) :
  SgTexture_image texture_ = Some sgImage -> SgImage_empty sgImage = false ->
  cache_wf (resources s) ->
  let sb := beginRendering (set_isPicking false s) in
  let sr := snd (renderTexture texture_ sb) in
  let s' := snd (runFrame (textureFrame texture_) s) in
  frame_wf (resources sb)
  /\ trace sb = trace s
  /\ heap (resources sb) = heap (resources s)
  /\ currentMap (resources sb)
     = (if isResourceClearRequested (resources s) then ∅ else carriedMap (resources s))
  /\ trace s' = trace sr
  /\ cache_wf (resources s')
  /\ isResourceClearRequested (resources s') = false
  /\ (forall t, cachedTexture (SgImage_addr sgImage) t (resources sr) ->
                carriedTexture (SgImage_addr sgImage) t (resources s')).
Proof.
  intros Himage Hfull Hwf sb sr s'.
  assert (Hs' : s' = endRendering (set_isPicking false sr)) by reflexivity.
  pose proof (beginRendering_spec (set_isPicking false s) Hwf) as (Hwfb & _ & Hclearb & Hcurb).
  cbv zeta in Hwfb, Hclearb, Hcurb. fold sb in Hwfb, Hclearb, Hcurb.
  change (resources (set_isPicking false s)) with (resources s) in Hcurb.
  pose proof (renderTexture_cache texture_ sb Hwfb) as (Hwfr & Hflags & _ & _).
  cbv zeta in Hwfr, Hflags. fold sr in Hwfr, Hflags.
  pose proof (endRendering_spec (set_isPicking false sr) Hwfr) as (Hwfe & _ & Hcleare & Hcarry).
  cbv zeta in Hwfe, Hcleare, Hcarry.
  change (resources (set_isPicking false sr)) with (resources sr) in Hcleare, Hcarry.
  rewrite <- Hs' in Hwfe, Hcleare, Hcarry.
  split; [exact Hwfb|]. split; [reflexivity|].
  split; [apply (heap_beginRendering (set_isPicking false s))|].
  split; [exact Hcurb|]. split; [reflexivity|]. split; [exact Hwfe|].
  split.
  - rewrite Hcleare. unfold cacheFlags in Hflags. injection Hflags as _ _ _ _ _ _ ->.
    exact Hclearb.
  - intros t (resource & Hkey & Hat). exists resource. split.
    + rewrite Hcarry.
      destruct (isCheckingUnusedResources (resources sr)) eqn:Hchecking; [|exact Hkey].
      assert (Hcheckb : isCheckingUnusedResources (resources sb) = true)
        by (rewrite <- (cacheFlags_isChecking _ _ Hflags); exact Hchecking).
      destruct (renderTexture_marked texture_ sgImage sb Himage Hfull Hcheckb) as [x Hx].
      fold sr in Hx.
      destruct Hwfr as (_ & _ & _ & _ & Hsub & _).
      pose proof (lookup_weaken _ _ _ _ Hx Hsub) as Hx'. congruence.
    + rewrite Hs', heap_endRendering. exact Hat.
Qed.

Lemma imageTransfers_uploadCalls (image : Image) (format : GLenum) :
  imageTransfers (uploadCalls image format) = uploadCalls image format.
Proof.
  unfold uploadCalls. destruct (isPowerOfTwo _ && isPowerOfTwo _); reflexivity.
Qed.

(** The first frame that uses an image: the whole image is loaded. *)
Lemma textureFrame_first (texture_ : SgTexture) (sgImage : SgImage)
  (format : GLenum) (s : GLSLSceneRendererImpl) :
  SgTexture_image texture_ = Some sgImage -> SgImage_empty sgImage = false ->
  imageFormat (Image_numComponents (constImage sgImage)) = Some format ->
  cache_wf (resources s) ->
  (isResourceClearRequested (resources s) = false ->
   carriedMap (resources s) !! SgImage_addr sgImage = None) ->
  let s' := snd (runFrame (textureFrame texture_) s) in
  trace s' = trace s ++ uploadCalls (constImage sgImage) format
  /\ cache_wf (resources s')
  /\ isResourceClearRequested (resources s') = false
  /\ exists t, carriedTexture (SgImage_addr sgImage) t (resources s')
               /\ isLoaded t = true /\ isImageUpdateNeeded t = false
               /\ width t = Image_width (constImage sgImage)
               /\ height t = Image_height (constImage sgImage).
Proof.
  intros Himage Hfull Hformat Hwf Hnew s'.
  destruct (textureFrame_stages texture_ sgImage s Himage Hfull Hwf)
    as (_ & Htraceb & _ & Hcurb & Htrace & Hwf' & Hclear' & Hcarry).
  cbv zeta in Htraceb, Hcurb, Htrace, Hcarry. fold s' in Htrace, Hwf', Hclear', Hcarry |- *.
  set (sb := beginRendering (set_isPicking false s)) in *.
  assert (Habsent : currentMap (resources sb) !! SgImage_addr sgImage = None).
  { rewrite Hcurb. destruct (isResourceClearRequested (resources s));
      [apply lookup_empty | apply Hnew; reflexivity]. }
  pose proof (renderTexture_new texture_ sgImage sb Himage Hfull Habsent) as Hr.
  cbv zeta in Hr.
  match type of Hr with
  | context [loadTextureImage ?t0 _] =>
      rewrite (loadTextureImage_first t0 _ format Hformat eq_refl) in Hr
  end.
  cbn [isLoaded isImageUpdateNeeded textureId width height numComponents] in Hr.
  destruct Hr as (_ & Htracer & _ & Hcached).
  split; [rewrite Htrace, Htracer, Htraceb; reflexivity|].
  split; [exact Hwf'|]. split; [exact Hclear'|].
  eexists. split; [apply Hcarry, Hcached|]. cbn. auto.
Qed.

(** A later frame that uses the image: it is loaded again only if
    [onImageUpdated] has marked the resource, into the old storage when
    the width and the height are the same. *)
Lemma textureFrame_again (texture_ : SgTexture) (sgImage : SgImage)
  (format : GLenum) (t : TextureResource) (s : GLSLSceneRendererImpl) :
  SgTexture_image texture_ = Some sgImage -> SgImage_empty sgImage = false ->
  imageFormat (Image_numComponents (constImage sgImage)) = Some format ->
  cache_wf (resources s) ->
  isResourceClearRequested (resources s) = false ->
  carriedTexture (SgImage_addr sgImage) t (resources s) ->
  isLoaded t = true ->
  let s' := snd (runFrame (textureFrame texture_) s) in
  trace s' = trace s
             ++ (if isImageUpdateNeeded t
                 then if (width t =? Image_width (constImage sgImage))
                         && (height t =? Image_height (constImage sgImage))
                      then [glTexSubImage2D (Image_width (constImage sgImage))
                              (Image_height (constImage sgImage)) format]
                      else uploadCalls (constImage sgImage) format
                 else [])
  /\ cache_wf (resources s')
  /\ isResourceClearRequested (resources s') = false
  /\ exists t', carriedTexture (SgImage_addr sgImage) t' (resources s')
                /\ isLoaded t' = true /\ isImageUpdateNeeded t' = false
                /\ width t' = (if isImageUpdateNeeded t
                               then Image_width (constImage sgImage) else width t)
                /\ height t' = (if isImageUpdateNeeded t
                                then Image_height (constImage sgImage) else height t).
Proof.
  intros Himage Hfull Hformat Hwf Hclear (resource & Hkey & Hat) Hloaded s'.
  destruct (textureFrame_stages texture_ sgImage s Himage Hfull Hwf)
    as (_ & Htraceb & Hheapb & Hcurb & Htrace & Hwf' & Hclear' & Hcarry).
  cbv zeta in Htraceb, Hheapb, Hcurb, Htrace, Hcarry.
  fold s' in Htrace, Hwf', Hclear', Hcarry |- *.
  set (sb := beginRendering (set_isPicking false s)) in *.
  rewrite Hclear in Hcurb.
  assert (Hcached : cachedTexture (SgImage_addr sgImage) t (resources sb)).
  { exists resource. rewrite Hcurb, Hheapb. auto. }
  destruct (isImageUpdateNeeded t) eqn:Hneeded.
  - pose proof (renderTexture_update texture_ sgImage sb Himage Hfull t Hcached Hloaded Hneeded)
      as Hr.
    rewrite (loadTextureImage_again t _ format Hformat Hloaded) in Hr.
    destruct Hr as (_ & Htracer & _ & Hcached').
    split; [rewrite Htrace, Htracer, Htraceb; reflexivity|].
    split; [exact Hwf'|]. split; [exact Hclear'|].
    eexists. split; [apply Hcarry, Hcached'|]. cbn. auto.
  - assert (Hidle : isLoaded t && isImageUpdateNeeded t = false)
      by (rewrite Hneeded; apply andb_false_r).
    pose proof (renderTexture_idle texture_ sgImage sb Himage Hfull t Hcached Hidle)
      as (_ & Htracer & _ & _ & Hcached').
    split; [rewrite Htrace, Htracer, Htraceb, app_nil_r; reflexivity|].
    split; [exact Hwf'|]. split; [exact Hclear'|].
    exists t. split; [apply Hcarry, Hcached'|]. auto.
Qed.

(** [onImageUpdated] between two frames marks the resource that the next
    frame will find. *)
Lemma onImageUpdated_carried (image_ : SgImage) (t : TextureResource)
  (s : GLSLSceneRendererImpl) :
  carriedTexture (SgImage_addr image_) t (resources s) ->
  let s' := onImageUpdated image_ s in
  trace s' = trace s
  /\ resourceMaps (resources s') = resourceMaps (resources s)
  /\ cacheFlags (resources s') = cacheFlags (resources s)
  /\ carriedTexture (SgImage_addr image_)
       {| isLoaded := isLoaded t; isImageUpdateNeeded := true;
          textureId := textureId t; samplerId := samplerId t;
          width := width t; height := height t; numComponents := numComponents t |}
       (resources s').
Proof.
  intros (resource & Hkey & Hat). cbv zeta. unfold onImageUpdated.
  unfold carriedMap, nextMap, currentMap in Hkey.
  assert (Hfound : mapAt (if hasValidNextResourceMap (resources s)
                          then nextResourceMap (resources s)
                          else currentResourceMap (resources s))
                     (resourceMaps (resources s)) !! SgImage_addr image_ = Some resource)
    by (destruct (hasValidNextResourceMap (resources s)); exact Hkey).
  rewrite Hfound, Hat.
  split; [reflexivity|]. split; [reflexivity|]. split; [reflexivity|].
  exists resource. split.
  - unfold carriedMap, nextMap, currentMap.
    cbn [resources set_resources set_heap hasValidNextResourceMap nextResourceMap
           currentResourceMap resourceMaps].
    exact Hkey.
  - cbn [resources set_resources set_heap heap]. eapply textureAt_insert, Hat.
Qed.

Lemma cache_wf_same_maps (r r' : ResourceMembers) :
  resourceMaps r' = resourceMaps r -> cacheFlags r' = cacheFlags r ->
  cache_wf r -> cache_wf r'.
Proof.
  unfold cache_wf, cacheFlags.
  intros Hmaps Hflags. injection Hflags as -> -> -> _ _ -> _. rewrite Hmaps. auto.
Qed.

(** X20: a texture image is handed to the driver in the first frame that
    uses it and in the first frame after [onImageUpdated], and in no other
    frame. Starting between two frames with an image that the cache does
    not hold (or with a clear request pending), the first frame that uses
    the texture hands the whole image over ([glTexImage2D], after
    [gluScaleImage] when a side is not a power of two); the next frame
    hands nothing over; after [onImageUpdated], called between two frames,
    the next frame hands the image over again, into the old storage
    ([glTexSubImage2D]) when width and height are the same and as a whole
    otherwise; and the frame after that hands nothing over. The frames are
    rendered ones, with or without the check of unused resources; the images
    have one to four components. *)
Theorem texture_image_is_loaded_when_needed (texture_ texture2 : SgTexture)
  (sgImage sgImage2 : SgImage) (format format2 : GLenum) (s : GLSLSceneRendererImpl) :
  SgTexture_image texture_ = Some sgImage -> SgImage_empty sgImage = false ->
  imageFormat (Image_numComponents (constImage sgImage)) = Some format ->
  SgTexture_image texture2 = Some sgImage2 -> SgImage_empty sgImage2 = false ->
  imageFormat (Image_numComponents (constImage sgImage2)) = Some format2 ->
  SgImage_addr sgImage2 = SgImage_addr sgImage ->
  cache_wf (resources s) ->
  (isResourceClearRequested (resources s) = false ->
   carriedMap (resources s) !! SgImage_addr sgImage = None) ->
  let s1 := snd (runFrame (textureFrame texture_) s) in
  let s2 := snd (runFrame (textureFrame texture_) s1) in
  let s3 := onImageUpdated sgImage2 s2 in
  let s4 := snd (runFrame (textureFrame texture2) s3) in
  let s5 := snd (runFrame (textureFrame texture2) s4) in
  imageTransfers (eventsSince s s1) = uploadCalls (constImage sgImage) format
  /\ imageTransfers (eventsSince s1 s2) = []
  /\ imageTransfers (eventsSince s2 s4)
     = (if (Image_width (constImage sgImage) =? Image_width (constImage sgImage2))
           && (Image_height (constImage sgImage) =? Image_height (constImage sgImage2))
        then [glTexSubImage2D (Image_width (constImage sgImage2))
                (Image_height (constImage sgImage2)) format2]
        else uploadCalls (constImage sgImage2) format2)
  /\ imageTransfers (eventsSince s4 s5) = [].
Proof.
  intros Himage Hfull Hformat Himage2 Hfull2 Hformat2 Haddr Hwf Hnew s1 s2 s3 s4 s5.
  destruct (textureFrame_first texture_ sgImage format s Himage Hfull Hformat Hwf Hnew)
    as (Htrace1 & Hwf1 & Hclear1 & t1 & Hcarried1 & Hloaded1 & Hneeded1 & Hwidth1 & Hheight1).
  fold s1 in Htrace1, Hwf1, Hclear1, Hcarried1.
  destruct (textureFrame_again texture_ sgImage format t1 s1 Himage Hfull Hformat Hwf1
              Hclear1 Hcarried1 Hloaded1)
    as (Htrace2 & Hwf2 & Hclear2 & t2 & Hcarried2 & Hloaded2 & Hneeded2 & Hwidth2 & Hheight2).
  fold s2 in Htrace2, Hwf2, Hclear2, Hcarried2.
  rewrite Hneeded1 in Htrace2, Hwidth2, Hheight2.
  rewrite <- Haddr in Hcarried2.
  destruct (onImageUpdated_carried sgImage2 t2 s2 Hcarried2)
    as (Htrace3 & Hmaps3 & Hflags3 & Hcarried3).
  fold s3 in Htrace3, Hmaps3, Hflags3, Hcarried3.
  assert (Hwf3 : cache_wf (resources s3)) by (eapply cache_wf_same_maps; eassumption).
  assert (Hclear3 : isResourceClearRequested (resources s3) = false).
  { unfold cacheFlags in Hflags3. injection Hflags3 as _ _ _ _ _ _ ->. exact Hclear2. }
  destruct (textureFrame_again texture2 sgImage2 format2 _ s3 Himage2 Hfull2 Hformat2 Hwf3
              Hclear3 Hcarried3 Hloaded2)
    as (Htrace4 & Hwf4 & Hclear4 & t4 & Hcarried4 & Hloaded4 & Hneeded4 & _).
  fold s4 in Htrace4, Hwf4, Hclear4, Hcarried4.
  cbn [isImageUpdateNeeded width height] in Htrace4.
  rewrite Hwidth2, Hheight2, Hwidth1, Hheight1 in Htrace4.
  destruct (textureFrame_again texture2 sgImage2 format2 t4 s4 Himage2 Hfull2 Hformat2 Hwf4
              Hclear4 Hcarried4 Hloaded4) as (Htrace5 & _).
  fold s5 in Htrace5. rewrite Hneeded4 in Htrace5.
  rewrite (eventsSince_ext s s1 _ Htrace1).
  rewrite (eventsSince_ext s1 s2 _ Htrace2).
  rewrite (eventsSince_ext s4 s5 _ Htrace5).
  rewrite Htrace3 in Htrace4. rewrite (eventsSince_ext s2 s4 _ Htrace4).
  split; [apply imageTransfers_uploadCalls|]. split; [reflexivity|].
  split; [|reflexivity].
  destruct ((Image_width (constImage sgImage) =? Image_width (constImage sgImage2))
            && (Image_height (constImage sgImage) =? Image_height (constImage sgImage2)));
    [reflexivity | apply imageTransfers_uploadCalls].
Qed.

Lemma texture_image_is_loaded_when_needed_witness :
  let s := initial_renderer in
  let s1 := snd (runFrame (textureFrame SceneExample.rgb_texture) s) in
  let s2 := snd (runFrame (textureFrame SceneExample.rgb_texture) s1) in
  let s3 := onImageUpdated {| SgImage_addr := ObjAddr 40;
                              constImage := Example.image_rgba_2x2 |} s2 in
  let s4 := snd (runFrame (textureFrame SceneExample.rgba_texture) s3) in
  let s5 := snd (runFrame (textureFrame SceneExample.rgba_texture) s4) in
  hasValidNextResourceMap (resources s2) = true
  /\ imageTransfers (eventsSince s s1) = [glTexImage2D 2 2 GL_RGB]
  /\ imageTransfers (eventsSince s1 s2) = []
  /\ imageTransfers (eventsSince s2 s4) = [glTexSubImage2D 2 2 GL_RGBA]
  /\ imageTransfers (eventsSince s4 s5) = [].
Proof.
  split; [reflexivity|].
  apply (texture_image_is_loaded_when_needed SceneExample.rgb_texture SceneExample.rgba_texture
           {| SgImage_addr := ObjAddr 40; constImage := Example.image_rgb_2x2 |}
           {| SgImage_addr := ObjAddr 40; constImage := Example.image_rgba_2x2 |}
           GL_RGB GL_RGBA initial_renderer);
    first [reflexivity | exact cache_wf_initial | intros _; reflexivity].
Defined.



(** ** The table of a picking pass *)

Lemma inPickingPass_pickView (s s' : GLSLSceneRendererImpl) :
  pickView s' = pickView s -> inPickingPass s -> inPickingPass s'.
Proof.
  unfold pickView, inPickingPass. intros Hview (Hp & Ha & Hs).
  injection Hview as _ _ _ -> -> ->. auto.
Qed.

Lemma recordsPaths_quiet (s s' : GLSLSceneRendererImpl) :
  pickView s' = pickView s -> recordsPaths [] s s'.
Proof.
  intros Hview (Hp & Ha & Hs). rewrite Hview. unfold pickView.
  rewrite Hp, Ha, Hs. cbn [map]. rewrite app_nil_r. reflexivity.
Qed.

Lemma recordsPaths_refl (s : GLSLSceneRendererImpl) : recordsPaths [] s s.
Proof. apply recordsPaths_quiet. reflexivity. Qed.

Lemma recordsPaths_pass (paths : list SgNodePath) (s s' : GLSLSceneRendererImpl) :
  recordsPaths paths s s' -> inPickingPass s ->
  inPickingPass s' /\ currentNodePath (picking s') = currentNodePath (picking s).
Proof.
  intros Hrec Hpass. specialize (Hrec Hpass). unfold pickView in Hrec.
  injection Hrec as Hcur _ _ Hp Ha Hs. unfold inPickingPass. auto.
Qed.

Lemma recordsPaths_trans (paths1 paths2 : list SgNodePath) (s s1 s2 : GLSLSceneRendererImpl) :
  recordsPaths paths1 s s1 -> recordsPaths paths2 s1 s2 ->
  recordsPaths (paths1 ++ paths2) s s2.
Proof.
  intros H1 H2 Hpass.
  destruct (recordsPaths_pass _ _ _ H1 Hpass) as [Hpass1 Hcur1].
  specialize (H1 Hpass). specialize (H2 Hpass1).
  unfold pickView in *. rewrite H2.
  injection H1 as _ Hlist Hpost _ _ _.
  rewrite Hcur1, Hlist, Hpost, map_app, app_assoc. reflexivity.
Qed.

Lemma recordsPaths_before (paths : list SgNodePath) (s s1 s2 : GLSLSceneRendererImpl) :
  pickView s1 = pickView s -> recordsPaths paths s1 s2 -> recordsPaths paths s s2.
Proof.
  intros Hquiet Hrec.
  apply (recordsPaths_trans [] paths s s1 s2); [apply recordsPaths_quiet, Hquiet | exact Hrec].
Qed.

Lemma recordsPaths_after (paths : list SgNodePath) (s s1 s2 : GLSLSceneRendererImpl) :
  recordsPaths paths s s1 -> pickView s2 = pickView s1 -> recordsPaths paths s s2.
Proof.
  intros Hrec Hquiet. rewrite <- (app_nil_r paths).
  apply (recordsPaths_trans paths [] s s1 s2); [exact Hrec | apply recordsPaths_quiet, Hquiet].
Qed.

(** [pushPickId], what is done for the node, [popPickId]. *)
Lemma recordsPaths_bracket (node : SgObjectPtr) (doSetColor : bool) (paths : list SgNodePath)
  (s s2 : GLSLSceneRendererImpl) :
  recordsPaths paths (snd (pushPickId node doSetColor s)) s2 ->
  recordsPaths ([node] :: map (cons node) paths) s (popPickId s2).
Proof.
  intros Hbody Hpass. pose proof Hpass as (Hp & Ha & Hs).
  set (s1 := snd (pushPickId node doSetColor s)) in *.
  assert (Hs1 : pickView s1
                = (currentNodePath (picking s) ++ [node],
                   pickingNodePathList (picking s) ++ [currentNodePath (picking s) ++ [node]],
                   postRenderingFunctions s, true, false, false)).
  { unfold s1, pushPickId. rewrite Hp. unfold pickView.
    destruct doSetColor; cbn; rewrite Hp, Ha, Hs; reflexivity. }
  assert (Hpass1 : inPickingPass s1).
  { unfold pickView in Hs1. injection Hs1 as _ _ _ ? ? ?. unfold inPickingPass. auto. }
  specialize (Hbody Hpass1). clearbody s1.
  unfold pickView in Hs1. injection Hs1 as Hcur1 Hlist1 Hpost1 _ _ _.
  rewrite Hcur1, Hlist1, Hpost1 in Hbody.
  unfold pickView in Hbody. injection Hbody as Hcur2 Hlist2 Hpost2 Hp2 Ha2 Hs2.
  unfold popPickId. rewrite Hp2. unfold pickView. cbn.
  rewrite Hcur2, Hlist2, Hpost2, Hp2, Ha2, Hs2, removelast_last.
  rewrite <- app_assoc. cbn [app map]. rewrite map_map.
  replace (map (fun x => currentNodePath (picking s) ++ node :: x) paths)
    with (map (app (currentNodePath (picking s) ++ [node])) paths); [reflexivity|].
  apply map_ext. intros path. rewrite <- app_assoc. reflexivity.
Qed.

(** Steps that leave [pickView] alone. *)
Lemma pickView_emit (e : Event) (s : GLSLSceneRendererImpl) : pickView (emit e s) = pickView s.
Proof. reflexivity. Qed.

Lemma pickView_set_resources f (s : GLSLSceneRendererImpl) :
  pickView (set_resources f s) = pickView s.
Proof. reflexivity. Qed.

Lemma pickView_getOrCreateVertexResource obj (s : GLSLSceneRendererImpl) :
  pickView (snd (getOrCreateVertexResource obj s)) = pickView s.
Proof.
  apply (untouched_getOrCreateVertexResource (fun s s' => pickView s' = pickView s)).
  intros; reflexivity.
Qed.

Lemma pickView_renderTexture texture_ (s : GLSLSceneRendererImpl) :
  pickView (snd (renderTexture texture_ s)) = pickView s.
Proof.
  apply (untouched_renderTexture (fun s s' => pickView s' = pickView s));
    intros; solve [reflexivity | congruence].
Qed.

Section PickLeaves.
Context `{Eigen}.

Lemma pickView_writeMeshVertices mesh_ resource texture_ (s : GLSLSceneRendererImpl) :
  pickView (writeMeshVertices mesh_ resource texture_ s) = pickView s.
Proof.
  apply (untouched_writeMeshVertices (fun s s' => pickView s' = pickView s));
    intros; reflexivity.
Qed.

(** Outside [isActuallyRendering] the normals are not drawn, and
    [renderShapeMain] records nothing. *)
Lemma pickView_renderShapeMain shape position pickId (s : GLSLSceneRendererImpl) :
  isActuallyRendering s = false ->
  pickView (renderShapeMain shape position pickId s) = pickView s.
Proof.
  intros Hactual. unfold renderShapeMain.
  destruct (mesh shape) as [mesh_|]; [|reflexivity].
  match goal with
  | |- pickView (let '(_, _) := ?c in _) = _ => assert (Hc : pickView (snd c) = pickView s)
  end.
  { destruct (isPicking s); [reflexivity|].
    destruct (bool_decide _); [|reflexivity].
    destruct (texture shape) as [texture_|]; [|reflexivity].
    destruct (SgMesh_hasTexCoords mesh_); [|reflexivity].
    apply pickView_renderTexture. }
  match goal with
  | |- pickView (let '(_, _) := ?c in _) = _ => destruct c as [isTextureValid s1]
  end.
  cbn [snd] in Hc. rewrite <- Hc.
  assert (Hactual1 : isActuallyRendering s1 = false).
  { unfold pickView in Hc. injection Hc as _ _ _ _ -> _. exact Hactual. }
  clear Hc Hactual s.
  pose proof (pickView_getOrCreateVertexResource (SgMesh_addr mesh_) s1) as Hget.
  destruct (getOrCreateVertexResource (SgMesh_addr mesh_) s1) as [resource s2].
  cbn [snd] in Hget. rewrite <- Hget.
  assert (Hactual2 : isActuallyRendering s2 = false).
  { unfold pickView in Hget. injection Hget as _ _ _ _ -> _. exact Hactual1. }
  clear Hget Hactual1 s1.
  match goal with
  | |- context [drawVertexResource _ _ _ _ ?c] => set (s3 := c)
  end.
  assert (Hs3 : pickView s3 = pickView s2).
  { unfold s3. destruct (vertexAt resource (heap (resources s2))) as [v|]; [|reflexivity].
    destruct (isValid v) as [[|] v']; [reflexivity|].
    rewrite pickView_writeMeshVertices. reflexivity. }
  clearbody s3. rewrite <- Hs3.
  assert (Hactual3 : isActuallyRendering s3 = false).
  { unfold pickView in Hs3. injection Hs3 as _ _ _ _ -> _. exact Hactual2. }
  set (s4 := drawVertexResource (ShapeSource shape) resource GL_TRIANGLES position s3).
  assert (Hactual4 : isActuallyRendering s4 = false) by exact Hactual3.
  assert (Hs4 : pickView s4 = pickView s3) by reflexivity.
  clearbody s4. rewrite Hactual4, andb_false_r. exact Hs4.
Qed.

(** A plot records its own path. *)
Lemma recordsPaths_renderPlot plot mode n (s : GLSLSceneRendererImpl) :
  recordsPaths [[SgPlot_addr plot]] s (renderPlot plot mode n s).
Proof.
  unfold renderPlot. cbv zeta.
  pose proof (pickView_getOrCreateVertexResource (SgPlot_addr plot)
                (snd (pushPickId (SgPlot_addr plot) true s))) as Hget.
  destruct (getOrCreateVertexResource (SgPlot_addr plot)
              (snd (pushPickId (SgPlot_addr plot) true s))) as [resource s1].
  cbn [snd] in Hget.
  apply (recordsPaths_bracket (SgPlot_addr plot) true []).
  apply recordsPaths_quiet. rewrite <- Hget.
  destruct (vertexAt resource (heap (resources s1))) as [v|]; [|reflexivity].
  destruct (isValid v) as [[|] v']; reflexivity.
Qed.

Lemma pickView_program_bracket program_ isLightingProgram paths s s2 :
  recordsPaths paths (pushProgram program_ isLightingProgram s) s2 ->
  recordsPaths paths s (popProgram s2).
Proof.
  intros Hrec. eapply recordsPaths_before; [|eapply recordsPaths_after; [exact Hrec|]];
    reflexivity.
Qed.

Lemma recordsPaths_renderPointSet pointSet (s : GLSLSceneRendererImpl) :
  recordsPaths (pickablePaths (NPointSet pointSet)) s (renderPointSet pointSet s).
Proof.
  unfold renderPointSet. cbn [pickablePaths].
  destruct (SgPlot_hasVertices (SgPointSet_plot pointSet)); cbn [negb];
    [|apply recordsPaths_refl].
  apply (pickView_program_bracket solidColorProgram false), recordsPaths_renderPlot.
Qed.

Lemma recordsPaths_renderLineSet lineSet (s : GLSLSceneRendererImpl) :
  recordsPaths (pickablePaths (NLineSet lineSet)) s (renderLineSet lineSet s).
Proof.
  intros Hpass. pose proof Hpass as (_ & _ & Hshadow). revert Hpass.
  unfold renderLineSet. rewrite Hshadow. cbn [pickablePaths].
  destruct (negb (SgPlot_hasVertices (SgLineSet_plot lineSet)) || (numLines lineSet <=? 0));
    [apply recordsPaths_refl|].
  apply (pickView_program_bracket solidColorProgram false), recordsPaths_renderPlot.
Qed.

Lemma recordsPaths_renderShape shape (s : GLSLSceneRendererImpl) :
  recordsPaths (pickablePaths (NShape shape)) s (renderShape shape s).
Proof.
  intros Hpass. pose proof Hpass as (Hp & Ha & Hshadow). revert Hpass.
  unfold renderShape. cbn [pickablePaths].
  destruct (hasDrawableMesh shape); [|apply recordsPaths_refl].
  assert (Hpush : isActuallyRendering (snd (pushPickId (SgShape_addr shape) false s)) = false).
  { unfold pushPickId. rewrite Hp. exact Ha. }
  destruct (isTransparent shape).
  - rewrite Hshadow. cbn [negb].
    destruct (pushPickId (SgShape_addr shape) false s) as [pickId s1] eqn:Hpushed.
    apply (recordsPaths_bracket (SgShape_addr shape) false []).
    rewrite Hpushed. apply recordsPaths_quiet. reflexivity.
  - destruct (pushPickId (SgShape_addr shape) false s) as [pickId s1] eqn:Hpushed.
    apply (recordsPaths_bracket (SgShape_addr shape) false []).
    rewrite Hpushed. cbn [snd] in *. apply recordsPaths_quiet.
    apply pickView_renderShapeMain, Hpush.
Qed.

End PickLeaves.

Section PickTable.
Context `{Eigen}.

Lemma recordsPaths_renderChildNodes (children : list SgNode) :
  Forall (fun child => forall s, recordsPaths (pickablePaths child) s (dispatch child s))
         children ->
  forall s, recordsPaths (flat_map pickablePaths children) s
              (renderChildNodes dispatch children s).
Proof.
  unfold renderChildNodes.
  induction 1 as [|child children Hchild _ IH]; intros s; [apply recordsPaths_refl|].
  cbn [fold_left flat_map].
  eapply recordsPaths_trans; [apply Hchild | apply IH].
Qed.

Lemma recordsPaths_renderGroup (group : SgObjectPtr) (children : list SgNode) :
  Forall (fun child => forall s, recordsPaths (pickablePaths child) s (dispatch child s))
         children ->
  forall s, recordsPaths ([group] :: map (cons group) (flat_map pickablePaths children)) s
              (renderGroup dispatch group children s).
Proof.
  intros Hchildren s. unfold renderGroup.
  apply (recordsPaths_bracket group true), recordsPaths_renderChildNodes, Hchildren.
Qed.

Lemma recordsPaths_dispatch (node : SgNode) :
  forall s, recordsPaths (pickablePaths node) s (dispatch node s).
Proof.
  induction node as [node IH] using SgNode_children_ind.
  intros s.
  destruct node as [self cs|self T cs|self b cs|self cs|sh|ps|ls|self cs|self c cs|self cs];
    cbn [dispatch childrenOf pickablePaths] in *.
  - apply recordsPaths_renderGroup, IH.
  - unfold renderTransform. cbv zeta.
    eapply recordsPaths_before; [|eapply recordsPaths_after]; [| |reflexivity].
    2: { apply (recordsPaths_bracket self true), recordsPaths_renderChildNodes, IH. }
    reflexivity.
  - unfold renderSwitch. destruct b; [|apply recordsPaths_refl].
    apply recordsPaths_renderGroup, IH.
  - intros Hpass. pose proof Hpass as (Hp & _). revert Hpass.
    unfold renderUnpickableGroup. rewrite Hp. apply recordsPaths_refl.
  - apply recordsPaths_renderShape.
  - apply recordsPaths_renderPointSet.
  - apply recordsPaths_renderLineSet.
  - intros Hpass. pose proof Hpass as (_ & Ha & _). revert Hpass.
    unfold renderOverlay. rewrite Ha. apply recordsPaths_refl.
  - intros Hpass. pose proof Hpass as (Hp & _). revert Hpass.
    unfold renderOutlineGroup. rewrite Hp. apply recordsPaths_renderGroup, IH.
  - intros Hpass. pose proof Hpass as (Hp & _ & Hshadow).
    pose proof (recordsPaths_renderChildNodes cs IH s) as Hchildren.
    destruct (recordsPaths_pass _ _ _ Hchildren Hpass) as [(Hp' & _) _].
    revert Hpass.
    unfold renderSimplifiedRenderingGroup. rewrite Hshadow, Hp. cbn [negb].
    rewrite Hp'. cbn [negb]. exact Hchildren.
Qed.

End PickTable.

Section PickFrames.
Context `{Eigen}.
Variable self : GLSceneRenderer.

Lemma pickView_deferred_shapes (closures : list TransparentRenderingFunction) :
  forall s, isActuallyRendering s = false ->
    pickView (fold_left
                (fun s f => renderShapeMain (captured_shape f) (captured_position f)
                              (captured_pickId f) s) closures s)
    = pickView s.
Proof.
  induction closures as [|f closures IH]; intros s Hactual; [reflexivity|].
  cbn [fold_left].
  pose proof (pickView_renderShapeMain (captured_shape f) (captured_position f)
                (captured_pickId f) s Hactual) as Hf.
  rewrite IH; [exact Hf|].
  unfold pickView in Hf. injection Hf as _ _ _ _ -> _. exact Hactual.
Qed.

(** The list of pick paths after [renderScene] in a picking pass. *)
Lemma renderScene_picking (s : GLSLSceneRendererImpl) :
  inPickingPass s ->
  pickingNodePathList (picking (renderScene self s))
  = pickingNodePathList (picking s)
    ++ (if currentCamera self
        then map (app (currentNodePath (picking s))) (pickablePaths (sceneRoot self))
        else []).
Proof.
  intros Hpass. unfold renderScene.
  destruct (currentCamera self); [|rewrite app_nil_r; reflexivity].
  set (s0 := set_transparentRenderingFunctions (fun _ => [])
               (set_postRenderingFunctions (fun _ => []) (renderCamera s))).
  assert (Hpass0 : inPickingPass s0) by exact Hpass.
  pose proof (recordsPaths_dispatch (sceneRoot self) s0 Hpass0) as Hroot.
  change (currentNodePath (picking s0)) with (currentNodePath (picking s)) in Hroot.
  change (pickingNodePathList (picking s0)) with (pickingNodePathList (picking s)) in Hroot.
  change (postRenderingFunctions s0) with (@nil PostRenderingFunction) in Hroot.
  assert (Hopaque : pickView (renderOpaqueObjects self s)
                    = (currentNodePath (picking s),
                       pickingNodePathList (picking s)
                         ++ map (app (currentNodePath (picking s)))
                              (pickablePaths (sceneRoot self)),
                       [], true, false, false)).
  { unfold renderOpaqueObjects, renderSceneGraphNodes. cbv zeta. fold s0.
    set (s1 := dispatch (sceneRoot self) s0) in *. clearbody s1.
    unfold pickView in Hroot. injection Hroot as Hcur Hlist Hpost Hp Ha Hs.
    rewrite Hpost. cbn [fold_left]. unfold pickView. cbn.
    rewrite Hcur, Hlist, Hp, Ha, Hs. reflexivity. }
  set (s2 := renderOpaqueObjects self s) in *. clearbody s2.
  assert (Hquiet : pickView (renderTransparentObjects s2) = pickView s2).
  { unfold renderTransparentObjects. cbv zeta.
    unfold pickView in Hopaque. injection Hopaque as _ _ _ Hp Ha _.
    rewrite Hp. cbn [negb].
    pose proof (pickView_deferred_shapes (transparentRenderingFunctions s2) s2 Ha) as Hfold.
    set (s3 := fold_left _ (transparentRenderingFunctions s2) s2) in *. clearbody s3.
    assert (Hp3 : isPicking s3 = true).
    { unfold pickView in Hfold. injection Hfold as _ _ _ -> _ _. exact Hp. }
    rewrite Hp3. cbn [negb]. exact Hfold. }
  assert (Hend : pickView (match transparentRenderingFunctions s2 with
                           | [] => s2
                           | _ => renderTransparentObjects s2
                           end) = pickView s2).
  { destruct (transparentRenderingFunctions s2); [reflexivity | exact Hquiet]. }
  rewrite Hopaque in Hend. unfold pickView in Hend. injection Hend as _ -> _ _ _ _.
  reflexivity.
Qed.

Lemma map_app_nil {A : Type} (l : list (list A)) : map (app []) l = l.
Proof. rewrite (map_ext (app []) (fun x => x)) by reflexivity. apply map_id. Qed.

Lemma doPick_table (x y : Z) (pixel : Pixel) (s : GLSLSceneRendererImpl) :
  isRenderingShadowMap s = false ->
  pickingNodePathList (picking (snd (doPick self x y pixel s)))
  = (if currentCamera self then pickablePaths (sceneRoot self) else []).
Proof.
  intros Hshadow. unfold doPick. cbv zeta.
  match goal with
  | |- context [renderScene self ?x] => set (s1 := x)
  end.
  assert (Hpass1 : inPickingPass s1).
  { unfold s1, inPickingPass. cbn. auto. }
  pose proof (renderScene_picking s1 Hpass1) as Hscene.
  change (pickingNodePathList (picking s1)) with (@nil SgNodePath) in Hscene.
  change (currentNodePath (picking s1)) with (@nil SgObjectPtr) in Hscene.
  rewrite map_app_nil in Hscene. cbn [app] in Hscene.
  set (s2 := renderScene self s1) in *. clearbody s2.
  rewrite <- Hscene.
  destruct ((0 <? decodePickId (Pixel_color pixel)) && _);
    [destruct (unproject self x y (Pixel_depth pixel))|]; reflexivity.
Qed.

End PickFrames.

(** X4: the table of a picking pass is the list of the pickable nodes.
    After [doPick] the list [pickingNodePathList] holds, in the order of the
    traversal, the path of every node that a picking pass visits and draws,
    and no other: [pickablePaths] of the scene root (nothing without a
    current camera). The path that [doPick] reports is one of them; a node
    under an unpickable group, under an overlay or under a switch that is
    turned off is never reported, nor is a shape without vertices. *)
Theorem pick_table_lists_the_pickable_nodes `{Eigen} (self : GLSceneRenderer) (x y : Z)
  (pixel : Pixel) (s : GLSLSceneRendererImpl) :
  isRenderingShadowMap s = false ->
  let s' := snd (doPick self x y pixel s) in
  pickingNodePathList (picking s')
  = (if currentCamera self then pickablePaths (sceneRoot self) else [])
  /\ (fst (doPick self x y pixel s) = true ->
      In (pickedNodePath (picking s')) (pickablePaths (sceneRoot self))).
Proof.
  intros Hshadow s'.
  pose proof (doPick_table self x y pixel s Hshadow) as Htable. fold s' in Htable.
  split; [exact Htable|].
  destruct (doPick_scenePass self x y pixel s)
    as (s1 & s2 & o & t & _ & _ & _ & _ & Hlist & Hfound & Hpicked).
  fold s' in Hlist, Hfound, Hpicked. rewrite Hfound. rewrite <- Hlist in Hpicked.
  destruct ((0 <? decodePickId (Pixel_color pixel)) && _) eqn:Hrange;
    [|rewrite Hpicked; discriminate].
  destruct (unproject self x y (Pixel_depth pixel)) as [point|];
    [|rewrite Hpicked; discriminate].
  destruct Hpicked as [-> _]. intros _.
  apply andb_true_iff in Hrange. destruct Hrange as [H0 Hlt].
  apply Z.ltb_lt in H0, Hlt.
  assert (Hin : In (at_ [] (pickingNodePathList (picking s')) (decodePickId (Pixel_color pixel)))
                   (pickingNodePathList (picking s'))).
  { apply at_in_range. split; [lia | exact Hlt]. }
  rewrite Htable in Hin at 2.
  destruct (currentCamera self); [exact Hin | destruct Hin].
Qed.

Lemma pick_table_lists_the_pickable_nodes_witness :
  let s' := snd (doPick (H := ScalarEigen.instance) SceneExample.renderer 0 0
                   (Example.pixel_of_id 3) initial_renderer) in
  pickingNodePathList (picking s')
  = (if currentCamera SceneExample.renderer
     then pickablePaths (sceneRoot SceneExample.renderer) else [])
  /\ (fst (doPick (H := ScalarEigen.instance) SceneExample.renderer 0 0
             (Example.pixel_of_id 3) initial_renderer) = true ->
      In (pickedNodePath (picking s')) (pickablePaths (sceneRoot SceneExample.renderer))).
Proof.
  apply (pick_table_lists_the_pickable_nodes (H := ScalarEigen.instance) SceneExample.renderer
           0 0 (Example.pixel_of_id 3) initial_renderer).
  reflexivity.
Defined.

(** ** The shadow-map passes *)

Lemma shadowStep_refl (s : GLSLSceneRendererImpl) : shadowStep s s.
Proof.
  intros Hs. split; [exact Hs|]. split; [reflexivity|].
  exists []. rewrite app_nil_r. split; [reflexivity | constructor].
Qed.

Lemma shadowStep_trans (s1 s2 s3 : GLSLSceneRendererImpl) :
  shadowStep s1 s2 -> shadowStep s2 s3 -> shadowStep s1 s3.
Proof.
  intros H12 H23 Hs1.
  destruct (H12 Hs1) as (Hs2 & Hq2 & ext2 & Htrace2 & Hok2).
  destruct (H23 Hs2) as (Hs3 & Hq3 & ext3 & Htrace3 & Hok3).
  split; [exact Hs3|]. split; [congruence|]. exists (ext2 ++ ext3).
  split; [rewrite Htrace3, Htrace2, app_assoc; reflexivity|].
  apply Forall_app. split; assumption.
Qed.

Lemma shadowStep_same (s s' : GLSLSceneRendererImpl) :
  isRenderingShadowMap s' = isRenderingShadowMap s ->
  transparentRenderingFunctions s' = transparentRenderingFunctions s ->
  trace s' = trace s -> shadowStep s s'.
Proof.
  intros Hflag Hq Htrace Hs. split; [congruence|]. split; [exact Hq|].
  exists []. rewrite app_nil_r. split; [exact Htrace | constructor].
Qed.

Lemma shadowStep_emit (e : Event) (s : GLSLSceneRendererImpl) :
  shadowPassEvent e -> shadowStep s (emit e s).
Proof.
  intros He Hs. split; [exact Hs|]. split; [reflexivity|].
  exists [e]. split; [reflexivity|]. constructor; [exact He | constructor].
Qed.

Lemma shadowPassEvent_auxiliary (e : Event) : isAuxiliary e = true -> shadowPassEvent e.
Proof. destruct e; try discriminate; intros _; exact I. Qed.

Lemma shadowStep_pushPickId node doSetColor s :
  shadowStep s (snd (pushPickId node doSetColor s)).
Proof.
  unfold pushPickId. destruct (isPicking s); [|apply shadowStep_refl].
  destruct doSetColor; cbn [snd].
  - eapply shadowStep_trans; [|apply shadowStep_emit; exact I].
    apply shadowStep_same; reflexivity.
  - apply shadowStep_same; reflexivity.
Qed.

Lemma shadowStep_popPickId s : shadowStep s (popPickId s).
Proof.
  unfold popPickId. destruct (isPicking s); [|apply shadowStep_refl].
  apply shadowStep_same; reflexivity.
Qed.

Lemma shadowStep_program_bracket program_ isLightingProgram s s2 :
  shadowStep (pushProgram program_ isLightingProgram s) s2 -> shadowStep s (popProgram s2).
Proof.
  intros Hstep.
  eapply shadowStep_trans;
    [apply (shadowStep_same s (pushProgram program_ isLightingProgram s)); reflexivity|].
  eapply shadowStep_trans; [exact Hstep | apply shadowStep_same; reflexivity].
Qed.

(** Steps that emit auxiliary events only. *)
Lemma shadowStep_auxiliary (s s' : GLSLSceneRendererImpl) :
  extends (Forall (fun e => isAuxiliary e = true)) s s' -> shadowStep s s'.
Proof.
  intros (Hflag & (ext & Htrace & Hqueue & Haux) & _) Hs.
  split; [congruence|].
  assert (Hnone : deferrals ext = []).
  { clear -Haux. induction Haux as [|e ext He _ IH]; [reflexivity|].
    change (e :: ext) with ([e] ++ ext). rewrite deferrals_app, IH, app_nil_r.
    destruct e; try discriminate He; reflexivity. }
  split; [rewrite Hqueue, Hnone, app_nil_r; reflexivity|].
  exists ext. split; [exact Htrace|].
  eapply Forall_impl; [exact Haux|]. intros e. apply shadowPassEvent_auxiliary.
Qed.

Section ShadowLeaves.
Context `{Eigen}.

Lemma shadowStep_renderPlot plot n s : shadowStep s (renderPlot plot GL_POINTS n s).
Proof.
  unfold renderPlot. cbv zeta.
  eapply shadowStep_trans; [apply (shadowStep_pushPickId (SgPlot_addr plot) true)|].
  generalize (snd (pushPickId (SgPlot_addr plot) true s)). clear s. intros s.
  pose proof (emitting_getOrCreateVertexResource (fun e => isAuxiliary e = true) (SgPlot_addr plot) s) as Hget.
  destruct (getOrCreateVertexResource (SgPlot_addr plot) s) as [resource s1].
  cbn [snd] in Hget.
  eapply shadowStep_trans; [apply shadowStep_auxiliary, Hget|]. clear Hget s.
  eapply shadowStep_trans; [|apply shadowStep_popPickId].
  match goal with
  | |- shadowStep s1 (drawVertexResource _ _ _ _ ?c) => set (s2 := c)
  end.
  assert (Hs2 : shadowStep s1 s2).
  { unfold s2. destruct (vertexAt resource (heap (resources s1))) as [v|];
      [|apply shadowStep_refl].
    destruct (isValid v) as [[|] v']; apply shadowStep_same; reflexivity. }
  clearbody s2. eapply shadowStep_trans; [exact Hs2|].
  unfold drawVertexResource. apply shadowStep_emit. reflexivity.
Qed.

Lemma shadowStep_renderPointSet pointSet s : shadowStep s (renderPointSet pointSet s).
Proof.
  unfold renderPointSet.
  destruct (negb (SgPlot_hasVertices (SgPointSet_plot pointSet))); [apply shadowStep_refl|].
  apply (shadowStep_program_bracket solidColorProgram false), shadowStep_renderPlot.
Qed.

(** Line sets are left out of a shadow map. *)
Lemma shadowStep_renderLineSet lineSet s : shadowStep s (renderLineSet lineSet s).
Proof.
  intros Hs. unfold renderLineSet. rewrite Hs. apply (shadowStep_refl s Hs).
Qed.

Lemma shadowStep_renderShapeMain shape position pickId s :
  isTransparent shape = false ->
  shadowStep s (renderShapeMain shape position pickId s).
Proof.
  intros Hopaque. unfold renderShapeMain.
  destruct (mesh shape) as [mesh_|]; [|apply shadowStep_refl].
  match goal with
  | |- shadowStep s (let '(_, _) := ?c in _) => assert (Hc : shadowStep s (snd c))
  end.
  { destruct (isPicking s); [apply shadowStep_emit; exact I|].
    destruct (bool_decide _); [|apply shadowStep_refl].
    destruct (texture shape) as [texture_|]; [|apply shadowStep_refl].
    destruct (SgMesh_hasTexCoords mesh_); [|apply shadowStep_refl].
    apply shadowStep_auxiliary, emitting_renderTexture. intros e He. exact He. }
  match goal with
  | |- shadowStep s (let '(_, _) := ?c in _) => destruct c as [isTextureValid s1]
  end.
  cbn [snd] in Hc. eapply shadowStep_trans; [exact Hc|]. clear Hc s.
  pose proof (emitting_getOrCreateVertexResource (fun e => isAuxiliary e = true) (SgMesh_addr mesh_) s1) as Hget.
  destruct (getOrCreateVertexResource (SgMesh_addr mesh_) s1) as [resource s2].
  cbn [snd] in Hget.
  eapply shadowStep_trans; [apply shadowStep_auxiliary, Hget|]. clear Hget s1.
  match goal with
  | |- context [drawVertexResource _ _ _ _ ?c] => set (s3 := c)
  end.
  assert (Hs3 : shadowStep s2 s3).
  { unfold s3. destruct (vertexAt resource (heap (resources s2))) as [v|];
      [|apply shadowStep_refl].
    destruct (isValid v) as [[|] v']; [apply shadowStep_same; reflexivity|].
    unfold writeMeshVertices.
    destruct (vertexAt resource (heap (resources (storeVertexResource resource v' s2))));
      apply shadowStep_same; reflexivity. }
  clearbody s3. eapply shadowStep_trans; [exact Hs3|].
  assert (Hdraw : shadowStep s3
                    (drawVertexResource (ShapeSource shape) resource GL_TRIANGLES position s3)).
  { unfold drawVertexResource. apply shadowStep_emit. split; [exact Hopaque | reflexivity]. }
  match goal with
  | |- shadowStep s3 (if ?c then _ else _) => destruct c; [|exact Hdraw]
  end.
  destruct (vertexAt resource _) as [[nv nb so [lines|]]|]; try exact Hdraw.
  eapply shadowStep_trans; [exact Hdraw | apply shadowStep_renderLineSet].
Qed.

(** A transparent shape is left out of a shadow map. *)
Lemma shadowStep_renderShape shape s : shadowStep s (renderShape shape s).
Proof.
  intros Hs. unfold renderShape.
  destruct (hasDrawableMesh shape); [|apply (shadowStep_refl s Hs)].
  destruct (isTransparent shape) eqn:Htransparent.
  - rewrite Hs. apply (shadowStep_refl s Hs).
  - revert Hs.
    change (shadowStep s
              (let '(pickId, s0) := pushPickId (SgShape_addr shape) false s in
               popPickId
                 (renderShapeMain shape (List.last (modelMatrixStack s0) Affine3_Identity)
                    pickId s0))).
    pose proof (shadowStep_pushPickId (SgShape_addr shape) false s) as Hpush.
    destruct (pushPickId (SgShape_addr shape) false s) as [pickId s1]. cbn [snd] in Hpush.
    eapply shadowStep_trans; [exact Hpush|].
    eapply shadowStep_trans; [apply shadowStep_renderShapeMain, Htransparent|].
    apply shadowStep_popPickId.
Qed.

Ltac shadow_step :=
  first [ solve [intros; apply shadowStep_refl]
        | solve [intros; eapply shadowStep_trans; eassumption]
        | solve [intros; apply shadowStep_pushPickId]
        | solve [intros; apply shadowStep_popPickId]
        | solve [intros; apply shadowStep_same; reflexivity]
        | solve [intros; eapply shadowStep_program_bracket; eassumption]
        | solve [intros; apply shadowStep_renderShape]
        | solve [intros; apply shadowStep_renderPointSet]
        | solve [intros; apply shadowStep_renderLineSet] ].

Lemma shadowStep_dispatch (node : SgNode) (s : GLSLSceneRendererImpl) :
  shadowStep s (dispatch node s).
Proof. apply (throughout_dispatch shadowStep); shadow_step. Qed.

Lemma shadowStep_renderShadowMaps (self : GLSceneRenderer) (indices : list Z)
  (shadowMapIndex : Z) (s : GLSLSceneRendererImpl) :
  shadowStep s (renderShadowMaps self indices shadowMapIndex s).
Proof. apply (throughout_renderShadowMaps shadowStep); shadow_step. Qed.

End ShadowLeaves.

(** X22: a shadow map is made of opaque triangles and of points. While
    [isRenderingShadowMap] is set, the passes of [renderShadowMaps] draw
    the shapes that are not transparent, as triangles, and the point sets;
    they draw no line set (so not the lines of the normal visualization
    either) and no transparent shape, and they defer nothing: the queue of
    the transparent pass is as it was. *)
Theorem shadow_maps_hold_opaque_triangles_and_points `{Eigen} (self : GLSceneRenderer)
  (indices : list Z) (shadowMapIndex : Z) (s : GLSLSceneRendererImpl) :
  isRenderingShadowMap s = true ->
  let s' := renderShadowMaps self indices shadowMapIndex s in
  Forall shadowPassEvent (eventsSince s s')
  /\ transparentRenderingFunctions s' = transparentRenderingFunctions s
  /\ isRenderingShadowMap s' = true.
Proof.
  intros Hs s'.
  destruct (shadowStep_renderShadowMaps self indices shadowMapIndex s Hs)
    as (Hs' & Hqueue & ext & Htrace & Hok).
  fold s' in Hs', Hqueue, Htrace.
  rewrite (eventsSince_ext _ _ _ Htrace). auto.
Qed.

Lemma shadow_maps_hold_opaque_triangles_and_points_witness :
  let s := SceneExample.in_shadow_pass in
  let s' := renderShadowMaps (H := ScalarEigen.instance) SceneExample.renderer [0] 0 s in
  Forall shadowPassEvent (eventsSince s s')
  /\ transparentRenderingFunctions s' = transparentRenderingFunctions s
  /\ isRenderingShadowMap s' = true.
Proof.
  apply (shadow_maps_hold_opaque_triangles_and_points (H := ScalarEigen.instance)
           SceneExample.renderer [0] 0 SceneExample.in_shadow_pass).
  reflexivity.
Defined.

(** ** Bit fields *)

Lemma land_shifted_ones (x n k : Z) :
  0 <= n -> 0 <= k ->
  Z.land x (Z.shiftl (Z.ones n) k) = (x / 2 ^ k) mod 2 ^ n * 2 ^ k.
Proof.
  intros Hn Hk.
  rewrite <- Z.shiftl_mul_pow2, <- Z.land_ones, <- Z.shiftr_div_pow2 by lia.
  apply Z.bits_inj'. intros i Hi.
  rewrite Z.land_spec, !Z.shiftl_spec by lia.
  destruct (Z.lt_ge_cases i k) as [Hlt | Hge].
  - rewrite !(Z.testbit_neg_r _ (i - k)) by lia. apply andb_false_r.
  - rewrite Z.land_spec, Z.shiftr_spec by lia.
    replace (i - k + k) with i by lia. reflexivity.
Qed.

Lemma field_div (a m k : Z) : 0 <= k -> 0 <= m < 2 ^ k -> (a * 2 ^ k + m) / 2 ^ k = a.
Proof.
  intros Hk Hm. assert (0 < 2 ^ k) by (apply Z.pow_pos_nonneg; lia).
  rewrite Z.div_add_l by lia. rewrite Z.div_small by lia. lia.
Qed.

Lemma lor_disjoint (a b : Z) : Z.land a b = 0 -> Z.lor a b = a + b.
Proof.
  intros Hdisjoint. rewrite Z.add_nocarry_lxor by exact Hdisjoint.
  symmetry. apply Z.lxor_lor, Hdisjoint.
Qed.

Lemma land_high_low (a b : Z) (k : Z) :
  0 <= k -> 0 <= b < 2 ^ k -> Z.land (a * 2 ^ k) b = 0.
Proof.
  intros Hk Hb. apply Z.bits_inj'. intros i Hi.
  rewrite Z.land_spec, Z.bits_0. rewrite <- (Z.shiftl_mul_pow2 a k) by exact Hk.
  destruct (Z.lt_ge_cases i k) as [Hlt | Hge].
  - rewrite Z.shiftl_spec_low by lia. reflexivity.
  - destruct (Z.eq_dec b 0) as [-> | Hne]; [rewrite Z.bits_0; apply andb_false_r|].
    assert (Hlog : Z.log2 b < k) by (apply Z.log2_lt_pow2; lia).
    rewrite (Z.bits_above_log2 b i) by lia. apply andb_false_r.
Qed.

(** The fields of the bits of a normal number. *)
Lemma float_bits_fields (s : bool) (E M : Z) :
  0 <= E < 256 -> 0 <= M < 2 ^ 23 ->
  let x := (if s then 2 ^ 31 else 0) + (E * 2 ^ 23 + M) in
  Z.land x 0x7f800000 = E * 2 ^ 23
  /\ Z.land (Z.shiftr x 16) 0x8000 = (if s then 2 ^ 15 else 0)
  /\ Z.shiftr (Z.land x 0x7fffffff) 13 = E * 2 ^ 10 + M / 2 ^ 13.
Proof.
  intros HE HM x.
  assert (Hx : x = ((if s then 256 else 0) + E) * 2 ^ 23 + M) by (unfold x; destruct s; lia).
  split; [|split].
  - change 0x7f800000 with (Z.shiftl (Z.ones 8) 23).
    rewrite land_shifted_ones, Hx, field_div by lia.
    destruct s; [|rewrite Z.mod_small by lia; reflexivity].
    replace (256 + E) with (E + 1 * 2 ^ 8) by lia.
    rewrite Z.mod_add, Z.mod_small by lia. reflexivity.
  - change 0x8000 with (Z.shiftl (Z.ones 1) 15).
    rewrite land_shifted_ones, Z.shiftr_div_pow2, Z.div_div by lia.
    change (2 ^ 16 * 2 ^ 15) with (2 ^ 31).
    assert (Hhigh : x / 2 ^ 31 = if s then 1 else 0).
    { unfold x. destruct s.
      - replace (2 ^ 31 + (E * 2 ^ 23 + M)) with (1 * 2 ^ 31 + (E * 2 ^ 23 + M)) by lia.
        apply field_div; lia.
      - apply Z.div_small. lia. }
    rewrite Hhigh. destruct s; reflexivity.
  - change 0x7fffffff with (Z.ones 31). rewrite Z.land_ones by lia.
    assert (Hlow : x mod 2 ^ 31 = E * 2 ^ 23 + M).
    { unfold x. destruct s.
      - replace (2 ^ 31 + (E * 2 ^ 23 + M)) with (E * 2 ^ 23 + M + 1 * 2 ^ 31) by lia.
        rewrite Z.mod_add by lia. apply Z.mod_small. lia.
      - apply Z.mod_small. lia. }
    rewrite Hlow, Z.shiftr_div_pow2 by lia.
    replace (E * 2 ^ 23 + M) with (E * 2 ^ 10 * 2 ^ 13 + M) by lia.
    rewrite Z.div_add_l by lia. reflexivity.
Qed.

(** X25: [toHalf] on the normal numbers of [float]. A number below
    [2^-14] in magnitude becomes [+0]; a number of magnitude [2^16] or more
    becomes [0x7bff], the largest finite half, also when it is negative (the
    sign is dropped), and so do the infinities and NaN; every other number
    keeps its sign, has its exponent re-biased from 127 to 15 and its
    mantissa cut to the ten leading bits. [m] and [e] are mantissa (with the
    leading bit) and exponent of the number, [value = m * 2^e]. *)
Theorem toHalf_of_normal_number (s : bool) (m : positive) (e : Z) :
  2 ^ 23 <= Z.pos m < 2 ^ 24 -> -149 <= e <= 104 ->
  toHalf (S754_finite s m e)
  = (if e + 23 <? -14 then 0
     else if 15 <? e + 23 then 0x7bff
     else (if s then 2 ^ 15 else 0) + (e + 38) * 2 ^ 10 + (Z.pos m - 2 ^ 23) / 2 ^ 13)
  /\ toHalf (S754_infinity s) = 0x7bff
  /\ toHalf S754_nan = 0x7bff.
Proof.
  intros Hm He. split; [|split; destruct s; reflexivity].
  unfold toHalf. cbv zeta. unfold float_bits.
  destruct (Z.pos m <? 2 ^ 23) eqn:Hsub; [apply Z.ltb_lt in Hsub; lia|]. clear Hsub.
  set (E := e + 150). set (M := Z.pos m - 2 ^ 23).
  assert (HE : 0 <= E < 256) by (unfold E; lia).
  assert (HM : 0 <= M < 2 ^ 23) by (unfold M; lia).
  destruct (float_bits_fields s E M HE HM) as (Hexp & Hsign & Hrest).
  cbv zeta in Hexp, Hsign, Hrest. rewrite Hexp, Hsign, Hrest.
  assert (Hzero : (E * 2 ^ 23 =? 0) = false) by (apply Z.eqb_neq; unfold E; lia).
  rewrite Hzero. cbn [orb].
  change 0x38800000 with (113 * 2 ^ 23). change 0x47000000 with (142 * 2 ^ 23).
  destruct (e + 23 <? -14) eqn:Hsmall.
  - apply Z.ltb_lt in Hsmall.
    replace (E * 2 ^ 23 <? 113 * 2 ^ 23) with true; [reflexivity|].
    symmetry. apply Z.ltb_lt. unfold E. lia.
  - apply Z.ltb_ge in Hsmall.
    replace (E * 2 ^ 23 <? 113 * 2 ^ 23) with false
      by (symmetry; apply Z.ltb_ge; unfold E; lia).
    destruct (15 <? e + 23) eqn:Hlarge.
    + apply Z.ltb_lt in Hlarge.
      replace (142 * 2 ^ 23 <? E * 2 ^ 23) with true; [reflexivity|].
      symmetry. apply Z.ltb_lt. unfold E. lia.
    + apply Z.ltb_ge in Hlarge.
      replace (142 * 2 ^ 23 <? E * 2 ^ 23) with false
        by (symmetry; apply Z.ltb_ge; unfold E; lia).
      assert (Hcut : 0 <= M / 2 ^ 13 < 2 ^ 10).
      { split; [apply Z.div_pos; lia|]. apply Z.div_lt_upper_bound; lia. }
      change 0x1c000 with (112 * 2 ^ 10).
      assert (Hbody : E * 2 ^ 10 + M / 2 ^ 13 - 112 * 2 ^ 10
                      = (e + 38) * 2 ^ 10 + M / 2 ^ 13) by (unfold E; lia).
      rewrite Hbody.
      assert (Hrange : 0 <= (e + 38) * 2 ^ 10 + M / 2 ^ 13 < 2 ^ 15) by lia.
      unfold uint32, uint16. rewrite (Z.mod_small _ (2 ^ 32)) by lia.
      assert (Hsignbit : (if s then 2 ^ 15 else 0) = (if s then 1 else 0) * 2 ^ 15)
        by (destruct s; reflexivity).
      rewrite lor_disjoint by (rewrite Hsignbit; apply land_high_low; lia).
      rewrite Z.mod_small by (destruct s; lia). lia.
Qed.

Lemma toHalf_of_normal_number_witness :
  toHalf (S754_finite false 8388608 (-23)) = 15 * 2 ^ 10
  /\ toHalf (S754_finite true 12582912 (-7)) = 0x7bff.
Proof.
  split.
  - apply (proj1 (toHalf_of_normal_number false 8388608 (-23) ltac:(lia) ltac:(lia))).
  - apply (proj1 (toHalf_of_normal_number true 12582912 (-7) ltac:(lia) ltac:(lia))).
Defined.

(** ** Properties of the resource members that the traversal keeps

    A property of the resource members that is kept by a lookup, by
    [renderTexture] and by a write to a place of the heap is kept by the
    rendering function of every node and by [renderScene]. *)
Section ResourceInvariant.
Context `{Eigen}.
Variable P : ResourceMembers -> Prop.

Hypothesis P_lookup :
  forall obj r, P r -> P (snd (getOrCreateVertexResource_r obj r)).
Hypothesis P_renderTexture :
  forall texture_ s, P (resources s) -> P (resources (snd (renderTexture texture_ s))).
Hypothesis P_store :
  forall resource res r, P r -> P (set_heap (<[resource := res]> (heap r)) r).

Lemma keeps_refl s : keeps P s s.
Proof. intros Hs. exact Hs. Qed.

Lemma keeps_trans s1 s2 s3 : keeps P s1 s2 -> keeps P s2 s3 -> keeps P s1 s3.
Proof. unfold keeps. auto. Qed.

Lemma keeps_same s s' : resources s' = resources s -> keeps P s s'.
Proof. unfold keeps. intros ->. auto. Qed.

Lemma keeps_pushPickId node doSetColor s : keeps P s (snd (pushPickId node doSetColor s)).
Proof.
  apply keeps_same. unfold pushPickId.
  destruct (isPicking s); [destruct doSetColor|]; reflexivity.
Qed.

Lemma keeps_popPickId s : keeps P s (popPickId s).
Proof. apply keeps_same. unfold popPickId. destruct (isPicking s); reflexivity. Qed.

Lemma keeps_program_bracket program_ isLightingProgram s s2 :
  keeps P (pushProgram program_ isLightingProgram s) s2 -> keeps P s (popProgram s2).
Proof. unfold keeps. auto. Qed.

Lemma keeps_getOrCreateVertexResource obj s :
  keeps P s (snd (getOrCreateVertexResource obj s)).
Proof.
  intros Hs. unfold getOrCreateVertexResource.
  pose proof (P_lookup obj (resources s) Hs) as Hr.
  destruct (getOrCreateVertexResource_r obj (resources s)) as [[resource created] r1].
  exact Hr.
Qed.

Lemma keeps_storeVertexResource resource v s : keeps P s (storeVertexResource resource v s).
Proof. intros Hs. apply (P_store resource (VertexRes v)), Hs. Qed.

Lemma keeps_writeMeshVertices mesh_ resource texture_ s :
  keeps P s (writeMeshVertices mesh_ resource texture_ s).
Proof.
  unfold writeMeshVertices.
  destruct (vertexAt resource (heap (resources s))); [|apply keeps_refl].
  apply keeps_storeVertexResource.
Qed.

Lemma keeps_draw source resource mode position s s' :
  keeps P s s' -> keeps P s (drawVertexResource source resource mode position s').
Proof. intros Hstep. eapply keeps_trans; [exact Hstep | apply keeps_same; reflexivity]. Qed.

Lemma keeps_renderPlot plot mode n s : keeps P s (renderPlot plot mode n s).
Proof.
  unfold renderPlot. cbv zeta.
  eapply keeps_trans; [apply (keeps_pushPickId (SgPlot_addr plot) true)|].
  generalize (snd (pushPickId (SgPlot_addr plot) true s)). clear s. intros s.
  pose proof (keeps_getOrCreateVertexResource (SgPlot_addr plot) s) as Hget.
  destruct (getOrCreateVertexResource (SgPlot_addr plot) s) as [resource s1]. cbn [snd] in Hget.
  eapply keeps_trans; [exact Hget|]. clear Hget s.
  eapply keeps_trans; [|apply keeps_popPickId].
  apply keeps_draw.
  destruct (vertexAt resource (heap (resources s1))) as [v|]; [|apply keeps_refl].
  destruct (isValid v) as [[|] v']; apply keeps_storeVertexResource.
Qed.

Lemma keeps_renderPointSet pointSet s : keeps P s (renderPointSet pointSet s).
Proof.
  unfold renderPointSet.
  destruct (negb (SgPlot_hasVertices (SgPointSet_plot pointSet))); [apply keeps_refl|].
  apply (keeps_program_bracket solidColorProgram false), keeps_renderPlot.
Qed.

Lemma keeps_renderLineSet lineSet s : keeps P s (renderLineSet lineSet s).
Proof.
  unfold renderLineSet.
  destruct (isRenderingShadowMap s); [apply keeps_refl|].
  destruct (negb (SgPlot_hasVertices (SgLineSet_plot lineSet)) || (numLines lineSet <=? 0));
    [apply keeps_refl|].
  apply (keeps_program_bracket solidColorProgram false), keeps_renderPlot.
Qed.

Lemma keeps_renderShapeMain shape position pickId s :
  keeps P s (renderShapeMain shape position pickId s).
Proof.
  unfold renderShapeMain.
  destruct (mesh shape) as [mesh_|]; [|apply keeps_refl].
  match goal with
  | |- keeps P s (let '(_, _) := ?c in _) => assert (Hc : keeps P s (snd c))
  end.
  { destruct (isPicking s); [apply keeps_same; reflexivity|].
    destruct (bool_decide _); [|apply keeps_refl].
    destruct (texture shape) as [texture_|]; [|apply keeps_refl].
    destruct (SgMesh_hasTexCoords mesh_); [|apply keeps_refl].
    intros Hs. apply P_renderTexture, Hs. }
  match goal with
  | |- keeps P s (let '(_, _) := ?c in _) => destruct c as [isTextureValid s1]
  end.
  cbn [snd] in Hc. eapply keeps_trans; [exact Hc|]. clear Hc s.
  pose proof (keeps_getOrCreateVertexResource (SgMesh_addr mesh_) s1) as Hget.
  destruct (getOrCreateVertexResource (SgMesh_addr mesh_) s1) as [resource s2].
  cbn [snd] in Hget. eapply keeps_trans; [exact Hget|]. clear Hget s1.
  match goal with
  | |- context [drawVertexResource _ _ _ _ ?c] => set (s3 := c)
  end.
  assert (Hs3 : keeps P s2 s3).
  { unfold s3. destruct (vertexAt resource (heap (resources s2))) as [v|]; [|apply keeps_refl].
    destruct (isValid v) as [[|] v']; [apply keeps_storeVertexResource|].
    eapply keeps_trans; [apply keeps_storeVertexResource | apply keeps_writeMeshVertices]. }
  clearbody s3.
  assert (Hdraw : keeps P s2
                    (drawVertexResource (ShapeSource shape) resource GL_TRIANGLES position s3))
    by (apply keeps_draw; assumption).
  match goal with
  | |- keeps P s2 (if ?c then _ else _) => destruct c; [|exact Hdraw]
  end.
  destruct (vertexAt resource _) as [[nv nb so [lines|]]|]; try exact Hdraw.
  eapply keeps_trans; [exact Hdraw | apply keeps_renderLineSet].
Qed.

Lemma keeps_renderShape shape s : keeps P s (renderShape shape s).
Proof.
  unfold renderShape.
  destruct (hasDrawableMesh shape); [|apply keeps_refl].
  destruct (isTransparent shape).
  - destruct (negb (isRenderingShadowMap s)); [|apply keeps_refl].
    pose proof (keeps_pushPickId (SgShape_addr shape) false s) as Hpush.
    destruct (pushPickId (SgShape_addr shape) false s) as [pickId s1]. cbn [snd] in Hpush.
    eapply keeps_trans; [exact Hpush|].
    eapply keeps_trans; [|apply keeps_popPickId].
    apply keeps_same; reflexivity.
  - pose proof (keeps_pushPickId (SgShape_addr shape) false s) as Hpush.
    destruct (pushPickId (SgShape_addr shape) false s) as [pickId s1]. cbn [snd] in Hpush.
    eapply keeps_trans; [exact Hpush|].
    eapply keeps_trans; [apply keeps_renderShapeMain | apply keeps_popPickId].
Qed.

Ltac keeps_step :=
  first [ solve [intros; apply keeps_refl]
        | solve [intros; eapply keeps_trans; eassumption]
        | solve [intros; apply keeps_pushPickId]
        | solve [intros; apply keeps_popPickId]
        | solve [intros; apply keeps_same; reflexivity]
        | solve [intros; eapply keeps_program_bracket; eassumption]
        | solve [intros; split; intros; apply keeps_same; reflexivity]
        | solve [intros; apply keeps_renderShape]
        | solve [intros; apply keeps_renderShapeMain]
        | solve [intros; apply keeps_renderPointSet]
        | solve [intros; apply keeps_renderLineSet] ].

Lemma keeps_dispatch (node : SgNode) (s : GLSLSceneRendererImpl) : keeps P s (dispatch node s).
Proof. apply (throughout_dispatch (keeps P)); keeps_step. Qed.

Lemma keeps_renderScene (self : GLSceneRenderer) (s : GLSLSceneRendererImpl) :
  keeps P s (renderScene self s).
Proof. apply (throughout_renderScene (keeps P)); keeps_step. Qed.

Lemma keeps_doRender (self : GLSceneRenderer) (s : GLSLSceneRendererImpl) :
  exists sm : GLSLSceneRendererImpl,
    doRender self s = endRendering sm /\ keeps P (beginRendering s) sm.
Proof. apply (throughout_doRender (keeps P)); keeps_step. Qed.

Lemma keeps_doPick (self : GLSceneRenderer) (x y : Z) (pixel : Pixel)
  (s : GLSLSceneRendererImpl) :
  exists s0 sm : GLSLSceneRendererImpl,
    resources s0 = resources s
    /\ resources (snd (doPick self x y pixel s)) = resources (endRendering sm)
    /\ keeps P (beginRendering s0) sm.
Proof.
  unfold doPick. cbv zeta.
  match goal with
  | |- context [renderScene self ?x] => set (s1 := x)
  end.
  match goal with
  | |- context [endRendering ?x] => set (sm := x)
  end.
  set (s0 := set_isActuallyRendering false
               (set_isPicking true
                  (if negb SHOW_IMAGE_FOR_PICKING
                   then emit (glEnable GL_SCISSOR_TEST) s else s))).
  exists s0, sm. split; [reflexivity|]. split.
  - destruct ((0 <? decodePickId (Pixel_color pixel)) && _);
      [destruct (unproject self x y (Pixel_depth pixel))|]; reflexivity.
  - unfold sm. eapply keeps_trans; [|apply keeps_same; reflexivity].
    apply (keeps_trans _ (renderScene self s1)); [|apply keeps_same; reflexivity].
    eapply keeps_trans; [|apply keeps_renderScene].
    apply keeps_same; reflexivity.
Qed.

End ResourceInvariant.

(** ** No two objects share a resource *)

Lemma distinctIn_empty (h : list GLResource) : distinctIn ∅ h.
Proof. split; intros *; rewrite lookup_empty; discriminate. Qed.

Lemma distinctIn_heap_length (m : GLResourceMap) (h h' : list GLResource) :
  length h' = length h -> distinctIn m h -> distinctIn m h'.
Proof. intros Hlen [Hbound Hinj]. split; [rewrite Hlen; exact Hbound | exact Hinj]. Qed.

Lemma distinctIn_subseteq (m m' : GLResourceMap) (h : list GLResource) :
  m ⊆ m' -> distinctIn m' h -> distinctIn m h.
Proof.
  intros Hsub [Hbound Hinj]. split.
  - intros key resource Hkey. apply (Hbound key), (lookup_weaken _ _ _ _ Hkey Hsub).
  - intros key1 key2 resource H1 H2.
    apply (Hinj key1 key2 resource); eapply lookup_weaken; eassumption.
Qed.

(** A new heap place entered under a key that the map does not hold. *)
Lemma distinctIn_enter (m : GLResourceMap) (h : list GLResource) (key : SgObjectPtr)
  (res : GLResource) :
  distinctIn m h -> distinctIn (<[key := length h]> m) (h ++ [res]).
Proof.
  intros [Hbound Hinj]. split.
  - intros key1 resource. rewrite length_app. cbn [length].
    destruct (decide (key1 = key)) as [->|Hne].
    + rewrite lookup_insert_eq. intros [= <-]. lia.
    + rewrite lookup_insert_ne by congruence. intros Hkey. apply Hbound in Hkey. lia.
  - intros key1 key2 resource.
    destruct (decide (key1 = key)) as [->|Hne1], (decide (key2 = key)) as [->|Hne2];
      rewrite ?lookup_insert_eq, ?lookup_insert_ne by congruence.
    + reflexivity.
    + intros [= <-] Hkey. apply Hbound in Hkey. lia.
    + intros Hkey [= <-]. apply Hbound in Hkey. lia.
    + apply Hinj.
Qed.

Lemma unordered_map_insert_within (key : SgObjectPtr) (resource : nat)
  (m m' : GLResourceMap) :
  m' !! key = Some resource -> m ⊆ m' -> unordered_map_insert key resource m ⊆ m'.
Proof.
  intros Hkey Hsub. unfold unordered_map_insert. destruct (m !! key); [exact Hsub|].
  apply insert_subseteq_l; assumption.
Qed.

Lemma unordered_map_insert_present (key : SgObjectPtr) (resource resource' : nat)
  (m : GLResourceMap) :
  m !! key = Some resource -> unordered_map_insert key resource' m = m.
Proof. intros Hkey. unfold unordered_map_insert. rewrite Hkey. reflexivity. Qed.

(** Marking a resource that the current map holds as used. *)
Lemma distinctInFrame_mark (key : SgObjectPtr) (resource : nat) (r : ResourceMembers) :
  currentMap r !! key = Some resource ->
  distinctInFrame r ->
  distinctInFrame (if isCheckingUnusedResources r
                   then set_resourceMaps
                          (updateMapAt (nextResourceMap r) (unordered_map_insert key resource)
                             (resourceMaps r)) r
                   else r).
Proof.
  intros Hkey Hr. destruct (isCheckingUnusedResources r); [|exact Hr].
  destruct Hr as [Hcur Hnext]. unfold distinctInFrame, currentMap, nextMap in *.
  cbn [set_resourceMaps resourceMaps currentResourceMap nextResourceMap heap].
  rewrite mapAt_updateMapAt_same.
  destruct (bool_decide (((currentResourceMap r =? 0) = (nextResourceMap r =? 0))))
    eqn:Hclass.
  - apply bool_decide_eq_true in Hclass.
    assert (Hsame : forall maps, mapAt (currentResourceMap r) maps = mapAt (nextResourceMap r) maps)
      by (intros maps; unfold mapAt; rewrite Hclass; reflexivity).
    rewrite Hsame, mapAt_updateMapAt_same. rewrite Hsame in Hkey, Hcur.
    rewrite (unordered_map_insert_present key resource resource _ Hkey).
    split; [exact Hcur | reflexivity].
  - apply bool_decide_eq_false in Hclass.
    rewrite (mapAt_updateMapAt_other (currentResourceMap r) (nextResourceMap r)) by exact Hclass.
    split; [exact Hcur|]. apply unordered_map_insert_within; assumption.
Qed.

(** Entering a new heap place under a key that the current map does not
    hold. *)
Lemma distinctInFrame_enter (key : SgObjectPtr) (res : GLResource) (names : Z)
  (r : ResourceMembers) :
  currentMap r !! key = None ->
  distinctInFrame r ->
  let r' := set_glNames names
              (set_resourceMaps
                 (updateMapAt (currentResourceMap r) (insert key (length (heap r)))
                    (resourceMaps r))
                 (set_heap (heap r ++ [res]) r)) in
  distinctInFrame r' /\ currentMap r' !! key = Some (length (heap r)).
Proof.
  intros Hkey [Hcur Hnext]. cbv zeta. unfold distinctInFrame, currentMap, nextMap in *.
  cbn [set_glNames set_resourceMaps set_heap resourceMaps currentResourceMap nextResourceMap heap].
  rewrite mapAt_updateMapAt_same.
  split; [|apply lookup_insert_eq].
  split; [apply distinctIn_enter, Hcur|].
  destruct (bool_decide (((nextResourceMap r =? 0) = (currentResourceMap r =? 0))))
    eqn:Hclass.
  - apply bool_decide_eq_true in Hclass.
    assert (Hsame : forall maps, mapAt (nextResourceMap r) maps = mapAt (currentResourceMap r) maps)
      by (intros maps; unfold mapAt; rewrite Hclass; reflexivity).
    rewrite Hsame, mapAt_updateMapAt_same. reflexivity.
  - apply bool_decide_eq_false in Hclass.
    rewrite (mapAt_updateMapAt_other (nextResourceMap r) (currentResourceMap r)) by exact Hclass.
    etransitivity; [exact Hnext|]. apply insert_subseteq, Hkey.
Qed.

Lemma distinctInFrame_store (resource : nat) (res : GLResource) (r : ResourceMembers) :
  distinctInFrame r -> distinctInFrame (set_heap (<[resource := res]> (heap r)) r).
Proof.
  intros [Hcur Hnext]. split; [|exact Hnext].
  apply (distinctIn_heap_length _ (heap r)); [apply length_insert | exact Hcur].
Qed.

Lemma distinctInFrame_getOrCreateVertexResource_r (obj : SgObjectPtr) (r : ResourceMembers) :
  distinctInFrame r -> distinctInFrame (snd (getOrCreateVertexResource_r obj r)).
Proof.
  intros Hr. unfold getOrCreateVertexResource_r.
  destruct (mapAt (currentResourceMap r) (resourceMaps r) !! obj) as [resource|] eqn:Hfound.
  - pose proof (distinctInFrame_mark obj resource r Hfound Hr) as Hmark.
    destruct (isCheckingUnusedResources r); exact Hmark.
  - pose proof (distinctInFrame_enter obj (VertexRes (new_VertexResource obj)) (glNames r) r
                  Hfound Hr) as [Henter Hkey].
    match goal with
    | |- context [set_resourceMaps ?m (set_heap ?h r)] =>
        set (r1 := set_resourceMaps m (set_heap h r))
    end.
    pose proof (distinctInFrame_mark obj (length (heap r)) r1 Hkey Henter) as Hmark.
    change (isCheckingUnusedResources r1) with (isCheckingUnusedResources r) in *.
    destruct (isCheckingUnusedResources r); exact Hmark.
Qed.

Lemma distinctInFrame_renderTexture `{Eigen} (texture_ : SgTexture)
  (s : GLSLSceneRendererImpl) :
  distinctInFrame (resources s) ->
  distinctInFrame (resources (snd (renderTexture texture_ s))).
Proof.
  intros Hs. unfold renderTexture.
  destruct (SgTexture_image texture_) as [sgImage|]; [|exact Hs].
  destruct (SgImage_empty sgImage); [exact Hs|].
  assert (Hmark : forall resource s1,
             currentMap (resources s1) !! SgImage_addr sgImage = Some resource ->
             distinctInFrame (resources s1) ->
             distinctInFrame
               (resources
                  (if isCheckingUnusedResources (resources s1)
                   then set_resources
                          (fun r => set_resourceMaps
                                      (updateMapAt (nextResourceMap r)
                                         (unordered_map_insert (SgImage_addr sgImage) resource)
                                         (resourceMaps r)) r) s1
                   else s1))).
  { intros resource s1 Hkey Hs1.
    pose proof (distinctInFrame_mark (SgImage_addr sgImage) resource _ Hkey Hs1) as Hm.
    destruct (isCheckingUnusedResources (resources s1)); exact Hm. }
  destruct (mapAt (currentResourceMap (resources s)) (resourceMaps (resources s))
              !! SgImage_addr sgImage) as [resource|] eqn:Hfound.
  - destruct (textureAt resource (heap (resources s))) as [t|].
    + destruct (isLoaded t && isImageUpdateNeeded t).
      * destruct (loadTextureImage t (constImage sgImage)) as [[ok t'] calls]. cbn [snd].
        apply Hmark; rewrite resources_emits.
        -- exact Hfound.
        -- apply (distinctInFrame_store resource (TextureRes t')), Hs.
      * cbn [snd]. apply Hmark; assumption.
    + cbn [snd]. apply Hmark; assumption.
  - destruct (loadTextureImage _ (constImage sgImage)) as [[ok t'] calls]. cbn [snd].
    match goal with
    | |- context [TextureRes ?x] => set (t := x)
    end.
    pose proof (distinctInFrame_enter (SgImage_addr sgImage) (TextureRes t)
                  (glNames (resources s) + (if ok then 2 else 1)) (resources s) Hfound Hs)
      as [Henter Hkey].
    apply Hmark; rewrite resources_emits; assumption.
Qed.

(** The resources between frames and during a frame. *)
Lemma distinctInFrame_beginRendering (s : GLSLSceneRendererImpl) :
  cache_wf (resources s) ->
  distinctResources (resources s) ->
  distinctInFrame (resources (beginRendering s)).
Proof.
  intros Hwf Hs.
  destruct (beginRendering_spec s Hwf) as (Hframe & _ & _ & Hcur).
  split; [|apply Hframe].
  rewrite Hcur.
  assert (Hheap : heap (resources (beginRendering s)) = heap (resources s)).
  { unfold beginRendering. cbn [resources set_resources].
    destruct (resources s) as [[m0 m1] c n i du ic hv cr h g].
    destruct (isPicking s), cr, hv, du; reflexivity. }
  rewrite Hheap. destruct (isResourceClearRequested (resources s));
    [apply distinctIn_empty | exact Hs].
Qed.

Lemma distinctResources_endRendering (s : GLSLSceneRendererImpl) :
  distinctInFrame (resources s) -> distinctResources (resources (endRendering s)).
Proof.
  intros [Hcur Hnext]. unfold endRendering, distinctResources. cbn [resources set_resources].
  assert (Hnext' : distinctIn (nextMap (resources s)) (heap (resources s)))
    by (apply (distinctIn_subseteq _ _ _ Hnext), Hcur).
  destruct (isCheckingUnusedResources (resources s)).
  - unfold carriedMap, nextMap, currentMap in *.
    cbn [set_hasValidNextResourceMap set_resourceMaps hasValidNextResourceMap resourceMaps
           nextResourceMap currentResourceMap heap].
    destruct (bool_decide (((nextResourceMap (resources s) =? 0)
                            = (currentResourceMap (resources s) =? 0)))) eqn:Hclass.
    + apply bool_decide_eq_true in Hclass.
      assert (Hsame : forall maps, mapAt (nextResourceMap (resources s)) maps
                                   = mapAt (currentResourceMap (resources s)) maps)
        by (intros maps; unfold mapAt; rewrite Hclass; reflexivity).
      rewrite Hsame, mapAt_updateMapAt_same. apply distinctIn_empty.
    + apply bool_decide_eq_false in Hclass.
      rewrite (mapAt_updateMapAt_other _ _ _ _ Hclass). exact Hnext'.
  - unfold carriedMap. destruct (hasValidNextResourceMap (resources s)); assumption.
Qed.

(** What a frame keeps, from the settled traversal. *)
Lemma distinctResources_doRender `{Eigen} (self : GLSceneRenderer)
  (s : GLSLSceneRendererImpl) :
  cache_wf (resources s) ->
  distinctResources (resources s) ->
  distinctResources (resources (doRender self s)).
Proof.
  intros Hwf Hs.
  destruct (keeps_doRender distinctInFrame distinctInFrame_getOrCreateVertexResource_r
              distinctInFrame_renderTexture distinctInFrame_store self s)
    as (sm & -> & Hkeeps).
  apply distinctResources_endRendering, Hkeeps, distinctInFrame_beginRendering; assumption.
Qed.

Lemma distinctResources_doPick `{Eigen} (self : GLSceneRenderer) (x y : Z) (pixel : Pixel)
  (s : GLSLSceneRendererImpl) :
  cache_wf (resources s) ->
  distinctResources (resources s) ->
  distinctResources (resources (snd (doPick self x y pixel s))).
Proof.
  intros Hwf Hs.
  destruct (keeps_doPick distinctInFrame distinctInFrame_getOrCreateVertexResource_r
              distinctInFrame_renderTexture distinctInFrame_store self x y pixel s)
    as (s0 & sm & Hs0 & -> & Hkeeps).
  apply distinctResources_endRendering, Hkeeps, distinctInFrame_beginRendering;
    rewrite Hs0; assumption.
Qed.

(** The draw calls of a frame, against the resources it leaves. *)
Lemma frame_draws_distinct (unchecked : bool) (s s' : GLSLSceneRendererImpl) :
  framePost unchecked s s' ->
  distinctResources (resources s') ->
  forall key1 key2 resource,
    In (key1, resource) (cacheDraws (eventsSince s s')) ->
    In (key2, resource) (cacheDraws (eventsSince s s')) ->
    key1 = key2 /\ (resource < length (heap (resources s')))%nat.
Proof.
  intros (_ & _ & _ & _ & Hdraws & _) [Hbound Hinj] key1 key2 resource H1 H2.
  rewrite Forall_forall in Hdraws.
  apply list_elem_of_In, Hdraws in H1. apply list_elem_of_In, Hdraws in H2.
  cbn [fst snd] in H1, H2. split; [apply (Hinj key1 key2 resource) | apply (Hbound key1)];
    assumption.
Qed.

(** X26: between frames no two objects share a resource, and every
    resource of the cache is a place of the heap; [doRender] and [doPick]
    keep this, and two draw calls of a frame that use the same resource
    draw the same object. *)
Theorem distinct_objects_use_distinct_resources `{Eigen} (self : GLSceneRenderer)
  (x y : Z) (pixel : Pixel) (s : GLSLSceneRendererImpl) :
  cache_wf (resources s) ->
  distinctResources (resources s) ->
  (distinctResources (resources (doRender self s))
   /\ forall key1 key2 resource,
        In (key1, resource) (cacheDraws (eventsSince s (doRender self s))) ->
        In (key2, resource) (cacheDraws (eventsSince s (doRender self s))) ->
        key1 = key2 /\ (resource < length (heap (resources (doRender self s))))%nat)
  /\ (distinctResources (resources (snd (doPick self x y pixel s)))
      /\ forall key1 key2 resource,
           In (key1, resource) (cacheDraws (eventsSince s (snd (doPick self x y pixel s)))) ->
           In (key2, resource) (cacheDraws (eventsSince s (snd (doPick self x y pixel s)))) ->
           key1 = key2
           /\ (resource < length (heap (resources (snd (doPick self x y pixel s)))))%nat).
Proof.
  intros Hwf Hs. split.
  - pose proof (distinctResources_doRender self s Hwf Hs) as Hs'.
    split; [exact Hs'|].
    exact (frame_draws_distinct _ s _ (doRender_framePost self s Hwf) Hs').
  - pose proof (distinctResources_doPick self x y pixel s Hwf Hs) as Hs'.
    split; [exact Hs'|].
    exact (frame_draws_distinct _ s _ (doPick_framePost self x y pixel s Hwf) Hs').
Qed.

Lemma distinct_objects_use_distinct_resources_witness :
  let s := initial_renderer in
  let s1 := doRender (H := ScalarEigen.instance) SceneExample.renderer s in
  let sp := snd (doPick (H := ScalarEigen.instance) SceneExample.renderer 0 0
                   (Example.pixel_of_id 3) s) in
  (cache_wf (resources s) /\ distinctResources (resources s))
  /\ (distinctResources (resources s1)
      /\ forall key1 key2 resource,
           In (key1, resource) (cacheDraws (eventsSince s s1)) ->
           In (key2, resource) (cacheDraws (eventsSince s s1)) ->
           key1 = key2 /\ (resource < length (heap (resources s1)))%nat)
  /\ (distinctResources (resources sp)
      /\ forall key1 key2 resource,
           In (key1, resource) (cacheDraws (eventsSince s sp)) ->
           In (key2, resource) (cacheDraws (eventsSince s sp)) ->
           key1 = key2 /\ (resource < length (heap (resources sp)))%nat).
Proof.
  assert (Hdistinct : distinctResources (resources initial_renderer))
    by exact (distinctIn_empty (heap (resources initial_renderer))).
  split; [split; [exact cache_wf_initial | exact Hdistinct]|].
  apply (distinct_objects_use_distinct_resources (H := ScalarEigen.instance)
           SceneExample.renderer 0 0 (Example.pixel_of_id 3) initial_renderer
           cache_wf_initial Hdistinct).
Defined.

(** * The normal lines in a frame, pick colours and packed normals *)

(** ** Transparent shapes and the lines of the normals *)

(** C3 (as stated) fails in a frame that shows the normals. The scene of
    the example holds a transparent shape (address 1) ahead of an opaque one
    (address 2); both use one mesh, whose resource (address 0) owns the line
    set of the normals. [doRender] draws the opaque shape and the lines, and
    in the transparent pass the transparent shape and then the lines again:
    an opaque line set is drawn after a deferred shape. *)
Lemma transparent_shape_is_followed_by_opaque_lines :
  let s := doRender (H := ScalarEigen.instance) Example.renderer SceneExample.showing_normals in
  isTransparent Example.transparent_shape = true
  /\ isTransparent Example.opaque_shape = false
  /\ drawnObjects (trace s)
     = [SgShape_addr Example.opaque_shape; NormalVisAddr 0;
        SgShape_addr Example.transparent_shape; NormalVisAddr 0]
  /\ spec_transparentLast (trace s) = false.
Proof.
  cbv zeta. repeat split; vm_compute; reflexivity.
Qed.

(** ** The colour of a pick id *)

(** C4: outside a picking pass [pushPickId] returns 0 and changes nothing
    (no colour is set, nothing is recorded), and [popPickId] changes
    nothing. During a picking pass, the call made when [k - 1] paths are
    recorded returns [k], appends the node to the current path, records the
    extended path as entry [k - 1] of the list (the entry of id [k]), sets
    the colour of [k] unless [doSetColor] is off, and [popPickId] takes the
    node off the path again; counted from the start of a pass, where the
    list is empty, the calls of [pushPickId] return 1, 2, 3, ... The colour
    of [k] is its flat encoding: the red, green and blue channels are the
    three low bytes of [k], each as a fraction of 255 (multiplied by 255 a
    channel is the byte again), and below [2^24] the arithmetic of [doPick]
    reads [k - 1], the place of the recorded path, back from it. The ids
    are [unsigned int]: the statement holds below [2^32]. *)
Theorem pushPickId_protocol (node : SgObjectPtr) (doSetColor : bool) (s : GLSLSceneRendererImpl) :
  (isPicking s = false -> pushPickId node doSetColor s = (0, s) /\ popPickId s = s)
  /\ (isPicking s = true ->
      forall k : Z,
        k = Z.of_nat (length (pickingNodePathList (picking s))) + 1 ->
        k < 2 ^ 32 ->
        let s' := snd (pushPickId node doSetColor s) in
        fst (pushPickId node doSetColor s) = k
        /\ currentNodePath (picking s') = currentNodePath (picking s) ++ [node]
        /\ pickingNodePathList (picking s') =
             pickingNodePathList (picking s) ++ [currentNodePath (picking s) ++ [node]]
        /\ at_ [] (pickingNodePathList (picking s')) (k - 1) = currentNodePath (picking s) ++ [node]
        /\ trace s' = trace s ++ (if doSetColor then [solidColorProgram_setColor (pickColor k)] else [])
        /\ (exists red green blue : float,
               pickColor k = (red, green, blue)
               /\ fmul red (float_of_Z 255) = float_of_Z (k mod 2 ^ 8)
               /\ fmul green (float_of_Z 255) = float_of_Z (k / 2 ^ 8 mod 2 ^ 8)
               /\ fmul blue (float_of_Z 255) = float_of_Z (k / 2 ^ 16 mod 2 ^ 8)
               /\ (k < 2 ^ 24 -> decodePickId (red, green, blue) = k - 1))
        /\ currentNodePath (picking (popPickId s')) = currentNodePath (picking s)
        /\ pickingNodePathList (picking (popPickId s')) = pickingNodePathList (picking s'))
  /\ (forall calls : list PickCall,
        isPicking s = true ->
        pickingNodePathList (picking s) = [] ->
        Z.of_nat (countPushes calls) < 2 ^ 32 ->
        fst (runPickCalls calls s) = seqZ 1 (Z.of_nat (countPushes calls))).
Proof.
  split; [|split].
  - intros Hp. split.
    + apply pushPickId_not_picking, Hp.
    + apply popPickId_not_picking, Hp.
  - intros Hp k Hk Hbound s'.
    destruct (pushPickId_picking node doSetColor s Hp) as (Hid & Hpath & Hlist & Htrace).
    rewrite uint32_small in Hid, Htrace by lia.
    rewrite <- Hk in Hid, Htrace.
    assert (Hp' : isPicking s' = true) by (unfold s'; rewrite isPicking_pushPickId; exact Hp).
    destruct (popPickId_picking s' Hp') as (Hpop & Hpoplist & _).
    assert (Hcolor : exists red green blue : float,
               pickColor k = (red, green, blue)
               /\ fmul red (float_of_Z 255) = float_of_Z (k mod 2 ^ 8)
               /\ fmul green (float_of_Z 255) = float_of_Z (k / 2 ^ 8 mod 2 ^ 8)
               /\ fmul blue (float_of_Z 255) = float_of_Z (k / 2 ^ 16 mod 2 ^ 8)
               /\ (k < 2 ^ 24 -> decodePickId (red, green, blue) = k - 1)).
    { exists (pickChannel (Z.land k 255)), (pickChannel (Z.land (Z.shiftr k 8) 255)),
        (pickChannel (Z.land (Z.shiftr k 16) 255)).
      split; [apply pickColor_channels|].
      destruct (byte_of k) as [Hb0 He0].
      destruct (byte_of (Z.shiftr k 8)) as [Hb1 He1].
      destruct (byte_of (Z.shiftr k 16)) as [Hb2 He2].
      rewrite !pickChannel_times_255 by assumption.
      split; [rewrite He0; reflexivity|].
      split; [rewrite He1, Z.shiftr_div_pow2 by lia; reflexivity|].
      split; [rewrite He2, Z.shiftr_div_pow2 by lia; reflexivity|].
      intros Hsmall. rewrite <- pickColor_channels. apply decodePickId_pickColor. lia. }
    repeat split; auto.
    + unfold s'. rewrite Hlist. unfold at_.
      destruct (k - 1 <? 0) eqn:Hneg; [apply Z.ltb_lt in Hneg; lia|].
      replace (Z.to_nat (k - 1)) with (length (pickingNodePathList (picking s))) by lia.
      rewrite List.app_nth2, Nat.sub_diag by lia. reflexivity.
    + rewrite Hpop. unfold s'. rewrite Hpath. apply List.removelast_last.
  - intros calls Hp Hempty Hbound.
    rewrite (runPickCalls_ids calls s Hp); rewrite Hempty; cbn [length]; [reflexivity | lia].
Qed.

(** A picking pass in which a group and the shape below it push their
    ids; the colour of the first id decodes to the first entry. *)
Lemma pushPickId_protocol_witness :
  let s := set_isPicking true initial_renderer in
  fst (pushPickId (ObjAddr 0) true s) = 1
  /\ decodePickId (pickColor 1) = 0
  /\ fst (runPickCalls [PushPickId (ObjAddr 0) true; PushPickId (ObjAddr 1) false;
                        PopPickId; PopPickId] s) = [1; 2]
  /\ pushPickId (ObjAddr 0) true initial_renderer = (0, initial_renderer).
Proof.
  intros s.
  destruct (pushPickId_protocol (ObjAddr 0) true s) as (_ & Hstep & Hcalls).
  destruct (pushPickId_protocol (ObjAddr 0) true initial_renderer) as (Hidle & _ & _).
  destruct (Hstep eq_refl 1 eq_refl eq_refl)
    as (Hid & _ & _ & _ & _ & (red & green & blue & Hcolor & _ & _ & _ & Hdecode) & _).
  split; [|split; [|split]].
  - exact Hid.
  - rewrite Hcolor. apply Hdecode. reflexivity.
  - exact (Hcalls [PushPickId (ObjAddr 0) true; PushPickId (ObjAddr 1) false;
                    PopPickId; PopPickId] eq_refl eq_refl eq_refl).
  - apply Hidle. reflexivity.
Defined.

(** ** Flat shading and the packed normals *)

(** The word that the packed wrapper appends. *)
Lemma packed_word (xs ys zs fx fy fz : Z) :
  0 <= xs <= 1 -> 0 <= ys <= 1 -> 0 <= zs <= 1 ->
  0 <= fx < 512 -> 0 <= fy < 512 -> 0 <= fz < 512 ->
  uint32
    (Z.lor (Z.lor (Z.lor (Z.lor (Z.lor
       (Z.shiftl zs 29) (Z.shiftl fz 20)) (Z.shiftl ys 19)) (Z.shiftl fy 10)) (Z.shiftl xs 9)) fx)
  = (512 * xs + fx) + 2 ^ 10 * (512 * ys + fy) + 2 ^ 20 * (512 * zs + fz).
Proof.
  intros Hxs Hys Hzs Hfx Hfy Hfz.
  rewrite !Z.shiftl_mul_pow2 by lia.
  rewrite (lor_disjoint (zs * 2 ^ 29))
    by (apply land_high_low; lia).
  rewrite (lor_disjoint (zs * 2 ^ 29 + fz * 2 ^ 20))
    by (replace (zs * 2 ^ 29 + fz * 2 ^ 20) with ((zs * 2 ^ 9 + fz) * 2 ^ 20) by lia;
        apply land_high_low; lia).
  rewrite (lor_disjoint (zs * 2 ^ 29 + fz * 2 ^ 20 + ys * 2 ^ 19))
    by (replace (zs * 2 ^ 29 + fz * 2 ^ 20 + ys * 2 ^ 19)
          with ((zs * 2 ^ 10 + fz * 2 + ys) * 2 ^ 19) by lia;
        apply land_high_low; lia).
  rewrite (lor_disjoint (zs * 2 ^ 29 + fz * 2 ^ 20 + ys * 2 ^ 19 + fy * 2 ^ 10))
    by (replace (zs * 2 ^ 29 + fz * 2 ^ 20 + ys * 2 ^ 19 + fy * 2 ^ 10)
          with ((zs * 2 ^ 19 + fz * 2 ^ 10 + ys * 2 ^ 9 + fy) * 2 ^ 10) by lia;
        apply land_high_low; lia).
  rewrite (lor_disjoint (zs * 2 ^ 29 + fz * 2 ^ 20 + ys * 2 ^ 19 + fy * 2 ^ 10 + xs * 2 ^ 9))
    by (replace (zs * 2 ^ 29 + fz * 2 ^ 20 + ys * 2 ^ 19 + fy * 2 ^ 10 + xs * 2 ^ 9)
          with ((zs * 2 ^ 20 + fz * 2 ^ 11 + ys * 2 ^ 10 + fy * 2 + xs) * 2 ^ 9) by lia;
        apply land_high_low; lia).
  unfold uint32. rewrite Z.mod_small by lia. lia.
Qed.

Lemma packField_spec (c : float) :
  let sign := if flt c fzero then 1 else 0 in
  0 <= packField c sign < 512
  /\ 512 * sign + packField c sign = spec_packedComponent c.
Proof.
  assert (Hland : forall z, Z.land z 511 = z mod 512)
    by (intros z; change 511 with (Z.ones 9); rewrite Z.land_ones by lia; reflexivity).
  cbv zeta. unfold packField, spec_packedComponent. rewrite Hland.
  split; [apply Z.mod_pos_bound; lia|].
  destruct (flt c fzero); reflexivity.
Qed.

Lemma packed_append_word (v : Vector3f) (array_ : list Z) :
  packed_append v array_ = array_ ++ [spec_packedNormal v].
Proof.
  destruct v as [[x y] z]. unfold packed_append, spec_packedNormal.
  pose proof (packField_spec x) as Hx. pose proof (packField_spec y) as Hy.
  pose proof (packField_spec z) as Hz. cbv zeta in Hx, Hy, Hz.
  set (xs := if flt x fzero then 1 else 0) in *.
  set (ys := if flt y fzero then 1 else 0) in *.
  set (zs := if flt z fzero then 1 else 0) in *.
  assert (Hxs : 0 <= xs <= 1) by (unfold xs; destruct (flt x fzero); lia).
  assert (Hys : 0 <= ys <= 1) by (unfold ys; destruct (flt y fzero); lia).
  assert (Hzs : 0 <= zs <= 1) by (unfold zs; destruct (flt z fzero); lia).
  destruct Hx as [Hx <-]. destruct Hy as [Hy <-]. destruct Hz as [Hz <-].
  rewrite packed_word by assumption. reflexivity.
Qed.

Lemma fold_left_packed_append (l : list Vector3f) :
  forall array_ : list Z,
    fold_left (fun a v => packed_append v a) l array_ = array_ ++ map spec_packedNormal l.
Proof.
  induction l as [|v l IH]; intros array_.
  - symmetry. apply app_nil_r.
  - cbn [fold_left map]. rewrite IH, packed_append_word, <- app_assoc. reflexivity.
Qed.



